(** * mcp-swagger-client: the reference resolver and the spec cache

    A shallow embedding of [src/parser.ts] (version detection, JSON-pointer
    walk, recursive [$ref] resolution) and of [src/cache.ts] (freshness check,
    full fetch, cache-or-fetch driver), with the properties the specification
    states about them.

    Modelling conventions, fixed once for the whole development:
    - a JavaScript value is a [jsval]; an object is the list of its own
      enumerable properties in insertion order (keys pairwise distinct in every
      list that stands for a real object; the reordering of integer-like keys
      is not represented);
    - numbers are integers: the code only ever tests them for truthiness;
    - a read [v.k] with a literal name [k] sees own properties only: none of
      the names the code writes out is a member of a built-in prototype. A
      read [v[k]] with a name taken from the data goes up the prototype chain;
      what it finds there is a [JNative]. A document is data: built-in objects
      occur as what such a read returns, never inside a document. The members
      of the built-in prototypes are those of ECMAScript 2024;
    - [console.error] logging is not represented;
    - the call stack is unbounded. *)

From Stdlib Require Import ZArith String Ascii List Lia DecimalString DecimalNat.
From stdpp Require Import base option list list_numbers gmap strings.

#[global] Set Warnings "-clear-no-such-hyp".

Open Scope string_scope.

(** ** JavaScript values *)

Module Js.

(** The built-in objects behind the values of a document: the prototype of
    each kind of value, the functions the prototypes hold, and whatever else
    is reached from these. *)
Inductive kind : Type := KObject | KArray | KString | KNumber | KBoolean.

Inductive native : Type :=
| Prototype (k : kind)
| Method (k : kind) (name : string)
| Other (callable : bool) (name : string).

#[local] Unset Elimination Schemes.
Inductive jsval : Type :=
| JUndefined
| JNull
| JBool (b : bool)
| JNum (n : Z)
| JStr (s : string)
| JArr (items : list jsval)
| JObj (props : list (string * jsval))
| JNative (n : native).
#[local] Set Elimination Schemes.

(** What a [throw] carries: [new Error(msg)] or a runtime [TypeError]. *)
Inductive exn : Type :=
| JsError (msg : string)
| JsTypeError.

Inductive completion (A : Type) : Type :=
| Ok (a : A)
| Throw (e : exn).
Arguments Ok {A} a.
Arguments Throw {A} e.

Definition rbind {A B} (m : completion A) (k : A -> completion B) : completion B :=
  match m with
  | Ok a => k a
  | Throw e => Throw e
  end.

Definition throws {A} (m : completion A) : Prop := exists e, m = Throw e.

(** [if (v)]: the falsy values are undefined, null, false, 0 and the empty string. *)
Definition truthy (v : jsval) : bool :=
  match v with
  | JUndefined | JNull => false
  | JBool b => b
  | JNum n => negb (n =? 0)%Z
  | JStr s => negb (String.eqb s "")
  | JArr _ | JObj _ | JNative _ => true
  end.

(** [typeof v === "object"]: objects, arrays, null and the built-in objects
    that are not functions. *)
Definition typeof_object (v : jsval) : bool :=
  match v with
  | JNull | JArr _ | JObj _ | JNative (Prototype _) => true
  | JNative (Other callable _) => negb callable
  | _ => false
  end.

Definition is_array (v : jsval) : bool :=
  match v with JArr _ => true | _ => false end.

Definition is_string (v : jsval) : bool :=
  match v with JStr _ => true | _ => false end.

Definition is_native (v : jsval) : bool :=
  match v with JNative _ => true | _ => false end.

(** The property key of array index [i]. *)
Definition index_key (i : nat) : string :=
  NilEmpty.string_of_uint (Nat.to_uint i).

Fixpoint chars (s : string) : list string :=
  match s with
  | EmptyString => []
  | String c s' => String c EmptyString :: chars s'
  end.

(** Own enumerable string-keyed properties: what [{...v}] copies and what
    [Object.entries(v)] lists. *)
Definition own_entries (v : jsval) : list (string * jsval) :=
  match v with
  | JObj props => props
  | JArr items => imap (fun i x => (index_key i, x)) items
  | JStr s => imap (fun i c => (index_key i, JStr c)) (chars s)
  | _ => []
  end.

(** Property lists, for any type of values with an [undefined]. *)
Class Undefined (V : Type) := undefined : V.

Fixpoint get_field {V} `{Undefined V} (k : string) (props : list (string * V)) : V :=
  match props with
  | [] => undefined
  | (k', v) :: rest => if String.eqb k' k then v else get_field k rest
  end.

Definition has_field {V} (k : string) (props : list (string * V)) : bool :=
  existsb (fun kv => String.eqb (fst kv) k) props.

(** [obj[k] = v]: overwrite in place when the key exists, else append. *)
Fixpoint set_field {V} (k : string) (v : V) (props : list (string * V))
  : list (string * V) :=
  match props with
  | [] => [(k, v)]
  | (k', v') :: rest =>
      if String.eqb k' k then (k', v) :: rest else (k', v') :: set_field k v rest
  end.

Definition remove_field {V} (k : string) (props : list (string * V))
  : list (string * V) :=
  filter (fun kv => fst kv <> k) props.

(** [Object.assign(target, source)] on property lists. *)
Definition assign {V} (target source : list (string * V)) : list (string * V) :=
  fold_left (fun acc kv => set_field (fst kv) (snd kv) acc) source target.

#[export] Instance jsval_undefined : Undefined jsval := JUndefined.

(** [{ ...a, ...b }] where [a] is any value and [b] a property list. *)
Definition spread2 (a : jsval) (b : list (string * jsval)) : list (string * jsval) :=
  assign (own_entries a) b.

(** [v.k] for a [v] whose [typeof] is ["object"] and which is not null, and
    a literal name [k] that no built-in defines. *)
Definition get_own (v : jsval) (k : string) : jsval :=
  match v with
  | JObj props => get_field k props
  | JArr items =>
      if String.eqb k "length" then JNum (Z.of_nat (List.length items))
      else get_field k (own_entries v)
  | _ => JUndefined
  end.

(** [v.k] for any [v] and a literal name [k] that no built-in defines:
    reading a property of undefined or null is a TypeError, a string has its
    characters and its length, other primitives have nothing. *)
Definition get_prop (v : jsval) (k : string) : completion jsval :=
  match v with
  | JUndefined | JNull => Throw JsTypeError
  | JStr s =>
      if String.eqb k "length" then Ok (JNum (Z.of_nat (String.length s)))
      else Ok (get_field k (own_entries v))
  | _ => Ok (get_own v k)
  end.

(** [k in v] for a literal name [k] that no built-in defines: a TypeError
    unless [v] is an object, an array or a built-in. *)
Definition has_prop (k : string) (v : jsval) : completion bool :=
  match v with
  | JObj props => Ok (has_field k props)
  | JArr _ => Ok (String.eqb k "length" || has_field k (own_entries v))
  | JNative _ => Ok false
  | _ => Throw JsTypeError
  end.

(** The names of the functions each built-in prototype holds
    ([Object.prototype] also holds the accessor [__proto__]; the prototypes
    of arrays and of strings also hold a [length], which is 0). *)
Definition own_names (k : kind) : list string :=
  match k with
  | KObject =>
      ["constructor"; "__defineGetter__"; "__defineSetter__"; "hasOwnProperty";
       "__lookupGetter__"; "__lookupSetter__"; "isPrototypeOf"; "propertyIsEnumerable";
       "toString"; "valueOf"; "__proto__"; "toLocaleString"]
  | KArray =>
      ["at"; "concat"; "constructor"; "copyWithin"; "entries"; "every"; "fill";
       "filter"; "find"; "findIndex"; "findLast"; "findLastIndex"; "flat"; "flatMap";
       "forEach"; "includes"; "indexOf"; "join"; "keys"; "lastIndexOf"; "map"; "pop";
       "push"; "reduce"; "reduceRight"; "reverse"; "shift"; "slice"; "some"; "sort";
       "splice"; "toLocaleString"; "toReversed"; "toSorted"; "toSpliced"; "toString";
       "unshift"; "values"; "with"]
  | KString =>
      ["anchor"; "at"; "big"; "blink"; "bold"; "charAt"; "charCodeAt"; "codePointAt";
       "concat"; "constructor"; "endsWith"; "fixed"; "fontcolor"; "fontsize";
       "includes"; "indexOf"; "isWellFormed"; "italics"; "lastIndexOf"; "link";
       "localeCompare"; "match"; "matchAll"; "normalize"; "padEnd"; "padStart";
       "repeat"; "replace"; "replaceAll"; "search"; "slice"; "small"; "split";
       "startsWith"; "strike"; "sub"; "substr"; "substring"; "sup";
       "toLocaleLowerCase"; "toLocaleUpperCase"; "toLowerCase"; "toString";
       "toUpperCase"; "toWellFormed"; "trim"; "trimEnd"; "trimLeft"; "trimRight";
       "trimStart"; "valueOf"]
  | KNumber =>
      ["constructor"; "toExponential"; "toFixed"; "toLocaleString"; "toPrecision";
       "toString"; "valueOf"]
  | KBoolean => ["constructor"; "toString"; "valueOf"]
  end.

(** What a value of kind [k] answers under a name it does not own: the
    accessor [__proto__] gives its prototype, then the prototype of its kind
    is asked, then [Object.prototype]. *)
Definition inherited_member (k : kind) (name : string) : jsval :=
  if String.eqb name "__proto__" then JNative (Prototype k)
  else if bool_decide (name ∈ own_names k) then JNative (Method k name)
  else if bool_decide (name ∈ own_names KObject) then JNative (Method KObject name)
  else JUndefined.

(** What the prototype of kind [k] itself answers. The prototype of
    [Object.prototype] is null, that of the others is [Object.prototype]. *)
Definition prototype_member (k : kind) (name : string) : jsval :=
  if String.eqb name "__proto__" then
    match k with KObject => JNull | _ => JNative (Prototype KObject) end
  else if String.eqb name "length"
          && match k with KArray | KString => true | _ => false end
  then JNum 0
  else if bool_decide (name ∈ own_names k) then JNative (Method k name)
  else if bool_decide (name ∈ own_names KObject) then JNative (Method KObject name)
  else JUndefined.

(** [v[k]] for a [v] whose [typeof] is ["object"] and which is not null, and
    any name [k]: an own property first, then the prototype chain. *)
Definition member (v : jsval) (k : string) : jsval :=
  match v with
  | JObj props =>
      if has_field k props then get_field k props else inherited_member KObject k
  | JArr _ =>
      if String.eqb k "length" || has_field k (own_entries v) then get_own v k
      else inherited_member KArray k
  | JNative (Prototype p) => prototype_member p k
  | _ => JUndefined
  end.

(** What a built-in function, or a built-in reached from one, answers under
    a name: a primitive or another built-in, never a value of a document; or
    a TypeError (the accessors [caller] and [arguments] of a function). *)
Inductive answer : Type :=
| AUndefined
| ANull
| ABool (b : bool)
| ANum (n : Z)
| AStr (s : string)
| ANative (n : native)
| ARefused.

Definition answered (a : answer) : completion jsval :=
  match a with
  | AUndefined => Ok JUndefined
  | ANull => Ok JNull
  | ABool b => Ok (JBool b)
  | ANum n => Ok (JNum n)
  | AStr s => Ok (JStr s)
  | ANative n => Ok (JNative n)
  | ARefused => Throw JsTypeError
  end.

(** [v[k]] for any [v] and any name [k]. What a built-in function (or a
    built-in reached from one) answers is a parameter, [builtin]. *)
Definition get_elem (builtin : native -> string -> answer)
    (v : jsval) (k : string) : completion jsval :=
  match v with
  | JUndefined | JNull => Throw JsTypeError
  | JBool _ => Ok (inherited_member KBoolean k)
  | JNum _ => Ok (inherited_member KNumber k)
  | JStr s =>
      if String.eqb k "length" || has_field k (own_entries v) then get_prop v k
      else Ok (inherited_member KString k)
  | JArr _ | JObj _ | JNative (Prototype _) => Ok (member v k)
  | JNative n => answered (builtin n k)
  end.

(** [a === b] against a string literal. *)
Definition strict_eq_str (v : jsval) (s : string) : bool :=
  match v with
  | JStr s' => String.eqb s' s
  | _ => false
  end.

(** [a || b] *)
Definition or_else (a b : jsval) : jsval := if truthy a then a else b.

Definition nullish (v : jsval) : bool :=
  match v with JUndefined | JNull => true | _ => false end.

(** [v?.k] *)
Definition opt_chain (v : jsval) (k : string) : jsval :=
  match get_prop v k with
  | Ok x => x
  | Throw _ => JUndefined
  end.

(** For the examples, in none of which a built-in function is asked for a
    member. *)
Definition no_members : native -> string -> answer :=
  fun _ _ => AUndefined.

(** [v?.[k]] *)
Definition opt_elem (builtin : native -> string -> answer)
    (v : jsval) (k : string) : completion jsval :=
  if nullish v then Ok JUndefined else get_elem builtin v k.

(** [l.map(f)], stopping at the first exception. *)
Section rmapM.
Context {A B : Type} (f : A -> completion B).
Fixpoint rmapM (l : list A) : completion (list B) :=
  match l with
  | [] => Ok []
  | x :: rest =>
      rbind (f x) (fun y => rbind (rmapM rest) (fun ys => Ok (y :: ys)))
  end.
End rmapM.

Definition number_to_string (n : Z) : string := NilEmpty.string_of_int (Z.to_int n).

Definition native_to_string (n : native) : string :=
  match n with
  | Prototype KObject => "[object Object]"
  | Prototype KArray | Prototype KString => ""
  | Prototype KNumber => "0"
  | Prototype KBoolean => "false"
  | Method _ name | Other true name => "function " ++ name ++ "() { [native code] }"
  | Other false _ => "[object Object]"
  end.

(** String conversion, as in a template literal or of a property key. An
    object is asked for its [toString]: the one it inherits answers
    "[object Object]"; one it owns comes from the data, is no function, and
    the conversion is a TypeError (the inherited [valueOf] returns the object
    itself, and an own one is no function either). An array joins the
    conversions of its elements. *)
Fixpoint to_string (v : jsval) : completion string :=
  match v with
  | JUndefined => Ok "undefined"
  | JNull => Ok "null"
  | JBool true => Ok "true"
  | JBool false => Ok "false"
  | JNum n => Ok (number_to_string n)
  | JStr s => Ok s
  | JArr items =>
      rbind (rmapM (fun x => match x with
                             | JUndefined | JNull => Ok ""
                             | _ => to_string x
                             end) items)
        (fun parts => Ok (String.concat "," parts))
  | JObj props =>
      if has_field "toString" props then Throw JsTypeError else Ok "[object Object]"
  | JNative n => Ok (native_to_string n)
  end.

(** Case conversion of the ASCII letters, for the examples. *)
Definition lower_char (c : ascii) : ascii :=
  let n := nat_of_ascii c in
  if (65 <=? n)%nat && (n <=? 90)%nat then ascii_of_nat (n + 32) else c.

Definition upper_char (c : ascii) : ascii :=
  let n := nat_of_ascii c in
  if (97 <=? n)%nat && (n <=? 122)%nat then ascii_of_nat (n - 32) else c.

Fixpoint map_chars (f : ascii -> ascii) (s : string) : string :=
  match s with
  | EmptyString => EmptyString
  | String c s' => String (f c) (map_chars f s')
  end.

Definition ascii_lower : string -> string := map_chars lower_char.
Definition ascii_upper : string -> string := map_chars upper_char.

(** Nesting depth of containers; a built-in counts as an empty object. *)
Fixpoint height (v : jsval) : nat :=
  match v with
  | JArr items => S (max_list (map height items))
  | JObj props => S (max_list (map (fun kv => height (snd kv)) props))
  | JNative _ => 1
  | _ => 0
  end.

(** Every string stored under a ["$ref"] key, anywhere in the value. *)
Fixpoint refs_of (v : jsval) : gset string :=
  match v with
  | JArr items => ⋃ (map refs_of items)
  | JObj props =>
      ⋃ (map (fun kv =>
                (match snd kv with
                 | JStr r => if String.eqb (fst kv) "$ref" then {[ r ]} else ∅
                 | _ => ∅
                 end) ∪ refs_of (snd kv)) props)
  | _ => ∅
  end.

End Js.

Export Js.

Notation "'let!' x ':=' m 'in' k" := (rbind m (fun x => k))
  (at level 10, x name, m at level 100, k at level 200).

(** ** The parser: [src/parser.ts] *)

Module Parser.

Inductive version : Type := V2 | V3plus.

(** [detectVersion]: "2.0" when [swagger === "2.0"], "3.0+" when an [openapi]
    key is present, otherwise an error. *)
Definition detectVersion (spec : jsval) : completion version :=
  let! has_swagger := has_prop "swagger" spec in
  if has_swagger && strict_eq_str (get_own spec "swagger") "2.0" then Ok V2
  else
    let! has_openapi := has_prop "openapi" spec in
    if has_openapi then Ok V3plus
    else Throw (JsError "Unknown or unsupported OpenAPI/Swagger version").

(** The two version markers. *)
Definition legacy_marker (spec : jsval) : bool :=
  strict_eq_str (get_own spec "swagger") "2.0".

Definition openapi_marker (spec : jsval) : bool :=
  match spec with
  | JObj props => has_field "openapi" props
  | _ => false
  end.

(** [s.substring(n)] *)
Fixpoint drop_chars (n : nat) (s : string) : string :=
  match n, s with
  | S n', String _ s' => drop_chars n' s'
  | _, _ => s
  end.

(** [s.split(sep)] for a one-character separator. *)
Fixpoint split_on (sep : ascii) (s : string) : list string :=
  match s with
  | EmptyString => [EmptyString]
  | String c s' =>
      if Ascii.eqb c sep then EmptyString :: split_on sep s'
      else match split_on sep s' with
           | h :: t => String c h :: t
           | [] => [String c EmptyString]
           end
  end.

(** [s.replace(/ab/g, r)] for a two-character pattern [ab] and a
    one-character replacement. *)
Fixpoint replace_pair (a b r : ascii) (s : string) : string :=
  match s with
  | EmptyString => EmptyString
  | String c s' =>
      match s' with
      | String d s'' =>
          if Ascii.eqb c a && Ascii.eqb d b then String r (replace_pair a b r s'')
          else String c (replace_pair a b r s')
      | EmptyString => String c EmptyString
      end
  end.

(** [segment.replace(/~1/g, "/").replace(/~0/g, "~")] *)
Definition decode_segment (segment : string) : string :=
  replace_pair "~" "0" "~" (replace_pair "~" "1" "/" segment).

(** The [for (const segment of path)] loop of [resolveRef]. *)
Fixpoint walk (ref : string) (path : list string) (current : jsval) : completion jsval :=
  match path with
  | [] => Ok current
  | segment :: rest =>
      match current with
      | JUndefined | JNull =>
          Throw (JsError ("Cannot resolve reference: " ++ ref ++ " (path does not exist)"))
      | _ =>
          if negb (typeof_object current) then
            Throw (JsError ("Cannot resolve reference: " ++ ref ++ " (invalid path)"))
          else walk ref rest (member current (decode_segment segment))
      end
  end.

Definition resolveRef (spec : jsval) (ref : string) : completion jsval :=
  if negb (String.prefix "#/" ref) then
    Throw (JsError ("External references not supported: " ++ ref))
  else
    let! current := walk ref (split_on "/" (drop_chars 2 ref)) spec in
    match current with
    | JUndefined => Throw (JsError ("Cannot resolve reference: " ++ ref ++ " (not found)"))
    | _ => Ok current
    end.

(** [normalizeSpec]: the view shared by both document shapes. *)
Record normalized : Type := {
  n_version : jsval;
  n_title : jsval;
  n_description : jsval;
  n_baseUrl : jsval;
  n_paths : jsval;
  n_models : jsval
}.

Definition normalizeSpec (spec : jsval) : completion normalized :=
  let! version := detectVersion spec in
  match version with
  | V2 =>
      let host := get_own spec "host" in
      let! baseUrl :=
        if truthy host then
          let! scheme :=
            to_string (or_else (opt_chain (get_own spec "schemes") "0") (JStr "http")) in
          let! host := to_string host in
          let! basePath := to_string (or_else (get_own spec "basePath") (JStr "")) in
          Ok (JStr (scheme ++ "://" ++ host ++ basePath))
        else Ok JUndefined in
      let! title := get_prop (get_own spec "info") "title" in
      let! description := get_prop (get_own spec "info") "description" in
      Ok {| n_version := get_own spec "swagger";
            n_title := title;
            n_description := description;
            n_baseUrl := baseUrl;
            n_paths := get_own spec "paths";
            n_models := or_else (get_own spec "definitions") (JObj []) |}
  | V3plus =>
      let baseUrl := opt_chain (opt_chain (get_own spec "servers") "0") "url" in
      let! title := get_prop (get_own spec "info") "title" in
      let! description := get_prop (get_own spec "info") "description" in
      Ok {| n_version := get_own spec "openapi";
            n_title := title;
            n_description := description;
            n_baseUrl := baseUrl;
            n_paths := get_own spec "paths";
            n_models := or_else (opt_chain (get_own spec "components") "schemas") (JObj []) |}
  end.

(** *** [resolveSchema]

    The recursion is not structural (a reference is replaced by its target),
    so the function is first written with a recursion budget: [None] means the
    budget ran out, [Some (Ok v)] is a returned value, [Some (Throw e)] a
    raised exception. *)

Definition fbind {A B} (m : option (completion A)) (k : A -> option (completion B))
  : option (completion B) :=
  match m with
  | Some (Ok a) => k a
  | Some (Throw e) => Some (Throw e)
  | None => None
  end.

(** [try { m } catch (error) { h }] *)
Definition fcatch {A} (m : option (completion A)) (h : exn -> option (completion A))
  : option (completion A) :=
  match m with
  | Some (Throw e) => h e
  | _ => m
  end.

Definition fret {A} (a : A) : option (completion A) := Some (Ok a).

(** [l.map(f)], left to right, stopping at the first exception. *)
Fixpoint fmapM {A B} (f : A -> option (completion B)) (l : list A)
  : option (completion (list B)) :=
  match l with
  | [] => fret []
  | x :: rest =>
      fbind (f x) (fun y => fbind (fmapM f rest) (fun ys => fret (y :: ys)))
  end.

Notation "'let?' x ':=' m 'in' k" := (fbind m (fun x => k))
  (at level 10, x name, m at level 100, k at level 200).

(** The fragment returned when a pointer is met again on its own path. *)
Definition placeholder (ref : string) : jsval :=
  JObj [("description", JStr ("Circular reference: " ++ ref));
        ("type", JStr "object")].

Section resolve_step.

(** [rec] stands for the recursive calls; [visited] is passed by value: a
    call that receives [new Set(visited)] gets the caller's current set and
    its additions are never seen by the caller, the call on the merged
    schema gets the set with the pointer added. *)
Variable rec : jsval -> gset string -> option (completion jsval).
Variable spec : jsval.

Definition resolve_entry (visited : gset string) (kv : string * jsval)
  : option (completion (string * jsval)) :=
  let? v := rec (snd kv) visited in fret (fst kv, v).

(** [if (result.properties) result.properties = Object.fromEntries(...)] *)
Definition resolve_properties (visited : gset string)
    (result : list (string * jsval)) : option (completion (list (string * jsval))) :=
  let properties := get_field "properties" result in
  if truthy properties then
    let? entries := fmapM (resolve_entry visited) (own_entries properties) in
    fret (set_field "properties" (JObj entries) result)
  else fret result.

(** [if (result.items) ...]: an array is mapped, anything else resolved. *)
Definition resolve_items (visited : gset string)
    (result : list (string * jsval)) : option (completion (list (string * jsval))) :=
  let items := get_field "items" result in
  if truthy items then
    match items with
    | JArr l =>
        let? l' := fmapM (fun item => rec item visited) l in
        fret (set_field "items" (JArr l') result)
    | _ =>
        let? v := rec items visited in
        fret (set_field "items" v result)
    end
  else fret result.

Definition resolve_additional (visited : gset string)
    (result : list (string * jsval)) : option (completion (list (string * jsval))) :=
  let ap := get_field "additionalProperties" result in
  if truthy ap && typeof_object ap then
    let? v := rec ap visited in
    fret (set_field "additionalProperties" v result)
  else fret result.

(** [if (result.k) result.k = result.k.map(...)] for allOf, oneOf, anyOf:
    calling [.map] on a value that is not an array is a TypeError. *)
Definition resolve_members (k : string) (visited : gset string)
    (result : list (string * jsval)) : option (completion (list (string * jsval))) :=
  let members := get_field k result in
  if truthy members then
    match members with
    | JArr l =>
        let? l' := fmapM (fun item => rec item visited) l in
        fret (set_field k (JArr l') result)
    | _ => Some (Throw JsTypeError)
    end
  else fret result.

Definition resolve_not (visited : gset string)
    (result : list (string * jsval)) : option (completion (list (string * jsval))) :=
  let n := get_field "not" result in
  if truthy n then
    let? v := rec n visited in
    fret (set_field "not" v result)
  else fret result.

(** Lines 92-133: the fragment carries no reference. *)
Definition resolve_nested (schema : jsval) (visited : gset string)
  : option (completion jsval) :=
  let result := own_entries schema in
  let? result := resolve_properties visited result in
  let? result := resolve_items visited result in
  let? result := resolve_additional visited result in
  let? result := resolve_members "allOf" visited result in
  let? result := resolve_members "oneOf" visited result in
  let? result := resolve_members "anyOf" visited result in
  let? result := resolve_not visited result in
  fret (JObj result).

(** [{ ...resolved, ...rest }] with [rest] the fragment without its [$ref]. *)
Definition merged (resolved schema : jsval) : jsval :=
  JObj (spread2 resolved (remove_field "$ref" (own_entries schema))).

(** Lines 66-90: the fragment carries a reference. The [catch] block
    writes the pointer and the error into a message before it returns the
    fragment. A [$ref] that is not a string is never in the set, and
    [resolveRef] fails on it with a TypeError ([startsWith] is no function);
    the message then needs the string conversion of the [$ref], and an
    exception of that conversion leaves the function. *)
Definition resolve_reference (schema ref : jsval) (visited : gset string)
  : option (completion jsval) :=
  match ref with
  | JStr r =>
      if bool_decide (r ∈ visited) then fret (placeholder r)
      else
        fcatch
          (match resolveRef spec r with
           | Ok resolved => rec (merged resolved schema) ({[ r ]} ∪ visited)
           | Throw e => Some (Throw e)
           end)
          (fun _ => fret schema)
  | _ => Some (let! _ := to_string ref in Ok schema)
  end.

Definition resolve_step (schema : jsval) (visited : gset string)
  : option (completion jsval) :=
  if negb (truthy schema) || negb (typeof_object schema) then fret schema
  else
    let ref := get_own schema "$ref" in
    if truthy ref then resolve_reference schema ref visited
    else resolve_nested schema visited.

End resolve_step.

Fixpoint resolveSchema_fuel (fuel : nat) (spec schema : jsval) (visited : gset string)
  : option (completion jsval) :=
  match fuel with
  | O => None
  | S fuel' => resolve_step (resolveSchema_fuel fuel' spec) spec schema visited
  end.

(** A budget that always suffices: each reference step consumes one pointer
    of the document or the fragment that is not yet visited and adds at most
    the depth of the document, each other step descends into the fragment. *)
Definition fuel_bound (spec schema : jsval) (visited : gset string) : nat :=
  S (height schema
     + size ((refs_of spec ∪ refs_of schema) ∖ visited) * (height spec + 2)).

(** [resolveSchema(spec, schema, visited)]; the default is never taken
    (see [resolveSchema_fuel_bound]). *)
Definition resolveSchema_from (spec schema : jsval) (visited : gset string)
  : completion jsval :=
  default (Throw JsTypeError)
    (resolveSchema_fuel (fuel_bound spec schema visited) spec schema visited).

(** [resolveSchema(spec, schema)]: [visited] defaults to a new empty set. *)
Definition resolveSchema (spec schema : jsval) : completion jsval :=
  resolveSchema_from spec schema ∅.

Definition array_items (v : jsval) : list jsval :=
  match v with JArr l => l | _ => [] end.

(** [Schema | Schema[]]: the fragments held by an [items] field. *)
Definition one_or_many (v : jsval) : list jsval :=
  match v with JArr l => l | x => [x] end.

(** What the [Schema] interface promises about the fields [resolveSchema]
    reads, along the part of the fragment that is reached without passing
    through a reference: a [$ref] is a string, [allOf], [oneOf] and [anyOf]
    hold arrays. Below a reference nothing is asked. *)
#[local] Unset Elimination Schemes.
Inductive spine_typed : jsval -> Prop :=
| spine_leaf v :
    negb (truthy v) || negb (typeof_object v) = true -> spine_typed v
| spine_ref v :
    truthy (get_own v "$ref") = true -> is_string (get_own v "$ref") = true ->
    spine_typed v
| spine_node v :
    truthy (get_own v "$ref") = false ->
    Forall (fun kv => spine_typed (snd kv))
      (own_entries (get_field "properties" (own_entries v))) ->
    Forall spine_typed (one_or_many (get_field "items" (own_entries v))) ->
    spine_typed (get_field "additionalProperties" (own_entries v)) ->
    (forall k, k ∈ ["allOf"; "oneOf"; "anyOf"] ->
       truthy (get_field k (own_entries v)) = true ->
       is_array (get_field k (own_entries v)) = true) ->
    (forall k, k ∈ ["allOf"; "oneOf"; "anyOf"] ->
       Forall spine_typed (array_items (get_field k (own_entries v)))) ->
    spine_typed (get_field "not" (own_entries v)) ->
    spine_typed v.
#[local] Set Elimination Schemes.

(** ** Example documents *)

(** A schema whose [next] property points back at [pointer]. *)
Definition node_schema (pointer : string) : jsval :=
  JObj [("type", JStr "object");
        ("properties", JObj [("next", JObj [("$ref", JStr pointer)])])].

Definition node_doc : jsval :=
  JObj [("openapi", JStr "3.0.0");
        ("components",
         JObj [("schemas", JObj [("Node", node_schema "#/components/schemas/Node")])])].

Definition user_schema : jsval :=
  JObj [("type", JStr "object");
        ("description", JStr "A user of the system");
        ("properties", JObj [("name", JObj [("type", JStr "string")])])].

Definition user_doc : jsval :=
  JObj [("openapi", JStr "3.0.0");
        ("components", JObj [("schemas", JObj [("User", user_schema)])])].

(** ** Auxiliary notions for the properties of the resolver *)

(** The references a single property contributes. *)
Definition pair_refs (kv : string * jsval) : gset string :=
  (match snd kv with
   | JStr r => if String.eqb (fst kv) "$ref" then {[ r ]} else ∅
   | _ => ∅
   end) ∪ refs_of (snd kv).

(** [v] lies strictly inside [s]. *)
Definition inside (s v : jsval) : Prop :=
  height v < height s /\ refs_of v ⊆ refs_of s.

Definition potential (spec schema : jsval) (visited : gset string) : nat :=
  height schema
  + size ((refs_of spec ∪ refs_of schema) ∖ visited) * (height spec + 2).

(** Both computations finish, with the same completion. *)
Definition same_def {A} (a b : option A) : Prop :=
  exists r, a = Some r /\ b = Some r.

(** The recursive calls, once termination is known. *)
Definition resolved_by (spec : jsval) : jsval -> gset string -> option (completion jsval) :=
  fun v visited => Some (resolveSchema_from spec v visited).

(** The fragment of the specification's merge example. *)
Definition override_fragment : jsval :=
  JObj [("$ref", JStr "#/components/schemas/User"); ("description", JStr "override")].

Definition resolved_each (spec : jsval) (visited : gset string) (l l' : list jsval) : Prop :=
  Forall2 (fun x x' => resolveSchema_from spec x visited = Ok x') l l'.

Definition resolved_entries (spec : jsval) (visited : gset string)
    (es es' : list (string * jsval)) : Prop :=
  Forall2 (fun kv kv' =>
             fst kv' = fst kv /\ resolveSchema_from spec (snd kv) visited = Ok (snd kv'))
    es es'.

(** How field [k] of the result, [v'], relates to field [k] of a fragment
    without reference, [v]: each nested fragment is resolved from [visited],
    the set the fragment itself was resolved from. *)
Definition branch (spec : jsval) (visited : gset string) (k : string) (v v' : jsval)
  : Prop :=
  if negb (truthy v) then v' = v
  else if String.eqb k "properties" then
    exists es', v' = JObj es' /\ resolved_entries spec visited (own_entries v) es'
  else if String.eqb k "items" then
    match v with
    | JArr l => exists l', v' = JArr l' /\ resolved_each spec visited l l'
    | _ => resolveSchema_from spec v visited = Ok v'
    end
  else if String.eqb k "additionalProperties" then
    if typeof_object v then resolveSchema_from spec v visited = Ok v' else v' = v
  else if String.eqb k "allOf" || String.eqb k "oneOf" || String.eqb k "anyOf" then
    exists l l', v = JArr l /\ v' = JArr l' /\ resolved_each spec visited l l'
  else if String.eqb k "not" then resolveSchema_from spec v visited = Ok v'
  else v' = v.

(** Two sibling properties that reference the same pointer. *)
Definition siblings (a b t : string) : jsval :=
  JObj [("properties",
         JObj [(a, JObj [("$ref", JStr t)]); (b, JObj [("$ref", JStr t)])])].

(** ** The other functions of [parser.ts] *)

(** [s.replace(/^p/, "")] for a literal [p]. *)
Definition strip_prefix (p s : string) : string :=
  if String.prefix p s then drop_chars (String.length p) s else s.

(** The four replacements that [getModelByName] and [getModelDetails] apply
    to a model name, in their order. *)
Definition clean_name (modelName : string) : string :=
  strip_prefix "components/schemas/"
    (strip_prefix "definitions/"
       (strip_prefix "#/components/schemas/"
          (strip_prefix "#/definitions/" modelName))).

(** [getModelByName]: [definitions?.[name] || null] for a 2.0 document,
    [components?.schemas?.[name] || null] otherwise. The name comes from the
    caller, so the read goes up the prototype chain. *)
Definition getModelByName (builtin : native -> string -> answer)
    (spec : jsval) (modelName : string) : completion jsval :=
  let cleanName := clean_name modelName in
  let! version := detectVersion spec in
  match version with
  | V2 =>
      let! found := opt_elem builtin (get_own spec "definitions") cleanName in
      Ok (or_else found JNull)
  | V3plus =>
      let! found :=
        opt_elem builtin (opt_chain (get_own spec "components") "schemas") cleanName in
      Ok (or_else found JNull)
  end.

(** [Object.keys(v)] for a [v] that is neither undefined nor null. *)
Definition keys (v : jsval) : list string := map fst (own_entries v).

Definition getAllModelNames (spec : jsval) : completion (list string) :=
  let! version := detectVersion spec in
  match version with
  | V2 => Ok (keys (or_else (get_own spec "definitions") (JObj [])))
  | V3plus =>
      Ok (keys (or_else (opt_chain (get_own spec "components") "schemas") (JObj [])))
  end.

(** [items.join(sep)]: undefined and null elements give the empty string. *)
Definition join (sep : string) (items : list jsval) : completion string :=
  let! parts := rmapM (fun x => if nullish x then Ok "" else to_string x) items in
  Ok (String.concat sep parts).

Definition is_undefined (v : jsval) : bool :=
  match v with JUndefined => true | _ => false end.

(** The [min]/[max] pair of [getSchemaDescription], under the label [label]. *)
Definition constraints (label : string) (lo hi : jsval) : completion (list jsval) :=
  if negb (is_undefined lo) || negb (is_undefined hi) then
    let! los :=
      if negb (is_undefined lo) then let! text := to_string lo in Ok ["min: " ++ text]
      else Ok [] in
    let! his :=
      if negb (is_undefined hi) then let! text := to_string hi in Ok ["max: " ++ text]
      else Ok [] in
    Ok [JStr (label ++ ": " ++ String.concat ", " (app los his))]
  else Ok [].

(** A part of the description: a label and the text of a value. *)
Definition labelled (label : string) (text : completion string) : completion (list jsval) :=
  let! text := text in Ok [JStr (label ++ text)].

(** [getSchemaDescription]: the parts present, joined by "; ". The
    description is pushed as it is, every other part is a template string;
    [schema.enum.join] is a TypeError when [enum] is truthy and not an array. *)
Definition getSchemaDescription (schema : jsval) : completion string :=
  let! description := get_prop schema "description" in
  let parts := if truthy description then [description] else [] in
  let! type := get_prop schema "type" in
  let! typed :=
    if truthy type then
      labelled "Type: " (match type with
                         | JArr l => join " | " l
                         | _ => to_string type
                         end)
    else Ok [] in
  let parts := app parts typed in
  let! format := get_prop schema "format" in
  let! formatted :=
    if truthy format then labelled "Format: " (to_string format) else Ok [] in
  let parts := app parts formatted in
  let! enum := get_prop schema "enum" in
  let! listed :=
    if truthy enum then
      match enum with
      | JArr l => labelled "Enum: " (join ", " l)
      | _ => Throw JsTypeError
      end
    else Ok [] in
  let parts := app parts listed in
  let! pattern := get_prop schema "pattern" in
  let! patterned :=
    if truthy pattern then labelled "Pattern: " (to_string pattern) else Ok [] in
  let parts := app parts patterned in
  let! minLength := get_prop schema "minLength" in
  let! maxLength := get_prop schema "maxLength" in
  let! lengths := constraints "Length" minLength maxLength in
  let parts := app parts lengths in
  let! minimum := get_prop schema "minimum" in
  let! maximum := get_prop schema "maximum" in
  let! ranges := constraints "Range" minimum maximum in
  let parts := app parts ranges in
  let! text := join "; " parts in
  Ok (if String.eqb text "" then "No description available" else text).

(** ** Auxiliary notions for the properties of the other functions *)

(** [v] has a string conversion, and the text it gives. *)
Definition printable (v : jsval) : bool :=
  match to_string v with Ok _ => true | Throw _ => false end.

Definition text_of (v : jsval) : string :=
  match to_string v with Ok text => text | Throw _ => "" end.

(** Every element [l.join(sep)] converts has a string conversion. *)
Definition joinable (l : list jsval) : bool :=
  forallb (fun x => nullish x || printable x) l.

(** A [type] is joined when it is an array and converted otherwise; an
    [enum] is joined, and has to be an array. *)
Definition type_printable (type : jsval) : bool :=
  match type with JArr l => joinable l | _ => printable type end.

Definition enum_printable (enum : jsval) : bool :=
  match enum with JArr l => joinable l | _ => false end.

(** All that [getSchemaDescription] writes out has a string conversion, and
    [enum] is an array when it is truthy. *)
Definition describable (schema : jsval) : bool :=
  (negb (truthy (opt_chain schema "type")) || type_printable (opt_chain schema "type"))
  && (negb (truthy (opt_chain schema "format")) || printable (opt_chain schema "format"))
  && (negb (truthy (opt_chain schema "enum")) || enum_printable (opt_chain schema "enum"))
  && (negb (truthy (opt_chain schema "pattern")) || printable (opt_chain schema "pattern"))
  && ((is_undefined (opt_chain schema "minLength")
       || printable (opt_chain schema "minLength"))
      && (is_undefined (opt_chain schema "maxLength")
          || printable (opt_chain schema "maxLength")))
  && ((is_undefined (opt_chain schema "minimum") || printable (opt_chain schema "minimum"))
      && (is_undefined (opt_chain schema "maximum")
          || printable (opt_chain schema "maximum")))
  && (negb (truthy (opt_chain schema "description"))
      || printable (opt_chain schema "description")).

(** The three parts of the base URL of a 2.0 document with a host have a
    string conversion. *)
Definition base_printable (spec : jsval) : bool :=
  negb (truthy (get_own spec "host"))
  || (printable (or_else (opt_chain (get_own spec "schemes") "0") (JStr "http"))
      && printable (get_own spec "host")
      && printable (or_else (get_own spec "basePath") (JStr ""))).

(** [c] occurs in [s]. *)
Fixpoint mentions (c : ascii) (s : string) : bool :=
  match s with
  | EmptyString => false
  | String d s' => Ascii.eqb d c || mentions c s'
  end.

(** The escaping of RFC 6901 that [decode_segment] undoes: [~] is written
    [~0] and [/] is written [~1]. *)
Fixpoint escape_segment (k : string) : string :=
  match k with
  | EmptyString => EmptyString
  | String c k' =>
      if Ascii.eqb c "~" then String "~" (String "0" (escape_segment k'))
      else if Ascii.eqb c "/" then String "~" (String "1" (escape_segment k'))
      else String c (escape_segment k')
  end.

(** The pointer that names the value under the keys [ks], outermost first. *)
Definition pointer (ks : list string) : string :=
  "#/" ++ String.concat "/" (map escape_segment ks).

(** Reading the keys [ks] one after the other, [v[k1][k2]...], through
    whatever is an object at that point, own properties first and the
    prototype chain after them; nothing when a key is to be read from
    undefined, null, a primitive or a function. *)
Fixpoint follow (ks : list string) (v : jsval) : option jsval :=
  match ks with
  | [] => Some v
  | k :: rest =>
      if truthy v && typeof_object v then follow rest (member v k) else None
  end.

(** The container of the models and the pointer to a model, per version. *)
Definition schemas_of (v : version) (spec : jsval) : jsval :=
  match v with
  | V2 => get_own spec "definitions"
  | V3plus => opt_chain (get_own spec "components") "schemas"
  end.

Definition model_pointer (v : version) (name : string) : string :=
  match v with
  | V2 => "#/definitions/" ++ name
  | V3plus => "#/components/schemas/" ++ name
  end.

Definition is_object (v : jsval) : bool :=
  match v with JObj _ => true | _ => false end.

(** A fragment that holds no reference and is shaped as the [Schema]
    interface says, all the way down the fields [resolveSchema] visits:
    [properties] is an object, [allOf], [oneOf] and [anyOf] are arrays. *)
#[local] Unset Elimination Schemes.
Inductive plain : jsval -> Prop :=
| plain_leaf v :
    negb (truthy v) || negb (typeof_object v) = true -> plain v
| plain_node props :
    truthy (get_field "$ref" props) = false ->
    (truthy (get_field "properties" props) = true ->
     is_object (get_field "properties" props) = true) ->
    Forall (fun kv => plain (snd kv)) (own_entries (get_field "properties" props)) ->
    Forall plain (one_or_many (get_field "items" props)) ->
    plain (get_field "additionalProperties" props) ->
    (forall k, k ∈ ["allOf"; "oneOf"; "anyOf"] ->
       truthy (get_field k props) = true -> is_array (get_field k props) = true) ->
    (forall k, k ∈ ["allOf"; "oneOf"; "anyOf"] ->
       Forall plain (array_items (get_field k props))) ->
    plain (get_field "not" props) ->
    plain (JObj props).
#[local] Set Elimination Schemes.

(** A document of each version with two models. *)
Definition pets_v2 : jsval :=
  JObj [("swagger", JStr "2.0");
        ("info", JObj [("title", JStr "Pets"); ("version", JStr "1.0")]);
        ("definitions",
         JObj [("Pet", JObj [("type", JStr "object");
                             ("properties",
                              JObj [("tag", JObj [("$ref", JStr "#/definitions/Tag")])])]);
               ("Tag", JObj [("type", JStr "string"); ("enum", JArr [JStr "a"; JStr "b"])])])].

End Parser.

(** ** [resolveSchema] over a store of mutable objects

    The same function once more, this time with what the first model leaves
    implicit: objects, arrays and sets live in a store and are reached through
    references, [{...x}], [.map], [Object.fromEntries] and [new Set] allocate,
    [result.k = v] and [visited.add] write in place. The temporary arrays of
    [Object.entries] are not stored. *)

Module Store.

Abbreviation loc := nat.

Inductive val : Type :=
| VUndefined
| VNull
| VBool (b : bool)
| VNum (n : Z)
| VStr (s : string)
| VRef (l : loc)
| VNative (n : native).

#[export] Instance val_undefined : Undefined val := VUndefined.

Inductive cell : Type :=
| CObj (props : list (string * val))
| CArr (items : list val)
| CSet (members : list string).

Abbreviation heap := (list cell).

Definition truthy_v (v : val) : bool :=
  match v with
  | VUndefined | VNull => false
  | VBool b => b
  | VNum n => negb (n =? 0)%Z
  | VStr s => negb (String.eqb s "")
  | VRef _ | VNative _ => true
  end.

Definition typeof_object_v (v : val) : bool :=
  match v with
  | VNull | VRef _ | VNative (Prototype _) => true
  | VNative (Other callable _) => negb callable
  | _ => false
  end.

Definition own_entries_h (h : heap) (v : val) : list (string * val) :=
  match v with
  | VRef l =>
      match h !! l with
      | Some (CObj props) => props
      | Some (CArr items) => imap (fun i x => (index_key i, x)) items
      | _ => []
      end
  | VStr s => imap (fun i c => (index_key i, VStr c)) (chars s)
  | _ => []
  end.

Definition get_own_h (h : heap) (v : val) (k : string) : val :=
  match v with
  | VRef l =>
      match h !! l with
      | Some (CObj props) => get_field k props
      | Some (CArr items) =>
          if String.eqb k "length" then VNum (Z.of_nat (List.length items))
          else get_field k (own_entries_h h v)
      | _ => VUndefined
      end
  | _ => VUndefined
  end.

(** A built-in as a value of the store. *)
Definition of_native (j : jsval) : val :=
  match j with
  | JNull => VNull
  | JNum n => VNum n
  | JNative n => VNative n
  | _ => VUndefined
  end.

(** [v[k]], up the prototype chain. *)
Definition member_h (h : heap) (v : val) (k : string) : val :=
  match v with
  | VRef l =>
      match h !! l with
      | Some (CObj props) =>
          if has_field k props then get_field k props
          else of_native (inherited_member KObject k)
      | Some (CArr _) =>
          if String.eqb k "length" || has_field k (own_entries_h h v) then get_own_h h v k
          else of_native (inherited_member KArray k)
      | _ => VUndefined
      end
  | VNative (Prototype p) => of_native (prototype_member p k)
  | _ => VUndefined
  end.

(** String conversion of a value of the store, as [to_string]: no chain of
    nested arrays is longer than the store. *)
Fixpoint to_string_h (n : nat) (h : heap) (v : val) : option (completion string) :=
  match v with
  | VUndefined => Some (Ok "undefined")
  | VNull => Some (Ok "null")
  | VBool true => Some (Ok "true")
  | VBool false => Some (Ok "false")
  | VNum z => Some (Ok (number_to_string z))
  | VStr s => Some (Ok s)
  | VNative x => Some (Ok (native_to_string x))
  | VRef l =>
      match n with
      | O => None
      | S n' =>
          match h !! l with
          | Some (CObj props) =>
              Some (if has_field "toString" props then Throw JsTypeError
                    else Ok "[object Object]")
          | Some (CArr items) =>
              Parser.fbind
                (Parser.fmapM (fun x => match x with
                                        | VUndefined | VNull => Some (Ok "")
                                        | _ => to_string_h n' h x
                                        end) items)
                (fun parts => Some (Ok (String.concat "," parts)))
          | _ => None
          end
      end
  end.

Definition set_has (h : heap) (s : loc) (x : string) : bool :=
  match h !! s with
  | Some (CSet members) => bool_decide (x ∈ members)
  | _ => false
  end.

Definition set_add (x : string) (c : cell) : cell :=
  match c with
  | CSet members => if bool_decide (x ∈ members) then c else CSet (members ++ [x])%list
  | _ => c
  end.

Definition set_prop (k : string) (v : val) (c : cell) : cell :=
  match c with
  | CObj props => CObj (set_field k v props)
  | _ => c
  end.

Fixpoint walk_h (h : heap) (ref : string) (path : list string) (current : val)
  : completion val :=
  match path with
  | [] => Ok current
  | segment :: rest =>
      match current with
      | VUndefined | VNull =>
          Throw (JsError ("Cannot resolve reference: " ++ ref ++ " (path does not exist)"))
      | _ =>
          if negb (typeof_object_v current) then
            Throw (JsError ("Cannot resolve reference: " ++ ref ++ " (invalid path)"))
          else walk_h h ref rest (member_h h current (Parser.decode_segment segment))
      end
  end.

Definition resolveRef_h (h : heap) (spec : val) (ref : string) : completion val :=
  if negb (String.prefix "#/" ref) then
    Throw (JsError ("External references not supported: " ++ ref))
  else
    let! current := walk_h h ref (Parser.split_on "/" (Parser.drop_chars 2 ref)) spec in
    match current with
    | VUndefined => Throw (JsError ("Cannot resolve reference: " ++ ref ++ " (not found)"))
    | _ => Ok current
    end.

(** Computations on the store: out of budget, or a completion and the store
    it leaves. An exception keeps the writes made before it. *)
Definition H (A : Type) : Type := heap -> option (completion A * heap).

Definition hret {A} (a : A) : H A := fun h => Some (Ok a, h).

Definition hbind {A B} (m : H A) (k : A -> H B) : H B :=
  fun h =>
    match m h with
    | Some (Ok a, h') => k a h'
    | Some (Throw e, h') => Some (Throw e, h')
    | None => None
    end.

Definition hcatch {A} (m : H A) (handler : exn -> H A) : H A :=
  fun h =>
    match m h with
    | Some (Throw e, h') => handler e h'
    | r => r
    end.

(** A read that does not change the store. *)
Definition hread {A} (f : heap -> A) : H A := fun h => Some (Ok (f h), h).

Definition hlift {A} (f : heap -> completion A) : H A := fun h => Some (f h, h).

(** Allocation: the new cell gets the next free location. *)
Definition with_new {A} (c : heap -> cell) (k : loc -> H A) : H A :=
  fun h => k (List.length h) (h ++ [c h])%list.

(** An in-place write to the cell at [l]. *)
Definition hmodify (l : loc) (f : cell -> cell) : H unit :=
  fun h => Some (Ok tt, alter f l h).

Fixpoint hmapM {A B} (f : A -> H B) (l : list A) : H (list B) :=
  match l with
  | [] => hret []
  | x :: rest => hbind (f x) (fun y => hbind (hmapM f rest) (fun ys => hret (y :: ys)))
  end.

Notation "'let*' x ':=' m 'in' k" := (hbind m (fun x => k))
  (at level 10, x name, m at level 100, k at level 200).

(** [new Set(visited)] *)
Definition copy_set (visited : loc) (h : heap) : cell :=
  match h !! visited with
  | Some (CSet members) => CSet members
  | _ => CSet []
  end.

Definition placeholder_props (ref : string) : list (string * val) :=
  [("description", VStr ("Circular reference: " ++ ref)); ("type", VStr "object")].

Section resolve_step.

Variable rec : val -> loc -> H val.
Variable spec : val.

(** [resolveSchema(spec, x, new Set(visited))] *)
Definition rec_with_copy (visited : loc) (x : val) : H val :=
  with_new (copy_set visited) (fun visited' => rec x visited').

Definition resolve_properties (result visited : loc) : H unit :=
  let* properties := hread (fun h => get_own_h h (VRef result) "properties") in
  if truthy_v properties then
    let* entries := hread (fun h => own_entries_h h properties) in
    let* entries' :=
      hmapM (fun kv => let* v := rec_with_copy visited (snd kv) in hret (fst kv, v))
        entries in
    with_new (fun _ => CObj entries')
      (fun obj => hmodify result (set_prop "properties" (VRef obj)))
  else hret tt.

(** [xs.map((item) => resolveSchema(spec, item, new Set(visited)))] *)
Definition map_resolve (visited : loc) (l : list val) (k : val -> H unit) : H unit :=
  let* l' := hmapM (rec_with_copy visited) l in
  with_new (fun _ => CArr l') (fun arr => k (VRef arr)).

Definition array_cell (h : heap) (v : val) : option (list val) :=
  match v with
  | VRef l => match h !! l with Some (CArr items) => Some items | _ => None end
  | _ => None
  end.

Definition resolve_items (result visited : loc) : H unit :=
  let* items := hread (fun h => get_own_h h (VRef result) "items") in
  if truthy_v items then
    let* arr := hread (fun h => array_cell h items) in
    match arr with
    | Some l => map_resolve visited l (fun v => hmodify result (set_prop "items" v))
    | None =>
        let* v := rec_with_copy visited items in
        hmodify result (set_prop "items" v)
    end
  else hret tt.

Definition resolve_additional (result visited : loc) : H unit :=
  let* ap := hread (fun h => get_own_h h (VRef result) "additionalProperties") in
  if truthy_v ap && typeof_object_v ap then
    let* v := rec_with_copy visited ap in
    hmodify result (set_prop "additionalProperties" v)
  else hret tt.

Definition resolve_members (k : string) (result visited : loc) : H unit :=
  let* members := hread (fun h => get_own_h h (VRef result) k) in
  if truthy_v members then
    let* arr := hread (fun h => array_cell h members) in
    match arr with
    | Some l => map_resolve visited l (fun v => hmodify result (set_prop k v))
    | None => hlift (fun _ => Throw JsTypeError)
    end
  else hret tt.

Definition resolve_not (result visited : loc) : H unit :=
  let* n := hread (fun h => get_own_h h (VRef result) "not") in
  if truthy_v n then
    let* v := rec_with_copy visited n in
    hmodify result (set_prop "not" v)
  else hret tt.

Definition resolve_nested (schema : val) (visited : loc) : H val :=
  with_new (fun h => CObj (own_entries_h h schema)) (fun result =>
    let* _ := resolve_properties result visited in
    let* _ := resolve_items result visited in
    let* _ := resolve_additional result visited in
    let* _ := resolve_members "allOf" result visited in
    let* _ := resolve_members "oneOf" result visited in
    let* _ := resolve_members "anyOf" result visited in
    let* _ := resolve_not result visited in
    hret (VRef result)).

(** A [$ref] that is not a string cannot be a member of a [Set<string>];
    [resolveRef] fails on it and the [catch] returns the fragment, once the
    [$ref] is converted to a string for the message. What [visited.add]
    leaves in the set in that case is not represented. *)
Definition resolve_reference (schema ref : val) (visited : loc) : H val :=
  match ref with
  | VStr r =>
      let* seen := hread (fun h => set_has h visited r) in
      if seen then
        with_new (fun _ => CObj (placeholder_props r)) (fun l => hret (VRef l))
      else
        let* _ := hmodify visited (set_add r) in
        hcatch
          (let* resolved := hlift (fun h => resolveRef_h h spec r) in
           with_new (fun h => CObj (remove_field "$ref" (own_entries_h h schema)))
             (fun rest =>
                with_new
                  (fun h => CObj (assign (own_entries_h h resolved)
                                    (own_entries_h h (VRef rest))))
                  (fun merged => rec (VRef merged) visited)))
          (fun _ => hret schema)
  | _ =>
      fun h =>
        match to_string_h (List.length h) h ref with
        | Some (Ok _) => Some (Ok schema, h)
        | Some (Throw e) => Some (Throw e, h)
        | None => None
        end
  end.

Definition resolve_step (schema : val) (visited : loc) : H val :=
  if negb (truthy_v schema) || negb (typeof_object_v schema) then hret schema
  else
    let* ref := hread (fun h => get_own_h h schema "$ref") in
    if truthy_v ref then resolve_reference schema ref visited
    else resolve_nested schema visited.

End resolve_step.

Fixpoint resolveSchema_fuel (fuel : nat) (spec schema : val) (visited : loc) : H val :=
  match fuel with
  | O => fun _ => None
  | S fuel' => resolve_step (resolveSchema_fuel fuel' spec) spec schema visited
  end.

(** [resolveSchema(spec, schema)]: the default argument allocates the set. *)
Definition resolveSchema (fuel : nat) (spec schema : val) : H val :=
  with_new (fun _ => CSet []) (fun visited => resolveSchema_fuel fuel spec schema visited).

(** The tree a value stands for in a store, read to depth [n]. *)
Fixpoint reify (n : nat) (h : heap) (v : val) : option jsval :=
  match v with
  | VUndefined => Some JUndefined
  | VNull => Some JNull
  | VBool b => Some (JBool b)
  | VNum z => Some (JNum z)
  | VStr s => Some (JStr s)
  | VNative x => Some (JNative x)
  | VRef l =>
      match n with
      | O => None
      | S n' =>
          match h !! l with
          | Some (CObj props) =>
              JObj <$> mapM (fun kv => pair (fst kv) <$> reify n' h (snd kv)) props
          | Some (CArr items) => JArr <$> mapM (reify n' h) items
          | _ => None
          end
      end
  end.

(** Insert a tree into a store; returns the value that stands for it. *)
Fixpoint store_tree (j : jsval) (h : heap) : val * heap :=
  match j with
  | JUndefined => (VUndefined, h)
  | JNull => (VNull, h)
  | JBool b => (VBool b, h)
  | JNum z => (VNum z, h)
  | JStr s => (VStr s, h)
  | JNative x => (VNative x, h)
  | JArr items =>
      let '(vs, h') :=
        fold_left (fun acc x => let '(v, hx) := store_tree x (snd acc) in ((fst acc ++ [v])%list, hx))
          items ([], h) in
      (VRef (List.length h'), (h' ++ [CArr vs])%list)
  | JObj props =>
      let '(ps, h') :=
        fold_left (fun acc kv =>
                     let '(v, hx) := store_tree (snd kv) (snd acc) in
                     ((fst acc ++ [(fst kv, v)])%list, hx))
          props ([], h) in
      (VRef (List.length h'), (h' ++ [CObj ps])%list)
  end.

(** ** Auxiliary notions for the frame property *)

(** ** The frame of a computation

    [stable n visited m]: started in a store with at least [n] cells, [m]
    leaves every cell below [n] as it was, the set at [visited] excepted, and
    never shrinks the store. *)
Definition preserved (n : nat) (visited : loc) (h h' : heap) : Prop :=
  List.length h <= List.length h'
  /\ forall l, l < n -> l <> visited -> h' !! l = h !! l.

Definition stable {A} (n : nat) (visited : loc) (m : H A) : Prop :=
  forall h r h', n <= List.length h -> m h = Some (r, h') -> preserved n visited h h'.

(** Every cell of [h] is still there, unchanged, in [h']. *)
Definition extends (h h' : heap) : Prop :=
  forall l c, h !! l = Some c -> h' !! l = Some c.

(** ** The tree a value stands for, as a relation

    [repr P h v j]: in the store [h] the value [v] stands for the tree [j],
    and every cell read on the way is at a location satisfying [P]. *)
#[local] Unset Elimination Schemes.
Inductive repr (P : loc -> Prop) (h : heap) : val -> jsval -> Prop :=
| repr_undefined : repr P h VUndefined JUndefined
| repr_null : repr P h VNull JNull
| repr_bool b : repr P h (VBool b) (JBool b)
| repr_num n : repr P h (VNum n) (JNum n)
| repr_str s : repr P h (VStr s) (JStr s)
| repr_arr l items js :
    P l -> h !! l = Some (CArr items) ->
    Forall2 (repr P h) items js ->
    repr P h (VRef l) (JArr js)
| repr_obj l props jps :
    P l -> h !! l = Some (CObj props) ->
    Forall2 (fun kv jkv => fst kv = fst jkv /\ repr P h (snd kv) (snd jkv)) props jps ->
    repr P h (VRef l) (JObj jps)
| repr_native x : repr P h (VNative x) (JNative x).
#[local] Set Elimination Schemes.

Definition repr_props (P : loc -> Prop) (h : heap)
    (props : list (string * val)) (jps : list (string * jsval)) : Prop :=
  Forall2 (fun kv jkv => fst kv = fst jkv /\ repr P h (snd kv) (snd jkv)) props jps.

(** [v] stands for [j] in [h]. *)
Definition tree (h : heap) (v : val) (j : jsval) : Prop :=
  repr (fun l => l < List.length h) h v j.

Definition is_set (c : cell) : bool :=
  match c with CSet _ => true | _ => false end.

(** [h'] holds every cell of [h] that is at a location in [P] and is not a set. *)
Definition agree_on (P : loc -> Prop) (h h' : heap) : Prop :=
  forall l c, P l -> h !! l = Some c -> is_set c = false -> h' !! l = Some c.

(** Two completions that agree: the same exception, or values of which one
    stands for the other. *)
Definition agree (P : loc -> Prop) (h : heap) (r : completion val) (jr : completion jsval)
  : Prop :=
  match r, jr with
  | Ok v, Ok j => repr P h v j
  | Throw e, Throw e' => e = e'
  | _, _ => False
  end.

(** [rec] on the store does what [jrec] does on trees: whenever the document
    and the fragment stand for [jspec] and [jschema] through cells in [P] and
    the set holds [ms], a completion of [jrec] is matched by a run of [rec]
    whose value stands for the tree through cells of [P] or cells allocated by
    the run. *)
Definition simulates (spec : val) (jspec : jsval)
    (rec : val -> loc -> H val)
    (jrec : jsval -> gset string -> option (completion jsval)) : Prop :=
  forall (P : loc -> Prop) schema jschema visited ms h jres,
    (forall l, P l -> l < List.length h) ->
    repr P h spec jspec ->
    repr P h schema jschema ->
    h !! visited = Some (CSet ms) ->
    jrec jschema (list_to_set ms) = Some jres ->
    exists r h',
      rec schema visited h = Some (r, h')
      /\ agree (fun l => P l \/ List.length h <= l) h' r jres.

(** What a run in a branch relies on: the cells of [P] are in the store,
    the document stands for [jspec] and the set holds [ms]. *)
Definition ready (spec : val) (jspec : jsval) (P : loc -> Prop) (visited : loc)
    (ms : list string) (h : heap) : Prop :=
  (forall l, P l -> l < List.length h)
  /\ repr P h spec jspec
  /\ h !! visited = Some (CSet ms).

(** The state between two steps of a fragment without reference: the copy
    [result] holds properties that stand for the list [jresult] of the tree
    model, through cells of [P] or cells allocated after the copy. *)
Definition nested_inv (spec : val) (jspec : jsval) (P : loc -> Prop)
    (result visited : loc) (ms : list string)
    (jresult : list (string * jsval)) (h : heap) : Prop :=
  result < List.length h
  /\ (forall l, P l -> l < result)
  /\ ready spec jspec P visited ms h
  /\ exists props,
       h !! result = Some (CObj props)
       /\ repr_props (fun l => P l \/ result < l) h props jresult.

(** A step on the store against the same step on the tree. *)
Definition step_agrees (spec : val) (jspec : jsval) (P : loc -> Prop)
    (result visited : loc) (ms : list string)
    (r : completion unit * heap) (jr : completion (list (string * jsval))) : Prop :=
  match fst r, jr with
  | Ok _, Ok jresult' => nested_inv spec jspec P result visited ms jresult' (snd r)
  | Throw e, Throw e' => e = e'
  | _, _ => False
  end.

End Store.

(** ** The spec cache: [src/cache.ts]

    The network, the clock, the hash, the filesystem's willingness to
    write, [toUpperCase] and whether a text parses as JSON are an environment
    [Env]; the cache directory and a log of the
    requests and writes performed are the state [World]. The on-disk JSON
    encoding of an entry is taken to round-trip; a file that does not parse
    to an entry is [Unreadable]. *)

Module Cache.

Record SwaggerConfig : Type := {
  url : string;
  user : option string;
  password : option string;
  token : option string;
  cookies : option string;
  loginUrl : option string;
  loginMethod : option string;
  loginBody : option string
}.

Record CacheEntry : Type := {
  entry_url : string;
  etag : option string;
  lastModified : option string;
  cachedAt : string;
  spec : jsval
}.

(** The two response headers the cache reads. *)
Record Headers : Type := {
  h_etag : option string;
  h_last_modified : option string
}.

Record AxiosRequestConfig : Type := {
  authorization : option string;
  cookie : option string
}.

(** What comes back on the wire for one request. *)
Inductive transport : Type :=
| Replied (status : Z) (statusText : string) (headers : Headers) (data : jsval)
| NoReply (message : string)
| NotSent (message : string).

Record response : Type := {
  r_status : Z;
  r_statusText : string;
  r_headers : Headers;
  r_data : jsval
}.

Inductive failure : Type :=
| AxiosStatus (status : Z) (statusText : string)
| AxiosNoResponse (message : string)
| AxiosOther (message : string)
| PlainError (message : string)
| FsError (message : string).

Inductive file : Type :=
| Stored (entry : CacheEntry)
| Unreadable.

Inductive event : Type :=
| EvLogin (config : SwaggerConfig)
| EvHead (target : string) (request : AxiosRequestConfig)
| EvGet (target : string) (request : AxiosRequestConfig)
| EvMkdir
| EvWrite (path : string) (entry : CacheEntry).

Record Env : Type := {
  sha256_hex : string -> string;
  base64 : string -> string;
  cache_dir : string;
  now_iso : string;
  to_upper : string -> string;
  json_parses : string -> bool;
  login_reply : SwaggerConfig -> option string;
  head_reply : string -> AxiosRequestConfig -> transport;
  get_reply : string -> AxiosRequestConfig -> transport;
  write_error : string -> option string
}.

Record World : Type := {
  dir_exists : bool;
  disk : gmap string file;
  log : list event
}.

Inductive outcome (A : Type) : Type :=
| Done (a : A)
| Failed (e : failure).
Arguments Done {A} a.
Arguments Failed {A} e.

Definition IO (A : Type) : Type := World -> outcome A * World.

Definition ret {A} (a : A) : IO A := fun w => (Done a, w).

Definition raise {A} (e : failure) : IO A := fun w => (Failed e, w).

Definition bind {A B} (m : IO A) (k : A -> IO B) : IO B :=
  fun w =>
    match m w with
    | (Done a, w') => k a w'
    | (Failed e, w') => (Failed e, w')
    end.

Definition try_catch {A} (m : IO A) (handler : failure -> IO A) : IO A :=
  fun w =>
    match m w with
    | (Failed e, w') => handler e w'
    | r => r
    end.

Definition emit (ev : event) : IO unit :=
  fun w => (Done tt, {| dir_exists := dir_exists w; disk := disk w;
                        log := (log w ++ [ev])%list |}).

Notation "'do' x '<-' m ';' k" := (bind m (fun x => k))
  (at level 10, x name, m at level 100, k at level 200).

(** Truthiness of an optional string: absent and empty are both falsy. *)
Definition present (o : option string) : bool :=
  match o with
  | Some s => negb (String.eqb s "")
  | None => false
  end.

Definition text (o : option string) : string := default "" o.

(** String conversion of a caught error inside a template literal. *)
Definition show_failure (e : failure) : string :=
  match e with
  | AxiosStatus status _ =>
      "AxiosError: Request failed with status code " ++ number_to_string status
  | AxiosNoResponse m | AxiosOther m => "AxiosError: " ++ m
  | PlainError m | FsError m => "Error: " ++ m
  end.

Section with_env.

Variable E : Env.

Definition getCacheFilePath (u : string) : string :=
  cache_dir E ++ "/" ++ sha256_hex E u ++ ".json".

(** Lines 899-906: a login body is parsed when the method, in upper case,
    is POST, PUT or PATCH; when it does not parse, [performLogin] returns
    before any request. *)
Definition login_body_refused (config : SwaggerConfig) : bool :=
  let method :=
    to_upper E (if present (loginMethod config) then text (loginMethod config)
                else "POST") in
  present (loginBody config)
  && bool_decide (method ∈ ["POST"; "PUT"; "PATCH"])
  && negb (json_parses E (text (loginBody config))).

(** Whether [performLogin] sends its request. *)
Definition logs_in (config : SwaggerConfig) : bool :=
  present (loginUrl config) && negb (login_body_refused config).

(** Of the login exchange only the cookie string it yields (or nothing) is
    represented: [login_reply] is that string when the request is answered
    with cookies, and nothing when it fails or brings none. *)
Definition performLogin (config : SwaggerConfig) : IO (option string) :=
  if negb (present (loginUrl config)) then ret None
  else if login_body_refused config then ret None
  else do _ <- emit (EvLogin config); ret (login_reply E config).

Definition buildAxiosConfig (config : SwaggerConfig) : IO AxiosRequestConfig :=
  let auth :=
    if present (token config) then Some ("Bearer " ++ text (token config))
    else if present (user config) && present (password config) then
      Some ("Basic " ++ base64 E (text (user config) ++ ":" ++ text (password config)))
    else None in
  do cookies' <-
    (if present (loginUrl config) then
       do loginCookies <- performLogin config;
       if present loginCookies then
         ret (if present (cookies config)
              then Some (text (cookies config) ++ "; " ++ text loginCookies)
              else loginCookies)
       else ret (cookies config)
     else ret (cookies config));
  ret {| authorization := auth;
         cookie := if present cookies' then cookies' else None |}.

(** An axios request: the promise resolves when [validateStatus] accepts
    the status and rejects otherwise. *)
Definition settle (validateStatus : Z -> bool) (t : transport) : IO response :=
  match t with
  | Replied status statusText headers data =>
      if validateStatus status then
        ret {| r_status := status; r_statusText := statusText;
               r_headers := headers; r_data := data |}
      else raise (AxiosStatus status statusText)
  | NoReply m => raise (AxiosNoResponse m)
  | NotSent m => raise (AxiosOther m)
  end.

Definition axios_head (u : string) (request : AxiosRequestConfig)
    (validateStatus : Z -> bool) : IO response :=
  do _ <- emit (EvHead u request);
  settle validateStatus (head_reply E u request).

Definition axios_get (u : string) (request : AxiosRequestConfig) : IO response :=
  do _ <- emit (EvGet u request);
  settle (fun status => (200 <=? status)%Z && (status <? 300)%Z) (get_reply E u request).

Definition readCacheEntry (filePath : string) : IO (option CacheEntry) :=
  fun w =>
    match disk w !! filePath with
    | Some (Stored entry) => (Done (Some entry), w)
    | _ => (Done None, w)
    end.

Definition ensureCacheDir : IO unit :=
  fun w =>
    if dir_exists w then (Done tt, w)
    else (Done tt, {| dir_exists := true; disk := disk w;
                      log := (log w ++ [EvMkdir])%list |}).

Definition writeFile (filePath : string) (entry : CacheEntry) : IO unit :=
  fun w =>
    match write_error E filePath with
    | Some m => (Failed (FsError m), w)
    | None =>
        (Done tt, {| dir_exists := dir_exists w;
                     disk := <[ filePath := Stored entry ]> (disk w);
                     log := (log w ++ [EvWrite filePath entry])%list |})
    end.

Definition writeCacheEntry (filePath : string) (entry : CacheEntry) : IO unit :=
  do _ <- ensureCacheDir;
  writeFile filePath entry.

(** Lines 1017-1031: the comparison of validators. *)
Definition validators_modified (headers : Headers) (cachedEntry : CacheEntry) : bool :=
  if present (h_etag headers) && present (etag cachedEntry) then
    negb (String.eqb (text (h_etag headers)) (text (etag cachedEntry)))
  else if present (h_last_modified headers) && present (lastModified cachedEntry) then
    negb (String.eqb (text (h_last_modified headers)) (text (lastModified cachedEntry)))
  else true.

Definition checkIfModified (config : SwaggerConfig) (cachedEntry : CacheEntry)
  : IO bool :=
  try_catch
    (do axiosConfig <- buildAxiosConfig config;
     do response <- axios_head (url config) axiosConfig (fun status => (status <? 500)%Z);
     if (r_status response =? 405)%Z then ret true
     else if (400 <=? r_status response)%Z then ret true
     else ret (validators_modified (r_headers response) cachedEntry))
    (fun _ => ret true).

Record fetched : Type := {
  f_spec : jsval;
  f_etag : option string;
  f_lastModified : option string
}.

Definition fetchSpec (config : SwaggerConfig) : IO fetched :=
  try_catch
    (do axiosConfig <- buildAxiosConfig config;
     do response <- axios_get (url config) axiosConfig;
     if negb (r_status response =? 200)%Z then
       raise (PlainError ("Failed to fetch spec: HTTP " ++ number_to_string (r_status response)))
     else
       ret {| f_spec := r_data response;
              f_etag := h_etag (r_headers response);
              f_lastModified := h_last_modified (r_headers response) |})
    (fun error =>
       match error with
       | AxiosStatus status statusText =>
           raise (PlainError ("Failed to fetch Swagger spec: HTTP "
                              ++ number_to_string status ++ " - " ++ statusText))
       | AxiosNoResponse m =>
           raise (PlainError ("Failed to fetch Swagger spec: No response from server ("
                              ++ m ++ ")"))
       | _ => raise (PlainError ("Failed to fetch Swagger spec: " ++ show_failure error))
       end).

Definition newEntry (config : SwaggerConfig) (f : fetched) : CacheEntry :=
  {| entry_url := url config;
     etag := f_etag f;
     lastModified := f_lastModified f;
     cachedAt := now_iso E;
     spec := f_spec f |}.

Definition getCachedSpec (config : SwaggerConfig) : IO jsval :=
  let cacheFilePath := getCacheFilePath (url config) in
  do cachedEntry <- readCacheEntry cacheFilePath;
  match cachedEntry with
  | None =>
      do f <- fetchSpec config;
      do _ <- writeCacheEntry cacheFilePath (newEntry config f);
      ret (f_spec f)
  | Some cachedEntry =>
      do isModified <- checkIfModified config cachedEntry;
      if negb isModified then ret (spec cachedEntry)
      else
        try_catch
          (do f <- fetchSpec config;
           do _ <- writeCacheEntry cacheFilePath (newEntry config f);
           ret (f_spec f))
          (fun _ => ret (spec cachedEntry))
  end.

End with_env.

(** An error that [fetchSpec] raises: every one is
    [new Error("Failed to fetch Swagger spec: ...")]. *)
Definition FetchError (e : failure) : Prop :=
  exists m, e = PlainError ("Failed to fetch Swagger spec: " ++ m).

(** The request configuration [buildAxiosConfig] yields for [config]. *)
Definition request_for (E : Env) (config : SwaggerConfig) : AxiosRequestConfig :=
  let auth :=
    if present (token config) then Some ("Bearer " ++ text (token config))
    else if present (user config) && present (password config) then
      Some ("Basic " ++ base64 E (text (user config) ++ ":" ++ text (password config)))
    else None in
  let loginCookies :=
    if logs_in E config then login_reply E config else None in
  let cookies' :=
    if present loginCookies then
      if present (cookies config)
      then Some (text (cookies config) ++ "; " ++ text loginCookies)
      else loginCookies
    else cookies config in
  {| authorization := auth; cookie := if present cookies' then cookies' else None |}.

(** What the remote answers to the lightweight check and to the full fetch. *)
Definition check_reply (E : Env) (config : SwaggerConfig) : transport :=
  head_reply E (url config) (request_for E config).

Definition fetch_reply (E : Env) (config : SwaggerConfig) : transport :=
  get_reply E (url config) (request_for E config).

(** The full fetch fails: the remote is unreachable or answers anything but 200. *)
Definition fetch_fails (E : Env) (config : SwaggerConfig) : bool :=
  match fetch_reply E config with
  | Replied status _ _ _ => negb (status =? 200)%Z
  | _ => true
  end.

(** The entry the cache holds for [config], if any. *)
Definition cached (E : Env) (config : SwaggerConfig) (w : World) : option CacheEntry :=
  match disk w !! getCacheFilePath E (url config) with
  | Some (Stored entry) => Some entry
  | _ => None
  end.

Definition add_events (w : World) (evs : list event) : World :=
  {| dir_exists := dir_exists w; disk := disk w; log := (log w ++ evs)%list |}.

(** The requests one call of [buildAxiosConfig] performs. *)
Definition login_events (E : Env) (config : SwaggerConfig) : list event :=
  if logs_in E config then [EvLogin config] else [].

Definition is_get (ev : event) : bool :=
  match ev with EvGet _ _ => true | _ => false end.

Definition is_write (ev : event) : bool :=
  match ev with EvWrite _ _ => true | _ => false end.

(** The freshness rule in the words of the specification (section 4.1, step 3):
    stale on an unsupported method, on a client or server error status, or when
    the remote omits both validators; otherwise stale when the remote's etag
    differs from the stored one; else stale when both sides lack an etag and
    the remote's last-modified differs from the stored one; else fresh. A check
    that itself fails counts as stale. *)
Definition stale_by_spec (check : transport) (cachedEntry : CacheEntry) : bool :=
  match check with
  | Replied status _ headers _ =>
      if (status =? 405)%Z || (400 <=? status)%Z
         || (negb (present (h_etag headers)) && negb (present (h_last_modified headers)))
      then true
      else if negb (bool_decide (h_etag headers = etag cachedEntry)) then true
      else if negb (present (h_etag headers)) && negb (present (etag cachedEntry))
              && negb (bool_decide (h_last_modified headers = lastModified cachedEntry))
      then true
      else false
  | _ => true
  end.

(** The rule the code follows: the etags are compared only when both sides
    carry one, the last-modified values only when both sides carry one, and
    with nothing to compare the cache is stale. *)
Definition stale_by_validators (check : transport) (cachedEntry : CacheEntry) : bool :=
  match check with
  | Replied status _ headers _ =>
      if (status =? 405)%Z || (400 <=? status)%Z then true
      else if present (h_etag headers) && present (etag cachedEntry) then
        negb (bool_decide (h_etag headers = etag cachedEntry))
      else if present (h_last_modified headers) && present (lastModified cachedEntry) then
        negb (bool_decide (h_last_modified headers = lastModified cachedEntry))
      else true
  | _ => true
  end.

(** No validator is an empty string. *)
Definition nonempty (o : option string) : bool :=
  match o with
  | Some s => negb (String.eqb s "")
  | None => true
  end.

Definition nonempty_validators (check : transport) (cachedEntry : CacheEntry) : bool :=
  nonempty (etag cachedEntry) && nonempty (lastModified cachedEntry)
  && match check with
     | Replied _ _ headers _ => nonempty (h_etag headers) && nonempty (h_last_modified headers)
     | _ => true
     end.

(** Exactly one side carries an etag while both carry the same last-modified,
    on a check that answered below 400. *)
Definition one_sided_etag (check : transport) (cachedEntry : CacheEntry) : bool :=
  match check with
  | Replied status _ headers _ =>
      (status <? 400)%Z
      && xorb (present (h_etag headers)) (present (etag cachedEntry))
      && present (h_last_modified headers)
      && bool_decide (h_last_modified headers = lastModified cachedEntry)
  | _ => false
  end.

(** ** Auxiliary notions for the properties of the cache *)

(** The events of one lightweight check. *)
Definition check_events (E : Env) (config : SwaggerConfig) : list event :=
  (login_events E config ++ [EvHead (url config) (request_for E config)])%list.

(** The events of one full fetch. *)
Definition fetch_events (E : Env) (config : SwaggerConfig) : list event :=
  (login_events E config ++ [EvGet (url config) (request_for E config)])%list.

(** The world a successful [writeCacheEntry] leaves. *)
Definition written (w : World) (path : string) (entry : CacheEntry) : World :=
  {| dir_exists := true;
     disk := <[ path := Stored entry ]> (disk w);
     log := (log w ++ (if dir_exists w then [] else [EvMkdir]) ++ [EvWrite path entry])%list |}.

(** The entry written after a successful full fetch. *)
Definition refreshed (E : Env) (config : SwaggerConfig) (headers : Headers)
    (doc : jsval) : CacheEntry :=
  {| entry_url := url config;
     etag := h_etag headers;
     lastModified := h_last_modified headers;
     cachedAt := now_iso E;
     spec := doc |}.

(** ** [clearCache]

    Removing a file can be refused by the filesystem: [unlink_error] says for
    which paths, and with which message. *)

Section removal.

Variable E : Env.
Variable unlink_error : string -> option string.

Definition existsSync (filePath : string) : IO bool :=
  fun w => (Done (bool_decide (is_Some (disk w !! filePath))), w).

Definition unlink (filePath : string) : IO unit :=
  fun w =>
    match disk w !! filePath with
    | None =>
        (Failed (FsError ("ENOENT: no such file or directory, unlink '" ++ filePath ++ "'")),
         w)
    | Some _ =>
        match unlink_error filePath with
        | Some m => (Failed (FsError m), w)
        | None =>
            (Done tt, {| dir_exists := dir_exists w;
                         disk := delete filePath (disk w);
                         log := log w |})
        end
    end.

Definition clearCache (u : string) : IO unit :=
  let cacheFilePath := getCacheFilePath E u in
  do found <- existsSync cacheFilePath;
  if found then unlink cacheFilePath else ret tt.

End removal.

(** ** Further notions for the properties of the cache *)

Definition is_login (ev : event) : bool :=
  match ev with EvLogin _ => true | _ => false end.

Definition is_head (ev : event) : bool :=
  match ev with EvHead _ _ => true | _ => false end.

(** The events of the filesystem. *)
Definition is_disk_event (ev : event) : bool :=
  match ev with EvMkdir | EvWrite _ _ => true | _ => false end.

(** The two sides share no validator: no etag on both, no last-modified on
    both. *)
Definition no_common_validator (check : transport) (cachedEntry : CacheEntry) : bool :=
  match check with
  | Replied _ _ headers _ =>
      negb (present (h_etag headers) && present (etag cachedEntry))
      && negb (present (h_last_modified headers) && present (lastModified cachedEntry))
  | _ => true
  end.

(** The events a call of [getCachedSpec] adds to the log. *)
Definition events_of (E : Env) (config : SwaggerConfig) (w : World) : list event :=
  drop (List.length (log w)) (log (snd (getCachedSpec E config w))).

End Cache.

(** ** A concrete remote, configuration and cache *)

Module Scenario.
Import Cache.

Definition remote (check fetch : transport) : Env :=
  {| sha256_hex := fun u => u;
     base64 := fun x => x;
     cache_dir := "/home/u/.mcp-swagger-client/cache";
     now_iso := "2025-01-01T00:00:00.000Z";
     to_upper := ascii_upper;
     json_parses := fun _ => false;
     login_reply := fun _ => None;
     head_reply := fun _ _ => check;
     get_reply := fun _ _ => fetch;
     write_error := fun _ => None |}.

Definition config : SwaggerConfig :=
  {| url := "https://api.example.com/openapi.json";
     user := None; password := None; token := Some "secret"; cookies := None;
     loginUrl := None; loginMethod := None; loginBody := None |}.

Definition doc_v1 : jsval := JObj [("openapi", JStr "3.0.0"); ("paths", JObj [])].
Definition doc_v2 : jsval := JObj [("openapi", JStr "3.0.1"); ("paths", JObj [])].

Definition entry (tag modified : option string) : CacheEntry :=
  {| entry_url := url config; etag := tag; lastModified := modified;
     cachedAt := "2024-06-01T00:00:00.000Z"; spec := doc_v1 |}.

Definition path : string :=
  "/home/u/.mcp-swagger-client/cache/https://api.example.com/openapi.json.json".

Definition world (e : CacheEntry) : World :=
  {| dir_exists := true; disk := {[ path := Stored e ]}; log := [] |}.

Definition empty_world : World :=
  {| dir_exists := false; disk := ∅; log := [] |}.

Definition ok (tag modified : option string) (doc : jsval) : transport :=
  Replied 200 "OK" {| h_etag := tag; h_last_modified := modified |} doc.

End Scenario.

(** ** The client: [src/swagger-client.ts]

    Every method of [SwaggerClient] first takes the document from [getSpec]
    and then computes its answer from the document alone; that second part is
    written as a function of the document, named after the method with the
    suffix [_of]. Case conversion of strings and the numeric value of a
    string are parameters: the properties hold whatever they are. *)

Module Client.
Import Parser Cache.

(** *** What the methods need of JavaScript *)

(** [Object.entries(v)]: a TypeError on undefined and null. *)
Definition entries (v : jsval) : completion (list (string * jsval)) :=
  if nullish v then Throw JsTypeError else Ok (own_entries v).

(** The values [for (const x of v)] and [...v] run through: the elements of
    an array, the characters of a string, a TypeError on anything else. *)
Definition iterate (v : jsval) : completion (list jsval) :=
  match v with
  | JArr l => Ok l
  | JStr s => Ok (map JStr (chars s))
  | _ => Throw JsTypeError
  end.

(** [s.includes(sub)] *)
Fixpoint includes (s sub : string) : bool :=
  String.prefix sub s
  || match s with
     | EmptyString => false
     | String _ s' => includes s' sub
     end.

(** [l.some(f)]: stops at the first element [f] accepts. *)
Fixpoint some (f : jsval -> completion bool) (l : list jsval) : completion bool :=
  match l with
  | [] => Ok false
  | x :: rest => let! b := f x in if b then Ok true else some f rest
  end.

(** A loop that updates a state, stopping at the first exception. *)
Fixpoint rfoldM {A S} (f : S -> A -> completion S) (s : S) (l : list A) : completion S :=
  match l with
  | [] => Ok s
  | x :: rest => let! s' := f s x in rfoldM f s' rest
  end.

(** The names every object inherits from [Object.prototype]: a plain object
    answers them although it does not own them. *)
Definition inherited : list string := own_names KObject.

Definition methods : list string :=
  ["get"; "post"; "put"; "delete"; "patch"; "options"; "head"; "trace"].

(** *** The answers *)

Record SearchApiResult : Type := {
  result_path : string;
  result_method : string;
  result_description : jsval
}.

Record SearchApiResponse : Type := {
  results : list SearchApiResult;
  search_total : nat
}.

Record ApiEndpoint : Type := {
  endpoint_path : string;
  endpoint_method : string;
  endpoint_operationId : jsval;
  endpoint_summary : jsval;
  endpoint_tags : jsval
}.

Record ListAllApiResponse : Type := {
  endpoints : list ApiEndpoint;
  list_total : nat;
  groupedByTag : list (string * list ApiEndpoint)
}.

Record ApiDetailsResponse : Type := {
  details_path : string;
  details_method : string;
  details_operationId : jsval;
  details_summary : jsval;
  details_description : jsval;
  details_tags : jsval;
  details_parameters : list jsval;
  details_requestBody : jsval;
  details_responses : list (string * jsval);
  details_security : jsval
}.

(** The two shapes [getModelDetails] returns. *)
Inductive ModelDetailsResponse : Type :=
| ObjectModel (name : string) (type description required properties : jsval)
| OtherModel (name : string) (type description schema : jsval).

Record SwaggerClient : Type := {
  config : SwaggerConfig;
  spec : jsval
}.

(** [new SwaggerClient(config)]: no document yet. *)
Definition new_client (c : SwaggerConfig) : SwaggerClient :=
  {| config := c; spec := JNull |}.

(** A group that does not exist reads as undefined. *)
#[export] Instance group_undefined : Undefined (list ApiEndpoint) := [].

Section methods.

Variable E : Env.
Variable toLowerCase toUpperCase : string -> string.
(** [s > 0] for a string [s], by its numeric value. *)
Variable numeric_positive : string -> bool.
(** What a built-in function answers under a name. *)
Variable builtin : native -> string -> answer.

(** *** [getSpec] and [refreshSpec] *)

Definition getSpec (c : SwaggerClient) : IO (jsval * SwaggerClient) :=
  if negb (truthy (spec c)) then
    do s <- getCachedSpec E (config c);
    ret (s, {| config := config c; spec := s |})
  else ret (spec c, c).

Definition refreshSpec (c : SwaggerClient) : IO (jsval * SwaggerClient) :=
  do s <- getCachedSpec E (config c);
  ret (s, {| config := config c; spec := s |}).

(** A method: the document from [getSpec], then the answer computed from it. *)
Definition with_spec {A} (answer : jsval -> completion A) (c : SwaggerClient)
  : IO (completion A * SwaggerClient) :=
  do r <- getSpec c;
  ret (answer (fst r), snd r).

(** *** [searchApi] *)

(** [v?.toLowerCase().includes(lowerQuery)]: undefined when [v] is undefined
    or null, a TypeError when [v] is not a string. *)
Definition lower_includes (lowerQuery : string) (v : jsval) : completion jsval :=
  match v with
  | JUndefined | JNull => Ok JUndefined
  | JStr s => Ok (JBool (includes (toLowerCase s) lowerQuery))
  | _ => Throw JsTypeError
  end.

(** [tag.toLowerCase().includes(lowerQuery)] *)
Definition tag_matches (lowerQuery : string) (tag : jsval) : completion bool :=
  match tag with
  | JStr s => Ok (includes (toLowerCase s) lowerQuery)
  | _ => Throw JsTypeError
  end.

(** [operation.tags?.some(...)] *)
Definition tags_match (lowerQuery : string) (tags : jsval) : completion jsval :=
  match tags with
  | JUndefined | JNull => Ok JUndefined
  | JArr l => let! b := some (tag_matches lowerQuery) l in Ok (JBool b)
  | _ => Throw JsTypeError
  end.

(** [param.name?.toLowerCase().includes(q) || param.description?. ...] *)
Definition param_matches (lowerQuery : string) (param : jsval) : completion bool :=
  let! name := get_prop param "name" in
  let! byName := lower_includes lowerQuery name in
  if truthy byName then Ok true
  else
    let! description := get_prop param "description" in
    let! byDescription := lower_includes lowerQuery description in
    Ok (truthy byDescription).

(** [operation.parameters?.some(...)] *)
Definition params_match (lowerQuery : string) (parameters : jsval) : completion jsval :=
  match parameters with
  | JUndefined | JNull => Ok JUndefined
  | JArr l => let! b := some (param_matches lowerQuery) l in Ok (JBool b)
  | _ => Throw JsTypeError
  end.

(** The array [matches], all of whose seven elements are evaluated, and
    [.some(Boolean)] on it. *)
Definition operation_matches (lowerQuery path method : string) (operation : jsval)
  : completion bool :=
  let byPath := includes (toLowerCase path) lowerQuery in
  let byMethod := includes (toLowerCase method) lowerQuery in
  let! summary := get_prop operation "summary" in
  let! bySummary := lower_includes lowerQuery summary in
  let! description := get_prop operation "description" in
  let! byDescription := lower_includes lowerQuery description in
  let! operationId := get_prop operation "operationId" in
  let! byOperationId := lower_includes lowerQuery operationId in
  let! tags := get_prop operation "tags" in
  let! byTags := tags_match lowerQuery tags in
  let! parameters := get_prop operation "parameters" in
  let! byParameters := params_match lowerQuery parameters in
  Ok (byPath || byMethod || truthy bySummary || truthy byDescription
      || truthy byOperationId || truthy byTags || truthy byParameters).

(** One round of the inner loop: the result pushed, if any. *)
Definition search_operation (lowerQuery path : string) (pathItem : jsval) (method : string)
  : completion (list SearchApiResult) :=
  let! operation := get_prop pathItem method in
  if negb (truthy operation) then Ok []
  else
    let! matches := operation_matches lowerQuery path method operation in
    if matches then
      let! summary := get_prop operation "summary" in
      let! description := get_prop operation "description" in
      Ok [{| result_path := path;
             result_method := toUpperCase method;
             result_description :=
               or_else (or_else summary description)
                 (JStr (toUpperCase method ++ " " ++ path)) |}]
    else Ok [].

(** One round of the outer loop. *)
Definition search_path (lowerQuery : string) (entry : string * jsval)
  : completion (list SearchApiResult) :=
  if negb (truthy (snd entry)) then Ok []
  else
    let! found := rmapM (search_operation lowerQuery (fst entry) (snd entry)) methods in
    Ok (concat found).

Definition searchApi_of (query : string) (doc : jsval) : completion SearchApiResponse :=
  let! normalized := normalizeSpec doc in
  let lowerQuery := toLowerCase query in
  let! paths := entries (n_paths normalized) in
  let! found := rmapM (search_path lowerQuery) paths in
  let results := concat found in
  Ok {| results := results; search_total := List.length results |}.

Definition searchApi (query : string) (c : SwaggerClient)
  : IO (completion SearchApiResponse * SwaggerClient) :=
  with_spec (searchApi_of query) c.

(** *** [listAllApi] *)

(** [v > 0]: numbers and booleans by their value, strings by the numeric
    value of their text, arrays and objects by that of their string
    conversion (which can fail; the text of an object is no number). *)
Definition positive (v : jsval) : completion bool :=
  match v with
  | JNum n => Ok (0 <? n)%Z
  | JBool b => Ok b
  | JStr s => Ok (numeric_positive s)
  | JArr _ => let! text := to_string v in Ok (numeric_positive text)
  | JObj _ => let! _ := to_string v in Ok false
  | JUndefined | JNull | JNative _ => Ok false
  end.

(** [if (!groupedByTag[tag]) groupedByTag[tag] = []; groupedByTag[tag].push(endpoint)]:
    under a name the object inherits, what is found is not an array and
    [.push] is a TypeError. *)
Definition add_to_group (tag : string) (endpoint : ApiEndpoint)
    (groups : list (string * list ApiEndpoint))
  : completion (list (string * list ApiEndpoint)) :=
  if has_field tag groups then
    Ok (set_field tag (get_field tag groups ++ [endpoint])%list groups)
  else if bool_decide (tag ∈ inherited) then Throw JsTypeError
  else Ok (set_field tag [endpoint] groups).

(** One round of the inner loop, on the endpoints and the groups so far. *)
Definition list_operation (path : string) (pathItem : jsval)
    (state : list ApiEndpoint * list (string * list ApiEndpoint)) (method : string)
  : completion (list ApiEndpoint * list (string * list ApiEndpoint)) :=
  let! operation := get_prop pathItem method in
  if negb (truthy operation) then Ok state
  else
    let! operationId := get_prop operation "operationId" in
    let! summary := get_prop operation "summary" in
    let! tags := get_prop operation "tags" in
    let endpoint :=
      {| endpoint_path := path;
         endpoint_method := toUpperCase method;
         endpoint_operationId := operationId;
         endpoint_summary := summary;
         endpoint_tags := tags |} in
    let endpoints := (fst state ++ [endpoint])%list in
    let! tagged :=
      if truthy tags then let! n := get_prop tags "length" in positive n
      else Ok false in
    if tagged then
      let! each := iterate tags in
      let! groups :=
        rfoldM (fun groups tag =>
                  let! key := to_string tag in add_to_group key endpoint groups)
          (snd state) each in
      Ok (endpoints, groups)
    else
      let! groups := add_to_group "Untagged" endpoint (snd state) in
      Ok (endpoints, groups).

(** One round of the outer loop. *)
Definition list_path (state : list ApiEndpoint * list (string * list ApiEndpoint))
    (entry : string * jsval)
  : completion (list ApiEndpoint * list (string * list ApiEndpoint)) :=
  if negb (truthy (snd entry)) then Ok state
  else rfoldM (list_operation (fst entry) (snd entry)) state methods.

Definition listAllApi_of (doc : jsval) : completion ListAllApiResponse :=
  let! normalized := normalizeSpec doc in
  let! paths := entries (n_paths normalized) in
  let! state := rfoldM list_path ([], []) paths in
  Ok {| endpoints := fst state;
        list_total := List.length (fst state);
        groupedByTag := snd state |}.

Definition listAllApi (c : SwaggerClient)
  : IO (completion ListAllApiResponse * SwaggerClient) :=
  with_spec listAllApi_of c.

(** *** [getApiDetails] *)

(** The callback of [parameters.map]: only a schema that is itself a
    reference is resolved. *)
Definition resolve_parameter (doc param : jsval) : completion jsval :=
  let! schema := get_prop param "schema" in
  if truthy schema then
    let! ref := get_prop schema "$ref" in
    if truthy ref then
      let! resolved := resolveSchema doc schema in
      Ok (JObj (spread2 param [("schema", resolved)]))
    else Ok param
  else Ok param.

(** The callback over the entries of a [content] object. *)
Definition resolve_media (doc : jsval) (entry : string * jsval)
  : completion (string * jsval) :=
  let! schema := get_prop (snd entry) "schema" in
  if truthy schema then
    let! resolved := resolveSchema doc schema in
    Ok (fst entry, JObj (spread2 (snd entry) [("schema", resolved)]))
  else Ok entry.

(** [if (x.content) x.content = Object.fromEntries(Object.entries(x.content).map(...))] *)
Definition resolve_content (doc : jsval) (x : list (string * jsval))
  : completion (list (string * jsval)) :=
  let content := get_field "content" x in
  if truthy content then
    let! resolved := rmapM (resolve_media doc) (own_entries content) in
    Ok (set_field "content" (JObj resolved) x)
  else Ok x.

(** One round of the loop over [operation.responses]. The assignment
    [responses[statusCode] = resolvedResponse] adds a property, except under
    the name [__proto__]: there it calls the setter that [Object.prototype]
    holds, and [responses] gets no property. *)
Definition resolve_response (doc : jsval) (responses : list (string * jsval))
    (entry : string * jsval) : completion (list (string * jsval)) :=
  let resolvedResponse := own_entries (snd entry) in
  let! resolvedResponse := resolve_content doc resolvedResponse in
  let schema := get_field "schema" resolvedResponse in
  let! resolvedResponse :=
    if truthy schema then
      let! resolved := resolveSchema doc schema in
      Ok (set_field "schema" resolved resolvedResponse)
    else Ok resolvedResponse in
  Ok (if String.eqb (fst entry) "__proto__" then responses
      else set_field (fst entry) (JObj resolvedResponse) responses).

(** [if (v) parameters.push(...v)] *)
Definition pushed (v : jsval) : completion (list jsval) :=
  if truthy v then iterate v else Ok [].

Definition getApiDetails_of (path method : string) (doc : jsval)
  : completion (option ApiDetailsResponse) :=
  let! normalized := normalizeSpec doc in
  let! pathItem := get_elem builtin (n_paths normalized) path in
  if negb (truthy pathItem) then Ok None
  else
    let methodLower := toLowerCase method in
    let! operation := get_elem builtin pathItem methodLower in
    if negb (truthy operation) then Ok None
    else
      let! pathParameters := get_prop pathItem "parameters" in
      let! fromPath := pushed pathParameters in
      let! operationParameters := get_prop operation "parameters" in
      let! fromOperation := pushed operationParameters in
      let parameters := (fromPath ++ fromOperation)%list in
      let! resolvedParameters := rmapM (resolve_parameter doc) parameters in
      let! body := get_prop operation "requestBody" in
      let! requestBody :=
        if truthy body then
          let! resolved := resolve_content doc (own_entries body) in
          Ok (JObj resolved)
        else Ok JNull in
      let! declared := get_prop operation "responses" in
      let! each := entries declared in
      let! responses := rfoldM (resolve_response doc) [] each in
      let! operationId := get_prop operation "operationId" in
      let! summary := get_prop operation "summary" in
      let! description := get_prop operation "description" in
      let! tags := get_prop operation "tags" in
      let! security := get_prop operation "security" in
      Ok (Some {| details_path := path;
                  details_method := toUpperCase method;
                  details_operationId := operationId;
                  details_summary := summary;
                  details_description := description;
                  details_tags := tags;
                  details_parameters := resolvedParameters;
                  details_requestBody := requestBody;
                  details_responses := responses;
                  details_security := security |}).

Definition getApiDetails (path method : string) (c : SwaggerClient)
  : IO (completion (option ApiDetailsResponse) * SwaggerClient) :=
  with_spec (getApiDetails_of path method) c.

(** *** [getModelDetails] and [listModels] *)

Definition getModelDetails_of (modelName : string) (doc : jsval)
  : completion (option ModelDetailsResponse) :=
  let! schema := getModelByName builtin doc modelName in
  if negb (truthy schema) then Ok None
  else
    let! resolvedSchema := resolveSchema doc schema in
    let cleanName := clean_name modelName in
    let! type := get_prop resolvedSchema "type" in
    let! properties := get_prop resolvedSchema "properties" in
    let! description := get_prop resolvedSchema "description" in
    if strict_eq_str type "object" || truthy properties then
      let! required := get_prop resolvedSchema "required" in
      Ok (Some (ObjectModel cleanName (or_else type (JStr "object")) description
                  required properties))
    else
      let! description :=
        if truthy description then Ok description
        else let! generated := getSchemaDescription resolvedSchema in Ok (JStr generated) in
      Ok (Some (OtherModel cleanName type description resolvedSchema)).

Definition getModelDetails (modelName : string) (c : SwaggerClient)
  : IO (completion (option ModelDetailsResponse) * SwaggerClient) :=
  with_spec (getModelDetails_of modelName) c.

Definition listModels_of (doc : jsval) : completion (list string) :=
  let! version := detectVersion doc in
  match version with
  | V2 => Ok (keys (or_else (get_own doc "definitions") (JObj [])))
  | V3plus =>
      Ok (keys (or_else (opt_chain (get_own doc "components") "schemas") (JObj [])))
  end.

Definition listModels (c : SwaggerClient) : IO (completion (list string) * SwaggerClient) :=
  with_spec listModels_of c.

(** *** Auxiliary notions for the properties of the client *)

(** The operations of a document: for each truthy path item, in the order of
    the document, the methods, in their fixed order, under which the item
    holds a truthy value. *)
Definition operations_of (paths : list (string * jsval)) : list (string * string * jsval) :=
  flat_map
    (fun entry =>
       if truthy (snd entry) then
         flat_map
           (fun method =>
              let operation := opt_chain (snd entry) method in
              if truthy operation then [(fst entry, method, operation)] else [])
           methods
       else [])
    paths.

(** The endpoint [listAllApi] builds for an operation. *)
Definition endpoint_of (o : string * string * jsval) : ApiEndpoint :=
  {| endpoint_path := fst (fst o);
     endpoint_method := toUpperCase (snd (fst o));
     endpoint_operationId := opt_chain (snd o) "operationId";
     endpoint_summary := opt_chain (snd o) "summary";
     endpoint_tags := opt_chain (snd o) "tags" |}.

(** The names of the groups an endpoint belongs to, by its tags. *)
Definition group_names (e : ApiEndpoint) : list string :=
  let tags := endpoint_tags e in
  match (if truthy tags then positive (opt_chain tags "length") else Ok false) with
  | Ok true =>
      match (let! each := iterate tags in rmapM to_string each) with
      | Ok names => names
      | Throw _ => []
      end
  | Ok false => ["Untagged"]
  | Throw _ => []
  end.

(** The path and method of a result and of an operation. *)
Definition result_key (r : SearchApiResult) : string * string :=
  (result_path r, result_method r).

Definition operation_key (o : string * string * jsval) : string * string :=
  (fst (fst o), toUpperCase (snd (fst o))).

(** The client holds the document [doc]. *)
Definition holds (c : SwaggerClient) (doc : jsval) : Prop :=
  spec c = doc /\ truthy doc = true.

End methods.

(** A document with three operations under two paths. *)
Definition described (text : string) : jsval :=
  JObj [("200", JObj [("description", JStr text)])].

Definition petstore : jsval :=
  JObj [("openapi", JStr "3.0.0");
        ("info", JObj [("title", JStr "Pets"); ("version", JStr "1.0")]);
        ("paths",
         JObj [("/pets",
                JObj [("get", JObj [("summary", JStr "List pets");
                                    ("tags", JArr [JStr "pets"; JStr "read"]);
                                    ("responses", described "all pets")]);
                      ("post", JObj [("operationId", JStr "createPet");
                                     ("tags", JArr [JStr "pets"]);
                                     ("responses", described "created")])]);
               ("/owners",
                JObj [("get", JObj [("summary", JStr "List owners");
                                    ("responses", described "all owners")])])])].

(** A document with one operation, under the one tag [tag]. *)
Definition tagged_doc (tag : string) : jsval :=
  JObj [("openapi", JStr "3.0.0");
        ("info", JObj [("title", JStr "Things"); ("version", JStr "1.0")]);
        ("paths",
         JObj [("/things",
                JObj [("get", JObj [("tags", JArr [JStr tag]);
                                    ("responses", described "ok")])])])].

(** The schema of a parameter is itself a reference. *)
Definition schema_is_reference (param : jsval) : bool :=
  truthy (opt_chain param "schema")
  && truthy (opt_chain (opt_chain param "schema") "$ref").

(** A document (of version 3.1, where [responses] may be omitted) whose one
    operation has a parameter with a reference nested in its schema and
    declares no responses, and the same document with responses. *)
Definition ids_parameter : jsval :=
  JObj [("name", JStr "ids"); ("in", JStr "query");
        ("schema", JObj [("type", JStr "array");
                         ("items", JObj [("$ref", JStr "#/components/schemas/Id")])])].

Definition lookup_doc (operation : jsval) : jsval :=
  JObj [("openapi", JStr "3.1.0");
        ("info", JObj [("title", JStr "Lookup"); ("version", JStr "1.0")]);
        ("paths", JObj [("/lookup", JObj [("get", operation)])]);
        ("components", JObj [("schemas", JObj [("Id", JObj [("type", JStr "string")])])])].

(** *** [checkApi]

    What the method needs of its surroundings: [new URL], [URLSearchParams],
    [JSON.stringify], [fetch], the clock, and how a response gives up its
    body. A response body can be read once: [response.json()] uses it up
    whether or not the text parses, so a [response.text()] that follows fails
    (the error is [body_unusable]). *)

Record CheckApiRequest : Type := {
  request_path : string;
  request_method : string;
  request_body : jsval;
  request_queryParams : jsval;
  request_headers : jsval
}.

(** The options handed to [fetch]. *)
Record RequestInit : Type := {
  init_method : string;
  init_headers : list (string * jsval);
  init_body : option string
}.

(** A response: its status line, its headers as [forEach] yields them
    (names in lower case; a header named [__proto__] is yielded but the
    assignment that collects it adds no property), and its body: the text, or the error of reading
    it, and the value the text parses to as JSON, if it does. *)
Record Response : Type := {
  response_status : Z;
  response_statusText : string;
  response_headers : list (string * string);
  response_text : string + string;
  response_json : option jsval
}.

Inductive fetched : Type :=
| Answered (response : Response)
| Unanswered (error : string).

Record CheckApiResponse : Type := {
  check_status : Z;
  check_statusText : string;
  check_headers : list (string * string);
  check_data : jsval;
  check_requestUrl : string;
  check_executionTime : Z
}.

(** [headers.get(name)], on the headers as [forEach] yields them. *)
Fixpoint header_value (name : string) (headers : list (string * string)) : option string :=
  match headers with
  | [] => None
  | (k, v) :: rest => if String.eqb k name then Some v else header_value name rest
  end.

Section checking.

Variable E : Env.
Variable toUpperCase : string -> string.
(** [`${u.protocol}//${u.host}`] for [u = new URL(s)]; nothing when [new URL] throws. *)
Variable url_origin : string -> option string.
(** [new URLSearchParams(q).toString()] *)
Variable search_params : jsval -> completion string.
Variable json_stringify : jsval -> string.
Variable fetch : string -> RequestInit -> fetched.
(** The readings of the clock, in the order they are taken. *)
Variable now : nat -> Z.
(** The text of the error raised by reading a body that was read before. *)
Variable body_unusable : string.

(** The three ways of [checkApi] to authenticate, one at most. *)
Definition authenticated (cfg : SwaggerConfig) (headers : list (string * jsval))
  : list (string * jsval) :=
  if present (token cfg) then
    set_field "Authorization" (JStr ("Bearer " ++ text (token cfg))) headers
  else if present (user cfg) && present (password cfg) then
    set_field "Authorization"
      (JStr ("Basic " ++ base64 E (text (user cfg) ++ ":" ++ text (password cfg)))) headers
  else if present (cookies cfg) then set_field "Cookie" (JStr (text (cookies cfg))) headers
  else headers.

(** Lines 364-419: the address and the options of the request. *)
Definition checkApi_request (cfg : SwaggerConfig) (request : CheckApiRequest) (doc : jsval)
  : completion (string * RequestInit) :=
  let! normalized := normalizeSpec doc in
  let baseUrl := or_else (n_baseUrl normalized) (JStr "") in
  let! baseUrl :=
    if negb (truthy baseUrl) then
      match url_origin (url cfg) with
      | Some origin => Ok (JStr origin)
      | None => Throw (JsError "Could not determine base URL for API requests")
      end
    else Ok baseUrl in
  let! base := to_string baseUrl in
  let fullUrl := base ++ request_path request in
  let queryParams := request_queryParams request in
  let! fullUrl :=
    if truthy queryParams && negb (Nat.eqb (List.length (keys queryParams)) 0) then
      let! params := search_params queryParams in
      Ok (fullUrl ++ "?" ++ params)
    else Ok fullUrl in
  let headers :=
    authenticated cfg
      (assign [("Content-Type", JStr "application/json")]
         (own_entries (request_headers request))) in
  let method := toUpperCase (request_method request) in
  let body :=
    if truthy (request_body request) && negb (bool_decide (method ∈ ["GET"; "HEAD"])) then
      Some (match request_body request with
            | JStr s => s
            | b => json_stringify b
            end)
    else None in
  Ok (fullUrl, {| init_method := method; init_headers := headers; init_body := body |}).

(** The error [checkApi] raises for whatever goes wrong from [fetch] on. *)
Definition request_failed (readings : nat) (error : string) : exn :=
  JsError ("Request failed after " ++ number_to_string (now readings - now 0) ++ "ms: " ++ error).

(** Lines 421-455: the response turned into the answer. *)
Definition checkApi_answer (fullUrl : string) (outcome : fetched)
  : completion CheckApiResponse :=
  match outcome with
  | Unanswered error => Throw (request_failed 1 error)
  | Answered response =>
      let executionTime := (now 1 - now 0)%Z in
      let contentType := default "" (header_value "content-type" (response_headers response)) in
      let data :=
        if includes contentType "application/json" then
          match response_text response, response_json response with
          | inl _, Some parsed => inl parsed
          | _, _ => inr body_unusable
          end
        else
          match response_text response with
          | inl text => inl (JStr text)
          | inr error => inr error
          end in
      match data with
      | inl data =>
          Ok {| check_status := response_status response;
                check_statusText := response_statusText response;
                check_headers :=
                  assign [] (List.filter (fun kv => negb (String.eqb (fst kv) "__proto__"))
                               (response_headers response));
                check_data := data;
                check_requestUrl := fullUrl;
                check_executionTime := executionTime |}
      | inr error => Throw (request_failed 2 error)
      end
  end.

Definition checkApi_of (cfg : SwaggerConfig) (request : CheckApiRequest) (doc : jsval)
  : completion CheckApiResponse :=
  let! prepared := checkApi_request cfg request doc in
  checkApi_answer (fst prepared) (fetch (fst prepared) (snd prepared)).

Definition checkApi (request : CheckApiRequest) (c : SwaggerClient)
  : IO (completion CheckApiResponse * SwaggerClient) :=
  with_spec E (checkApi_of (config c) request) c.

End checking.

(** A request and a configuration for the examples. *)
Definition list_pets : CheckApiRequest :=
  {| request_path := "/pets";
     request_method := "get";
     request_body := JObj [("ignored", JBool true)];
     request_queryParams := JUndefined;
     request_headers := JObj [("Authorization", JStr "Bearer of-the-caller")] |}.

Definition token_and_cookies : SwaggerConfig :=
  {| url := "https://api.example.com/openapi.json";
     user := None; password := None; token := Some "secret";
     cookies := Some "session=1";
     loginUrl := None; loginMethod := None; loginBody := None |}.

Definition json_response (text : string) (parsed : option jsval) : Response :=
  {| response_status := 200;
     response_statusText := "OK";
     response_headers := [("content-type", "application/json; charset=utf-8")];
     response_text := inl text;
     response_json := parsed |}.

End Client.

(** * Properties of the spec cache *)

Module CacheFacts.
Import Cache.

Lemma add_events_nil w : add_events w [] = w.
Proof. destruct w; unfold add_events; simpl. by rewrite app_nil_r. Qed.

Lemma add_events_app w evs1 evs2 :
  add_events (add_events w evs1) evs2 = add_events w (evs1 ++ evs2)%list.
Proof. unfold add_events; simpl. by rewrite app_assoc. Qed.

Lemma buildAxiosConfig_run E config w :
  buildAxiosConfig E config w
  = (Done (request_for E config), add_events w (login_events E config)).
Proof.
  unfold buildAxiosConfig, request_for, login_events, logs_in, performLogin, bind, ret, emit.
  destruct (present (loginUrl config)) eqn:Hl; simpl.
  - destruct (login_body_refused E config); simpl.
    + by rewrite add_events_nil.
    + destruct (present (login_reply E config)); reflexivity.
  - by rewrite add_events_nil.
Qed.

Lemma checkIfModified_run E config entry w :
  checkIfModified E config entry w
  = (Done (stale_by_validators (check_reply E config) entry),
     add_events w (check_events E config)).
Proof.
  unfold checkIfModified, try_catch, bind at 1.
  rewrite buildAxiosConfig_run.
  unfold axios_head, bind, emit, settle, check_events, stale_by_validators, check_reply.
  cbn [dir_exists disk log add_events].
  rewrite <- app_assoc.
  destruct (head_reply E (url config) (request_for E config))
    as [status statusText headers data | m | m]; try reflexivity.
  unfold ret, raise. cbn [r_status r_headers].
  destruct (status <? 500)%Z eqn:H5; cbn [r_status r_headers].
  - destruct (status =? 405)%Z eqn:H405; [reflexivity|].
    destruct (400 <=? status)%Z eqn:H400; [reflexivity|].
    cbn [orb]. unfold validators_modified.
    assert (Hopt : forall a b : option string, present a = true -> present b = true ->
              negb (String.eqb (text a) (text b)) = negb (bool_decide (a = b))).
    { intros [a|] [b|] Ha Hb; try discriminate. simpl. f_equal.
      destruct (String.eqb_spec a b) as [->|Hne].
      - by rewrite bool_decide_eq_true_2.
      - rewrite bool_decide_eq_false_2; [done|congruence]. }
    destruct (present (h_etag headers)) eqn:He1, (present (etag entry)) eqn:He2;
      cbn [andb]; try (rewrite Hopt by done; reflexivity);
      destruct (present (h_last_modified headers)) eqn:Hm1,
               (present (lastModified entry)) eqn:Hm2;
      cbn [andb]; try (rewrite Hopt by done; reflexivity); reflexivity.
  - assert ((400 <=? status)%Z = true) as -> by lia.
    by rewrite orb_true_r.
Qed.

Lemma fetchSpec_ok E config w statusText headers data :
  fetch_reply E config = Replied 200 statusText headers data ->
  fetchSpec E config w
  = (Done {| f_spec := data; f_etag := h_etag headers;
             f_lastModified := h_last_modified headers |},
     add_events w (fetch_events E config)).
Proof.
  intros Hr. unfold fetchSpec, try_catch, bind at 1.
  rewrite buildAxiosConfig_run.
  unfold axios_get, bind, emit, settle, fetch_events. unfold fetch_reply in Hr.
  cbn [dir_exists disk log add_events]. rewrite Hr. cbn.
  by rewrite <- app_assoc.
Qed.

Lemma fetchSpec_fails E config w :
  fetch_fails E config = true ->
  exists m,
    fetchSpec E config w
    = (Failed (PlainError ("Failed to fetch Swagger spec: " ++ m)),
       add_events w (fetch_events E config)).
Proof.
  unfold fetch_fails, fetch_reply. intros Hf.
  unfold fetchSpec, try_catch, bind at 1.
  rewrite buildAxiosConfig_run.
  unfold axios_get, bind, emit, settle, fetch_events.
  cbn [dir_exists disk log add_events]. rewrite <- app_assoc.
  destruct (get_reply E (url config) (request_for E config))
    as [status statusText headers data | m | m].
  - destruct ((200 <=? status)%Z && (status <? 300)%Z) eqn:H2; unfold ret, raise.
    + cbn [r_status]. rewrite Hf. cbn [negb]. eexists. reflexivity.
    + eexists. reflexivity.
  - eexists. reflexivity.
  - eexists. reflexivity.
Qed.

Lemma fetch_fails_false E config :
  fetch_fails E config = false ->
  exists statusText headers data,
    fetch_reply E config = Replied 200 statusText headers data.
Proof.
  unfold fetch_fails. destruct (fetch_reply E config) as [status st hd d| |]; try discriminate.
  intros H. apply negb_false_iff, Z.eqb_eq in H. subst. eauto.
Qed.

Lemma readCacheEntry_run E config w :
  readCacheEntry (getCacheFilePath E (url config)) w = (Done (cached E config w), w).
Proof.
  unfold readCacheEntry, cached.
  destruct (disk w !! getCacheFilePath E (url config)) as [[e|]|]; reflexivity.
Qed.

Lemma writeCacheEntry_run E path entry w :
  write_error E path = None ->
  writeCacheEntry E path entry w = (Done tt, written w path entry).
Proof.
  intros Hw. unfold writeCacheEntry, bind, ensureCacheDir, writeFile, written.
  destruct (dir_exists w) eqn:Hd; rewrite Hw; cbn [dir_exists disk log].
  - by rewrite Hd.
  - by rewrite <- app_assoc.
Qed.

(** With an entry on disk [getCachedSpec] returns a document, whatever the
    network and the filesystem do. *)
Lemma getCachedSpec_with_entry E config w entry :
  cached E config w = Some entry ->
  exists doc, fst (getCachedSpec E config w) = Done doc.
Proof.
  intros Hc. unfold getCachedSpec, bind at 1.
  rewrite readCacheEntry_run, Hc. unfold bind at 1.
  rewrite checkIfModified_run.
  destruct (stale_by_validators (check_reply E config) entry); cbn [negb].
  - unfold try_catch.
    destruct (bind _ _ _) as [[doc|e] w'] eqn:Hb; cbn; eauto.
  - cbn. eauto.
Qed.

(** C2. [getCachedSpec] raises a fetch error exactly when no entry is cached
    for the URL and the full fetch fails; with an entry it always returns a
    document, and a full fetch that fails after a stale decision is absorbed:
    the cached document comes back. *)
Theorem getCachedSpec_fetch_error E config w :
  ((exists e, fst (getCachedSpec E config w) = Failed e /\ FetchError e)
   <-> cached E config w = None /\ fetch_fails E config = true)
  /\ (forall entry, cached E config w = Some entry ->
        exists doc, fst (getCachedSpec E config w) = Done doc)
  /\ (forall entry, cached E config w = Some entry ->
        stale_by_validators (check_reply E config) entry = true ->
        fetch_fails E config = true ->
        fst (getCachedSpec E config w) = Done (spec entry)).
Proof.
  split; [split|split].
  - intros (e & Hrun & Hfe).
    destruct (cached E config w) as [entry|] eqn:Hc.
    { destruct (getCachedSpec_with_entry E config w entry Hc) as [doc Hd]. congruence. }
    split; [done|].
    destruct (fetch_fails E config) eqn:Hf; [done|].
    destruct (fetch_fails_false _ _ Hf) as (st & hd & d & Hr).
    revert Hrun. unfold getCachedSpec, bind at 1.
    rewrite readCacheEntry_run, Hc. unfold bind at 1.
    rewrite (fetchSpec_ok _ _ _ _ _ _ Hr).
    unfold writeCacheEntry, bind, ensureCacheDir, writeFile, ret.
    destruct (dir_exists _); destruct (write_error E _); cbn; intros Heq;
      try discriminate; injection Heq as <-; destruct Hfe as [m Hm]; discriminate.
  - intros [Hc Hf].
    destruct (fetchSpec_fails E config w Hf) as [m Hm].
    exists (PlainError ("Failed to fetch Swagger spec: " ++ m)). split; [|by exists m].
    unfold getCachedSpec, bind at 1.
    rewrite readCacheEntry_run, Hc. unfold bind at 1. by rewrite Hm.
  - apply getCachedSpec_with_entry.
  - intros entry Hc Hs Hf.
    unfold getCachedSpec, bind at 1.
    rewrite readCacheEntry_run, Hc. unfold bind at 1.
    rewrite checkIfModified_run, Hs. cbn [negb].
    destruct (fetchSpec_fails E config (add_events w (check_events E config)) Hf) as [m Hm].
    unfold try_catch, bind at 1. by rewrite Hm.
Qed.

(** C6. With a cached entry whose etag is "v1" and a check that answers below
    400 with etag "v1", [getCachedSpec] returns the cached document, leaves the
    disk as it was and performs neither a full fetch nor a write. *)
Theorem getCachedSpec_fresh E config w entry status statusText headers data :
  cached E config w = Some entry ->
  etag entry = Some "v1" ->
  check_reply E config = Replied status statusText headers data ->
  (status < 400)%Z ->
  h_etag headers = Some "v1" ->
  exists w',
    getCachedSpec E config w = (Done (spec entry), w')
    /\ disk w' = disk w
    /\ exists evs, log w' = (log w ++ evs)%list
         /\ existsb is_get evs = false /\ existsb is_write evs = false.
Proof.
  intros Hc He Hr Hst Hh.
  exists (add_events w (check_events E config)).
  split; [|split].
  - unfold getCachedSpec, bind at 1.
    rewrite readCacheEntry_run, Hc. unfold bind at 1.
    rewrite checkIfModified_run.
    unfold stale_by_validators. rewrite Hr.
    assert ((status =? 405)%Z = false) as -> by lia.
    assert ((400 <=? status)%Z = false) as -> by lia.
    rewrite Hh, He. reflexivity.
  - reflexivity.
  - exists (check_events E config). split; [reflexivity|].
    unfold check_events, login_events.
    destruct (logs_in E config); split; reflexivity.
Qed.


(** C3, as the specification states it, fails: the remote carries etag "v2",
    the stored entry carries none, and both carry the same last-modified. The
    stated rule says stale (the etags differ); [checkIfModified] answers
    "not modified". *)
Lemma checkIfModified_one_sided_etag :
  let check := Scenario.ok (Some "v2") (Some "Tue, 02 Jan 2024 10:00:00 GMT") JNull in
  let E := Scenario.remote check (NoReply "unused") in
  let stored := Scenario.entry None (Some "Tue, 02 Jan 2024 10:00:00 GMT") in
  check_reply E Scenario.config = check
  /\ stale_by_spec check stored = true
  /\ fst (checkIfModified E Scenario.config stored (Scenario.world stored)) = Done false.
Proof.
  cbv zeta. split; [reflexivity|]. split; vm_compute; reflexivity.
Qed.

(** C3, as the code has it. The check is stale when it fails, answers 405 or
    any status from 400 up; otherwise the etags decide when both sides carry
    one, else the last-modified values decide when both sides carry one, else
    the cache is stale. Away from empty validators this is the stated rule
    except where exactly one side carries an etag and both carry the same
    last-modified: there the cache is fresh. *)
Theorem checkIfModified_rule E config entry w :
  fst (checkIfModified E config entry w)
  = Done (stale_by_validators (check_reply E config) entry)
  /\ (nonempty_validators (check_reply E config) entry = true ->
      stale_by_validators (check_reply E config) entry
      = if one_sided_etag (check_reply E config) entry then false
        else stale_by_spec (check_reply E config) entry).
Proof.
  split; [by rewrite checkIfModified_run|].
  generalize (check_reply E config). intros check.
  unfold nonempty_validators, stale_by_validators, one_sided_etag, stale_by_spec.
  destruct check as [status st [he hm] d | m | m]; cbn [h_etag h_last_modified]; [|done..].
  destruct entry as [u e l c sp]. cbn [etag lastModified].
  destruct (status =? 405)%Z eqn:H405.
  { assert ((status <? 400)%Z = false) as -> by lia. done. }
  destruct (400 <=? status)%Z eqn:H400.
  { assert ((status <? 400)%Z = false) as -> by lia. done. }
  assert ((status <? 400)%Z = true) as -> by lia. cbn [orb andb].
  intros Hne.
  assert (Hp : forall o, nonempty o = true -> present o = bool_decide (is_Some o)).
  { intros [x|] Hx; [|done]. cbn in *. by rewrite Hx. }
  apply andb_prop in Hne as [Hne1 Hne2].
  apply andb_prop in Hne1 as [He Hl]. apply andb_prop in Hne2 as [Hhe Hhm].
  rewrite !Hp by done. clear Hp He Hl Hhe Hhm.
  assert (Ht : forall x : string, bool_decide (is_Some (Some x)) = true) by done.
  assert (Hf : bool_decide (is_Some (@None string)) = false) by done.
  destruct he as [he|], e as [e|], hm as [hm|], l as [l|];
    rewrite ?Ht, ?Hf; cbn [andb orb negb xorb];
    repeat case_bool_decide; simplify_eq; try done.
Qed.

Lemma checkIfModified_rule_witness :
  let check := Scenario.ok (Some "v2") (Some "Tue, 02 Jan 2024 10:00:00 GMT") JNull in
  let E := Scenario.remote check (NoReply "unused") in
  let stored := Scenario.entry None (Some "Tue, 02 Jan 2024 10:00:00 GMT") in
  stale_by_validators (check_reply E Scenario.config) stored = false.
Proof.
  intros check E stored.
  apply (proj2 (checkIfModified_rule E Scenario.config stored (Scenario.world stored))).
  reflexivity.
Defined.

Lemma getCachedSpec_fetch_error_witness :
  let E := Scenario.remote (Scenario.ok (Some "v2") None JNull) (NoReply "ECONNREFUSED") in
  let stored := Scenario.entry (Some "v1") None in
  fst (getCachedSpec E Scenario.config (Scenario.world stored)) = Done Scenario.doc_v1.
Proof.
  intros E stored.
  apply (proj2 (proj2 (getCachedSpec_fetch_error E Scenario.config (Scenario.world stored)))
           stored); vm_compute; reflexivity.
Defined.

Lemma getCachedSpec_fresh_witness :
  let E := Scenario.remote (Scenario.ok (Some "v1") None JNull) (NoReply "unused") in
  let stored := Scenario.entry (Some "v1") None in
  exists w',
    getCachedSpec E Scenario.config (Scenario.world stored) = (Done Scenario.doc_v1, w')
    /\ disk w' = disk (Scenario.world stored)
    /\ exists evs, log w' = (log (Scenario.world stored) ++ evs)%list
         /\ existsb is_get evs = false /\ existsb is_write evs = false.
Proof.
  intros E stored.
  apply (getCachedSpec_fresh E Scenario.config (Scenario.world stored) stored
           200 "OK" {| h_etag := Some "v1"; h_last_modified := None |} JNull);
    first [ lia | vm_compute; reflexivity ].
Defined.



(** ** The runs of [getCachedSpec], case by case *)

(** The block that fetches the document and stores the new entry. *)
Local Abbreviation refresh E config :=
  (bind (fetchSpec E config)
     (fun f => bind (writeCacheEntry E (getCacheFilePath E (url config)) (newEntry E config f))
                 (fun _ => ret (f_spec f)))).

Lemma getCachedSpec_absent E config w :
  cached E config w = None ->
  getCachedSpec E config w = refresh E config w.
Proof.
  intros Hc. unfold getCachedSpec, bind at 1. by rewrite readCacheEntry_run, Hc.
Qed.

Lemma getCachedSpec_present E config w entry :
  cached E config w = Some entry ->
  getCachedSpec E config w
  = if stale_by_validators (check_reply E config) entry
    then try_catch (refresh E config) (fun _ => ret (spec entry))
           (add_events w (check_events E config))
    else (Done (spec entry), add_events w (check_events E config)).
Proof.
  intros Hc. unfold getCachedSpec, bind at 1.
  rewrite readCacheEntry_run, Hc. unfold bind at 1.
  rewrite checkIfModified_run. by destruct (stale_by_validators _ _).
Qed.

Lemma writeCacheEntry_refused E path entry w m :
  write_error E path = Some m ->
  writeCacheEntry E path entry w = (Failed (FsError m), snd (ensureCacheDir w)).
Proof.
  intros Hw. unfold writeCacheEntry, bind, ensureCacheDir, writeFile.
  destruct (dir_exists w); by rewrite Hw.
Qed.

Lemma refresh_fails E config w :
  fetch_fails E config = true ->
  exists m,
    refresh E config w
    = (Failed (PlainError ("Failed to fetch Swagger spec: " ++ m)),
       add_events w (fetch_events E config)).
Proof.
  intros Hf. destruct (fetchSpec_fails E config w Hf) as [m Hm].
  exists m. unfold bind at 1. by rewrite Hm.
Qed.

Lemma refresh_ok E config w statusText headers doc :
  fetch_reply E config = Replied 200 statusText headers doc ->
  write_error E (getCacheFilePath E (url config)) = None ->
  refresh E config w
  = (Done doc,
     written (add_events w (fetch_events E config)) (getCacheFilePath E (url config))
       (refreshed E config headers doc)).
Proof.
  intros Hg Hw. unfold bind at 1. rewrite (fetchSpec_ok _ _ _ _ _ _ Hg).
  unfold bind at 1. by rewrite (writeCacheEntry_run _ _ _ _ Hw).
Qed.

Lemma refresh_refused E config w statusText headers doc m :
  fetch_reply E config = Replied 200 statusText headers doc ->
  write_error E (getCacheFilePath E (url config)) = Some m ->
  refresh E config w
  = (Failed (FsError m), snd (ensureCacheDir (add_events w (fetch_events E config)))).
Proof.
  intros Hg Hw. unfold bind at 1. rewrite (fetchSpec_ok _ _ _ _ _ _ Hg).
  unfold bind at 1. by rewrite (writeCacheEntry_refused _ _ _ _ _ Hw).
Qed.

Lemma ensureCacheDir_log w :
  log (snd (ensureCacheDir w)) = (log w ++ if dir_exists w then [] else [EvMkdir])%list
  /\ disk (snd (ensureCacheDir w)) = disk w.
Proof. unfold ensureCacheDir. destruct (dir_exists w); cbn; by rewrite ?app_nil_r. Qed.

(** What the block adds to the log: the events of the fetch, then events of
    the filesystem only. *)
Lemma refresh_log E config w :
  exists wr,
    forallb is_disk_event wr = true
    /\ log (snd (refresh E config w)) = (log w ++ fetch_events E config ++ wr)%list.
Proof.
  destruct (fetch_fails E config) eqn:Hf.
  - destruct (refresh_fails E config w Hf) as [m ->].
    exists []. split; [done|]. cbn. by rewrite app_nil_r.
  - destruct (fetch_fails_false _ _ Hf) as (st & hd & doc & Hg).
    destruct (write_error E (getCacheFilePath E (url config))) as [m|] eqn:Hw.
    + rewrite (refresh_refused _ _ _ _ _ _ _ Hg Hw).
      change (snd (?a, ?b)) with b.
      rewrite (proj1 (ensureCacheDir_log _)).
      cbn [log add_events dir_exists]. rewrite <- app_assoc.
      eexists. split; [|reflexivity]. by destruct (dir_exists w).
    + rewrite (refresh_ok _ _ _ _ _ _ Hg Hw). cbn [snd written log add_events dir_exists].
      rewrite <- app_assoc.
      eexists. split; [|reflexivity]. by destruct (dir_exists w).
Qed.

Lemma try_catch_log {A} (m : IO A) (a : A) w :
  log (snd (try_catch m (fun _ => ret a) w)) = log (snd (m w)).
Proof. unfold try_catch, ret. by destruct (m w) as [[x|e] w']. Qed.

Lemma events_of_app E config w evs :
  log (snd (getCachedSpec E config w)) = (log w ++ evs)%list ->
  events_of E config w = evs.
Proof. intros H. unfold events_of. rewrite H. by rewrite drop_app_length. Qed.

(** The log of one call: with an entry, the check, then, on a stale
    verdict, the fetch and what the filesystem does; without one, the fetch
    and what the filesystem does. *)
Lemma getCachedSpec_events E config w :
  exists wr,
    forallb is_disk_event wr = true
    /\ events_of E config w
       = match cached E config w with
         | None => (fetch_events E config ++ wr)%list
         | Some entry =>
             (check_events E config
              ++ if stale_by_validators (check_reply E config) entry
                 then fetch_events E config ++ wr else [])%list
         end.
Proof.
  destruct (cached E config w) as [entry|] eqn:Hc.
  - destruct (stale_by_validators (check_reply E config) entry) eqn:Hs.
    + destruct (refresh_log E config (add_events w (check_events E config)))
        as (wr & Hwr & Hlog).
      exists wr. split; [done|]. apply events_of_app.
      rewrite (getCachedSpec_present _ _ _ _ Hc), Hs, try_catch_log, Hlog.
      cbn [log add_events]. by rewrite <- app_assoc.
    + exists []. split; [done|]. apply events_of_app.
      rewrite (getCachedSpec_present _ _ _ _ Hc), Hs. cbn.
      by rewrite app_nil_r.
  - destruct (refresh_log E config w) as (wr & Hwr & Hlog).
    exists wr. split; [done|]. apply events_of_app.
    by rewrite (getCachedSpec_absent _ _ _ Hc).
Qed.

Lemma fetch_events_get E config : existsb is_get (fetch_events E config) = true.
Proof.
  unfold fetch_events. rewrite existsb_app. cbn. by rewrite orb_true_r.
Qed.

Lemma check_events_no_get E config : existsb is_get (check_events E config) = false.
Proof.
  unfold check_events, login_events. by destruct (logs_in E config).
Qed.

Lemma disk_events_no_get wr : forallb is_disk_event wr = true -> existsb is_get wr = false.
Proof.
  induction wr as [|ev wr IH]; [done|]. cbn. intros [Hev Hwr]%andb_prop.
  rewrite IH by done. by destruct ev.
Qed.

Lemma disk_events_no_login wr :
  forallb is_disk_event wr = true -> List.filter is_login wr = [].
Proof.
  induction wr as [|ev wr IH]; [done|]. cbn. intros [Hev Hwr]%andb_prop.
  rewrite IH by done. by destruct ev.
Qed.

Lemma no_common_validator_stale check entry :
  no_common_validator check entry = true -> stale_by_validators check entry = true.
Proof.
  unfold no_common_validator, stale_by_validators.
  destruct check as [status st hd d| |]; [|done..].
  intros [H1 H2]%andb_prop. apply negb_true_iff in H1. apply negb_true_iff in H2.
  rewrite H1, H2. by destruct (_ || _).
Qed.

(** X8. A first call stores what a second call is served from. Without a
    readable entry (no file, or a file that does not parse), a fetch
    answering 200 and a writable cache file: [getCachedSpec] returns the
    fetched document and stores it with the validators of the response;
    when the lightweight check then finds these validators unchanged, the
    next call returns the same document, leaves the disk as it is and
    performs no full fetch. *)
Theorem getCachedSpec_again E config w statusText headers doc :
  cached E config w = None ->
  fetch_reply E config = Replied 200 statusText headers doc ->
  write_error E (getCacheFilePath E (url config)) = None ->
  stale_by_validators (check_reply E config) (refreshed E config headers doc) = false ->
  exists w1 w2,
    getCachedSpec E config w = (Done doc, w1)
    /\ cached E config w1 = Some (refreshed E config headers doc)
    /\ getCachedSpec E config w1 = (Done doc, w2)
    /\ disk w2 = disk w1
    /\ existsb is_get (events_of E config w1) = false.
Proof.
  intros Hc Hg Hw Hfresh.
  set (w1 := written (add_events w (fetch_events E config)) (getCacheFilePath E (url config))
               (refreshed E config headers doc)).
  assert (Hc1 : cached E config w1 = Some (refreshed E config headers doc)).
  { unfold cached, w1, written. cbn [disk]. by rewrite lookup_insert_eq. }
  exists w1, (add_events w1 (check_events E config)).
  split; [|split; [done|split; [|split]]].
  - rewrite (getCachedSpec_absent _ _ _ Hc). by apply (refresh_ok _ _ _ statusText).
  - by rewrite (getCachedSpec_present _ _ _ _ Hc1), Hfresh.
  - done.
  - rewrite (events_of_app E config w1 (check_events E config)).
    + apply check_events_no_get.
    + by rewrite (getCachedSpec_present _ _ _ _ Hc1), Hfresh.
Qed.

Lemma getCachedSpec_again_witness :
  let E := Scenario.remote (Scenario.ok (Some "v1") None JNull)
             (Scenario.ok (Some "v1") None Scenario.doc_v1) in
  exists w1 w2,
    getCachedSpec E Scenario.config Scenario.empty_world = (Done Scenario.doc_v1, w1)
    /\ getCachedSpec E Scenario.config w1 = (Done Scenario.doc_v1, w2)
    /\ existsb is_get (events_of E Scenario.config w1) = false.
Proof.
  intros E.
  destruct (getCachedSpec_again E Scenario.config Scenario.empty_world "OK"
              {| h_etag := Some "v1"; h_last_modified := None |} Scenario.doc_v1)
    as (w1 & w2 & H1 & _ & H2 & _ & H3); [reflexivity..|].
  exists w1, w2. by repeat split.
Defined.

(** X9. Without a validator in common the cache never spares a download:
    when the check's response and the stored entry carry no etag on both
    sides and no last-modified on both sides (in particular when the entry
    was stored from a response without validators), every call of
    [getCachedSpec] performs the full fetch after the check. *)
Theorem getCachedSpec_no_validator E config w entry :
  cached E config w = Some entry ->
  no_common_validator (check_reply E config) entry = true ->
  exists wr,
    events_of E config w = (check_events E config ++ fetch_events E config ++ wr)%list
    /\ existsb is_get (events_of E config w) = true.
Proof.
  intros Hc Hn. destruct (getCachedSpec_events E config w) as (wr & _ & Hev).
  rewrite Hc, (no_common_validator_stale _ _ Hn) in Hev.
  exists wr. split; [done|]. rewrite Hev, !existsb_app, fetch_events_get.
  by rewrite orb_true_r.
Qed.

Lemma getCachedSpec_no_validator_witness :
  let E := Scenario.remote (Scenario.ok (Some "v1") None JNull)
             (Scenario.ok None None Scenario.doc_v1) in
  let stored := Scenario.entry None None in
  existsb is_get (events_of E Scenario.config (Scenario.world stored)) = true.
Proof.
  intros E stored.
  destruct (getCachedSpec_no_validator E Scenario.config (Scenario.world stored) stored)
    as (wr & _ & H); [reflexivity..|exact H].
Defined.

(** X10. When the cache file cannot be written and the full fetch answers
    200: without an entry [getCachedSpec] fails with the filesystem's error
    although the document was fetched; with an entry it returns the cached
    document, also when the fetch brought a newer one. The disk is left as it
    was in both cases. *)
Theorem getCachedSpec_write_refused E config w statusText headers doc m :
  fetch_reply E config = Replied 200 statusText headers doc ->
  write_error E (getCacheFilePath E (url config)) = Some m ->
  fst (getCachedSpec E config w)
  = match cached E config w with
    | None => Failed (FsError m)
    | Some entry => Done (spec entry)
    end
  /\ disk (snd (getCachedSpec E config w)) = disk w.
Proof.
  intros Hg Hw. destruct (cached E config w) as [entry|] eqn:Hc.
  - rewrite (getCachedSpec_present _ _ _ _ Hc).
    destruct (stale_by_validators _ _); [|done].
    unfold try_catch. rewrite (refresh_refused _ _ _ _ _ _ _ Hg Hw). unfold ret.
    change (snd (?a, ?b)) with b. change (fst (?a, ?b)) with a.
    split; [done|]. by rewrite (proj2 (ensureCacheDir_log _)).
  - rewrite (getCachedSpec_absent _ _ _ Hc), (refresh_refused _ _ _ _ _ _ _ Hg Hw).
    change (snd (?a, ?b)) with b. change (fst (?a, ?b)) with a.
    split; [done|]. by rewrite (proj2 (ensureCacheDir_log _)).
Qed.

Lemma getCachedSpec_write_refused_witness :
  let E := {| sha256_hex := fun u => u; base64 := fun x => x;
              cache_dir := "/home/u/.mcp-swagger-client/cache";
              now_iso := "2025-01-01T00:00:00.000Z";
              to_upper := ascii_upper;
              json_parses := fun _ => false;
              login_reply := fun _ => None;
              head_reply := fun _ _ => Scenario.ok (Some "v2") None JNull;
              get_reply := fun _ _ => Scenario.ok (Some "v2") None Scenario.doc_v2;
              write_error := fun _ => Some "EACCES: permission denied" |} in
  let stored := Scenario.entry (Some "v1") None in
  fst (getCachedSpec E Scenario.config Scenario.empty_world)
  = Failed (FsError "EACCES: permission denied")
  /\ fst (getCachedSpec E Scenario.config (Scenario.world stored)) = Done Scenario.doc_v1.
Proof.
  intros E stored. split.
  - apply (getCachedSpec_write_refused E Scenario.config Scenario.empty_world "OK"
             {| h_etag := Some "v2"; h_last_modified := None |} Scenario.doc_v2
             "EACCES: permission denied"); reflexivity.
  - apply (getCachedSpec_write_refused E Scenario.config (Scenario.world stored) "OK"
             {| h_etag := Some "v2"; h_last_modified := None |} Scenario.doc_v2
             "EACCES: permission denied"); reflexivity.
Defined.

(** X11. The login exchange is repeated for every request, and never
    attempted when its body cannot be sent. A login request is sent when a
    login URL is configured, unless a login body is configured, the method
    (POST when none is configured) is POST, PUT or PATCH in upper case, and
    the body does not parse as JSON. When it is sent, one call of
    [getCachedSpec] logs in once when it only fetches (no entry) or only
    checks (fresh entry), and twice when the check finds the entry stale:
    once before the check and once more before the fetch. When it is not
    sent, no call logs in, and the requests go out with the configured
    cookies alone. *)
Theorem getCachedSpec_logins E config w :
  logs_in E config
  = present (loginUrl config)
    && negb (present (loginBody config)
             && bool_decide (to_upper E (if present (loginMethod config)
                                         then text (loginMethod config) else "POST")
                             ∈ ["POST"; "PUT"; "PATCH"])
             && negb (json_parses E (text (loginBody config))))
  /\ List.length (List.filter is_login (events_of E config w))
     = (if logs_in E config then
          match cached E config w with
          | None => 1
          | Some entry => if stale_by_validators (check_reply E config) entry then 2 else 1
          end
        else 0)
  /\ (logs_in E config = false ->
      cookie (request_for E config) = if present (cookies config) then cookies config else None).
Proof.
  split; [reflexivity|]. split.
  - destruct (getCachedSpec_events E config w) as (wr & Hwr & ->).
    pose proof (disk_events_no_login wr Hwr) as Hno.
    unfold check_events, fetch_events, login_events.
    destruct (logs_in E config).
    + destruct (cached E config w) as [entry|].
      * destruct (stale_by_validators _ _); cbn; [|done].
        rewrite Hno. done.
      * cbn. by rewrite Hno.
    + destruct (cached E config w) as [entry|].
      * destruct (stale_by_validators _ _); cbn; by rewrite ?Hno.
      * cbn. by rewrite Hno.
  - intros Hl. unfold request_for. rewrite Hl. done.
Qed.

Lemma getCachedSpec_logins_witness :
  let E := Scenario.remote (Scenario.ok (Some "v2") None JNull)
             (Scenario.ok (Some "v2") None Scenario.doc_v2) in
  let config body :=
    {| url := "https://api.example.com/openapi.json";
       user := None; password := None; token := None; cookies := Some "theme=dark";
       loginUrl := Some "https://api.example.com/login";
       loginMethod := Some "post"; loginBody := body |} in
  let stored := Scenario.entry (Some "v1") None in
  List.length (List.filter is_login (events_of E (config None) (Scenario.world stored))) = 2
  /\ List.length
       (List.filter is_login (events_of E (config (Some "user=a")) (Scenario.world stored)))
     = 0
  /\ cookie (request_for E (config (Some "user=a"))) = Some "theme=dark".
Proof.
  intros E config stored.
  pose proof (getCachedSpec_logins E (config None) (Scenario.world stored)) as (_ & H1 & _).
  pose proof (getCachedSpec_logins E (config (Some "user=a")) (Scenario.world stored))
    as (_ & H2 & H3).
  split; [exact H1|]. split; [exact H2|]. exact (H3 eq_refl).
Defined.

(** ** [clearCache] *)

Lemma clearCache_run E unlink_error u w :
  clearCache E unlink_error u w
  = match disk w !! getCacheFilePath E u with
    | None => (Done tt, w)
    | Some _ =>
        match unlink_error (getCacheFilePath E u) with
        | Some m => (Failed (FsError m), w)
        | None =>
            (Done tt, {| dir_exists := dir_exists w;
                         disk := delete (getCacheFilePath E u) (disk w);
                         log := log w |})
        end
    end.
Proof.
  unfold clearCache, bind, existsSync.
  destruct (disk w !! getCacheFilePath E u) as [f|] eqn:Hf.
  - rewrite bool_decide_eq_true_2 by eauto. unfold unlink. by rewrite Hf.
  - by rewrite bool_decide_eq_false_2 by (by intros [? ?]).
Qed.

(** X12. [clearCache(url)] completes when there is no cache file for the
    URL, leaving everything as it is, and when the file is removed; it fails,
    with the filesystem's error and nothing changed, exactly when the file
    exists and cannot be removed. After it completed only that one file is
    gone, no entry is cached for the URL, and the next [getCachedSpec] for the
    URL starts with the full fetch, without a check. *)
Theorem clearCache_outcome E unlink_error u w :
  let path := getCacheFilePath E u in
  match clearCache E unlink_error u w with
  | (Done _, w') =>
      (is_Some (disk w !! path) -> unlink_error path = None)
      /\ disk w' = delete path (disk w)
      /\ dir_exists w' = dir_exists w /\ log w' = log w
      /\ forall config, url config = u ->
           cached E config w' = None
           /\ exists wr, events_of E config w' = (fetch_events E config ++ wr)%list
  | (Failed e, w') =>
      w' = w /\ is_Some (disk w !! path)
      /\ exists m, unlink_error path = Some m /\ e = FsError m
  end.
Proof.
  cbv zeta. rewrite clearCache_run.
  destruct (disk w !! getCacheFilePath E u) as [f|] eqn:Hf.
  - destruct (unlink_error (getCacheFilePath E u)) as [m|] eqn:Hu.
    + split; [done|]. split; [eauto|]. by exists m.
    + split; [done|]. cbn [disk dir_exists log]. repeat split; try done.
      * unfold cached. cbn [disk]. subst. by rewrite lookup_delete_eq.
      * destruct (getCachedSpec_events E config
                    {| dir_exists := dir_exists w;
                       disk := delete (getCacheFilePath E u) (disk w);
                       log := log w |}) as (wr & _ & Hev).
        exists wr. rewrite Hev. unfold cached. cbn [disk]. subst.
        by rewrite lookup_delete_eq.
  - split; [by intros [? ?]|]. rewrite delete_id by done. repeat split; try done.
    + unfold cached. subst. by rewrite Hf.
    + destruct (getCachedSpec_events E config w) as (wr & _ & Hev).
      exists wr. rewrite Hev. unfold cached. subst. by rewrite Hf.
Qed.

End CacheFacts.

(** * Properties of the parser *)

Module ParserFacts.
Import Parser.

(** ** Values *)

Lemma jsval_ind (P : jsval -> Prop) :
  P JUndefined -> P JNull -> (forall b, P (JBool b)) -> (forall n, P (JNum n)) ->
  (forall s, P (JStr s)) ->
  (forall items, Forall P items -> P (JArr items)) ->
  (forall props, Forall (fun kv => P (snd kv)) props -> P (JObj props)) ->
  (forall n, P (JNative n)) ->
  forall v, P v.
Proof.
  intros Hu Hn Hb Hz Hs Ha Ho Hx.
  fix IH 1. intros [| | b | n | s | items | props | x]; [..|apply Hx].
  - exact Hu.
  - exact Hn.
  - apply Hb.
  - apply Hz.
  - apply Hs.
  - apply Ha. induction items as [|x items IHitems]; constructor; [apply IH | exact IHitems].
  - apply Ho. induction props as [|[k x] props IHprops]; constructor; [apply IH | exact IHprops].
Qed.

Lemma index_key_digit i :
  exists c s, index_key i = String c s /\ (48 <=? nat_of_ascii c)%nat && (nat_of_ascii c <=? 57)%nat = true.
Proof.
  unfold index_key.
  assert (Hnil : Nat.to_uint i <> Decimal.Nil).
  { pose proof (Unsigned.to_of (Nat.to_uint i)) as H. rewrite Unsigned.of_to in H.
    rewrite H. unfold Decimal.unorm. by destruct (Decimal.nzhead _). }
  destruct (Nat.to_uint i); [done|..]; cbn; eexists _, _; split; reflexivity.
Qed.

Lemma get_field_has_field k (props : list (string * jsval)) :
  get_field k props <> JUndefined -> has_field k props = true.
Proof.
  induction props as [|[k' v] props IH]; cbn; [done|].
  destruct (String.eqb k' k); [done|]. exact IH.
Qed.

Lemma has_field_elem {V} k (props : list (string * V)) :
  has_field k props = true <-> exists v, (k, v) ∈ props.
Proof.
  unfold has_field. rewrite existsb_exists. split.
  - intros ([k' v] & Hin & Heq). apply String.eqb_eq in Heq. cbn in Heq. subst.
    exists v. by apply list_elem_of_In.
  - intros [v Hin]. exists (k, v). split; [by apply list_elem_of_In|]. apply String.eqb_refl.
Qed.

(** An array has no own property whose name does not start with a digit,
    [length] apart. *)
Lemma array_no_named_field k c s (items : list jsval) :
  k = String c s ->
  (48 <=? nat_of_ascii c)%nat && (nat_of_ascii c <=? 57)%nat = false ->
  has_field k (own_entries (JArr items)) = false.
Proof.
  intros -> Hc. apply not_true_is_false. rewrite has_field_elem.
  intros [v Hin]. cbn in Hin.
  apply list_elem_of_lookup in Hin as [i Hi].
  rewrite list_lookup_imap in Hi.
  destruct (items !! i) as [x|]; [|done]. cbn in Hi.
  destruct (index_key_digit i) as (c' & s' & Hk & Hd).
  injection Hi as Hi _. rewrite Hk in Hi. injection Hi as -> _. congruence.
Qed.

(** ** Version detection *)

Lemma array_get_named k c s (items : list jsval) :
  k = String c s ->
  (48 <=? nat_of_ascii c)%nat && (nat_of_ascii c <=? 57)%nat = false ->
  get_field k (own_entries (JArr items)) = JUndefined.
Proof.
  intros Hk Hc.
  destruct (get_field k (own_entries (JArr items))) eqn:Hg; try reflexivity;
    (assert (Hne : get_field k (own_entries (JArr items)) <> JUndefined) by congruence;
     apply get_field_has_field in Hne;
     by rewrite (array_no_named_field k c s items Hk Hc) in Hne).
Qed.

(** C9. [detectVersion] raises exactly when the document has neither marker:
    no [swagger] field equal to "2.0" and no [openapi] field. With the legacy
    marker it returns "2.0", otherwise with the [openapi] marker "3.0+"; and
    [normalizeSpec] raises whatever [detectVersion] raises. *)
Theorem detectVersion_markers spec :
  (throws (detectVersion spec)
   <-> legacy_marker spec = false /\ openapi_marker spec = false)
  /\ (legacy_marker spec = true -> detectVersion spec = Ok V2)
  /\ (legacy_marker spec = false -> openapi_marker spec = true ->
      detectVersion spec = Ok V3plus)
  /\ (forall e, detectVersion spec = Throw e -> normalizeSpec spec = Throw e).
Proof.
  assert (Hcases :
    (legacy_marker spec = true /\ detectVersion spec = Ok V2)
    \/ (legacy_marker spec = false /\ openapi_marker spec = true
        /\ detectVersion spec = Ok V3plus)
    \/ (legacy_marker spec = false /\ openapi_marker spec = false
        /\ throws (detectVersion spec))).
  { unfold legacy_marker, openapi_marker, detectVersion, throws.
    destruct spec as [| | b | n | s | items | props |]; cbn [has_prop rbind get_own];
      try (right; right; repeat split; eauto; fail).
    - rewrite (array_no_named_field "swagger" "s" "wagger" items eq_refl eq_refl).
      rewrite (array_no_named_field "openapi" "o" "penapi" items eq_refl eq_refl).
      rewrite (array_get_named "swagger" "s" "wagger" items eq_refl eq_refl).
      right; right. cbn. eauto.
    - destruct (strict_eq_str (get_field "swagger" props) "2.0") eqn:Hs.
      + left. split; [done|].
        rewrite get_field_has_field; [done|].
        intros Hu. rewrite Hu in Hs. discriminate.
      + rewrite andb_false_r.
        destruct (has_field "openapi" props); [right; left | right; right]; eauto. }
  split; [split|split; [|split]].
  - intros [e He]. destruct Hcases as [[_ H]|[(_ & _ & H)|(? & ? & _)]]; [congruence..|done].
  - intros [Hl Ho]. destruct Hcases as [[H _]|[(_ & H & _)|(_ & _ & H)]]; [congruence..|done].
  - intros Hl. destruct Hcases as [[_ H]|[(H & _)|(H & _)]]; [done|congruence..].
  - intros Hl Ho. destruct Hcases as [[H _]|[(_ & _ & H)|(_ & H & _)]]; [congruence|done|congruence].
  - intros e He. unfold normalizeSpec. by rewrite He.
Qed.

Lemma detectVersion_markers_witness :
  detectVersion (JObj [("swagger", JStr "2.0"); ("paths", JObj [])]) = Ok V2.
Proof.
  apply (proj1 (proj2 (detectVersion_markers
                         (JObj [("swagger", JStr "2.0"); ("paths", JObj [])])))).
  reflexivity.
Defined.

(** ** Depth and references of the parts of a value *)

Lemma refs_of_obj props : refs_of (JObj props) = ⋃ (map pair_refs props).
Proof. reflexivity. Qed.

Lemma elem_of_map_iff {A B} (f : A -> B) (l : list A) (y : B) :
  y ∈ map f l <-> exists x, y = f x /\ x ∈ l.
Proof.
  rewrite list_elem_of_In, in_map_iff. split; intros (x & H1 & H2); exists x.
  - by rewrite list_elem_of_In.
  - by rewrite <- list_elem_of_In.
Qed.

Lemma refs_of_obj_elem props kv : kv ∈ props -> pair_refs kv ⊆ refs_of (JObj props).
Proof.
  intros Hin r Hr. rewrite refs_of_obj. apply elem_of_union_list.
  exists (pair_refs kv). split; [|done]. apply elem_of_map_iff. eauto.
Qed.

Lemma refs_of_obj_bound props (X : gset string) :
  (forall kv, kv ∈ props -> pair_refs kv ⊆ X) -> refs_of (JObj props) ⊆ X.
Proof.
  intros H r Hr. rewrite refs_of_obj in Hr. apply elem_of_union_list in Hr as (Y & HY & Hr).
  apply elem_of_map_iff in HY as (kv & -> & Hin). by apply (H kv).
Qed.

Lemma refs_of_arr_elem items x : x ∈ items -> refs_of x ⊆ refs_of (JArr items).
Proof.
  intros Hin r Hr. cbn. apply elem_of_union_list.
  exists (refs_of x). split; [|done]. apply elem_of_map_iff. eauto.
Qed.

Lemma height_obj_elem props kv : kv ∈ props -> height (snd kv) < height (JObj props).
Proof.
  intros Hin. cbn. apply Nat.lt_succ_r, max_list_elem_of_le.
  apply elem_of_map_iff. eauto.
Qed.

Lemma height_arr_elem items x : x ∈ items -> height x < height (JArr items).
Proof.
  intros Hin. cbn. apply Nat.lt_succ_r, max_list_elem_of_le.
  apply elem_of_map_iff. eauto.
Qed.

Lemma max_list_bound (l : list nat) n : (forall x, x ∈ l -> x <= n) -> max_list l <= n.
Proof.
  induction l as [|x l IH]; cbn; intros H; [lia|].
  pose proof (H x (list_elem_of_here _ _)).
  pose proof (IH (fun y Hy => H y (list_elem_of_further _ _ _ Hy))). lia.
Qed.

Lemma height_obj_bound props n :
  (forall kv, kv ∈ props -> height (snd kv) <= n) -> height (JObj props) <= S n.
Proof.
  intros H. cbn. apply le_n_S, max_list_bound.
  intros x Hx. apply elem_of_map_iff in Hx as (kv & -> & Hin). by apply H.
Qed.

Lemma height_arr_bound items n :
  (forall x, x ∈ items -> height x <= n) -> height (JArr items) <= S n.
Proof.
  intros H. cbn. apply le_n_S, max_list_bound.
  intros x Hx. apply elem_of_map_iff in Hx as (y & -> & Hin). by apply H.
Qed.

Lemma index_key_not_ref i : String.eqb (index_key i) "$ref" = false.
Proof.
  destruct (index_key_digit i) as (c & s & -> & Hd).
  apply String.eqb_neq. intros [= -> _]. discriminate.
Qed.

(** The own properties of a value are no deeper than the value and carry
    none but its references. *)
Lemma own_entries_elem v kv :
  kv ∈ own_entries v ->
  height (snd kv) <= height v /\ pair_refs kv ⊆ refs_of v
  /\ (typeof_object v = true -> height (snd kv) < height v).
Proof.
  destruct v as [| | b | n | s | items | props |]; cbn [own_entries];
    try (intros H; by apply elem_of_nil in H).
  - intros H. apply list_elem_of_lookup in H as [i Hi].
    rewrite list_lookup_imap in Hi.
    destruct (chars s !! i); [|done]. injection Hi as <-.
    unfold pair_refs. cbn. rewrite index_key_not_ref.
    split; [lia|]. split; [set_solver|done].
  - intros H. apply list_elem_of_lookup in H as [i Hi].
    rewrite list_lookup_imap in Hi.
    destruct (items !! i) as [x|] eqn:Hx; [|done]. injection Hi as <-.
    apply list_elem_of_lookup_2 in Hx.
    pose proof (height_arr_elem _ _ Hx). pose proof (refs_of_arr_elem _ _ Hx).
    unfold pair_refs. cbn [fst snd]. rewrite index_key_not_ref.
    split; [lia|]. split; [|done]. destruct x; set_solver.
  - intros H. pose proof (height_obj_elem _ _ H).
    split; [lia|]. split; [by apply refs_of_obj_elem|done].
Qed.

Lemma get_field_elem k (props : list (string * jsval)) :
  get_field k props = JUndefined \/ (k, get_field k props) ∈ props.
Proof.
  induction props as [|[k' v] props IH]; cbn; [by left|].
  destruct (String.eqb_spec k' k) as [->|Hne].
  - right. apply list_elem_of_here.
  - destruct IH as [IH|IH]; [by left|right]. by apply list_elem_of_further.
Qed.

Lemma refs_sub_pair kv : refs_of (snd kv) ⊆ pair_refs kv.
Proof. unfold pair_refs. set_solver. Qed.

Lemma inside_field s k :
  truthy s = true -> typeof_object s = true ->
  inside s (get_field k (own_entries s)).
Proof.
  intros Ht Ho.
  destruct (get_field_elem k (own_entries s)) as [->|Hin].
  - split; [|set_solver]. destruct s; try discriminate; cbn; lia.
  - apply own_entries_elem in Hin as (_ & Hr & Hh). cbn [fst snd] in *.
    split; [by apply Hh|]. etrans; [apply (refs_sub_pair (k, _))|done].
Qed.

Lemma inside_entry s p kv : inside s p -> kv ∈ own_entries p -> inside s (snd kv).
Proof.
  intros [Hh Hr] Hin. apply own_entries_elem in Hin as (Hh' & Hr' & _).
  split; [lia|]. etrans; [apply refs_sub_pair|]. by etrans.
Qed.

Lemma inside_item s l x : inside s (JArr l) -> x ∈ l -> inside s x.
Proof.
  intros [Hh Hr] Hin. pose proof (height_arr_elem _ _ Hin).
  pose proof (refs_of_arr_elem _ _ Hin). split; [lia|by etrans].
Qed.

(** ** The pointer walk stays inside the document *)

Lemma get_own_inside v k :
  height (get_own v k) <= height v /\ refs_of (get_own v k) ⊆ refs_of v.
Proof.
  destruct v as [| | b | n | s | items | props |]; cbn [get_own];
    try (split; [cbn; lia | set_solver]).
  - destruct (String.eqb k "length"); [split; [cbn; lia | set_solver]|].
    destruct (get_field_elem k (own_entries (JArr items))) as [->|Hin].
    + split; [cbn; lia | set_solver].
    + apply own_entries_elem in Hin as (Hh & Hr & _). split; [done|].
      etrans; [apply (refs_sub_pair (k, _))|done].
  - destruct (get_field_elem k props) as [->|Hin].
    + split; [cbn; lia | set_solver].
    + apply (own_entries_elem (JObj props)) in Hin as (Hh & Hr & _). split; [done|].
      etrans; [apply (refs_sub_pair (k, _))|done].
Qed.

Lemma inherited_member_flat k name :
  height (inherited_member k name) <= 1 /\ refs_of (inherited_member k name) = ∅.
Proof. unfold inherited_member. repeat case_match; split; cbn; (lia || done). Qed.

Lemma prototype_member_flat k name :
  height (prototype_member k name) <= 1 /\ refs_of (prototype_member k name) = ∅.
Proof. unfold prototype_member. repeat case_match; split; cbn; (lia || done). Qed.

(** A member found on the prototype chain is a built-in, with nothing of the
    document in it. *)
Lemma member_inside v k :
  height (member v k) <= height v /\ refs_of (member v k) ⊆ refs_of v.
Proof.
  destruct v as [| | b | n | s | items | props | x]; cbn [member];
    try (split; [cbn; lia | set_solver]).
  - destruct (String.eqb k "length" || has_field k (own_entries (JArr items)));
      [apply get_own_inside|].
    destruct (inherited_member_flat KArray k) as [Hh ->]. split; [cbn; lia | set_solver].
  - destruct (has_field k props); [apply (get_own_inside (JObj props))|].
    destruct (inherited_member_flat KObject k) as [Hh ->]. split; [cbn; lia | set_solver].
  - destruct x as [p| |]; try (split; [cbn; lia | set_solver]).
    destruct (prototype_member_flat p k) as [Hh ->]. split; [cbn; lia | set_solver].
Qed.

Lemma walk_inside ref path current v :
  walk ref path current = Ok v ->
  height v <= height current /\ refs_of v ⊆ refs_of current.
Proof.
  revert current. induction path as [|segment rest IH]; intros current; cbn [walk].
  - intros [= ->]. split; [lia | set_solver].
  - intros Hw.
    assert (Hnext : walk ref rest (member current (decode_segment segment)) = Ok v).
    { destruct current; try discriminate;
        destruct (negb (typeof_object _)); try discriminate; exact Hw. }
    apply IH in Hnext as [Hh Hr].
    destruct (member_inside current (decode_segment segment)) as [Hh' Hr'].
    split; [lia | by etrans].
Qed.

Lemma resolveRef_inside spec ref v :
  resolveRef spec ref = Ok v ->
  height v <= height spec /\ refs_of v ⊆ refs_of spec.
Proof.
  unfold resolveRef. destruct (negb (String.prefix "#/" ref)); [discriminate|].
  destruct (walk ref _ spec) as [current|e] eqn:Hw; cbn; [|discriminate].
  apply walk_inside in Hw. destruct current; try discriminate; by intros [= <-].
Qed.

(** ** The merged fragment *)

Lemma set_field_elem {V} k (v : V) props kv :
  kv ∈ set_field k v props -> kv = (k, v) \/ kv ∈ props.
Proof.
  induction props as [|[k' v'] props IH]; cbn.
  - intros H. apply list_elem_of_singleton in H. by left.
  - destruct (String.eqb_spec k' k) as [->|Hne]; intros H.
    + apply elem_of_cons in H as [->|H]; [by left|right]. by apply list_elem_of_further.
    + apply elem_of_cons in H as [->|H]; [right; apply list_elem_of_here|].
      destruct (IH H) as [->|Hin]; [by left|right]. by apply list_elem_of_further.
Qed.

Lemma assign_elem {V} (target source : list (string * V)) kv :
  kv ∈ assign target source -> kv ∈ target \/ kv ∈ source.
Proof.
  unfold assign. revert target. induction source as [|[k v] source IH]; intros target; cbn.
  - by left.
  - intros H. apply IH in H as [H|H].
    + apply set_field_elem in H as [->|H]; [right; apply list_elem_of_here|by left].
    + right. by apply list_elem_of_further.
Qed.

Lemma remove_field_elem {V} k (props : list (string * V)) kv :
  kv ∈ remove_field k props -> kv ∈ props.
Proof. unfold remove_field. rewrite list_elem_of_filter. tauto. Qed.

Lemma merged_inside resolved schema :
  height (merged resolved schema) <= S (height resolved + height schema)
  /\ refs_of (merged resolved schema) ⊆ refs_of resolved ∪ refs_of schema.
Proof.
  unfold merged, spread2. split.
  - apply height_obj_bound. intros kv Hin.
    apply assign_elem in Hin as [Hin|Hin].
    + apply own_entries_elem in Hin as (? & _). lia.
    + apply remove_field_elem, own_entries_elem in Hin as (? & _). lia.
  - apply refs_of_obj_bound. intros kv Hin.
    apply assign_elem in Hin as [Hin|Hin].
    + apply own_entries_elem in Hin as (_ & ? & _). set_solver.
    + apply remove_field_elem, own_entries_elem in Hin as (_ & ? & _). set_solver.
Qed.

Lemma ref_in_refs schema r :
  get_own schema "$ref" = JStr r -> r ∈ refs_of schema.
Proof.
  destruct schema as [| | b | n | s | items | props |]; cbn [get_own]; try discriminate.
  - cbn [String.eqb Ascii.eqb Bool.eqb]. cbn [own_entries].
    intros H. pose proof (array_get_named "$ref" "$" "ref" items eq_refl eq_refl) as Hu.
    cbn [own_entries] in Hu. congruence.
  - intros H. destruct (get_field_elem "$ref" props) as [Hu|Hin]; [congruence|].
    rewrite H in Hin. apply refs_of_obj_elem in Hin.
    apply Hin. unfold pair_refs. cbn. set_solver.
Qed.

(** ** The budget *)

Lemma fuel_bound_potential spec schema visited :
  fuel_bound spec schema visited = S (potential spec schema visited).
Proof. reflexivity. Qed.

Lemma potential_inside spec s v visited :
  inside s v -> potential spec v visited < potential spec s visited.
Proof.
  intros [Hh Hr]. unfold potential.
  assert (size ((refs_of spec ∪ refs_of v) ∖ visited)
          <= size ((refs_of spec ∪ refs_of s) ∖ visited)) as Hs
    by (apply subseteq_size; set_solver).
  apply (Nat.mul_le_mono_r _ _ (height spec + 2)) in Hs. lia.
Qed.

Lemma potential_merged spec schema visited r resolved :
  get_own schema "$ref" = JStr r -> r ∉ visited ->
  resolveRef spec r = Ok resolved ->
  potential spec (merged resolved schema) ({[ r ]} ∪ visited)
  < potential spec schema visited.
Proof.
  intros Href Hnew Hres. unfold potential.
  apply ref_in_refs in Href.
  apply resolveRef_inside in Hres as [Hh Hr].
  destruct (merged_inside resolved schema) as [Hmh Hmr].
  assert (size ((refs_of spec ∪ refs_of (merged resolved schema)) ∖ ({[ r ]} ∪ visited))
          < size ((refs_of spec ∪ refs_of schema) ∖ visited)) as Hs.
  { apply subset_size. apply strict_spec_alt. split; [set_solver|].
    intros Heq. assert (r ∈ (refs_of spec ∪ refs_of schema) ∖ visited) as Hin by set_solver.
    rewrite <- Heq in Hin. set_solver. }
  set (a := size ((refs_of spec ∪ refs_of (merged resolved schema)) ∖ ({[ r ]} ∪ visited))) in *.
  set (b := size ((refs_of spec ∪ refs_of schema) ∖ visited)) in *.
  assert (S a * (height spec + 2) <= b * (height spec + 2)) as Hm
    by (apply Nat.mul_le_mono_r; lia).
  lia.
Qed.

(** ** Independence of the budget *)

Lemma same_def_some {A} (r : A) : same_def (Some r) (Some r).
Proof. by exists r. Qed.

Lemma same_def_fbind {A B} (m1 m2 : option (completion A))
    (k1 k2 : A -> option (completion B)) :
  same_def m1 m2 ->
  (forall a, m1 = Some (Ok a) -> same_def (k1 a) (k2 a)) ->
  same_def (fbind m1 k1) (fbind m2 k2).
Proof.
  intros (r & -> & ->) Hk. destruct r as [a|e]; cbn.
  - by apply Hk.
  - apply same_def_some.
Qed.

Lemma same_def_fmapM {A B} (f1 f2 : A -> option (completion B)) (l : list A) :
  (forall x, x ∈ l -> same_def (f1 x) (f2 x)) ->
  same_def (fmapM f1 l) (fmapM f2 l).
Proof.
  induction l as [|x l IH]; intros H; cbn [fmapM].
  - apply same_def_some.
  - apply same_def_fbind; [apply H, list_elem_of_here|].
    intros y _. apply same_def_fbind; [|intros; apply same_def_some].
    apply IH. intros z Hz. by apply H, list_elem_of_further.
Qed.

Lemma same_def_fcatch {A} (m1 m2 : option (completion A)) (h : exn -> option (completion A)) :
  same_def m1 m2 -> (forall e, exists r, h e = Some r) ->
  same_def (fcatch m1 h) (fcatch m2 h).
Proof.
  intros (r & -> & ->) Hh. destruct r as [a|e]; cbn.
  - apply same_def_some.
  - destruct (Hh e) as [r ->]. apply same_def_some.
Qed.

Lemma get_field_set_field_ne {V} `{Undefined V} k k' (v : V) props :
  k <> k' -> get_field k (set_field k' v props) = get_field k props.
Proof.
  intros Hne. induction props as [|[k0 v0] props IH]; cbn.
  - destruct (String.eqb_spec k' k); [congruence|done].
  - destruct (String.eqb_spec k0 k') as [->|Hne']; cbn.
    + destruct (String.eqb_spec k' k); [congruence|done].
    + destruct (String.eqb_spec k0 k); [done|exact IH].
Qed.

Lemma get_field_set_field_eq {V} `{Undefined V} k (v : V) props :
  get_field k (set_field k v props) = v.
Proof.
  induction props as [|[k0 v0] props IH]; cbn.
  - by rewrite String.eqb_refl.
  - destruct (String.eqb_spec k0 k) as [->|Hne]; cbn.
    + by rewrite String.eqb_refl.
    + destruct (String.eqb_spec k0 k); [done|exact IH].
Qed.

(** Each nested step rewrites one field and leaves the others alone. *)
Ltac step_frame :=
  repeat match goal with
  | H : context [if ?b then _ else _] |- _ => destruct b
  | H : context [match ?x with _ => _ end] |- _ => destruct x
  | H : fbind ?m _ = Some (Ok _) |- _ =>
      let y := fresh "y" in
      destruct m as [[y|]|]; cbn [fbind] in H; try discriminate
  | H : fret _ = Some (Ok _) |- _ => injection H as <-
  | H : Some _ = Some _ |- _ => injection H as H; try discriminate
  | H : Ok _ = Ok _ |- _ => injection H as <-
  end;
  try discriminate; try reflexivity;
  try (rewrite get_field_set_field_ne by congruence; reflexivity).

Section frames.
Variable rec : jsval -> gset string -> option (completion jsval).

Lemma resolve_properties_frame visited result result' k :
  resolve_properties rec visited result = Some (Ok result') ->
  k <> "properties" -> get_field k result' = get_field k result.
Proof. unfold resolve_properties. intros H Hk. step_frame. Qed.

Lemma resolve_items_frame visited result result' k :
  resolve_items rec visited result = Some (Ok result') ->
  k <> "items" -> get_field k result' = get_field k result.
Proof. unfold resolve_items. intros H Hk. step_frame. Qed.

Lemma resolve_additional_frame visited result result' k :
  resolve_additional rec visited result = Some (Ok result') ->
  k <> "additionalProperties" -> get_field k result' = get_field k result.
Proof. unfold resolve_additional. intros H Hk. step_frame. Qed.

Lemma resolve_members_frame key visited result result' k :
  resolve_members rec key visited result = Some (Ok result') ->
  k <> key -> get_field k result' = get_field k result.
Proof. unfold resolve_members. intros H Hk. step_frame. Qed.

Lemma resolve_not_frame visited result result' k :
  resolve_not rec visited result = Some (Ok result') ->
  k <> "not" -> get_field k result' = get_field k result.
Proof. unfold resolve_not. intros H Hk. step_frame. Qed.
End frames.

Section same_steps.
Variables rec1 rec2 : jsval -> gset string -> option (completion jsval).
Variable s : jsval.
Variable visited : gset string.
Hypothesis Hrec : forall v, inside s v -> same_def (rec1 v visited) (rec2 v visited).

Lemma resolve_properties_same result :
  inside s (get_field "properties" result) ->
  same_def (resolve_properties rec1 visited result)
           (resolve_properties rec2 visited result).
Proof.
  intros Hin. unfold resolve_properties.
  destruct (truthy _); [|apply same_def_some].
  apply same_def_fbind; [|intros; apply same_def_some].
  apply same_def_fmapM. intros kv Hkv. unfold resolve_entry.
  apply same_def_fbind; [|intros; apply same_def_some].
  apply Hrec. by apply (inside_entry _ _ _ Hin).
Qed.

Lemma resolve_items_same result :
  inside s (get_field "items" result) ->
  same_def (resolve_items rec1 visited result) (resolve_items rec2 visited result).
Proof.
  intros Hin. unfold resolve_items.
  destruct (truthy _); [|apply same_def_some].
  destruct (get_field "items" result) eqn:Hi;
    try (apply same_def_fbind; [by apply Hrec|intros; apply same_def_some]).
  apply same_def_fbind; [|intros; apply same_def_some].
  apply same_def_fmapM. intros x Hx. apply Hrec. by apply (inside_item _ _ _ Hin).
Qed.

Lemma resolve_additional_same result :
  inside s (get_field "additionalProperties" result) ->
  same_def (resolve_additional rec1 visited result)
           (resolve_additional rec2 visited result).
Proof.
  intros Hin. unfold resolve_additional.
  destruct (_ && _); [|apply same_def_some].
  apply same_def_fbind; [by apply Hrec|intros; apply same_def_some].
Qed.

Lemma resolve_members_same k result :
  inside s (get_field k result) ->
  same_def (resolve_members rec1 k visited result)
           (resolve_members rec2 k visited result).
Proof.
  intros Hin. unfold resolve_members.
  destruct (truthy _); [|apply same_def_some].
  destruct (get_field k result) eqn:Hi; try apply same_def_some.
  apply same_def_fbind; [|intros; apply same_def_some].
  apply same_def_fmapM. intros x Hx. apply Hrec. by apply (inside_item _ _ _ Hin).
Qed.

Lemma resolve_not_same result :
  inside s (get_field "not" result) ->
  same_def (resolve_not rec1 visited result) (resolve_not rec2 visited result).
Proof.
  intros Hin. unfold resolve_not.
  destruct (truthy _); [|apply same_def_some].
  apply same_def_fbind; [by apply Hrec|intros; apply same_def_some].
Qed.

Lemma resolve_nested_same :
  truthy s = true -> typeof_object s = true ->
  same_def (resolve_nested rec1 s visited) (resolve_nested rec2 s visited).
Proof.
  intros Ht Ho. unfold resolve_nested.
  pose proof (inside_field s) as Hf.
  apply same_def_fbind; [apply resolve_properties_same; by apply Hf|].
  intros a1 H1. pose proof (fun k => resolve_properties_frame _ _ _ _ k H1) as F1.
  apply same_def_fbind; [apply resolve_items_same; rewrite F1 by done; by apply Hf|].
  intros a2 H2. pose proof (fun k => resolve_items_frame _ _ _ _ k H2) as F2.
  apply same_def_fbind;
    [apply resolve_additional_same; rewrite F2, F1 by done; by apply Hf|].
  intros a3 H3. pose proof (fun k => resolve_additional_frame _ _ _ _ k H3) as F3.
  apply same_def_fbind;
    [apply resolve_members_same; rewrite F3, F2, F1 by done; by apply Hf|].
  intros a4 H4. pose proof (fun k => resolve_members_frame _ _ _ _ _ k H4) as F4.
  apply same_def_fbind;
    [apply resolve_members_same; rewrite F4, F3, F2, F1 by done; by apply Hf|].
  intros a5 H5. pose proof (fun k => resolve_members_frame _ _ _ _ _ k H5) as F5.
  apply same_def_fbind;
    [apply resolve_members_same; rewrite F5, F4, F3, F2, F1 by done; by apply Hf|].
  intros a6 H6. pose proof (fun k => resolve_members_frame _ _ _ _ _ k H6) as F6.
  apply same_def_fbind;
    [apply resolve_not_same; rewrite F6, F5, F4, F3, F2, F1 by done; by apply Hf|].
  intros; apply same_def_some.
Qed.
End same_steps.

Lemma resolve_step_same rec1 rec2 spec s visited :
  (forall v visited', potential spec v visited' < potential spec s visited ->
     same_def (rec1 v visited') (rec2 v visited')) ->
  same_def (resolve_step rec1 spec s visited) (resolve_step rec2 spec s visited).
Proof.
  intros Hrec. unfold resolve_step.
  destruct (negb (truthy s) || negb (typeof_object s)) eqn:Hleaf; [apply same_def_some|].
  apply orb_false_elim in Hleaf as [Ht Ho].
  apply negb_false_iff in Ht. apply negb_false_iff in Ho.
  destruct (truthy (get_own s "$ref")) eqn:Href.
  - unfold resolve_reference.
    destruct (get_own s "$ref") as [| | | | r | | |] eqn:Hr; try apply same_def_some.
    case_bool_decide as Hseen; [apply same_def_some|].
    apply same_def_fcatch; [|intros; eexists; reflexivity].
    destruct (resolveRef spec r) as [resolved|e] eqn:Hres; [|apply same_def_some].
    apply Hrec. by apply potential_merged.
  - apply resolve_nested_same; [|done..].
    intros v Hv. apply Hrec. by apply potential_inside.
Qed.

Lemma resolveSchema_fuel_stable n m spec s visited :
  potential spec s visited < n -> potential spec s visited < m ->
  same_def (resolveSchema_fuel n spec s visited) (resolveSchema_fuel m spec s visited).
Proof.
  revert m s visited. induction n as [|n IH]; intros m s visited Hn Hm; [lia|].
  destruct m as [|m]; [lia|]. cbn [resolveSchema_fuel].
  apply resolve_step_same. intros v visited' Hlt. apply IH; lia.
Qed.

(** [resolveSchema] terminates: the budget [fuel_bound] is enough on every
    input, and a larger one changes nothing. *)
Lemma resolveSchema_fuel_bound spec s visited :
  exists r,
    resolveSchema_from spec s visited = r
    /\ forall n, fuel_bound spec s visited <= n ->
         resolveSchema_fuel n spec s visited = Some r.
Proof.
  destruct (resolveSchema_fuel_stable (fuel_bound spec s visited)
              (fuel_bound spec s visited) spec s visited) as (r & Hr & _);
    [rewrite fuel_bound_potential; lia..|].
  exists r. split; [unfold resolveSchema_from; by rewrite Hr|].
  intros n Hn.
  destruct (resolveSchema_fuel_stable (fuel_bound spec s visited) n spec s visited)
    as (r' & Hr1 & Hr2); [rewrite fuel_bound_potential in *; lia..|]. congruence.
Qed.

(** The recursion equation of [resolveSchema], free of budgets. *)
Lemma resolveSchema_unfold spec s visited :
  Some (resolveSchema_from spec s visited)
  = resolve_step (fun v visited' => Some (resolveSchema_from spec v visited'))
      spec s visited.
Proof.
  destruct (resolveSchema_fuel_bound spec s visited) as (r & Hr & Hn).
  rewrite Hr. specialize (Hn _ (Nat.le_refl _)).
  rewrite fuel_bound_potential in Hn. cbn [resolveSchema_fuel] in Hn.
  destruct (resolve_step_same (resolveSchema_fuel (potential spec s visited) spec)
              (fun v visited' => Some (resolveSchema_from spec v visited'))
              spec s visited) as (r' & H1 & H2); [|congruence].
  intros v visited' Hlt.
  destruct (resolveSchema_fuel_bound spec v visited') as (rv & Hrv & Hnv).
  exists rv. split; [|by rewrite Hrv].
  apply Hnv. rewrite fuel_bound_potential. lia.
Qed.

(** ** Consequences of the recursion equation *)

Lemma resolveSchema_step spec s visited :
  resolve_step (resolved_by spec) spec s visited = Some (resolveSchema_from spec s visited).
Proof. symmetry. apply resolveSchema_unfold. Qed.

Lemma resolveSchema_leaf spec s visited :
  negb (truthy s) || negb (typeof_object s) = true ->
  resolveSchema_from spec s visited = Ok s.
Proof.
  intros H. pose proof (resolveSchema_step spec s visited) as Hs.
  unfold resolve_step in Hs. rewrite H in Hs. by injection Hs.
Qed.

Lemma ref_is_node s r : get_own s "$ref" = JStr r ->
  negb (truthy s) || negb (typeof_object s) = false.
Proof. destruct s; cbn; try discriminate; done. Qed.

Lemma truthy_str r : r <> "" -> truthy (JStr r) = true.
Proof. intros H. cbn. apply negb_true_iff, String.eqb_neq. done. Qed.

(** A pointer already on the path yields the placeholder. *)
Lemma resolveSchema_seen spec s visited r :
  get_own s "$ref" = JStr r -> r <> "" -> r ∈ visited ->
  resolveSchema_from spec s visited = Ok (placeholder r).
Proof.
  intros Hr Hne Hin. pose proof (resolveSchema_step spec s visited) as Hs.
  unfold resolve_step in Hs. rewrite (ref_is_node _ _ Hr), Hr, (truthy_str _ Hne) in Hs.
  unfold resolve_reference in Hs. rewrite bool_decide_eq_true_2 in Hs by done.
  by injection Hs.
Qed.

(** A pointer met for the first time and walked to [target]: the merged
    fragment is resolved with the pointer added to the path; an exception
    raised below is absorbed and the fragment itself returned. *)
Lemma resolveSchema_reference spec s visited r target :
  get_own s "$ref" = JStr r -> r <> "" -> r ∉ visited ->
  resolveRef spec r = Ok target ->
  resolveSchema_from spec s visited
  = match resolveSchema_from spec (merged target s) ({[ r ]} ∪ visited) with
    | Ok v => Ok v
    | Throw _ => Ok s
    end.
Proof.
  intros Hr Hne Hnew Ht. pose proof (resolveSchema_step spec s visited) as Hs.
  unfold resolve_step in Hs. rewrite (ref_is_node _ _ Hr), Hr, (truthy_str _ Hne) in Hs.
  unfold resolve_reference in Hs. rewrite bool_decide_eq_false_2, Ht in Hs by done.
  unfold resolved_by, fcatch in Hs.
  destruct (resolveSchema_from spec (merged target s) ({[ r ]} ∪ visited));
    by injection Hs.
Qed.


(** A reference that is a string never raises. *)
Lemma resolveSchema_reference_ok spec s visited :
  truthy (get_own s "$ref") = true -> is_string (get_own s "$ref") = true ->
  exists v, resolveSchema_from spec s visited = Ok v.
Proof.
  intros Ht Hstr. pose proof (resolveSchema_step spec s visited) as Hs.
  unfold resolve_step in Hs.
  assert (negb (truthy s) || negb (typeof_object s) = false) as Hn.
  { destruct s; cbn in *; try discriminate; done. }
  rewrite Hn, Ht in Hs. unfold resolve_reference in Hs.
  destruct (get_own s "$ref") as [| | | | r | | |]; try discriminate Hstr.
  case_bool_decide; [injection Hs as <-; eauto|].
  unfold fcatch in Hs.
  destruct (resolveRef spec r); [|injection Hs as <-; eauto].
  unfold resolved_by in Hs.
  destruct (resolveSchema_from spec _ _); injection Hs as <-; eauto.
Qed.

(** A reference that is not a string: the fragment comes back once the
    reference is converted to a string, and the conversion can raise. *)
Lemma resolveSchema_odd_reference spec s visited :
  truthy (get_own s "$ref") = true -> is_string (get_own s "$ref") = false ->
  resolveSchema_from spec s visited = let! _ := to_string (get_own s "$ref") in Ok s.
Proof.
  intros Ht Hstr. pose proof (resolveSchema_step spec s visited) as Hs.
  unfold resolve_step in Hs.
  assert (negb (truthy s) || negb (typeof_object s) = false) as Hn.
  { destruct s; cbn in *; try discriminate; done. }
  rewrite Hn, Ht in Hs. unfold resolve_reference in Hs.
  destruct (get_own s "$ref") as [| | | | r | | |]; try discriminate Hstr;
    by injection Hs.
Qed.

Lemma resolveSchema_nested spec s visited :
  negb (truthy s) || negb (typeof_object s) = false ->
  truthy (get_own s "$ref") = false ->
  resolve_nested (resolved_by spec) s visited = Some (resolveSchema_from spec s visited).
Proof.
  intros Hn Hr. pose proof (resolveSchema_step spec s visited) as Hs.
  unfold resolve_step in Hs. by rewrite Hn, Hr in Hs.
Qed.

(** ** A typed fragment never raises *)

Lemma fmapM_ok {A B} (f : A -> option (completion B)) (l : list A) :
  (forall x, x ∈ l -> exists y, f x = Some (Ok y)) ->
  exists ys, fmapM f l = Some (Ok ys).
Proof.
  induction l as [|x l IH]; intros H; cbn [fmapM]; [by eexists|].
  destruct (H x (list_elem_of_here _ _)) as [y ->].
  destruct IH as [ys ->]; [intros z Hz; by apply H, list_elem_of_further|].
  by eexists.
Qed.

Section ok_steps.
Variable rec : jsval -> gset string -> option (completion jsval).
Variable visited : gset string.
Variable Q : jsval -> Prop.
Hypothesis Hok : forall v, Q v -> exists r, rec v visited = Some (Ok r).

Lemma resolve_properties_ok result :
  (forall kv, kv ∈ own_entries (get_field "properties" result) -> Q (snd kv)) ->
  exists a, resolve_properties rec visited result = Some (Ok a).
Proof.
  intros H. unfold resolve_properties. destruct (truthy _); [|by eexists].
  destruct (fmapM_ok (resolve_entry rec visited)
              (own_entries (get_field "properties" result))) as [ys ->];
    [|by eexists].
  intros kv Hkv. unfold resolve_entry.
  destruct (Hok _ (H kv Hkv)) as [r ->]. by eexists.
Qed.

Lemma resolve_items_ok result :
  (forall x, x ∈ one_or_many (get_field "items" result) -> Q x) ->
  exists a, resolve_items rec visited result = Some (Ok a).
Proof.
  intros H. unfold resolve_items. destruct (truthy _); [|by eexists].
  destruct (get_field "items" result) eqn:Hi; cbn [one_or_many] in H;
    try (destruct (Hok _ (H _ (list_elem_of_here _ _))) as [r ->]; by eexists).
  destruct (fmapM_ok (fun item => rec item visited) items) as [ys ->]; [|by eexists].
  intros x Hx. by apply Hok, H.
Qed.

Lemma resolve_additional_ok result :
  Q (get_field "additionalProperties" result) ->
  exists a, resolve_additional rec visited result = Some (Ok a).
Proof.
  intros H. unfold resolve_additional. destruct (_ && _); [|by eexists].
  destruct (Hok _ H) as [r ->]. by eexists.
Qed.

Lemma resolve_members_ok k result :
  (truthy (get_field k result) = true -> is_array (get_field k result) = true) ->
  (forall x, x ∈ array_items (get_field k result) -> Q x) ->
  exists a, resolve_members rec k visited result = Some (Ok a).
Proof.
  intros Harr H. unfold resolve_members.
  destruct (truthy _); [|by eexists]. specialize (Harr eq_refl).
  destruct (get_field k result) eqn:Hi; try discriminate. cbn [array_items] in H.
  destruct (fmapM_ok (fun item => rec item visited) items) as [ys ->]; [|by eexists].
  intros x Hx. by apply Hok, H.
Qed.

Lemma resolve_not_ok result :
  Q (get_field "not" result) ->
  exists a, resolve_not rec visited result = Some (Ok a).
Proof.
  intros H. unfold resolve_not. destruct (truthy _); [|by eexists].
  destruct (Hok _ H) as [r ->]. by eexists.
Qed.
End ok_steps.

Lemma inside_one_or_many s v x : inside s v -> x ∈ one_or_many v -> inside s x.
Proof.
  intros Hin Hx. destruct v; cbn in Hx;
    try (apply list_elem_of_singleton in Hx; by subst).
  by apply (inside_item _ _ _ Hin).
Qed.

Lemma inside_array_items s v x : inside s v -> x ∈ array_items v -> inside s x.
Proof.
  intros Hin Hx. destruct v; cbn in Hx; try (by apply elem_of_nil in Hx).
  by apply (inside_item _ _ _ Hin).
Qed.

Lemma resolveSchema_typed_ok spec n :
  forall s visited, height s < n -> spine_typed s ->
    exists v, resolveSchema_from spec s visited = Ok v.
Proof.
  induction n as [|n IH]; intros s visited Hh Htyped; [lia|].
  inversion Htyped as [v Hleaf | v Href Hstr | v Href Hp Hi Ha Hm1 Hm2 Hn]; subst v.
  { rewrite resolveSchema_leaf by done. eauto. }
  { by apply resolveSchema_reference_ok. }
  destruct (negb (truthy s) || negb (typeof_object s)) eqn:Hleaf.
  { rewrite resolveSchema_leaf by done. eauto. }
  pose proof (resolveSchema_nested spec s visited Hleaf Href) as Hs.
  apply orb_false_elim in Hleaf as [Ht Ho].
  apply negb_false_iff in Ht. apply negb_false_iff in Ho.
  pose proof (fun k => inside_field s k Ht Ho) as Hf.
  set (Q := fun v => inside s v /\ spine_typed v).
  assert (Hok : forall v, Q v -> exists r, resolved_by spec v visited = Some (Ok r)).
  { intros v [[Hv _] Hv']. destruct (IH v visited) as [r Hr]; [lia|done|].
    exists r. unfold resolved_by. by rewrite Hr. }
  rewrite Forall_forall in Hp. rewrite Forall_forall in Hi.
  unfold resolve_nested in Hs.
  destruct (resolve_properties_ok _ visited Q Hok (own_entries s)) as [a1 H1].
  { intros kv Hkv. split; [by apply (inside_entry s _ _ (Hf "properties"))|by apply Hp]. }
  pose proof (fun k => resolve_properties_frame _ _ _ _ k H1) as F1.
  rewrite H1 in Hs. cbn [fbind] in Hs.
  destruct (resolve_items_ok _ visited Q Hok a1) as [a2 H2].
  { rewrite F1 by done. intros x Hx.
    split; [by apply (inside_one_or_many s _ _ (Hf "items"))|by apply Hi]. }
  pose proof (fun k => resolve_items_frame _ _ _ _ k H2) as F2.
  rewrite H2 in Hs. cbn [fbind] in Hs.
  destruct (resolve_additional_ok _ visited Q Hok a2) as [a3 H3].
  { rewrite F2, F1 by done. split; [apply Hf|done]. }
  pose proof (fun k => resolve_additional_frame _ _ _ _ k H3) as F3.
  rewrite H3 in Hs. cbn [fbind] in Hs.
  assert (Hmem : forall k, k ∈ ["allOf"; "oneOf"; "anyOf"] ->
            forall x, x ∈ array_items (get_field k (own_entries s)) -> Q x).
  { intros k Hk x Hx. specialize (Hm2 k Hk). rewrite Forall_forall in Hm2.
    split; [by apply (inside_array_items s _ _ (Hf k))|by apply Hm2]. }
  destruct (resolve_members_ok _ visited Q Hok "allOf" a3) as [a4 H4].
  { rewrite F3, F2, F1 by done. apply Hm1. set_solver. }
  { rewrite F3, F2, F1 by done. apply Hmem. set_solver. }
  pose proof (fun k => resolve_members_frame _ _ _ _ _ k H4) as F4.
  rewrite H4 in Hs. cbn [fbind] in Hs.
  destruct (resolve_members_ok _ visited Q Hok "oneOf" a4) as [a5 H5].
  { rewrite F4, F3, F2, F1 by done. apply Hm1. set_solver. }
  { rewrite F4, F3, F2, F1 by done. apply Hmem. set_solver. }
  pose proof (fun k => resolve_members_frame _ _ _ _ _ k H5) as F5.
  rewrite H5 in Hs. cbn [fbind] in Hs.
  destruct (resolve_members_ok _ visited Q Hok "anyOf" a5) as [a6 H6].
  { rewrite F5, F4, F3, F2, F1 by done. apply Hm1. set_solver. }
  { rewrite F5, F4, F3, F2, F1 by done. apply Hmem. set_solver. }
  pose proof (fun k => resolve_members_frame _ _ _ _ _ k H6) as F6.
  rewrite H6 in Hs. cbn [fbind] in Hs.
  destruct (resolve_not_ok _ visited Q Hok a6) as [a7 H7].
  { rewrite F6, F5, F4, F3, F2, F1 by done. split; [apply Hf|done]. }
  rewrite H7 in Hs. cbn [fbind] in Hs. injection Hs as <-. eauto.
Qed.

(** ** Termination and the self-cycle *)

Lemma resolveRef_internal spec r v : resolveRef spec r = Ok v -> r <> "".
Proof. intros H ->. discriminate. Qed.

Lemma resolveSchema_node spec visited p :
  p ∉ visited ->
  resolveRef spec p = Ok (node_schema p) ->
  resolveSchema_from spec (JObj [("$ref", JStr p)]) visited
  = Ok (JObj [("type", JStr "object");
              ("properties", JObj [("next", placeholder p)])]).
Proof.
  intros Hnew Hres. pose proof (resolveRef_internal _ _ _ Hres) as Hne.
  rewrite (resolveSchema_reference spec _ visited p (node_schema p));
    [|first [reflexivity | done]..].
  assert (merged (node_schema p) (JObj [("$ref", JStr p)]) = node_schema p) as -> by reflexivity.
  assert (resolveSchema_from spec (node_schema p) ({[ p ]} ∪ visited)
          = Ok (JObj [("type", JStr "object");
                      ("properties", JObj [("next", placeholder p)])])) as ->; [|done].
  pose proof (resolveSchema_nested spec (node_schema p) ({[ p ]} ∪ visited) eq_refl eq_refl) as Hs.
  unfold resolve_nested, resolve_properties in Hs.
  cbn [node_schema own_entries get_field String.eqb Ascii.eqb Bool.eqb truthy fmapM
       resolve_entry fst snd] in Hs.
  unfold resolve_entry in Hs. cbn [fst snd] in Hs. unfold resolved_by at 1 in Hs.
  rewrite (resolveSchema_seen spec (JObj [("$ref", JStr p)]) ({[ p ]} ∪ visited) p) in Hs;
    [|reflexivity|done|set_solver].
  cbn in Hs. by injection Hs.
Qed.

(** C1, as the code has it. [resolveSchema] terminates on every document,
    fragment and visited set (the budget [fuel_bound] suffices and a larger
    one gives the same completion); on a fragment shaped as the [Schema]
    interface says (a [$ref] is a string, [allOf], [oneOf] and [anyOf] hold
    arrays, along the part reached without passing through a reference) it
    returns a value and does not raise; a pointer that is already on the path
    yields the placeholder (type "object", description naming the pointer);
    and a schema whose [next] property points back at itself resolves to one
    expansion ending in that placeholder. *)
Theorem resolveSchema_terminates spec schema visited :
  (exists r, resolveSchema_from spec schema visited = r
     /\ forall n, fuel_bound spec schema visited <= n ->
          resolveSchema_fuel n spec schema visited = Some r)
  /\ (spine_typed schema -> exists v, resolveSchema_from spec schema visited = Ok v)
  /\ (forall r, get_own schema "$ref" = JStr r -> r <> "" -> r ∈ visited ->
        resolveSchema_from spec schema visited
        = Ok (JObj [("description", JStr ("Circular reference: " ++ r));
                    ("type", JStr "object")]))
  /\ (forall p, schema = JObj [("$ref", JStr p)] -> p ∉ visited ->
        resolveRef spec p = Ok (node_schema p) ->
        resolveSchema_from spec schema visited
        = Ok (JObj [("type", JStr "object");
                    ("properties", JObj [("next", placeholder p)])])).
Proof.
  split; [apply resolveSchema_fuel_bound|]. split; [|split].
  - apply (resolveSchema_typed_ok spec (S (height schema))). lia.
  - intros r. apply resolveSchema_seen.
  - intros p ->. apply resolveSchema_node.
Qed.

(** Proves [spine_typed] for a closed fragment. *)
Ltac spine :=
  lazymatch goal with
  | |- spine_typed _ =>
      first [ apply spine_leaf; reflexivity
            | apply spine_ref; reflexivity
            | apply spine_node; cbn; spine ]
  | |- Forall _ [] => apply Forall_nil_2
  | |- Forall _ (_ :: _) => apply Forall_cons_2; cbn; spine
  | |- forall k, k ∈ _ -> _ =>
      let k := fresh "k" in
      let Hk := fresh "Hk" in
      intros k Hk;
      repeat (apply elem_of_cons in Hk as [->|Hk]);
      [ cbn; spine .. | by apply elem_of_nil in Hk ]
  | |- _ -> _ => intros; cbn in *; first [ discriminate | reflexivity | spine ]
  | |- _ => cbn; try reflexivity
  end.

Lemma resolveSchema_terminates_witness :
  let p := "#/components/schemas/Node" in
  (exists v, resolveSchema_from node_doc (node_schema p) ∅ = Ok v)
  /\ resolveSchema_from node_doc (JObj [("$ref", JStr p)]) {[ p ]} = Ok (placeholder p)
  /\ resolveSchema node_doc (JObj [("$ref", JStr p)])
     = Ok (JObj [("type", JStr "object");
                 ("properties", JObj [("next", placeholder p)])]).
Proof.
  intros p. split; [|split].
  - apply (proj1 (proj2 (resolveSchema_terminates node_doc (node_schema p) ∅))).
    unfold node_schema. spine.
  - apply (proj1 (proj2 (proj2
      (resolveSchema_terminates node_doc (JObj [("$ref", JStr p)]) {[ p ]})))).
    + reflexivity.
    + discriminate.
    + apply elem_of_singleton. reflexivity.
  - apply (proj2 (proj2 (proj2
      (resolveSchema_terminates node_doc (JObj [("$ref", JStr p)]) ∅))) p).
    + reflexivity.
    + apply not_elem_of_empty.
    + reflexivity.
Defined.

(** C1, as the specification states it, fails: on a fragment whose [allOf]
    is the number 5 [resolveSchema] raises a TypeError ([.map] is no
    function), and so it does on a fragment whose [$ref] is an object that
    owns a [toString] (the message of the [catch] block cannot be written). *)
Lemma resolveSchema_untyped_raises :
  resolveSchema node_doc (JObj [("allOf", JNum 5)]) = Throw JsTypeError
  /\ resolveSchema node_doc (JObj [("$ref", JObj [("toString", JNum 1)])])
     = Throw JsTypeError.
Proof. split; vm_compute; reflexivity. Qed.

(** ** Merging a target with the sibling keywords *)

Lemma has_field_false {V} k (props : list (string * V)) :
  k ∉ map fst props -> has_field k props = false.
Proof.
  intros Hk. apply not_true_is_false. rewrite has_field_elem. intros [v Hv].
  apply Hk. apply elem_of_map_iff. by exists (k, v).
Qed.

Lemma get_field_assign {V} `{Undefined V} k (target source : list (string * V)) :
  NoDup (map fst source) ->
  get_field k (assign target source)
  = if has_field k source then get_field k source else get_field k target.
Proof.
  unfold assign. revert target.
  induction source as [|[k0 v0] source IH]; intros target Hnd; [reflexivity|].
  cbn [fst snd map] in Hnd. cbn [fold_left fst snd]. unfold has_field. cbn [existsb get_field fst].
  fold (has_field k source).
  apply NoDup_cons in Hnd as [Hk0 Hnd]. rewrite IH by done.
  destruct (String.eqb_spec k0 k) as [->|Hne]; cbn.
  - rewrite has_field_false by done. apply get_field_set_field_eq.
  - destruct (has_field k source); [done|]. by apply get_field_set_field_ne.
Qed.

Lemma get_field_remove_ne {V} `{Undefined V} k k' (props : list (string * V)) :
  k <> k' -> get_field k (remove_field k' props) = get_field k props.
Proof.
  intros Hne. unfold remove_field.
  induction props as [|[k0 v0] props IH]; [done|].
  rewrite filter_cons. cbn [fst]. destruct (decide (k0 <> k')) as [Hk|Hk]; cbn.
  - by rewrite IH.
  - apply dec_stable in Hk. subst k0.
    destruct (String.eqb_spec k' k); [congruence|done].
Qed.

Lemma has_field_remove_ne {V} k k' (props : list (string * V)) :
  k <> k' -> has_field k (remove_field k' props) = has_field k props.
Proof.
  intros Hne. unfold remove_field.
  induction props as [|[k0 v0] props IH]; [done|].
  rewrite filter_cons. cbn [fst]. destruct (decide (k0 <> k')) as [Hk|Hk]; cbn.
  - unfold has_field in IH. by rewrite IH.
  - apply dec_stable in Hk. subst k0.
    destruct (String.eqb_spec k' k); [congruence|done].
Qed.

Lemma has_field_remove_eq {V} k (props : list (string * V)) :
  has_field k (remove_field k props) = false.
Proof.
  apply has_field_false. intros Hin. apply elem_of_map_iff in Hin as ([k0 v0] & -> & Hin).
  apply list_elem_of_filter in Hin as [Hne _]. by apply Hne.
Qed.

Lemma NoDup_remove_field {V} k (props : list (string * V)) :
  NoDup (map fst props) -> NoDup (map fst (remove_field k props)).
Proof.
  unfold remove_field. induction props as [|[k0 v0] props IH]; [done|].
  cbn [map fst]. intros Hnd. apply NoDup_cons in Hnd as [Hk0 Hnd].
  rewrite filter_cons. destruct (decide _); [|by apply IH].
  cbn [map fst]. apply NoDup_cons. split; [|by apply IH].
  intros Hin. apply Hk0. apply elem_of_map_iff in Hin as (kv & -> & Hin).
  apply elem_of_map_iff. exists kv. split; [done|].
  by apply list_elem_of_filter in Hin as [_ ?].
Qed.

(** In [{ ...target, ...rest }] a key of the fragment wins over the target's. *)
Lemma merged_field target schema k :
  NoDup (map fst (own_entries schema)) ->
  get_own (merged target schema) k
  = if String.eqb k "$ref" then get_field k (own_entries target)
    else if has_field k (own_entries schema) then get_field k (own_entries schema)
    else get_field k (own_entries target).
Proof.
  intros Hnd. unfold merged, spread2. cbn [get_own].
  rewrite get_field_assign by by apply NoDup_remove_field.
  destruct (String.eqb_spec k "$ref") as [->|Hne].
  - by rewrite has_field_remove_eq.
  - by rewrite has_field_remove_ne, get_field_remove_ne.
Qed.

(** C5. A fragment with a reference and sibling keywords resolves to the
    resolution of the merge of the target with the siblings, the pointer being
    added to the path; in the merge a sibling keyword wins over the target's
    field of the same name; and [{ $ref: User, description: "override" }]
    resolves to the User schema with description "override". *)
Theorem resolveSchema_merge spec schema visited r target :
  get_own schema "$ref" = JStr r -> r <> "" -> r ∉ visited ->
  resolveRef spec r = Ok target ->
  NoDup (map fst (own_entries schema)) ->
  resolveSchema_from spec schema visited
  = match resolveSchema_from spec (merged target schema) ({[ r ]} ∪ visited) with
    | Ok v => Ok v
    | Throw _ => Ok schema
    end
  /\ (forall k, k <> "$ref" ->
        get_own (merged target schema) k
        = if has_field k (own_entries schema) then get_field k (own_entries schema)
          else get_field k (own_entries target))
  /\ resolveSchema user_doc override_fragment
     = Ok (JObj [("type", JStr "object");
                 ("description", JStr "override");
                 ("properties", JObj [("name", JObj [("type", JStr "string")])])]).
Proof.
  intros Hr Hne Hnew Ht Hnd. split; [by apply resolveSchema_reference|]. split.
  - intros k Hk. rewrite merged_field by done.
    destruct (String.eqb_spec k "$ref"); [congruence|done].
  - vm_compute. reflexivity.
Qed.

Lemma resolveSchema_merge_witness :
  get_own (merged user_schema override_fragment) "description" = JStr "override"
  /\ get_own (merged user_schema override_fragment) "type" = JStr "object".
Proof.
  destruct (resolveSchema_merge user_doc override_fragment ∅
              "#/components/schemas/User" user_schema) as (_ & Hk & _).
  - reflexivity.
  - discriminate.
  - apply not_elem_of_empty.
  - reflexivity.
  - cbn. repeat constructor; set_solver.
  - split; [rewrite (Hk "description") | rewrite (Hk "type")];
      first [reflexivity | discriminate].
Defined.

(** ** References that cannot be resolved *)





(** C8, at the failing input. The document has no schema named
    [constructor], so the pointer cannot be walked to a value of the
    document; yet the walk reads [schemas["constructor"]], finds the function
    every object inherits under that name, and [resolveSchema] returns the
    sibling keywords alone, not the fragment. *)
Lemma resolveSchema_inherited_segment :
  let fragment := JObj [("$ref", JStr "#/components/schemas/constructor");
                        ("description", JStr "kept")] in
  keys (get_own (get_own user_doc "components") "schemas") = ["User"]
  /\ resolveRef user_doc "#/components/schemas/constructor"
     = Ok (JNative (Method KObject "constructor"))
  /\ resolveSchema user_doc fragment = Ok (JObj [("description", JStr "kept")])
  /\ resolveSchema user_doc fragment <> Ok fragment.
Proof.
  intros fragment. split; [reflexivity|]. split; [reflexivity|].
  split; [vm_compute; reflexivity|]. vm_compute. discriminate.
Qed.

(** ** Every branch is resolved on the caller's path *)

Lemma fmapM_Forall2 {A B} (f : A -> option (completion B)) l ys :
  fmapM f l = Some (Ok ys) -> Forall2 (fun x y => f x = Some (Ok y)) l ys.
Proof.
  revert ys. induction l as [|x l IH]; intros ys; cbn [fmapM].
  - intros [= <-]. constructor.
  - destruct (f x) as [[y|]|] eqn:Hx; cbn; try discriminate.
    destruct (fmapM f l) as [[ys'|]|]; cbn; try discriminate.
    intros [= <-]. constructor; auto.
Qed.

Section outputs.
Variable spec : jsval.
Variable visited : gset string.

Lemma resolve_properties_out result result' :
  resolve_properties (resolved_by spec) visited result = Some (Ok result') ->
  branch spec visited "properties" (get_field "properties" result)
    (get_field "properties" result').
Proof.
  unfold resolve_properties, branch. destruct (truthy _); cbn [negb].
  - destruct (fmapM _ _) as [[es'|]|] eqn:Hm; cbn [fbind fret]; try discriminate.
    intros [= <-]. rewrite get_field_set_field_eq. exists es'. split; [done|].
    apply fmapM_Forall2 in Hm. unfold resolved_entries.
    eapply Forall2_impl; [exact Hm|]. intros kv kv' H.
    unfold resolve_entry, resolved_by, fbind, fret in H.
    destruct (resolveSchema_from spec (snd kv) visited); [|discriminate].
    by injection H as <-.
  - by intros [= <-].
Qed.

Lemma fmapM_resolved_each l l' :
  fmapM (fun item => resolved_by spec item visited) l = Some (Ok l') ->
  resolved_each spec visited l l'.
Proof.
  intros Hm. apply fmapM_Forall2 in Hm. unfold resolved_each.
  eapply Forall2_impl; [exact Hm|]. intros x x'. unfold resolved_by. by intros [= ->].
Qed.

Lemma resolved_by_ok v v' :
  resolved_by spec v visited = Some (Ok v') -> resolveSchema_from spec v visited = Ok v'.
Proof. unfold resolved_by. by intros [= ->]. Qed.

Lemma resolve_items_out result result' :
  resolve_items (resolved_by spec) visited result = Some (Ok result') ->
  branch spec visited "items" (get_field "items" result) (get_field "items" result').
Proof.
  unfold resolve_items, branch. destruct (truthy _); cbn [negb String.eqb Ascii.eqb Bool.eqb].
  - destruct (get_field "items" result) eqn:Hi;
      try (destruct (resolved_by spec _ visited) as [[v'|]|] eqn:Hv; cbn [fbind fret]; try discriminate;
           intros [= <-]; rewrite get_field_set_field_eq; by apply resolved_by_ok).
    destruct (fmapM _ _) as [[l'|]|] eqn:Hm; cbn [fbind fret]; try discriminate.
    intros [= <-]. rewrite get_field_set_field_eq. exists l'.
    split; [done|]. by apply fmapM_resolved_each.
  - by intros [= <-].
Qed.

Lemma resolve_additional_out result result' :
  resolve_additional (resolved_by spec) visited result = Some (Ok result') ->
  branch spec visited "additionalProperties"
    (get_field "additionalProperties" result)
    (get_field "additionalProperties" result').
Proof.
  unfold resolve_additional, branch.
  destruct (truthy _); cbn [negb andb String.eqb Ascii.eqb Bool.eqb];
    [|by intros [= <-]].
  destruct (typeof_object _); [|by intros [= <-]].
  destruct (resolved_by spec _ visited) as [[v'|]|] eqn:Hv; cbn [fbind fret]; try discriminate.
  intros [= <-]. rewrite get_field_set_field_eq. by apply resolved_by_ok.
Qed.

Lemma resolve_members_out k result result' :
  k ∈ ["allOf"; "oneOf"; "anyOf"] ->
  resolve_members (resolved_by spec) k visited result = Some (Ok result') ->
  branch spec visited k (get_field k result) (get_field k result').
Proof.
  intros Hk. unfold resolve_members, branch.
  destruct (truthy _); cbn [negb]; [|by intros [= <-]].
  assert (String.eqb k "properties" = false /\ String.eqb k "items" = false
          /\ String.eqb k "additionalProperties" = false
          /\ String.eqb k "allOf" || String.eqb k "oneOf" || String.eqb k "anyOf" = true)
    as (-> & -> & -> & ->).
  { repeat (apply elem_of_cons in Hk as [->|Hk]); [done..|by apply elem_of_nil in Hk]. }
  destruct (get_field k result) eqn:Hi; try discriminate.
  destruct (fmapM _ _) as [[l'|]|] eqn:Hm; cbn [fbind fret]; try discriminate.
  intros [= <-]. rewrite get_field_set_field_eq. exists items, l'.
  split; [done|]. split; [done|]. by apply fmapM_resolved_each.
Qed.

Lemma resolve_not_out result result' :
  resolve_not (resolved_by spec) visited result = Some (Ok result') ->
  branch spec visited "not" (get_field "not" result) (get_field "not" result').
Proof.
  unfold resolve_not, branch.
  destruct (truthy _); cbn [negb String.eqb Ascii.eqb Bool.eqb]; [|by intros [= <-]].
  destruct (resolved_by spec _ visited) as [[v'|]|] eqn:Hv; cbn [fbind fret]; try discriminate.
  intros [= <-]. rewrite get_field_set_field_eq. by apply resolved_by_ok.
Qed.

Lemma branch_other k v :
  k ∉ ["properties"; "items"; "additionalProperties"; "allOf"; "oneOf"; "anyOf"; "not"] ->
  branch spec visited k v v.
Proof.
  intros Hk. unfold branch. destruct (negb (truthy v)); [done|].
  repeat match goal with
  | |- context [String.eqb k ?s] =>
      destruct (String.eqb_spec k s) as [->|?]; [exfalso; apply Hk; set_solver|]
  end. done.
Qed.

(** All fields of the result of a fragment without reference. *)
Lemma resolve_nested_branches s out :
  resolve_nested (resolved_by spec) s visited = Some (Ok out) ->
  forall k, branch spec visited k (get_field k (own_entries s)) (get_own out k).
Proof.
  unfold resolve_nested. intros Hs k.
  destruct (resolve_properties _ _ _) as [[a1|]|] eqn:H1; cbn [fbind] in Hs; try discriminate.
  destruct (resolve_items _ _ _) as [[a2|]|] eqn:H2; cbn [fbind] in Hs; try discriminate.
  destruct (resolve_additional _ _ _) as [[a3|]|] eqn:H3; cbn [fbind] in Hs; try discriminate.
  destruct (resolve_members _ "allOf" _ _) as [[a4|]|] eqn:H4; cbn [fbind] in Hs; try discriminate.
  destruct (resolve_members _ "oneOf" _ _) as [[a5|]|] eqn:H5; cbn [fbind] in Hs; try discriminate.
  destruct (resolve_members _ "anyOf" _ _) as [[a6|]|] eqn:H6; cbn [fbind] in Hs; try discriminate.
  destruct (resolve_not _ _ _) as [[a7|]|] eqn:H7; cbn [fbind] in Hs; try discriminate.
  injection Hs as <-. cbn [get_own].
  pose proof (fun k => resolve_properties_frame _ _ _ _ k H1) as F1.
  pose proof (fun k => resolve_items_frame _ _ _ _ k H2) as F2.
  pose proof (fun k => resolve_additional_frame _ _ _ _ k H3) as F3.
  pose proof (fun k => resolve_members_frame _ _ _ _ _ k H4) as F4.
  pose proof (fun k => resolve_members_frame _ _ _ _ _ k H5) as F5.
  pose proof (fun k => resolve_members_frame _ _ _ _ _ k H6) as F6.
  pose proof (fun k => resolve_not_frame _ _ _ _ k H7) as F7.
  apply resolve_properties_out in H1. apply resolve_items_out in H2.
  apply resolve_additional_out in H3.
  apply resolve_members_out in H4; [|set_solver].
  apply resolve_members_out in H5; [|set_solver].
  apply resolve_members_out in H6; [|set_solver].
  apply resolve_not_out in H7.
  destruct (decide (k ∈ ["properties"; "items"; "additionalProperties";
                          "allOf"; "oneOf"; "anyOf"; "not"])) as [Hk|Hk].
  - repeat (apply elem_of_cons in Hk as [->|Hk]); [..|by apply elem_of_nil in Hk].
    + rewrite F7, F6, F5, F4, F3, F2 by done. exact H1.
    + rewrite F7, F6, F5, F4, F3 by done. rewrite F1 in H2 by done. exact H2.
    + rewrite F7, F6, F5, F4 by done. rewrite F2, F1 in H3 by done. exact H3.
    + rewrite F7, F6, F5 by done. rewrite F3, F2, F1 in H4 by done. exact H4.
    + rewrite F7, F6 by done. rewrite F4, F3, F2, F1 in H5 by done. exact H5.
    + rewrite F7 by done. rewrite F5, F4, F3, F2, F1 in H6 by done. exact H6.
    + rewrite F6, F5, F4, F3, F2, F1 in H7 by done. exact H7.
  - rewrite F7, F6, F5, F4, F3, F2, F1 by set_solver. by apply branch_other.
Qed.
End outputs.

Lemma resolveSchema_two_siblings spec visited a b t :
  resolveSchema_from spec (siblings a b t) visited
  = match resolveSchema_from spec (JObj [("$ref", JStr t)]) visited with
    | Ok e => Ok (JObj [("properties", JObj [(a, e); (b, e)])])
    | Throw x => Throw x
    end.
Proof.
  pose proof (resolveSchema_nested spec (siblings a b t) visited eq_refl eq_refl) as Hs.
  unfold resolve_nested, resolve_properties in Hs.
  cbn [siblings own_entries get_field String.eqb Ascii.eqb Bool.eqb truthy fmapM
       fst snd] in Hs.
  unfold resolve_entry in Hs. cbn [fst snd] in Hs. unfold resolved_by at 1 2 in Hs.
  destruct (resolveSchema_from spec (JObj [("$ref", JStr t)]) visited) as [e|x].
  - cbn in Hs. by injection Hs.
  - cbn in Hs. by injection Hs.
Qed.

(** In the tree model: in a fragment without reference every nested fragment
    is resolved from the very set of pointers the fragment was resolved from. *)
Lemma resolveSchema_branches spec visited schema out :
  negb (truthy schema) || negb (typeof_object schema) = false ->
  truthy (get_own schema "$ref") = false ->
  resolveSchema_from spec schema visited = Ok out ->
  forall k, branch spec visited k (get_field k (own_entries schema)) (get_own out k).
Proof.
  intros Hn Hr Hout k.
  apply resolve_nested_branches. rewrite resolveSchema_nested by done. by rewrite Hout.
Qed.

(** ** JSON pointers *)

Lemma replace_pair_other a b r c s :
  Ascii.eqb c a = false ->
  replace_pair a b r (String c s) = String c (replace_pair a b r s).
Proof. intros Hc. cbn. rewrite Hc. by destruct s. Qed.

Lemma replace_pair_hit a b r s :
  replace_pair a b r (String a (String b s)) = String r (replace_pair a b r s).
Proof. cbn. by rewrite !Ascii.eqb_refl. Qed.

Lemma replace_pair_miss a b r d s :
  Ascii.eqb d b = false ->
  replace_pair a b r (String a (String d s)) = String a (replace_pair a b r (String d s)).
Proof. intros Hd. cbn [replace_pair]. by rewrite Hd, andb_false_r. Qed.

Lemma decode_escape k : decode_segment (escape_segment k) = k.
Proof.
  unfold decode_segment. induction k as [|c k IH]; [done|].
  cbn [escape_segment].
  destruct (Ascii.eqb c "~") eqn:Ht.
  { apply Ascii.eqb_eq in Ht as ->.
    rewrite replace_pair_miss, (replace_pair_other _ _ _ "0"), replace_pair_hit by done.
    by rewrite IH. }
  destruct (Ascii.eqb c "/") eqn:Hs.
  { apply Ascii.eqb_eq in Hs as ->.
    rewrite replace_pair_hit, (replace_pair_other _ _ _ "/") by done. by rewrite IH. }
  rewrite !replace_pair_other by done. by rewrite IH.
Qed.

Lemma escape_plain k :
  mentions "/" k = false -> mentions "~" k = false -> escape_segment k = k.
Proof.
  induction k as [|c k IH]; [done|]. cbn.
  intros [Hs Hk]%orb_false_elim [Ht Hk']%orb_false_elim.
  rewrite Hs, Ht. by rewrite IH.
Qed.

Lemma escape_no_slash k : mentions "/" (escape_segment k) = false.
Proof.
  induction k as [|c k IH]; [done|]. cbn [escape_segment].
  destruct (Ascii.eqb c "~") eqn:Ht; [exact IH|].
  destruct (Ascii.eqb c "/") eqn:Hs; [exact IH|].
  cbn. by rewrite Hs.
Qed.

Lemma split_on_cons sep s : exists h t, split_on sep s = h :: t.
Proof.
  induction s as [|c s (h & t & IH)]; cbn; [by eexists _, _|].
  destruct (Ascii.eqb c sep); [by eexists _, _|]. rewrite IH. by eexists _, _.
Qed.

Lemma split_on_plain sep s : mentions sep s = false -> split_on sep s = [s].
Proof.
  induction s as [|c s IH]; [done|]. cbn.
  intros [Hc Hs]%orb_false_elim. rewrite Hc. by rewrite IH.
Qed.

Lemma append_nil_l s : "" ++ s = s.
Proof. reflexivity. Qed.

Lemma append_cons c a s : String c a ++ s = String c (a ++ s).
Proof. reflexivity. Qed.

Lemma split_on_app sep a b :
  mentions sep a = false ->
  split_on sep (a ++ String sep b) = a :: split_on sep b.
Proof.
  induction a as [|c a IH].
  - intros _. rewrite append_nil_l. cbn [split_on]. by rewrite Ascii.eqb_refl.
  - rewrite append_cons. cbn [split_on mentions].
    intros [Hc Ha]%orb_false_elim. rewrite Hc. by rewrite IH.
Qed.

Lemma split_on_concat sep l :
  l <> [] -> Forall (fun s => mentions sep s = false) l ->
  split_on sep (String.concat (String sep EmptyString) l) = l.
Proof.
  induction l as [|a l IH]; [done|]. intros _ [Ha Hl]%Forall_cons.
  destruct l as [|b l].
  - cbn. by apply split_on_plain.
  - change (String.concat (String sep EmptyString) (a :: b :: l))
      with (a ++ String sep EmptyString ++ String.concat (String sep EmptyString) (b :: l)).
    rewrite append_cons, append_nil_l.
    rewrite split_on_app by done. by rewrite IH.
Qed.

Lemma walk_escaped ref ks v r :
  walk ref (map escape_segment ks) v = Ok r <-> follow ks v = Some r.
Proof.
  revert v. induction ks as [|k ks IH]; intros v; cbn [map walk follow].
  - split; congruence.
  - rewrite decode_escape.
    destruct v as [| | b | n | s | items | props | [p| |[]]];
      cbn [truthy typeof_object negb andb]; rewrite ?andb_false_r;
      try (split; discriminate); apply IH.
Qed.

Lemma resolveRef_inner spec x :
  resolveRef spec ("#/" ++ x)
  = let! current := walk ("#/" ++ x) (split_on "/" x) spec in
    match current with
    | JUndefined =>
        Throw (JsError ("Cannot resolve reference: " ++ ("#/" ++ x) ++ " (not found)"))
    | _ => Ok current
    end.
Proof. by destruct x. Qed.

(** The pointer built from a path of keys resolves to what the keys lead to. *)
Lemma resolveRef_pointer_iff spec ks v :
  ks <> [] ->
  resolveRef spec (pointer ks) = Ok v <-> follow ks spec = Some v /\ v <> JUndefined.
Proof.
  intros Hks. unfold pointer. rewrite resolveRef_inner.
  rewrite split_on_concat;
    [|by destruct ks|clear; induction ks; constructor; auto using escape_no_slash].
  destruct (walk _ _ spec) as [current|e] eqn:Hw; cbn [rbind].
  - apply walk_escaped in Hw. rewrite Hw. split.
    + intros H. destruct current; cbn in H; [discriminate|..]; injection H as <-; by split.
    + intros [[= ->] Hne]. by destruct v.
  - split; [discriminate|]. intros [Hf _].
    eapply walk_escaped in Hf. rewrite Hf in Hw. discriminate.
Qed.

Lemma walk_outcome ref path current :
  match walk ref path current with
  | Ok _ => True
  | Throw (JsError m) => exists why, m = "Cannot resolve reference: " ++ ref ++ why
  | Throw JsTypeError => False
  end.
Proof.
  revert current. induction path as [|segment path IH]; intros current; [done|].
  cbn [walk]. destruct current; cbn [typeof_object negb]; eauto; try apply IH.
  destruct (negb _); [eauto|apply IH].
Qed.

(** X1. [resolveRef] either returns a value other than undefined, and then
    the pointer starts with "#/", or throws an [Error]: "External references
    not supported" exactly for a pointer that does not start with "#/",
    "Cannot resolve reference" otherwise. It never throws a TypeError,
    whatever the document and the pointer. *)
Theorem resolveRef_outcome spec ref :
  match resolveRef spec ref with
  | Ok v => v <> JUndefined /\ String.prefix "#/" ref = true
  | Throw (JsError m) =>
      (String.prefix "#/" ref = false
       /\ m = "External references not supported: " ++ ref)
      \/ (String.prefix "#/" ref = true
          /\ exists why, m = "Cannot resolve reference: " ++ ref ++ why)
  | Throw JsTypeError => False
  end.
Proof.
  unfold resolveRef. destruct (String.prefix "#/" ref); cbn [negb]; [|by left].
  pose proof (walk_outcome ref (split_on "/" (drop_chars 2 ref)) spec) as Hw.
  destruct (walk _ _ spec) as [current|[m|]]; cbn [rbind]; [|by right|done].
  destruct current; try done. right. split; [done|]. by eexists.
Qed.

(** X2. Pointers follow keys: for a non-empty path of keys, each escaped as
    RFC 6901 prescribes ([~] as [~0], [/] as [~1]) and joined by [/] behind
    "#/", [resolveRef] returns [v] exactly when reading the keys one after the
    other, each as [current[key]] reads it (what the object or array owns
    under the key, else what its prototypes hold), leads to [v] and [v] is
    not undefined. *)
Theorem resolveRef_pointer spec ks v :
  ks <> [] ->
  resolveRef spec (pointer ks) = Ok v <-> follow ks spec = Some v /\ v <> JUndefined.
Proof. apply resolveRef_pointer_iff. Qed.

Lemma resolveRef_pointer_witness :
  let doc := JObj [("paths", JObj [("/pets/{id}", JObj [("a~b", JStr "found")])])] in
  pointer ["paths"; "/pets/{id}"; "a~b"] = "#/paths/~1pets~1{id}/a~0b"
  /\ resolveRef doc "#/paths/~1pets~1{id}/a~0b" = Ok (JStr "found").
Proof.
  intros doc. split; [reflexivity|].
  apply (proj2 (resolveRef_pointer doc ["paths"; "/pets/{id}"; "a~b"] (JStr "found")
                  ltac:(discriminate))).
  split; [reflexivity|discriminate].
Defined.

(** ** Models by name *)

Lemma prefix_app p s : String.prefix p (p ++ s) = true.
Proof.
  induction p as [|c p IH]; [by destruct s|].
  rewrite append_cons. cbn. by destruct (ascii_dec c c).
Qed.

Lemma prefix_mentions c p s :
  String.prefix p s = true -> mentions c p = true -> mentions c s = true.
Proof.
  revert s. induction p as [|d p IH]; intros s; [done|].
  destruct s as [|e s]; [done|]. cbn.
  destruct (ascii_dec d e) as [->|]; [|done].
  intros Hp [Hd|Hm]%orb_true_iff; apply orb_true_iff; [by left|right; by apply IH].
Qed.

Lemma strip_prefix_none p s :
  mentions "/" p = true -> mentions "/" s = false -> strip_prefix p s = s.
Proof.
  intros Hp Hs. unfold strip_prefix.
  destruct (String.prefix p s) eqn:Hpre; [|done].
  by rewrite (prefix_mentions _ _ _ Hpre Hp) in Hs.
Qed.

Lemma drop_chars_app p s : drop_chars (String.length p) (p ++ s) = s.
Proof. induction p as [|c p IH]; [by destruct s|]. by rewrite append_cons. Qed.

Lemma strip_prefix_app p s : strip_prefix p (p ++ s) = s.
Proof. unfold strip_prefix. by rewrite prefix_app, drop_chars_app. Qed.

Lemma clean_name_plain n : mentions "/" n = false -> clean_name n = n.
Proof.
  intros Hn. unfold clean_name.
  by rewrite (strip_prefix_none "#/definitions/" n),
    (strip_prefix_none "#/components/schemas/" n),
    (strip_prefix_none "definitions/" n),
    (strip_prefix_none "components/schemas/" n).
Qed.

Lemma clean_name_rest n :
  mentions "/" n = false ->
  strip_prefix "components/schemas/"
    (strip_prefix "definitions/" (strip_prefix "#/components/schemas/" n)) = n.
Proof.
  intros Hn.
  by rewrite (strip_prefix_none "#/components/schemas/" n),
    (strip_prefix_none "definitions/" n),
    (strip_prefix_none "components/schemas/" n).
Qed.

Lemma clean_name_pointer ver n :
  mentions "/" n = false -> clean_name (model_pointer ver n) = n.
Proof.
  intros Hn. unfold clean_name, model_pointer. destruct ver.
  - rewrite strip_prefix_app. by apply clean_name_rest.
  - assert (strip_prefix "#/definitions/" ("#/components/schemas/" ++ n)
            = "#/components/schemas/" ++ n) as -> by reflexivity.
    rewrite strip_prefix_app.
    by rewrite (strip_prefix_none "definitions/" n),
      (strip_prefix_none "components/schemas/" n).
Qed.

Lemma model_pointer_keys ver n :
  mentions "/" n = false -> mentions "~" n = false ->
  model_pointer ver n
  = pointer (match ver with
             | V2 => ["definitions"; n]
             | V3plus => ["components"; "schemas"; n]
             end).
Proof.
  intros Hs Ht. unfold pointer. destruct ver; cbn [map String.concat];
    rewrite (escape_plain n) by done; reflexivity.
Qed.

Lemma opt_chain_container v k :
  match v with JObj _ | JArr _ => True | _ => False end ->
  opt_chain v k = get_own v k.
Proof. by destruct v. Qed.

Lemma detectVersion_container spec ver :
  detectVersion spec = Ok ver ->
  match spec with JObj _ | JArr _ => True | _ => False end.
Proof. by destruct spec. Qed.

Lemma get_field_missing k (props : list (string * jsval)) :
  has_field k props = false -> get_field k props = JUndefined.
Proof.
  intros Hf. destruct (get_field k props) eqn:Hg; try reflexivity;
    (assert (Hne : get_field k props <> JUndefined) by congruence;
     apply get_field_has_field in Hne; congruence).
Qed.

Lemma opt_chain_object v k :
  truthy v = true -> typeof_object v = true -> opt_chain v k = get_own v k.
Proof. by destruct v. Qed.

(** Under a name that no built-in prototype defines, the read up the
    prototype chain finds what the object owns. *)
Lemma member_literal v k :
  inherited_member KObject k = JUndefined ->
  inherited_member KArray k = JUndefined ->
  (forall p, prototype_member p k = JUndefined) ->
  member v k = get_own v k.
Proof.
  intros Ho Ha Hp.
  destruct v as [| | b | n | s | items | props | [p| |]]; cbn [member get_own]; try done.
  - destruct (String.eqb k "length"); [done|]. cbn [orb].
    destruct (has_field k _) eqn:Hf; [done|]. by rewrite Ha, get_field_missing.
  - destruct (has_field k props) eqn:Hf; [done|]. by rewrite Ho, get_field_missing.
Qed.

Lemma get_elem_object builtin c k :
  truthy c = true -> typeof_object c = true -> member c k <> JUndefined ->
  get_elem builtin c k = Ok (member c k).
Proof. by destruct c as [| | b | n | s | items | props | [p| |[]]]. Qed.

Lemma getModelByName_clean builtin spec ver n :
  detectVersion spec = Ok ver ->
  getModelByName builtin spec n
  = let! found := opt_elem builtin (schemas_of ver spec) (clean_name n) in
    Ok (or_else found JNull).
Proof. intros Hv. unfold getModelByName. rewrite Hv. by destruct ver. Qed.

Lemma follow_model builtin spec ver n v :
  follow (match ver with
          | V2 => ["definitions"; n]
          | V3plus => ["components"; "schemas"; n]
          end) spec = Some v ->
  v <> JUndefined ->
  opt_elem builtin (schemas_of ver spec) n = Ok v.
Proof.
  assert (Hlast : forall c, follow [n] c = Some v -> v <> JUndefined ->
                            opt_elem builtin c n = Ok v).
  { intros c Hf Hne. cbn [follow] in Hf.
    destruct (truthy c && typeof_object c) eqn:Hc; [|discriminate].
    apply andb_true_iff in Hc as [Ht Ho]. injection Hf as <-.
    unfold opt_elem. replace (nullish c) with false by (by destruct c).
    by apply get_elem_object. }
  destruct ver; cbn [schemas_of].
  - change (follow ["definitions"; n] spec)
      with (if truthy spec && typeof_object spec
            then follow [n] (member spec "definitions") else None).
    destruct (truthy spec && typeof_object spec) eqn:Hs; [|discriminate].
    rewrite (member_literal spec "definitions") by (done || by intros []).
    apply Hlast.
  - change (follow ["components"; "schemas"; n] spec)
      with (if truthy spec && typeof_object spec
            then follow ["schemas"; n] (member spec "components") else None).
    destruct (truthy spec && typeof_object spec) eqn:Hs; [|discriminate].
    rewrite (member_literal spec "components") by (done || by intros []).
    set (c := get_own spec "components").
    change (follow ["schemas"; n] c)
      with (if truthy c && typeof_object c
            then follow [n] (member c "schemas") else None).
    destruct (truthy c && typeof_object c) eqn:Hc; [|discriminate].
    apply andb_true_iff in Hc as [Ht Ho].
    rewrite (member_literal c "schemas") by (done || by intros []).
    rewrite (opt_chain_object c) by done. apply Hlast.
Qed.

(** X3. Names and pointers reach the same model. For a document of either
    version and a name without [/] and [~]: when the pointer to the model
    ("#/definitions/name", or "#/components/schemas/name") resolves to a truthy
    value, [getModelByName] returns that value, under the bare name and under
    the pointer. *)
Theorem getModelByName_pointer builtin spec ver n v :
  detectVersion spec = Ok ver ->
  mentions "/" n = false -> mentions "~" n = false ->
  resolveRef spec (model_pointer ver n) = Ok v ->
  truthy v = true ->
  getModelByName builtin spec n = Ok v
  /\ getModelByName builtin spec (model_pointer ver n) = Ok v.
Proof.
  intros Hv Hs Ht Hres Htruthy.
  rewrite model_pointer_keys in Hres by done.
  apply resolveRef_pointer_iff in Hres as [Hf Hne]; [|by destruct ver].
  apply (follow_model builtin) in Hf; [|done].
  rewrite !(getModelByName_clean _ _ _ _ Hv), clean_name_pointer, clean_name_plain by done.
  rewrite Hf. cbn [rbind]. unfold or_else. by rewrite Htruthy.
Qed.

Lemma getModelByName_pointer_witness :
  getModelByName no_members pets_v2 "Tag"
  = Ok (JObj [("type", JStr "string"); ("enum", JArr [JStr "a"; JStr "b"])])
  /\ getModelByName no_members pets_v2 "#/definitions/Tag"
     = Ok (JObj [("type", JStr "string"); ("enum", JArr [JStr "a"; JStr "b"])]).
Proof.
  apply (getModelByName_pointer no_members pets_v2 V2 "Tag"); reflexivity.
Defined.

Lemma get_field_keys k (props : list (string * jsval)) :
  get_field k props <> JUndefined -> k ∈ map fst props.
Proof.
  induction props as [|[k' v] props IH]; cbn; [done|].
  destruct (String.eqb_spec k' k) as [->|Hne]; [intros _; apply list_elem_of_here|].
  intros H. apply list_elem_of_further. by apply IH.
Qed.

Lemma truthy_defined v : truthy v = true -> v <> JUndefined.
Proof. by intros H ->. Qed.

Lemma has_field_keys_iff {V} k (props : list (string * V)) :
  has_field k props = true <-> k ∈ map fst props.
Proof.
  rewrite has_field_elem. split.
  - intros [v Hin]. apply (elem_of_map_iff fst). by exists (k, v).
  - intros ([k' v] & Hk & Hin)%(elem_of_map_iff fst). cbn in Hk. subst. by exists v.
Qed.

(** The index of an element is never the name [length]. *)
Lemma index_not_length {A B} (f : nat -> A -> B) (l : list A) :
  "length" ∉ map fst (imap (fun i x => (index_key i, f i x)) l).
Proof.
  intros ([k x] & Hk & Hin)%(elem_of_map_iff fst). cbn in Hk. subst k.
  apply list_elem_of_lookup in Hin as [i Hi]. rewrite list_lookup_imap in Hi.
  destruct (l !! i); [|done]. injection Hi as Hi _.
  destruct (index_key_digit i) as (c & r & Hkey & Hd). rewrite Hkey in Hi.
  injection Hi as -> _. done.
Qed.

Lemma inherited_member_cases k name :
  inherited_member k name = JUndefined \/ is_native (inherited_member k name) = true.
Proof. unfold inherited_member. repeat case_match; auto. Qed.

Lemma inherited_member_object name :
  name ∈ own_names KObject -> exists x, inherited_member KObject name = JNative x.
Proof.
  intros Hin. unfold inherited_member. destruct (String.eqb name "__proto__"); [eauto|].
  rewrite bool_decide_eq_true_2 by done. eauto.
Qed.

(** What [v?.[k]] finds under a key of [v] is the property of that name. *)
Lemma opt_elem_own builtin v k :
  k ∈ keys (or_else v (JObj [])) ->
  opt_elem builtin v k = Ok (get_field k (own_entries (or_else v (JObj [])))).
Proof.
  unfold keys, or_else, opt_elem.
  destruct v as [| | b | z | s | items | props | x];
    cbn [truthy own_entries map nullish get_elem];
    try (intros Hin; by apply elem_of_nil in Hin).
  - destruct b; intros Hin; by apply elem_of_nil in Hin.
  - destruct (negb (z =? 0)%Z); intros Hin; by apply elem_of_nil in Hin.
  - destruct (negb (String.eqb s "")); [|intros Hin; by apply elem_of_nil in Hin].
    cbn [own_entries]. intros Hin.
    rewrite (proj2 (has_field_keys_iff k _) Hin), orb_true_r. cbn [get_prop].
    destruct (String.eqb_spec k "length") as [->|Hne]; [|done].
    by apply index_not_length in Hin.
  - intros Hin. unfold member. cbn [own_entries].
    rewrite (proj2 (has_field_keys_iff k _) Hin), orb_true_r. cbn [get_own own_entries].
    destruct (String.eqb_spec k "length") as [->|Hne]; [|done].
    by apply index_not_length in Hin.
  - intros Hin. unfold member. by rewrite (proj2 (has_field_keys_iff k _) Hin).
Qed.

(** What [v?.[k]] finds is a property of [v], the length of an array or a
    string, or a built-in from the prototype chain. *)
Lemma opt_elem_found builtin v k x :
  opt_elem builtin v k = Ok x -> x <> JUndefined ->
  is_native x = false -> is_native v = false ->
  k ∈ keys (or_else v (JObj [])) \/ k = "length".
Proof.
  assert (Hinh : forall p, Ok (inherited_member p k) = Ok x -> x <> JUndefined ->
                           is_native x = false -> False).
  { intros p [= <-] Hne Hx. destruct (inherited_member_cases p k); congruence. }
  unfold keys, or_else, opt_elem.
  destruct v as [| | b | z | s | items | props | n];
    cbn [truthy own_entries map nullish get_elem is_native];
    try (intros [= <-]; done); try (intros H Hne Hx _; exfalso; by eapply Hinh);
    try discriminate.
  - destruct (String.eqb_spec k "length") as [->|Hne]; [by right|]. cbn [orb].
    destruct (has_field k _) eqn:Hf;
      [|intros H Hu Hx _; exfalso; by eapply Hinh].
    intros _ _ _ _. left. apply has_field_keys_iff in Hf.
    destruct (negb (String.eqb s "")) eqn:Hs; [done|].
    apply negb_false_iff, String.eqb_eq in Hs. by subst.
  - unfold member. cbn [own_entries].
    destruct (String.eqb_spec k "length") as [->|Hne]; [by right|]. cbn [orb].
    destruct (has_field k _) eqn:Hf;
      [|intros H Hu Hx _; exfalso; by eapply Hinh].
    intros _ _ _ _. left. by apply has_field_keys_iff in Hf.
  - unfold member. destruct (has_field k props) eqn:Hf;
      [|intros H Hu Hx _; exfalso; by eapply Hinh].
    intros _ _ _ _. left. by apply has_field_keys_iff in Hf.
Qed.

(** X4. Listing and lookup agree, up to what a name finds on the prototype
    chain. On a document whose version is detected, [getAllModelNames] lists
    the keys of the model container; a model that [getModelByName] finds and
    that is not a built-in is listed under its cleaned name (or the name is
    "length", which arrays and strings answer); a listed name that the
    cleaning leaves alone is looked up in the container: found when its
    schema is truthy, reported as null otherwise; and a name that
    [Object.prototype] defines and the container does not list
    ([constructor], [toString], [__proto__], ...) is answered with a built-in,
    not with null. *)
Theorem getAllModelNames_lookup builtin spec ver :
  detectVersion spec = Ok ver ->
  let container := or_else (schemas_of ver spec) (JObj []) in
  getAllModelNames spec = Ok (keys container)
  /\ (forall n v, getModelByName builtin spec n = Ok v -> v <> JNull ->
        is_native v = false -> is_native (schemas_of ver spec) = false ->
        clean_name n ∈ keys container \/ clean_name n = "length")
  /\ (forall n, n ∈ keys container -> clean_name n = n ->
        getModelByName builtin spec n
        = Ok (or_else (get_field n (own_entries container)) JNull))
  /\ (forall n props, schemas_of ver spec = JObj props ->
        clean_name n ∈ own_names KObject -> clean_name n ∉ keys container ->
        exists x, getModelByName builtin spec n = Ok (JNative x)).
Proof.
  intros Hv. cbv zeta. split; [|split; [|split]].
  - unfold getAllModelNames. rewrite Hv. by destruct ver.
  - intros n v. rewrite (getModelByName_clean _ _ _ _ Hv).
    destruct (opt_elem builtin _ _) as [found|e] eqn:Hf; cbn [rbind]; [|discriminate].
    intros [= <-] Hne Hx Hc. unfold or_else in Hne, Hx.
    destruct (truthy found) eqn:Ht; [|done].
    apply (opt_elem_found _ _ _ _ Hf); [by apply truthy_defined|done..].
  - intros n Hin Hn. rewrite (getModelByName_clean _ _ _ _ Hv), Hn.
    by rewrite (opt_elem_own _ _ _ Hin).
  - intros n props Hc Hin Hout. rewrite (getModelByName_clean _ _ _ _ Hv), Hc.
    rewrite Hc in Hout. unfold or_else, keys in Hout. cbn [truthy own_entries] in Hout.
    unfold opt_elem. cbn [nullish get_elem member].
    destruct (has_field (clean_name n) props) eqn:Hf;
      [by apply has_field_keys_iff in Hf|].
    destruct (inherited_member_object _ Hin) as [x ->]. by exists x.
Qed.

Lemma getAllModelNames_lookup_witness :
  getAllModelNames pets_v2 = Ok ["Pet"; "Tag"]
  /\ getModelByName no_members pets_v2 "Tag"
     = Ok (JObj [("type", JStr "string"); ("enum", JArr [JStr "a"; JStr "b"])])
  /\ getModelByName no_members pets_v2 "constructor"
     = Ok (JNative (Method KObject "constructor")).
Proof.
  destruct (getAllModelNames_lookup no_members pets_v2 V2 eq_refl)
    as (Hnames & _ & Hfound & Hbuiltin).
  split; [exact Hnames|]. split.
  - apply (Hfound "Tag"); [|reflexivity].
    apply list_elem_of_further, list_elem_of_here.
  - destruct (Hbuiltin "constructor" _ eq_refl) as [x Hx].
    + apply list_elem_of_here.
    + vm_compute. intros H. repeat (apply elem_of_cons in H as [H|H]; [discriminate|]).
      by apply elem_of_nil in H.
    + rewrite Hx. revert Hx. vm_compute. congruence.
Defined.

(** ** A fragment without references *)

Lemma fmapM_id {A} (f : A -> option (completion A)) (l : list A) :
  (forall x, x ∈ l -> f x = Some (Ok x)) -> fmapM f l = Some (Ok l).
Proof.
  induction l as [|x l IH]; intros H; cbn [fmapM]; [done|].
  rewrite (H x (list_elem_of_here _ _)). cbn [fbind].
  rewrite IH; [done|]. intros z Hz. by apply H, list_elem_of_further.
Qed.

Lemma set_field_same k (props : list (string * jsval)) :
  get_field k props <> JUndefined -> set_field k (get_field k props) props = props.
Proof.
  induction props as [|[k' v] props IH]; cbn; [done|].
  destruct (String.eqb k' k); [done|]. intros H. by rewrite IH.
Qed.

Section id_steps.
Variable rec : jsval -> gset string -> option (completion jsval).
Variable visited : gset string.
Variable Q : jsval -> Prop.
Hypothesis Hid : forall v, Q v -> rec v visited = Some (Ok v).

Lemma resolve_properties_id result :
  (truthy (get_field "properties" result) = true ->
   is_object (get_field "properties" result) = true) ->
  (forall kv, kv ∈ own_entries (get_field "properties" result) -> Q (snd kv)) ->
  resolve_properties rec visited result = Some (Ok result).
Proof.
  intros Hobj HQ. unfold resolve_properties.
  destruct (truthy (get_field "properties" result)) eqn:Ht; [|done].
  rewrite (fmapM_id (resolve_entry rec visited)).
  - cbn [fbind]. unfold fret. do 2 f_equal.
    specialize (Hobj eq_refl).
    destruct (get_field "properties" result) as [| | | | | |es |] eqn:Hp; try discriminate.
    cbn [own_entries]. rewrite <- Hp. apply set_field_same. by rewrite Hp.
  - intros [k v] Hkv. unfold resolve_entry. cbn [fst snd].
    by rewrite (Hid v (HQ _ Hkv)).
Qed.

Lemma resolve_items_id result :
  (forall x, x ∈ one_or_many (get_field "items" result) -> Q x) ->
  resolve_items rec visited result = Some (Ok result).
Proof.
  intros HQ. unfold resolve_items.
  destruct (truthy (get_field "items" result)) eqn:Ht; [|done].
  assert (Hdef : get_field "items" result <> JUndefined) by (by apply truthy_defined).
  destruct (get_field "items" result) as [| | | | | l | |] eqn:Hi;
    try (rewrite Hid by (apply HQ; cbn; apply list_elem_of_here);
         cbn [fbind]; unfold fret; rewrite <- Hi, set_field_same by (by rewrite Hi); done).
  rewrite fmapM_id by (intros x Hx; by apply Hid, HQ).
  cbn [fbind]. unfold fret. rewrite <- Hi, set_field_same by (by rewrite Hi). done.
Qed.

Lemma resolve_additional_id result :
  Q (get_field "additionalProperties" result) ->
  resolve_additional rec visited result = Some (Ok result).
Proof.
  intros HQ. unfold resolve_additional.
  destruct (truthy (get_field "additionalProperties" result)
            && typeof_object (get_field "additionalProperties" result)) eqn:Ht; [|done].
  apply andb_prop in Ht as [Ht _].
  rewrite Hid by done. cbn [fbind]. unfold fret.
  rewrite set_field_same; [done|by apply truthy_defined].
Qed.

Lemma resolve_members_id k result :
  (truthy (get_field k result) = true -> is_array (get_field k result) = true) ->
  (forall x, x ∈ array_items (get_field k result) -> Q x) ->
  resolve_members rec k visited result = Some (Ok result).
Proof.
  intros Harr HQ. unfold resolve_members.
  destruct (truthy (get_field k result)) eqn:Ht; [|done].
  specialize (Harr eq_refl).
  destruct (get_field k result) as [| | | | | l | |] eqn:Hm; try discriminate.
  rewrite fmapM_id by (intros x Hx; by apply Hid, HQ).
  cbn [fbind]. unfold fret. rewrite <- Hm, set_field_same by (by rewrite Hm). done.
Qed.

Lemma resolve_not_id result :
  Q (get_field "not" result) ->
  resolve_not rec visited result = Some (Ok result).
Proof.
  intros HQ. unfold resolve_not.
  destruct (truthy (get_field "not" result)) eqn:Ht; [|done].
  rewrite Hid by done. cbn [fbind]. unfold fret.
  rewrite set_field_same; [done|by apply truthy_defined].
Qed.
End id_steps.

Lemma resolveSchema_plain_id spec n :
  forall s visited, height s < n -> plain s -> resolveSchema_from spec s visited = Ok s.
Proof.
  induction n as [|n IH]; intros s visited Hh Hplain; [lia|].
  inversion Hplain as [v Hleaf | props Href Hobj Hp Hi Ha Hm1 Hm2 Hn]; subst.
  { by apply resolveSchema_leaf. }
  pose proof (resolveSchema_nested spec (JObj props) visited eq_refl Href) as Hs.
  pose proof (fun k => inside_field (JObj props) k eq_refl eq_refl) as Hf.
  cbn [own_entries] in Hf.
  set (Q := fun v => inside (JObj props) v /\ plain v).
  assert (Hid : forall v, Q v -> resolved_by spec v visited = Some (Ok v)).
  { intros v [[Hv _] Hv']. unfold resolved_by. rewrite IH; [done|lia|done]. }
  rewrite Forall_forall in Hp. rewrite Forall_forall in Hi.
  assert (Hmem : forall k, k ∈ ["allOf"; "oneOf"; "anyOf"] ->
            forall x, x ∈ array_items (get_field k props) -> Q x).
  { intros k Hk x Hx. specialize (Hm2 k Hk). rewrite Forall_forall in Hm2.
    split; [by apply (inside_array_items _ _ _ (Hf k))|by apply Hm2]. }
  unfold resolve_nested in Hs. cbn [own_entries] in Hs.
  rewrite (resolve_properties_id _ visited Q Hid) in Hs; [|done|].
  2:{ intros kv Hkv. split; [by apply (inside_entry _ _ _ (Hf "properties"))|by apply Hp]. }
  cbn [fbind] in Hs.
  rewrite (resolve_items_id _ visited Q Hid) in Hs.
  2:{ intros x Hx. split; [by apply (inside_one_or_many _ _ _ (Hf "items"))|by apply Hi]. }
  cbn [fbind] in Hs.
  rewrite (resolve_additional_id _ visited Q Hid) in Hs by (split; [apply Hf|done]).
  cbn [fbind] in Hs.
  rewrite (resolve_members_id _ visited Q Hid "allOf") in Hs;
    [|apply Hm1; set_solver|apply Hmem; set_solver].
  cbn [fbind] in Hs.
  rewrite (resolve_members_id _ visited Q Hid "oneOf") in Hs;
    [|apply Hm1; set_solver|apply Hmem; set_solver].
  cbn [fbind] in Hs.
  rewrite (resolve_members_id _ visited Q Hid "anyOf") in Hs;
    [|apply Hm1; set_solver|apply Hmem; set_solver].
  cbn [fbind] in Hs.
  rewrite (resolve_not_id _ visited Q Hid) in Hs by (split; [apply Hf|done]).
  cbn [fbind] in Hs. by injection Hs.
Qed.

(** X5. A fragment that holds no reference and is shaped as the [Schema]
    interface says comes back as it is: [resolveSchema] returns a fragment
    equal to its argument, whatever the document and the visited set. *)
Theorem resolveSchema_plain spec schema visited :
  plain schema ->
  resolveSchema_from spec schema visited = Ok schema
  /\ resolveSchema spec schema = Ok schema.
Proof.
  intros Hp. split; apply (resolveSchema_plain_id spec (S (height schema))); (lia || done).
Qed.

(** Proves [plain] for a closed fragment. *)
Ltac plain_closed :=
  lazymatch goal with
  | |- plain _ =>
      first [ apply plain_leaf; reflexivity
            | apply plain_node; cbn; plain_closed ]
  | |- Forall _ [] => apply Forall_nil_2
  | |- Forall _ (_ :: _) => apply Forall_cons_2; cbn; plain_closed
  | |- forall k, k ∈ _ -> _ =>
      let k := fresh "k" in
      let Hk := fresh "Hk" in
      intros k Hk;
      repeat (apply elem_of_cons in Hk as [->|Hk]);
      [ cbn; plain_closed .. | by apply elem_of_nil in Hk ]
  | |- _ -> _ => intros; cbn in *; first [ discriminate | reflexivity | plain_closed ]
  | |- _ => cbn; try reflexivity
  end.

Lemma resolveSchema_plain_witness :
  resolveSchema node_doc user_schema = Ok user_schema.
Proof.
  apply (resolveSchema_plain node_doc user_schema ∅). unfold user_schema. plain_closed.
Defined.

(** ** Descriptions *)

Lemma get_prop_defined v k : nullish v = false -> get_prop v k = Ok (opt_chain v k).
Proof.
  unfold opt_chain. destruct v; try done. cbn. by destruct (String.eqb k "length").
Qed.

Lemma get_prop_nullish v k : nullish v = true -> get_prop v k = Throw JsTypeError.
Proof. by destruct v. Qed.

(** *** String conversion *)

Lemma rmapM_throw {A B} (f : A -> completion B) l e :
  rmapM f l = Throw e -> exists x, x ∈ l /\ f x = Throw e.
Proof.
  induction l as [|x l IH]; cbn [rmapM]; [done|].
  destruct (f x) as [y|e'] eqn:Hx; cbn [rbind].
  - destruct (rmapM f l) as [ys|e'] eqn:Hl; cbn [rbind]; [done|].
    intros [= ->]. destruct (IH eq_refl) as (z & Hz & Hfz).
    exists z. split; [by apply list_elem_of_further|done].
  - intros [= ->]. exists x. split; [apply list_elem_of_here|done].
Qed.

Lemma rmapM_total {A B} (g : A -> completion B) (ok : A -> bool) (h : A -> B) e0 l :
  (forall x, g x = if ok x then Ok (h x) else Throw e0) ->
  rmapM g l = if forallb ok l then Ok (map h l) else Throw e0.
Proof.
  intros Hg. induction l as [|x l IH]; cbn [rmapM forallb map]; [done|].
  rewrite Hg. destruct (ok x); cbn [rbind andb]; [|done].
  rewrite IH. by destruct (forallb ok l).
Qed.

(** The only exception of a string conversion is a TypeError. *)
Lemma to_string_raised v e : to_string v = Throw e -> e = JsTypeError.
Proof.
  induction v as [| | b | n | s | items IH | props IH | x] using jsval_ind;
    cbn [to_string]; try done.
  - by destruct b.
  - destruct (rmapM _ items) as [parts|e'] eqn:Hm; cbn [rbind]; [done|].
    intros [= ->]. apply rmapM_throw in Hm as (x & Hx & Hthrow).
    rewrite Forall_forall in IH. destruct x; try done; by apply (IH _ Hx).
  - destruct (has_field "toString" props); [by intros [= <-]|done].
Qed.

Lemma printable_spec v :
  to_string v = if printable v then Ok (text_of v) else Throw JsTypeError.
Proof.
  unfold printable, text_of. destruct (to_string v) as [text|e] eqn:Hv; [done|].
  f_equal. by eapply to_string_raised.
Qed.

Lemma join_spec sep l :
  join sep l
  = if joinable l
    then Ok (String.concat sep (map (fun x => if nullish x then "" else text_of x) l))
    else Throw JsTypeError.
Proof.
  unfold join, joinable.
  rewrite (rmapM_total _ (fun x => nullish x || printable x)
             (fun x => if nullish x then "" else text_of x) JsTypeError).
  - by destruct (forallb _ l).
  - intros x. destruct (nullish x); [done|]. apply printable_spec.
Qed.

Lemma joinable_strings l : Forall (fun p => is_string p = true) l -> joinable l = true.
Proof.
  induction 1 as [|p l Hp Hl IH]; [done|]. unfold joinable. cbn [forallb].
  by destruct p.
Qed.

Lemma joinable_described d parts :
  Forall (fun p => is_string p = true) parts ->
  joinable ((if truthy d then [d] else []) ++ parts) = negb (truthy d) || printable d.
Proof.
  intros Hp. unfold joinable. rewrite forallb_app.
  fold (joinable parts). rewrite (joinable_strings _ Hp), andb_true_r.
  destruct (truthy d) eqn:Hd; [|done]. cbn [forallb negb orb].
  rewrite andb_true_r. by destruct d.
Qed.

(** *** The parts of a description

    Each part is there, is missing, or stops the function with a TypeError. *)

Lemma part_text label (c : bool) v :
  exists parts,
    Forall (fun p => is_string p = true) parts
    /\ (if c then labelled label (to_string v) else Ok [])
       = if negb c || printable v then Ok parts else Throw JsTypeError.
Proof.
  unfold labelled. rewrite printable_spec.
  destruct c; cbn [negb orb]; [|by exists []].
  destruct (printable v); cbn [rbind]; [|by exists []].
  eexists. split; [|reflexivity]. by repeat constructor.
Qed.

Lemma part_joined label sep (c : bool) l :
  exists parts,
    Forall (fun p => is_string p = true) parts
    /\ (if c then labelled label (join sep l) else Ok [])
       = if negb c || joinable l then Ok parts else Throw JsTypeError.
Proof.
  unfold labelled. rewrite join_spec.
  destruct c; cbn [negb orb]; [|by exists []].
  destruct (joinable l); cbn [rbind]; [|by exists []].
  eexists. split; [|reflexivity]. by repeat constructor.
Qed.

Lemma part_type type :
  exists parts,
    Forall (fun p => is_string p = true) parts
    /\ (if truthy type
        then labelled "Type: " match type with
                               | JArr l => join " | " l
                               | _ => to_string type
                               end
        else Ok [])
       = if negb (truthy type) || type_printable type
         then Ok parts else Throw JsTypeError.
Proof.
  destruct type as [| | b | n | s | l | props | x];
    first [apply part_joined | apply part_text].
Qed.

Lemma part_enum enum :
  exists parts,
    Forall (fun p => is_string p = true) parts
    /\ (if truthy enum
        then match enum with
             | JArr l => labelled "Enum: " (join ", " l)
             | _ => Throw JsTypeError
             end
        else Ok [])
       = if negb (truthy enum) || enum_printable enum
         then Ok parts else Throw JsTypeError.
Proof.
  destruct enum as [| | b | n | s | l | props | x];
    try apply (part_joined "Enum: " ", " true);
    (exists []; split; [apply Forall_nil_2|]); cbn [truthy negb orb enum_printable];
    repeat case_match; cbn in *; first [reflexivity | discriminate].
Qed.

Lemma part_constraints label lo hi :
  exists parts,
    Forall (fun p => is_string p = true) parts
    /\ constraints label lo hi
       = if (is_undefined lo || printable lo) && (is_undefined hi || printable hi)
         then Ok parts else Throw JsTypeError.
Proof.
  unfold constraints. rewrite !printable_spec.
  destruct (is_undefined lo), (is_undefined hi); cbn [negb orb andb rbind];
    try (by exists []);
    repeat match goal with
           | |- context [if printable ?v then _ else _] =>
               destruct (printable v); cbn [rbind andb]
           end;
    try (by exists []);
    (eexists; split; [|reflexivity]; by repeat constructor).
Qed.

(** On a schema that is neither undefined nor null. *)
Lemma getSchemaDescription_cases schema :
  nullish schema = false ->
  if describable schema
  then exists text, getSchemaDescription schema = Ok text /\ text <> ""
  else getSchemaDescription schema = Throw JsTypeError.
Proof.
  intros Hn.
  - unfold getSchemaDescription, describable. rewrite !get_prop_defined by done.
    cbn [rbind].
    destruct (part_type (opt_chain schema "type")) as (p1 & S1 & ->).
    destruct (negb (truthy (opt_chain schema "type")) || _); cbn [andb rbind]; [|done].
    destruct (part_text "Format: " (truthy (opt_chain schema "format"))
                (opt_chain schema "format")) as (p2 & S2 & ->).
    destruct (negb (truthy (opt_chain schema "format")) || _); cbn [andb rbind]; [|done].
    destruct (part_enum (opt_chain schema "enum")) as (p3 & S3 & ->).
    destruct (negb (truthy (opt_chain schema "enum")) || _); cbn [andb rbind]; [|done].
    destruct (part_text "Pattern: " (truthy (opt_chain schema "pattern"))
                (opt_chain schema "pattern")) as (p4 & S4 & ->).
    destruct (negb (truthy (opt_chain schema "pattern")) || _); cbn [andb rbind]; [|done].
    destruct (part_constraints "Length" (opt_chain schema "minLength")
                (opt_chain schema "maxLength")) as (p5 & S5 & ->).
    destruct ((is_undefined (opt_chain schema "minLength") || _) && _);
      cbn [andb rbind]; [|done].
    destruct (part_constraints "Range" (opt_chain schema "minimum")
                (opt_chain schema "maximum")) as (p6 & S6 & ->).
    destruct ((is_undefined (opt_chain schema "minimum") || _) && _);
      cbn [andb rbind]; [|done].
    rewrite <- !app_assoc, join_spec, joinable_described
      by (repeat (apply Forall_app; split); done).
    destruct (negb (truthy (opt_chain schema "description")) || _); cbn [rbind]; [|done].
    eexists. split; [reflexivity|].
    match goal with
    | |- (if String.eqb ?t "" then _ else _) <> _ => by destruct (String.eqb_spec t "")
    end.
Qed.


(** X6. [getSchemaDescription] raises a TypeError, and nothing else: when
    the schema is undefined or null, and on any other schema exactly when its
    [enum] is truthy and not an array or one of the values it writes out has
    no string conversion (an object that owns a [toString], as
    [{"format": {"toString": 1}}]); otherwise it returns a string that is
    never empty. *)
Theorem getSchemaDescription_outcome schema :
  (nullish schema = true -> getSchemaDescription schema = Throw JsTypeError)
  /\ (nullish schema = false ->
      if describable schema
      then exists text, getSchemaDescription schema = Ok text /\ text <> ""
      else getSchemaDescription schema = Throw JsTypeError).
Proof.
  split; intros Hn.
  - unfold getSchemaDescription. by rewrite get_prop_nullish.
  - by apply getSchemaDescription_cases.
Qed.

Lemma getSchemaDescription_outcome_witness :
  getSchemaDescription (JObj [("enum", JStr "a,b")]) = Throw JsTypeError
  /\ getSchemaDescription (JObj [("format", JObj [("toString", JNum 1)])])
     = Throw JsTypeError
  /\ getSchemaDescription (JObj []) = Ok "No description available"
  /\ getSchemaDescription
       (JObj [("type", JStr "string"); ("enum", JArr [JStr "a"; JStr "b"]);
              ("minLength", JNum 1)])
     = Ok "Type: string; Enum: a, b; Length: min: 1".
Proof.
  split; [|split; [|split; reflexivity]].
  - apply (proj2 (getSchemaDescription_outcome (JObj [("enum", JStr "a,b")])) eq_refl).
  - apply (proj2 (getSchemaDescription_outcome
                    (JObj [("format", JObj [("toString", JNum 1)])])) eq_refl).
Defined.

(** ** The normalized view *)

(** X7. On a document whose version is detected, [normalizeSpec] raises a
    TypeError exactly in two cases: the document has no [info] (undefined or
    null), for the title is read from it unguarded; or it is a 2.0 document
    with a host and the scheme, the host or the base path has no string
    conversion (an object that owns a [toString]), for the base URL is
    written out of them. Otherwise it returns the view, whose paths are the
    document's and whose models are the model container, or an empty object
    when the document has none. *)
Theorem normalizeSpec_info spec ver :
  detectVersion spec = Ok ver ->
  if nullish (get_own spec "info")
     || match ver with V2 => negb (base_printable spec) | V3plus => false end
  then normalizeSpec spec = Throw JsTypeError
  else exists n,
         normalizeSpec spec = Ok n
         /\ n_title n = opt_chain (get_own spec "info") "title"
         /\ n_description n = opt_chain (get_own spec "info") "description"
         /\ n_paths n = get_own spec "paths"
         /\ n_models n = or_else (schemas_of ver spec) (JObj []).
Proof.
  intros Hv. unfold normalizeSpec. rewrite Hv. cbn [rbind].
  destruct ver.
  - unfold base_printable. rewrite !printable_spec.
    destruct (truthy (get_own spec "host")); cbn [negb orb rbind].
    + destruct (printable (or_else _ (JStr "http"))); cbn [andb negb rbind];
        [|by rewrite orb_true_r].
      destruct (printable (get_own spec "host")); cbn [andb negb rbind];
        [|by rewrite orb_true_r].
      destruct (printable (or_else _ (JStr ""))); cbn [andb negb rbind];
        [|by rewrite orb_true_r].
      rewrite orb_false_r. destruct (nullish (get_own spec "info")) eqn:Hn.
      * by rewrite get_prop_nullish.
      * rewrite !get_prop_defined by done. cbn [rbind]. eexists.
        split; [reflexivity|]. by repeat split.
    + rewrite orb_false_r. destruct (nullish (get_own spec "info")) eqn:Hn.
      * by rewrite get_prop_nullish.
      * rewrite !get_prop_defined by done. cbn [rbind]. eexists.
        split; [reflexivity|]. by repeat split.
  - rewrite orb_false_r. destruct (nullish (get_own spec "info")) eqn:Hn.
    + by rewrite get_prop_nullish.
    + rewrite !get_prop_defined by done. cbn [rbind]. eexists.
      split; [reflexivity|]. by repeat split.
Qed.

Lemma normalizeSpec_info_witness :
  normalizeSpec (JObj [("openapi", JStr "3.1.0"); ("paths", JObj [])]) = Throw JsTypeError
  /\ normalizeSpec
       (JObj [("swagger", JStr "2.0"); ("info", JObj [("title", JStr "Pets")]);
              ("host", JStr "api.example.com");
              ("basePath", JObj [("toString", JNum 1)])])
     = Throw JsTypeError
  /\ exists n, normalizeSpec pets_v2 = Ok n /\ n_title n = JStr "Pets".
Proof.
  split; [|split].
  - apply (normalizeSpec_info (JObj [("openapi", JStr "3.1.0"); ("paths", JObj [])]) V3plus).
    reflexivity.
  - apply (normalizeSpec_info
             (JObj [("swagger", JStr "2.0"); ("info", JObj [("title", JStr "Pets")]);
                    ("host", JStr "api.example.com");
                    ("basePath", JObj [("toString", JNum 1)])]) V2).
    reflexivity.
  - destruct (normalizeSpec_info pets_v2 V2 eq_refl) as (n & Hn & Ht & _).
    exists n. split; [exact Hn|exact Ht].
Defined.

(** ** The exceptions of [resolveSchema] *)

Lemma fbind_throw {A B} (m : option (completion A)) (k : A -> option (completion B)) e :
  fbind m k = Some (Throw e) ->
  m = Some (Throw e) \/ exists a, m = Some (Ok a) /\ k a = Some (Throw e).
Proof. destruct m as [[a|e']|]; cbn; [eauto|intros [= ->]; by left|done]. Qed.

Lemma fmapM_throw {A B} (f : A -> option (completion B)) (l : list A) e :
  fmapM f l = Some (Throw e) -> exists x, x ∈ l /\ f x = Some (Throw e).
Proof.
  induction l as [|x l IH]; cbn [fmapM]; [done|].
  intros [H|(y & Hy & H)]%fbind_throw; [exists x; split; [apply list_elem_of_here|done]|].
  apply fbind_throw in H as [H|(ys & _ & H)]; [|done].
  destruct (IH H) as (z & Hz & Hfz). exists z. split; [by apply list_elem_of_further|done].
Qed.

Section raised_steps.
Variable rec : jsval -> gset string -> option (completion jsval).
Hypothesis Hrec : forall v visited e, rec v visited = Some (Throw e) -> e = JsTypeError.

Lemma resolve_properties_raised visited result e :
  resolve_properties rec visited result = Some (Throw e) -> e = JsTypeError.
Proof.
  unfold resolve_properties. destruct (truthy _); [|done].
  intros [H|(es & _ & H)]%fbind_throw; [|done].
  apply fmapM_throw in H as ([k v] & _ & H). unfold resolve_entry in H.
  apply fbind_throw in H as [H|(y & _ & H)]; [by eapply Hrec|done].
Qed.

Lemma resolve_items_raised visited result e :
  resolve_items rec visited result = Some (Throw e) -> e = JsTypeError.
Proof.
  unfold resolve_items. destruct (truthy _); [|done].
  destruct (get_field "items" result);
    intros [H|(y & _ & H)]%fbind_throw; try done; try (by eapply Hrec).
  apply fmapM_throw in H as (x & _ & H). by eapply Hrec.
Qed.

Lemma resolve_additional_raised visited result e :
  resolve_additional rec visited result = Some (Throw e) -> e = JsTypeError.
Proof.
  unfold resolve_additional. destruct (_ && _); [|done].
  intros [H|(y & _ & H)]%fbind_throw; [by eapply Hrec|done].
Qed.

Lemma resolve_members_raised k visited result e :
  resolve_members rec k visited result = Some (Throw e) -> e = JsTypeError.
Proof.
  unfold resolve_members. destruct (truthy _); [|done].
  destruct (get_field k result); try (by intros [= <-]).
  intros [H|(y & _ & H)]%fbind_throw; [|done].
  apply fmapM_throw in H as (x & _ & H). by eapply Hrec.
Qed.

Lemma resolve_not_raised visited result e :
  resolve_not rec visited result = Some (Throw e) -> e = JsTypeError.
Proof.
  unfold resolve_not. destruct (truthy _); [|done].
  intros [H|(y & _ & H)]%fbind_throw; [by eapply Hrec|done].
Qed.

Lemma resolve_step_raised spec s visited e :
  resolve_step rec spec s visited = Some (Throw e) -> e = JsTypeError.
Proof.
  unfold resolve_step. destruct (_ || _); [done|].
  destruct (truthy (get_own s "$ref")).
  - unfold resolve_reference.
    destruct (get_own s "$ref") as [| | b | n | r | items | props | x] eqn:Href;
      try (destruct (to_string _) eqn:Hs; cbn [rbind]; [done|];
           intros [= <-]; by eapply to_string_raised).
    case_bool_decide; [done|]. unfold fcatch.
    destruct (resolveRef spec _); [|done]. by destruct (rec _ _) as [[?|?]|].
  - unfold resolve_nested.
    intros [H|(a1 & _ & H)]%fbind_throw; [by eapply resolve_properties_raised|].
    apply fbind_throw in H as [H|(a2 & _ & H)]; [by eapply resolve_items_raised|].
    apply fbind_throw in H as [H|(a3 & _ & H)]; [by eapply resolve_additional_raised|].
    apply fbind_throw in H as [H|(a4 & _ & H)]; [by eapply resolve_members_raised|].
    apply fbind_throw in H as [H|(a5 & _ & H)]; [by eapply resolve_members_raised|].
    apply fbind_throw in H as [H|(a6 & _ & H)]; [by eapply resolve_members_raised|].
    apply fbind_throw in H as [H|(a7 & _ & H)]; [by eapply resolve_not_raised|done].
Qed.
End raised_steps.

Lemma resolveSchema_fuel_raised fuel spec :
  forall s visited e,
    resolveSchema_fuel fuel spec s visited = Some (Throw e) -> e = JsTypeError.
Proof.
  induction fuel as [|fuel IH]; intros s visited e; [done|].
  cbn [resolveSchema_fuel]. by apply resolve_step_raised.
Qed.

Lemma resolveSchema_raised spec s visited e :
  resolveSchema_from spec s visited = Throw e -> e = JsTypeError.
Proof.
  destruct (resolveSchema_fuel_bound spec s visited) as (r & Hr & Hn).
  rewrite Hr. intros ->. by eapply resolveSchema_fuel_raised, (Hn _ (Nat.le_refl _)).
Qed.

(** X13. The only exception [resolveSchema] can raise is a TypeError: the
    errors of [resolveRef] never escape. It is raised only for a fragment
    that is not shaped as the [Schema] interface says, somewhere along the
    part reached without passing through a reference: [allOf], [oneOf] or
    [anyOf] holding something truthy that is not an array, or a [$ref] that
    is not a string. A fragment that is itself a reference raises exactly
    when its [$ref] is not a string and has no string conversion: the
    message of the [catch] block cannot be written. *)
Theorem resolveSchema_raises spec schema visited :
  (forall e, resolveSchema_from spec schema visited = Throw e ->
     e = JsTypeError /\ ~ spine_typed schema)
  /\ (truthy (get_own schema "$ref") = true ->
      throws (resolveSchema_from spec schema visited)
      <-> is_string (get_own schema "$ref") = false
          /\ printable (get_own schema "$ref") = false).
Proof.
  split.
  - intros e H. split; [by eapply resolveSchema_raised|].
    intros Htyped.
    destruct (resolveSchema_typed_ok spec (S (height schema)) schema visited) as [v Hv];
      [lia|done|congruence].
  - intros Hr. destruct (is_string (get_own schema "$ref")) eqn:Hstr.
    + destruct (resolveSchema_reference_ok spec schema visited Hr Hstr) as [v Hv].
      rewrite Hv. split; [by intros [e He]|by intros [? _]].
    + rewrite (resolveSchema_odd_reference spec schema visited Hr Hstr), printable_spec.
      destruct (printable (get_own schema "$ref")); cbn [rbind].
      * split; [by intros [e He]|by intros [_ ?]].
      * split; [done|]. intros _. by eexists.
Qed.

Lemma resolveSchema_raises_witness :
  let schema := JObj [("properties", JObj [("a", JObj [("allOf", JNum 5)])])] in
  let odd := JObj [("$ref", JObj [("toString", JNum 1)])] in
  resolveSchema node_doc schema = Throw JsTypeError
  /\ ~ spine_typed schema
  /\ throws (resolveSchema node_doc odd)
  /\ resolveSchema node_doc (JObj [("$ref", JObj [])]) = Ok (JObj [("$ref", JObj [])]).
Proof.
  intros schema odd.
  assert (H : resolveSchema_from node_doc schema ∅ = Throw JsTypeError)
    by (vm_compute; reflexivity).
  split; [exact H|]. split.
  - exact (proj2 (proj1 (resolveSchema_raises node_doc schema ∅) JsTypeError H)).
  - split; [|vm_compute; reflexivity].
    apply (proj2 (resolveSchema_raises node_doc odd ∅) eq_refl).
    split; reflexivity.
Defined.

End ParserFacts.

(** * Properties of the store model *)

Module StoreFacts.
Import Parser ParserFacts Store.

Lemma preserved_refl n visited h : preserved n visited h h.
Proof. by split. Qed.

Lemma preserved_trans n visited h1 h2 h3 :
  preserved n visited h1 h2 -> preserved n visited h2 h3 -> preserved n visited h1 h3.
Proof.
  intros [Hl1 H1] [Hl2 H2]. split; [lia|].
  intros l Hl Hv. by rewrite H2, H1.
Qed.

Section stable_rules.
Variable n : nat.
Variable visited : loc.

Lemma stable_hret {A} (a : A) : stable n visited (hret a).
Proof. intros h r h' _ [= <- <-]. apply preserved_refl. Qed.

Lemma stable_hread {A} (f : heap -> A) : stable n visited (hread f).
Proof. intros h r h' _ [= <- <-]. apply preserved_refl. Qed.

Lemma stable_hlift {A} (f : heap -> completion A) : stable n visited (hlift f).
Proof. intros h r h' _ [= <- <-]. apply preserved_refl. Qed.

Lemma stable_hbind {A B} (m : H A) (k : A -> H B) :
  stable n visited m -> (forall a, stable n visited (k a)) ->
  stable n visited (hbind m k).
Proof.
  intros Hm Hk h r h' Hn. unfold hbind.
  destruct (m h) as [[[a|e] h1]|] eqn:Hrun; [| |discriminate].
  - intros Hrun'. pose proof (Hm _ _ _ Hn Hrun) as Hp.
    eapply preserved_trans; [exact Hp|].
    eapply Hk; [|exact Hrun']. destruct Hp. lia.
  - intros [= <- <-]. by eapply Hm.
Qed.

Lemma stable_hcatch {A} (m : H A) (handler : exn -> H A) :
  stable n visited m -> (forall e, stable n visited (handler e)) ->
  stable n visited (hcatch m handler).
Proof.
  intros Hm Hk h r h' Hn. unfold hcatch.
  destruct (m h) as [[[a|e] h1]|] eqn:Hrun; [| |discriminate].
  - intros [= <- <-]. by eapply Hm.
  - intros Hrun'. pose proof (Hm _ _ _ Hn Hrun) as Hp.
    eapply preserved_trans; [exact Hp|].
    eapply Hk; [|exact Hrun']. destruct Hp. lia.
Qed.

Lemma stable_with_new {A} (c : heap -> cell) (k : loc -> H A) :
  (forall l, n <= l -> stable n visited (k l)) ->
  stable n visited (with_new c k).
Proof.
  intros Hk h r h' Hn. unfold with_new. intros Hrun.
  eapply preserved_trans; [|eapply (Hk _ Hn); [|exact Hrun]].
  - split; [rewrite length_app; lia|].
    intros l Hl _. apply lookup_app_l. lia.
  - rewrite length_app. lia.
Qed.

Lemma stable_hmodify (l : loc) (f : cell -> cell) :
  n <= l \/ l = visited -> stable n visited (hmodify l f).
Proof.
  intros Hl h r h' Hn Hrun. unfold hmodify in Hrun. injection Hrun as _ <-.
  split; [rewrite length_alter; lia|].
  intros l' Hl' Hv. apply list_lookup_alter_ne. lia.
Qed.

Lemma stable_hmapM {A B} (f : A -> H B) (xs : list A) :
  (forall x, stable n visited (f x)) -> stable n visited (hmapM f xs).
Proof.
  intros Hf. induction xs as [|x xs IH]; cbn [hmapM].
  - apply stable_hret.
  - apply stable_hbind; [apply Hf|]. intros y.
    apply stable_hbind; [apply IH|]. intros ys. apply stable_hret.
Qed.
End stable_rules.

(** A computation whose set is a cell allocated later touches nothing old. *)
Lemma stable_fresh {A} n visited visited' (m : H A) :
  n <= visited' -> stable n visited' m -> stable n visited m.
Proof.
  intros Hv Hm h r h' Hn Hrun. destruct (Hm _ _ _ Hn Hrun) as [Hl Hp].
  split; [done|]. intros l Hlt _. apply Hp; lia.
Qed.

Section stable_steps.
Variable rec : val -> loc -> H val.
Variable n : nat.
Variable x : loc.
Hypothesis Hrec : forall v visited, stable n visited (rec v visited).

(** A call on a copy of the set touches nothing that existed before. *)
Lemma stable_rec_with_copy visited v : stable n x (rec_with_copy rec visited v).
Proof.
  apply stable_with_new. intros l Hl. apply (stable_fresh n x l); [done|apply Hrec].
Qed.

Lemma stable_map_resolve visited l k :
  (forall v, stable n x (k v)) -> stable n x (map_resolve rec visited l k).
Proof.
  intros Hk. unfold map_resolve. apply stable_hbind.
  - apply stable_hmapM. intros v. apply stable_rec_with_copy.
  - intros l'. apply stable_with_new. intros arr _. apply Hk.
Qed.

Variable result : loc.
Hypothesis Hresult : n <= result \/ result = x.

Lemma stable_set k v : stable n x (hmodify result (set_prop k v)).
Proof. by apply stable_hmodify. Qed.

Lemma stable_resolve_properties visited :
  stable n x (resolve_properties rec result visited).
Proof.
  unfold resolve_properties. apply stable_hbind; [apply stable_hread|].
  intros p. destruct (truthy_v p); [|apply stable_hret].
  apply stable_hbind; [apply stable_hread|]. intros entries.
  apply stable_hbind.
  - apply stable_hmapM. intros kv.
    apply stable_hbind; [apply stable_rec_with_copy|]. intros v. apply stable_hret.
  - intros entries'. apply stable_with_new. intros obj _. apply stable_set.
Qed.

Lemma stable_resolve_items visited :
  stable n x (resolve_items rec result visited).
Proof.
  unfold resolve_items. apply stable_hbind; [apply stable_hread|].
  intros items. destruct (truthy_v items); [|apply stable_hret].
  apply stable_hbind; [apply stable_hread|]. intros [l|].
  - apply stable_map_resolve. intros v. apply stable_set.
  - apply stable_hbind; [apply stable_rec_with_copy|]. intros v. apply stable_set.
Qed.

Lemma stable_resolve_additional visited :
  stable n x (resolve_additional rec result visited).
Proof.
  unfold resolve_additional. apply stable_hbind; [apply stable_hread|].
  intros ap. destruct (_ && _); [|apply stable_hret].
  apply stable_hbind; [apply stable_rec_with_copy|]. intros v. apply stable_set.
Qed.

Lemma stable_resolve_members k visited :
  stable n x (resolve_members rec k result visited).
Proof.
  unfold resolve_members. apply stable_hbind; [apply stable_hread|].
  intros members. destruct (truthy_v members); [|apply stable_hret].
  apply stable_hbind; [apply stable_hread|]. intros [l|].
  - apply stable_map_resolve. intros v. apply stable_set.
  - apply stable_hlift.
Qed.

Lemma stable_resolve_not visited :
  stable n x (resolve_not rec result visited).
Proof.
  unfold resolve_not. apply stable_hbind; [apply stable_hread|].
  intros y. destruct (truthy_v y); [|apply stable_hret].
  apply stable_hbind; [apply stable_rec_with_copy|]. intros v. apply stable_set.
Qed.

(** The steps of a fragment without reference, run on the copy [result]. *)
Lemma stable_nested_steps visited :
  stable n x
    (hbind (resolve_properties rec result visited) (fun _ =>
     hbind (resolve_items rec result visited) (fun _ =>
     hbind (resolve_additional rec result visited) (fun _ =>
     hbind (resolve_members rec "allOf" result visited) (fun _ =>
     hbind (resolve_members rec "oneOf" result visited) (fun _ =>
     hbind (resolve_members rec "anyOf" result visited) (fun _ =>
     hbind (resolve_not rec result visited) (fun _ =>
     hret (VRef result))))))))).
Proof.
  apply stable_hbind; [apply stable_resolve_properties|]. intros _.
  apply stable_hbind; [apply stable_resolve_items|]. intros _.
  apply stable_hbind; [apply stable_resolve_additional|]. intros _.
  apply stable_hbind; [apply stable_resolve_members|]. intros _.
  apply stable_hbind; [apply stable_resolve_members|]. intros _.
  apply stable_hbind; [apply stable_resolve_members|]. intros _.
  apply stable_hbind; [apply stable_resolve_not|]. intros _.
  apply stable_hret.
Qed.
End stable_steps.

(** A fragment without reference leaves even the set as it was. *)
Lemma stable_resolve_nested rec n x schema visited :
  (forall v visited', stable n visited' (rec v visited')) ->
  stable n x (resolve_nested rec schema visited).
Proof.
  intros Hrec. unfold resolve_nested. apply stable_with_new. intros result Hresult.
  apply (stable_nested_steps rec n x Hrec result). by left.
Qed.

(** A [$ref] that is no string: nothing is written. *)
Lemma stable_odd_reference n visited (schema ref : val) :
  stable n visited
    (fun h => match to_string_h (List.length h) h ref with
              | Some (Ok _) => Some (Ok schema, h)
              | Some (Throw e) => Some (Throw e, h)
              | None => None
              end).
Proof.
  intros h r h' _. destruct (to_string_h _ _ _) as [[text|e]|]; [| |discriminate];
    intros [= <- <-]; apply preserved_refl.
Qed.

Lemma stable_resolve_step rec spec n schema visited :
  (forall v visited', stable n visited' (rec v visited')) ->
  stable n visited (resolve_step rec spec schema visited).
Proof.
  intros Hrec. unfold resolve_step.
  destruct (_ || _); [apply stable_hret|].
  apply stable_hbind; [apply stable_hread|]. intros ref.
  destruct (truthy_v ref).
  - unfold resolve_reference. destruct ref; try apply stable_odd_reference.
    apply stable_hbind; [apply stable_hread|]. intros [|].
    + apply stable_with_new. intros l _. apply stable_hret.
    + apply stable_hbind; [apply stable_hmodify; by right|]. intros _.
      apply stable_hcatch; [|intros; apply stable_hret].
      apply stable_hbind; [apply stable_hlift|]. intros resolved.
      apply stable_with_new. intros rest _.
      apply stable_with_new. intros merged _. apply Hrec.
  - by apply stable_resolve_nested.
Qed.

Lemma stable_resolveSchema_fuel fuel spec n schema visited :
  stable n visited (resolveSchema_fuel fuel spec schema visited).
Proof.
  revert schema visited. induction fuel as [|fuel IH]; intros schema visited.
  - intros h r h' _ [=].
  - cbn [resolveSchema_fuel]. apply stable_resolve_step. apply IH.
Qed.

(** ** The trees of the inputs are left as they were *)

Lemma mapM_ext_some {A B} (f g : A -> option B) (l : list A) ys :
  (forall x y, x ∈ l -> f x = Some y -> g x = Some y) ->
  mapM f l = Some ys -> mapM g l = Some ys.
Proof.
  revert ys. induction l as [|x l IH]; intros ys Hfg; cbn; [done|].
  destruct (f x) as [y|] eqn:Hx; cbn; [|discriminate].
  rewrite (Hfg x y (list_elem_of_here _ _) Hx). cbn.
  destruct (mapM f l) as [ys'|] eqn:Hl; cbn; [|discriminate].
  rewrite (IH ys'); [done| |done].
  intros z w Hz. apply Hfg. by apply list_elem_of_further.
Qed.

Lemma reify_extends n h h' v j :
  extends h h' -> reify n h v = Some j -> reify n h' v = Some j.
Proof.
  intros Hext. revert v j. induction n as [|n IH]; intros v j.
  - destruct v; cbn; try done.
  - destruct v as [| | b | z | s | l | x]; cbn [reify]; try done.
    destruct (h !! l) as [[props|items|members]|] eqn:Hl; try discriminate;
      rewrite (Hext _ _ Hl).
    + destruct (mapM _ props) as [ps|] eqn:Hm; cbn; [|discriminate].
      intros [= <-].
      assert (mapM (fun kv => pair (fst kv) <$> reify n h' (snd kv)) props = Some ps) as ->;
        [|done].
      eapply mapM_ext_some; [|exact Hm].
      intros kv y _ Hy. cbn beta in *.
      destruct (reify n h (snd kv)) as [x|] eqn:Hx; cbn in Hy; [|discriminate].
      injection Hy as <-. by rewrite (IH _ _ Hx).
    + destruct (mapM _ items) as [xs|] eqn:Hm; cbn; [|discriminate].
      intros [= <-].
      assert (mapM (reify n h') items = Some xs) as ->; [|done].
      eapply mapM_ext_some; [|exact Hm].
      intros x y _. apply IH.
Qed.

Lemma preserved_extends h h' visited :
  List.length h <= visited -> preserved (List.length h) visited h h' -> extends h h'.
Proof.
  intros Hv [_ Hp] l c Hl. pose proof (lookup_lt_Some _ _ _ Hl).
  rewrite Hp; [done|lia..].
Qed.

(** A call [resolveSchema(spec, schema)] that completes, with a value or
    with an exception, leaves every cell the store held before the call as it
    was, whatever the shape of the store: all writes go to cells the call
    allocated itself. For the three-argument form the set passed as
    [visited] is the one cell that may change. *)
Lemma resolveSchema_preserves fuel spec schema h r h' :
  Store.resolveSchema fuel spec schema h = Some (r, h') ->
  extends h h'
  /\ (forall n d, reify n h spec = Some d -> reify n h' spec = Some d)
  /\ (forall n s, reify n h schema = Some s -> reify n h' schema = Some s)
  /\ (forall visited h0 r0 h0',
        Store.resolveSchema_fuel fuel spec schema visited h0 = Some (r0, h0') ->
        forall l, l <> visited -> l < List.length h0 -> h0' !! l = h0 !! l).
Proof.
  intros Hrun.
  assert (Hext : extends h h').
  { unfold Store.resolveSchema, with_new in Hrun.
    pose proof (stable_resolveSchema_fuel fuel spec (List.length h) schema (List.length h)
                  (h ++ [CSet []])%list r h') as Hst.
    destruct Hst as [_ Hp]; [rewrite length_app; lia|done|].
    intros l c Hl. pose proof (lookup_lt_Some _ _ _ Hl) as Hlt.
    rewrite Hp by lia. by rewrite lookup_app_l. }
  split; [done|]. split; [|split].
  - intros n d. by apply reify_extends.
  - intros n s. by apply reify_extends.
  - intros visited h0 r0 h0' Hrun0 l Hne Hlt.
    destruct (stable_resolveSchema_fuel fuel spec (List.length h0) schema visited
                h0 r0 h0') as [_ Hp]; [lia|done|].
    by apply Hp.
Qed.

(** ** The store model computes what the tree model computes *)

Lemma Forall2_Forall_r {A B} (R R' : A -> B -> Prop) l l' :
  Forall (fun y => forall x, R x y -> R' x y) l' -> Forall2 R l l' -> Forall2 R' l l'.
Proof.
  intros HF H. induction H as [|x y l l' Hxy Hl IH]; [constructor|].
  apply Forall_cons in HF as [Hy HF]. constructor; auto.
Qed.

Lemma repr_mono P P' h h' :
  (forall l, P l -> P' l) -> agree_on P h h' ->
  forall j v, repr P h v j -> repr P' h' v j.
Proof.
  intros Himp Hagree. induction j as [| | b | n | s | js IH | jps IH |] using jsval_ind;
    intros v Hr; inversion Hr as [| | | | | l items js' Hl Hc Hall | l props jps' Hl Hc Hall |];
    subst; try constructor.
  - eapply repr_arr; [by apply Himp|by apply Hagree|].
    eapply Forall2_Forall_r; [|exact Hall]. exact IH.
  - eapply repr_obj; [by apply Himp|by apply Hagree|].
    eapply Forall2_Forall_r; [|exact Hall].
    eapply Forall_impl; [exact IH|]. intros jkv Hj kv [Hk Hv]. split; [done|]. by apply Hj.
Qed.

Lemma repr_weaken P P' h : (forall l, P l -> P' l) ->
  forall j v, repr P h v j -> repr P' h v j.
Proof. intros Himp. apply repr_mono; [done|]. by intros l c _ Hl _. Qed.

Lemma repr_props_mono P P' h h' props jps :
  (forall l, P l -> P' l) -> agree_on P h h' ->
  repr_props P h props jps -> repr_props P' h' props jps.
Proof.
  intros Himp Hagree Hp. eapply Forall2_impl; [exact Hp|].
  intros kv jkv [Hk Hv]. split; [done|]. by eapply repr_mono.
Qed.

Lemma repr_truthy P h v j : repr P h v j -> truthy_v v = truthy j.
Proof. by inversion 1. Qed.

Lemma repr_typeof P h v j : repr P h v j -> typeof_object_v v = typeof_object j.
Proof. by inversion 1. Qed.

Lemma Forall2_imap {A B C D} (R : C -> D -> Prop) (f : nat -> A -> C) (g : nat -> B -> D)
    (l : list A) (l' : list B) (Q : A -> B -> Prop) :
  Forall2 Q l l' -> (forall i x y, Q x y -> R (f i x) (g i y)) ->
  Forall2 R (imap f l) (imap g l').
Proof.
  intros H. revert f g. induction H as [|x y l l' Hxy Hl IH]; intros f g Hfg; cbn.
  - constructor.
  - constructor; [by apply Hfg|]. apply IH. intros i. apply Hfg.
Qed.

Lemma repr_own_entries P h v j :
  repr P h v j -> repr_props P h (own_entries_h h v) (own_entries j).
Proof.
  unfold repr_props. inversion 1 as [| | | | s | l items js Hl Hc Hall | l props jps Hl Hc Hall |];
    subst; cbn [own_entries_h own_entries]; try constructor.
  - apply (Forall2_imap _ _ _ _ _ eq);
      [induction (chars s); by constructor|].
    intros i x y ->. split; [done|constructor].
  - rewrite Hc. eapply Forall2_imap; [exact Hall|]. by intros i x y Hxy.
  - by rewrite Hc.
Qed.

Lemma repr_get_field P h k props jps :
  repr_props P h props jps -> repr P h (get_field k props) (get_field k jps).
Proof.
  induction 1 as [|[k1 v] [k2 j] props jps [Hk Hv] Hp IH]; cbn in *; [constructor|].
  subst k2. by destruct (String.eqb k1 k).
Qed.

Lemma repr_has_field P h k props jps :
  repr_props P h props jps -> has_field k props = has_field k jps.
Proof.
  unfold has_field. induction 1 as [|[k1 v] [k2 j] props jps [Hk Hv] Hp IH]; cbn in *; [done|].
  subst k2. by rewrite IH.
Qed.

Lemma repr_set_field P h k v j props jps :
  repr P h v j -> repr_props P h props jps ->
  repr_props P h (set_field k v props) (set_field k j jps).
Proof.
  intros Hv. induction 1 as [|[k1 v1] [k2 j1] props jps [Hk Hv1] Hp IH]; cbn in *.
  - by repeat constructor.
  - subst k2. destruct (String.eqb k1 k); constructor; auto.
Qed.

Lemma repr_remove_field P h k props jps :
  repr_props P h props jps ->
  repr_props P h (remove_field k props) (remove_field k jps).
Proof.
  unfold remove_field.
  induction 1 as [|[k1 v1] [k2 j1] props jps [Hk Hv1] Hp IH]; [constructor|].
  cbn [fst snd] in *. subst k2. rewrite !filter_cons. cbn [fst].
  destruct (decide (k1 <> k)); [constructor; auto|done].
Qed.

Lemma repr_assign P h target jtarget source jsource :
  repr_props P h target jtarget -> repr_props P h source jsource ->
  repr_props P h (assign target source) (assign jtarget jsource).
Proof.
  unfold assign. intros Ht Hs. revert target jtarget Ht.
  induction Hs as [|[k1 v1] [k2 j1] source jsource [Hk Hv1] Hp IH]; intros target jtarget Ht;
    cbn in *; [done|].
  subst k2. apply IH. by apply repr_set_field.
Qed.

Lemma repr_props_length P h props jps :
  repr_props P h props jps -> List.length props = List.length jps.
Proof. apply Forall2_length. Qed.

Lemma repr_get_own P h v j k :
  repr P h v j -> repr P h (get_own_h h v k) (get_own j k).
Proof.
  intros Hr. pose proof (repr_own_entries _ _ _ _ Hr) as He.
  inversion Hr as [| | | | s | l items js Hl Hc Hall | l props jps Hl Hc Hall |]; subst;
    cbn [get_own_h get_own]; try constructor.
  - rewrite Hc. destruct (String.eqb k "length").
    + rewrite (Forall2_length _ _ _ Hall). constructor.
    + by apply repr_get_field.
  - rewrite Hc. cbn [own_entries_h own_entries] in He. rewrite Hc in He.
    by apply repr_get_field.
Qed.

(** What the prototype chain answers is no cell of the store. *)
Lemma repr_inherited P h k name :
  repr P h (of_native (inherited_member k name)) (inherited_member k name).
Proof. unfold inherited_member. repeat case_match; constructor. Qed.

Lemma repr_prototype P h k name :
  repr P h (of_native (prototype_member k name)) (prototype_member k name).
Proof. unfold prototype_member. repeat case_match; constructor. Qed.

Lemma repr_member P h v j k :
  repr P h v j -> repr P h (member_h h v k) (member j k).
Proof.
  intros Hr. pose proof (repr_get_own _ _ _ _ k Hr) as Hg.
  pose proof (repr_own_entries _ _ _ _ Hr) as He.
  inversion Hr as [| | | | s | l items js Hl Hc Hall | l props jps Hl Hc Hall | x]; subst;
    cbn [member_h member]; try constructor.
  - rewrite Hc. rewrite (repr_has_field _ _ k _ _ He).
    destruct (String.eqb k "length" || has_field k (own_entries (JArr js)));
      [done|apply repr_inherited].
  - rewrite Hc. cbn [own_entries_h own_entries] in He. rewrite Hc in He.
    rewrite (repr_has_field _ _ k _ _ He).
    destruct (has_field k jps); [by apply repr_get_field|apply repr_inherited].
  - destruct x as [p| |]; try constructor. apply repr_prototype.
Qed.

(** *** String conversion: no chain of cells is longer than the store *)

Lemma repr_functional P P' h : forall j v j',
  repr P h v j -> repr P' h v j' -> j = j'.
Proof.
  induction j as [| | b | n | s | js IH | jps IH | x] using jsval_ind; intros v j' Hr Hr';
    inversion Hr as [| | | | | l items js0 Hl Hc Hall | l props jps0 Hl Hc Hall |]; subst;
    inversion Hr' as [| | | | | l' items' js' Hl' Hc' Hall' | l' props' jps' Hl' Hc' Hall' |];
    subst; try done; try congruence; rewrite Hc in Hc'; injection Hc' as <-.
  - f_equal. clear Hr Hr' Hc. revert js' Hall'.
    induction Hall as [|v j items js Hv Hall IHall]; intros js' Hall';
      inversion Hall' as [|? j' ? js1 Hv' Hrest]; subst; [done|].
    apply Forall_cons in IH as [Hj IH]. f_equal; [by eapply Hj|by apply IHall].
  - f_equal. clear Hr Hr' Hc. revert jps' Hall'.
    induction Hall as [|[k v] [k0 j] props jps [Hk Hv] Hall IHall]; intros jps' Hall';
      inversion Hall' as [|? [k' j'] ? jps1 [Hk' Hv'] Hrest]; subst; [done|].
    cbn [fst snd] in *. subst. apply Forall_cons in IH as [Hj IH].
    f_equal; [f_equal; by eapply Hj|by apply IHall].
Qed.

Lemma height_item x items : x ∈ items -> height x < height (JArr items).
Proof.
  intros Hx. cbn [height]. apply Nat.lt_succ_r, max_list_elem_of_le.
  by apply list_elem_of_fmap_2.
Qed.

Lemma height_value kv props : kv ∈ props -> height (snd kv) < height (JObj props).
Proof.
  intros Hx. cbn [height]. apply Nat.lt_succ_r, max_list_elem_of_le.
  by apply (list_elem_of_fmap_2 (fun kv => height (snd kv))).
Qed.

(** A cell is not met again below itself. *)
Lemma repr_avoid P h l jl : repr P h (VRef l) jl ->
  forall j v, repr P h v j -> height j < height jl ->
  repr (fun x => P x /\ x <> l) h v j.
Proof.
  intros Hl. induction j as [| | b | n | s | js IH | jps IH | x] using jsval_ind; intros v Hr Hlt;
    inversion Hr as [| | | | | l0 items js0 Hl0 Hc Hall | l0 props jps0 Hl0 Hc Hall |]; subst;
    try constructor.
  - assert (l0 <> l).
    { intros ->. rewrite (repr_functional _ _ _ _ _ _ Hl Hr) in Hlt. lia. }
    eapply repr_arr; [done|exact Hc|].
    eapply Forall2_Forall_r; [|exact Hall]. rewrite Forall_forall in IH.
    apply Forall_forall. intros j Hj v Hvj. apply IH; [done..|].
    pose proof (height_item _ _ Hj). lia.
  - assert (l0 <> l).
    { intros ->. rewrite (repr_functional _ _ _ _ _ _ Hl Hr) in Hlt. lia. }
    eapply repr_obj; [done|exact Hc|].
    eapply Forall2_Forall_r; [|exact Hall]. rewrite Forall_forall in IH.
    apply Forall_forall. intros jkv Hj kv [Hk Hvj]. split; [done|]. apply IH; [done..|].
    pose proof (height_value _ _ Hj). lia.
Qed.

Lemma size_below (X : gset nat) n : (forall l, l ∈ X -> l < n) -> size X <= n.
Proof.
  intros HX. rewrite <- (size_set_seq (C := gset nat) 0 n). apply subseteq_size.
  intros l Hl. apply elem_of_set_seq. split; [lia|]. by apply HX.
Qed.

Lemma fmapM_agree {A B C} (f : A -> option (completion C)) (g : B -> completion C) l l' :
  Forall2 (fun x y => f x = Some (g y)) l l' ->
  fmapM f l = Some (rmapM g l').
Proof.
  induction 1 as [|x y l l' Hxy Hl IH]; cbn [fmapM rmapM]; [done|].
  rewrite Hxy, IH. destruct (g y) as [c|e]; [|done]. cbn. by destruct (rmapM g l').
Qed.

Lemma to_string_bounded h : forall j v (X : gset nat) n,
  (forall l, l ∈ X -> l < List.length h) ->
  repr (fun l => l < List.length h /\ l ∉ X) h v j ->
  List.length h <= size X + n ->
  to_string_h n h v = Some (to_string j).
Proof.
  induction j as [| | b | z | s | js IH | jps IH | x] using jsval_ind; intros v X n HX Hr Hn;
    inversion Hr as [| | | | | l items js0 [Hl HlX] Hc Hall | l props jps0 [Hl HlX] Hc Hall |];
    subst; try (by destruct n); try (by destruct n, b).
  - assert (size (X ∪ {[l]}) <= List.length h) as Hsize.
    { apply size_below. intros l' [Hl'| ->%elem_of_singleton]%elem_of_union; auto. }
    rewrite size_union, size_singleton in Hsize by set_solver.
    destruct n as [|n]; [lia|]. cbn [to_string_h to_string]. rewrite Hc.
    rewrite (fmapM_agree _ (fun x => match x with
                                     | JUndefined | JNull => Ok ""
                                     | _ => to_string x
                                     end) items js);
      [cbn [fbind]; by destruct (rmapM _ js)|].
    eapply Forall2_Forall_r; [|exact Hall]. apply Forall_forall. intros j Hj v Hvj.
    assert (to_string_h n h v = Some (to_string j)) as Hs.
    { rewrite Forall_forall in IH. apply (IH j Hj v (X ∪ {[l]})).
      - intros l' [Hl'| ->%elem_of_singleton]%elem_of_union; auto.
      - eapply repr_weaken; [|eapply (repr_avoid _ _ _ _ Hr); [exact Hvj|by apply height_item]].
        cbn beta. intros l' [[Hl' Hn'] Hne]. split; [done|]. set_solver.
      - rewrite size_union, size_singleton by set_solver. lia. }
    inversion Hvj; subst; done.
  - assert (size (X ∪ {[l]}) <= List.length h) as Hsize.
    { apply size_below. intros l' [Hl'| ->%elem_of_singleton]%elem_of_union; auto. }
    rewrite size_union, size_singleton in Hsize by set_solver.
    destruct n as [|n]; [lia|]. cbn [to_string_h to_string]. rewrite Hc.
    by rewrite (repr_has_field _ _ "toString" _ _ Hall).
Qed.

(** The conversion on the store is the one on the tree. *)
Lemma to_string_agree P h v j :
  (forall l, P l -> l < List.length h) -> repr P h v j ->
  to_string_h (List.length h) h v = Some (to_string j).
Proof.
  intros HP Hr. apply (to_string_bounded h j v ∅); [set_solver| |lia].
  eapply repr_weaken; [|exact Hr]. intros l Hl. split; [by apply HP|set_solver].
Qed.

Lemma walk_agree P h ref path current jcurrent :
  repr P h current jcurrent ->
  agree P h (walk_h h ref path current) (walk ref path jcurrent).
Proof.
  revert current jcurrent. induction path as [|segment rest IH]; intros current jcurrent Hr;
    cbn [walk walk_h]; [done|].
  pose proof (repr_member _ _ _ _ (decode_segment segment) Hr) as Hg.
  pose proof (repr_typeof _ _ _ _ Hr) as Ht.
  inversion Hr; subst; try done; rewrite Ht;
    (destruct (negb (typeof_object _)); [done|by apply IH]).
Qed.

Lemma resolveRef_agree P h spec jspec ref :
  repr P h spec jspec ->
  agree P h (resolveRef_h h spec ref) (resolveRef jspec ref).
Proof.
  intros Hr. unfold resolveRef_h, resolveRef.
  destruct (negb (String.prefix "#/" ref)); [done|].
  pose proof (walk_agree P h ref (split_on "/" (drop_chars 2 ref)) _ _ Hr) as Hw.
  destruct (walk_h h ref _ spec) as [v|e], (walk ref _ jspec) as [j|e']; cbn in *; try done.
  inversion Hw; subst; cbn; try done; by econstructor.
Qed.

(** *** Moving a representation from one store to a later one *)

Lemma extends_refl h : extends h h.
Proof. by intros l c. Qed.

Lemma extends_trans h1 h2 h3 : extends h1 h2 -> extends h2 h3 -> extends h1 h3.
Proof. intros H1 H2 l c Hl. by apply H2, H1. Qed.

Lemma extends_app h ext : extends h (h ++ ext)%list.
Proof. intros l c Hl. rewrite lookup_app_l; [done|]. by eapply lookup_lt_Some. Qed.

Lemma extends_length h h' : extends h h' -> List.length h <= List.length h'.
Proof.
  intros Hext. destruct h as [|c h0] using rev_ind; [cbn; lia|].
  assert ((h0 ++ [c])%list !! List.length h0 = Some c) as Hl.
  { rewrite lookup_app_r by lia. by rewrite Nat.sub_diag. }
  apply Hext, lookup_lt_Some in Hl. rewrite length_app. cbn. lia.
Qed.

Lemma extends_agree_on P h h' : extends h h' -> agree_on P h h'.
Proof. intros Hext l c _ Hl _. by apply Hext. Qed.

Lemma agree_on_trans P h1 h2 h3 :
  agree_on P h1 h2 -> agree_on P h2 h3 -> agree_on P h1 h3.
Proof. intros H1 H2 l c Hp Hl Hs. apply H2; [done| |done]. by apply H1. Qed.

Lemma agree_on_alter P h x f :
  (forall l, P l -> l <> x) -> agree_on P h (alter f x h).
Proof.
  intros Hx l c Hp Hl _. rewrite list_lookup_alter_ne; [done|].
  intros ->. by apply (Hx l).
Qed.

Lemma agree_on_alter_set P h x ms f :
  h !! x = Some (CSet ms) -> agree_on P h (alter f x h).
Proof.
  intros Hx l c Hp Hl Hs. destruct (decide (l = x)) as [->|Hne].
  - rewrite Hx in Hl. injection Hl as <-. discriminate.
  - by rewrite list_lookup_alter_ne.
Qed.

Lemma preserved_extends_fresh n visited h h' :
  n <= visited -> preserved n visited h h' -> List.length h = n -> extends h h'.
Proof.
  intros Hv [_ Hp] Hn l c Hl. pose proof (lookup_lt_Some _ _ _ Hl).
  rewrite Hp; [done|lia..].
Qed.

(** Every cell a representation reads is in the store. *)
Lemma repr_bound P h :
  forall j v, repr P h v j -> repr (fun l => P l /\ l < List.length h) h v j.
Proof.
  induction j as [| | b | n | s | js IH | jps IH |] using jsval_ind;
    intros v Hr; inversion Hr as [| | | | | l items js' Hl Hc Hall | l props jps' Hl Hc Hall |];
    subst; try constructor.
  - eapply repr_arr; [|exact Hc|].
    + split; [done|]. by eapply lookup_lt_Some.
    + eapply Forall2_Forall_r; [|exact Hall]. exact IH.
  - eapply repr_obj; [|exact Hc|].
    + split; [done|]. by eapply lookup_lt_Some.
    + eapply Forall2_Forall_r; [|exact Hall].
      eapply Forall_impl; [exact IH|]. intros jkv Hj kv [Hk Hv]. split; [done|]. by apply Hj.
Qed.

Lemma agree_mono P P' h h' r jr :
  (forall l, P l -> P' l) -> agree_on P h h' -> agree P h r jr -> agree P' h' r jr.
Proof.
  intros Himp Hag. destruct r, jr; cbn; try done. by apply repr_mono.
Qed.

(** *** Calls on a copy of the set *)

(** A sequence of element computations that only ever extend the store. *)
Lemma sim_hmapM {A B A' B'} (I : heap -> Prop)
    (F : A -> H A') (G : B -> option (completion B'))
    (Rin : heap -> A -> B -> Prop) (Rout : nat -> heap -> A' -> B' -> Prop) :
  (forall h h', extends h h' -> I h -> I h') ->
  (forall h h' a b, extends h h' -> Rin h a b -> Rin h' a b) ->
  (forall n n' h h' a b, n <= n' -> extends h h' -> Rout n' h a b -> Rout n h' a b) ->
  (forall h a b jr, I h -> Rin h a b -> G b = Some jr ->
     exists r h', F a h = Some (r, h') /\ extends h h'
       /\ match r, jr with
          | Ok a', Ok b' => Rout (List.length h) h' a' b'
          | Throw e, Throw e' => e = e'
          | _, _ => False
          end) ->
  forall l jl h jres, I h -> Forall2 (Rin h) l jl -> fmapM G jl = Some jres ->
    exists r h', hmapM F l h = Some (r, h') /\ extends h h'
      /\ match r, jres with
         | Ok l', Ok jl' => Forall2 (Rout (List.length h) h') l' jl'
         | Throw e, Throw e' => e = e'
         | _, _ => False
         end.
Proof.
  intros HI Hin Hout Helem l jl h jres Hh Hall. revert h jres Hh Hall.
  induction jl as [|b jl IH] in l |- *; intros h jres Hh Hall Hrun.
  - apply Forall2_nil_inv_r in Hall as ->. injection Hrun as <-.
    exists (Ok []), h. split; [done|]. split; [apply extends_refl|constructor].
  - apply Forall2_cons_inv_r in Hall as (a & l' & Hab & Hall & ->).
    cbn [fmapM] in Hrun. unfold fbind in Hrun.
    destruct (G b) as [[b'|e]|] eqn:Hb; [| |discriminate].
    + destruct (Helem h a b _ Hh Hab Hb) as ([a'|?] & h1 & Hrun1 & Hext1 & Hrel1); [|done].
      destruct (fmapM G jl) as [[jl'|e]|] eqn:Hjl; [| |discriminate].
      * injection Hrun as <-.
        destruct (IH l' h1 (Ok jl')) as ([l2|?] & h2 & Hrun2 & Hext2 & Hrel2);
          [by eapply HI| |done| |done].
        { eapply Forall2_impl; [exact Hall|]. intros x y. by apply Hin. }
        exists (Ok (a' :: l2)), h2. split; [|split].
        -- cbn [hmapM]. unfold hbind. by rewrite Hrun1, Hrun2.
        -- by eapply extends_trans.
        -- constructor.
           ++ eapply Hout; [|exact Hext2|exact Hrel1]. done.
           ++ eapply Forall2_impl; [exact Hrel2|]. intros x y.
              apply Hout; [by apply extends_length|apply extends_refl].
      * injection Hrun as <-.
        destruct (IH l' h1 (Throw e)) as ([?|e'] & h2 & Hrun2 & Hext2 & Hrel2);
          [by eapply HI| |done|done|].
        { eapply Forall2_impl; [exact Hall|]. intros x y. by apply Hin. }
        exists (Throw e'), h2. split; [|split; [by eapply extends_trans|done]].
        cbn [hmapM]. unfold hbind. by rewrite Hrun1, Hrun2.
    + injection Hrun as <-.
      destruct (Helem h a b _ Hh Hab Hb) as ([?|e'] & h1 & Hrun1 & Hext1 & Hrel1); [done|].
      exists (Throw e'), h1. split; [|by split].
      cbn [hmapM]. unfold hbind. by rewrite Hrun1.
Qed.

Section sim_calls.
Variable spec : val.
Variable jspec : jsval.
Variable rec : val -> loc -> H val.
Variable jrec : jsval -> gset string -> option (completion jsval).
Hypothesis Hsim : simulates spec jspec rec jrec.
Hypothesis Hst : forall n v visited, stable n visited (rec v visited).

Lemma ready_extends P visited ms h h' :
  extends h h' -> ready spec jspec P visited ms h -> ready spec jspec P visited ms h'.
Proof.
  intros Hext (Hp & Hs & Hv). split; [|split].
  - intros l Hl. pose proof (Hp l Hl). pose proof (extends_length _ _ Hext). lia.
  - eapply repr_mono; [|by apply extends_agree_on|exact Hs]. done.
  - by apply Hext.
Qed.

Lemma sim_rec_with_copy P h c jc visited ms jres :
  ready spec jspec P visited ms h ->
  repr P h c jc ->
  jrec jc (list_to_set ms) = Some jres ->
  exists r h',
    rec_with_copy rec visited c h = Some (r, h')
    /\ extends h h'
    /\ agree (fun l => P l \/ List.length h <= l) h' r jres.
Proof.
  intros (Hp & Hs & Hv) Hc Hj. unfold rec_with_copy, with_new.
  assert (copy_set visited h = CSet ms) as -> by (unfold copy_set; by rewrite Hv).
  pose proof (extends_app h [CSet ms]) as Hext.
  destruct (Hsim P c jc (List.length h) ms (h ++ [CSet ms])%list jres)
    as (r & h' & Hrun & Hag).
  - intros l Hl. pose proof (Hp l Hl). rewrite length_app; cbn. lia.
  - eapply repr_mono; [|by apply extends_agree_on|exact Hs]. done.
  - eapply repr_mono; [|by apply extends_agree_on|exact Hc]. done.
  - rewrite lookup_app_r by lia. by rewrite Nat.sub_diag.
  - done.
  - exists r, h'. split; [done|]. split.
    + destruct (Hst (List.length h) c (List.length h) (h ++ [CSet ms])%list r h')
        as [_ Hpres]; [rewrite length_app; cbn; lia|done|].
      intros l c0 Hl. pose proof (lookup_lt_Some _ _ _ Hl).
      rewrite Hpres by lia. by apply Hext.
    + eapply agree_mono; [| |exact Hag]; [|apply extends_agree_on, extends_refl].
      intros l [?|Hl]; [by left|right]. rewrite length_app in Hl. cbn in Hl. lia.
Qed.

Lemma sim_map P h l jl visited ms jres :
  ready spec jspec P visited ms h ->
  Forall2 (repr P h) l jl ->
  fmapM (fun item => jrec item (list_to_set ms)) jl = Some jres ->
  exists r h',
    hmapM (rec_with_copy rec visited) l h = Some (r, h') /\ extends h h'
    /\ match r, jres with
       | Ok l', Ok jl' => Forall2 (repr (fun x => P x \/ List.length h <= x) h') l' jl'
       | Throw e, Throw e' => e = e'
       | _, _ => False
       end.
Proof.
  apply (sim_hmapM (ready spec jspec P visited ms) (rec_with_copy rec visited)
           (fun item => jrec item (list_to_set ms))
           (fun h => repr P h) (fun n h' => repr (fun x => P x \/ n <= x) h')).
  - intros h0 h1. apply ready_extends.
  - intros h0 h1 a b Hext. apply repr_mono; [done|by apply extends_agree_on].
  - intros n n' h0 h1 a b Hn Hext. apply repr_mono; [|by apply extends_agree_on].
    intros x [?|?]; [by left|right; lia].
  - intros h0 a b jr Hr Hab Hb.
    destruct (sim_rec_with_copy P h0 a b visited ms jr Hr Hab Hb) as (r & h1 & ? & ? & Hag).
    exists r, h1. split; [done|]. split; [done|]. by destruct r, jr.
Qed.

Lemma sim_entries P h entries jentries visited ms jres :
  ready spec jspec P visited ms h ->
  repr_props P h entries jentries ->
  fmapM (Parser.resolve_entry jrec (list_to_set ms)) jentries = Some jres ->
  exists r h',
    hmapM (fun kv => hbind (rec_with_copy rec visited (snd kv)) (fun v => hret (fst kv, v)))
      entries h = Some (r, h')
    /\ extends h h'
    /\ match r, jres with
       | Ok es, Ok jes => repr_props (fun x => P x \/ List.length h <= x) h' es jes
       | Throw e, Throw e' => e = e'
       | _, _ => False
       end.
Proof.
  apply (sim_hmapM (ready spec jspec P visited ms)
           (fun kv => hbind (rec_with_copy rec visited (snd kv)) (fun v => hret (fst kv, v)))
           (Parser.resolve_entry jrec (list_to_set ms))
           (fun h kv jkv => fst kv = fst jkv /\ repr P h (snd kv) (snd jkv))
           (fun n h' kv jkv =>
              fst kv = fst jkv /\ repr (fun x => P x \/ n <= x) h' (snd kv) (snd jkv))).
  - intros h0 h1. apply ready_extends.
  - intros h0 h1 a b Hext [Hk Hv]. split; [done|].
    eapply repr_mono; [|by apply extends_agree_on|exact Hv]. done.
  - intros n n' h0 h1 a b Hn Hext [Hk Hv]. split; [done|].
    eapply repr_mono; [|by apply extends_agree_on|exact Hv].
    intros x [?|?]; [by left|right; lia].
  - intros h0 [k v] [k' j] jr Hr [Hk Hv] Hb. cbn [fst snd] in *. subst k'.
    unfold Parser.resolve_entry in Hb. cbn [fst snd] in Hb. unfold fbind in Hb.
    destruct (jrec j (list_to_set ms)) as [[j'|e]|] eqn:Hj; [| |discriminate].
    + injection Hb as <-.
      destruct (sim_rec_with_copy P h0 v j visited ms _ Hr Hv Hj)
        as ([v'|?] & h1 & Hrun & Hext & Hag); [|done].
      exists (Ok (k, v')), h1. unfold hbind. rewrite Hrun. by repeat split.
    + injection Hb as <-.
      destruct (sim_rec_with_copy P h0 v j visited ms _ Hr Hv Hj)
        as ([?|e'] & h1 & Hrun & Hext & Hag); [done|].
      exists (Throw e'), h1. unfold hbind. rewrite Hrun. by repeat split.
Qed.
End sim_calls.

(** *** The steps of a fragment without reference *)

Lemma repr_array_cell P h v j :
  repr P h v j ->
  match array_cell h v with
  | Some l => exists jl, j = JArr jl /\ Forall2 (repr P h) l jl
  | None => forall jl, j <> JArr jl
  end.
Proof.
  inversion 1 as [| | | | | l items js Hl Hc Hall | l props jps Hl Hc Hall |]; subst;
    cbn [array_cell]; try done; rewrite Hc; [by eexists|done].
Qed.

Section sim_nested.
Variable spec : val.
Variable jspec : jsval.
Variable rec : val -> loc -> H val.
Variable jrec : jsval -> gset string -> option (completion jsval).
Hypothesis Hsim : simulates spec jspec rec jrec.
Hypothesis Hst : forall n v visited, stable n visited (rec v visited).
Variable P : loc -> Prop.
Variable result visited : loc.
Variable ms : list string.

Local Abbreviation Q := (fun l => P l \/ result < l).
Local Abbreviation inv := (nested_inv spec jspec P result visited ms).

Lemma nested_inv_extends jresult h h' :
  extends h h' -> inv jresult h -> inv jresult h'.
Proof.
  intros Hext (Hlen & HP & Hr & props & Hc & Hprops).
  split; [pose proof (extends_length _ _ Hext); lia|]. split; [done|].
  split; [by eapply ready_extends|].
  exists props. split; [by apply Hext|].
  eapply repr_props_mono; [|by apply extends_agree_on|exact Hprops]. done.
Qed.

(** [result.k = v] *)
Lemma sim_set jresult h k v j :
  inv jresult h -> repr Q h v j ->
  inv (set_field k j jresult) (alter (set_prop k v) result h).
Proof.
  intros (Hlen & HP & (Hp & Hs & Hv) & props & Hc & Hprops) Hvj.
  assert (visited <> result) as Hne by (intros ->; congruence).
  split; [by rewrite length_alter|]. split; [done|]. split; [split; [|split]|].
  - intros l Hl. rewrite length_alter. by apply Hp.
  - eapply repr_mono; [|apply agree_on_alter|exact Hs]; [done|].
    intros l Hl. pose proof (HP l Hl). lia.
  - by rewrite list_lookup_alter_ne.
  - exists (set_field k v props). split.
    + by rewrite list_lookup_alter_eq, Hc.
    + assert (agree_on Q h (alter (set_prop k v) result h)) as Hag.
      { apply agree_on_alter. intros l [Hl|Hl]; [pose proof (HP l Hl)|]; lia. }
      apply repr_set_field.
      * eapply repr_mono; [|exact Hag|exact Hvj]. done.
      * eapply repr_props_mono; [|exact Hag|exact Hprops]. done.
Qed.

Lemma sim_read jresult h k :
  inv jresult h ->
  repr Q h (get_own_h h (VRef result) k) (get_field k jresult).
Proof.
  intros (_ & _ & _ & props & Hc & Hprops). cbn [get_own_h]. rewrite Hc.
  by apply repr_get_field.
Qed.

(** The cells a nested fragment may be read through, at store [h]. *)
Local Abbreviation Qh h := (fun l => (P l \/ result < l) /\ l < List.length h).

Lemma ready_child jresult h :
  inv jresult h -> ready spec jspec (Qh h) visited ms h.
Proof.
  intros (Hlen & HP & (Hp & Hs & Hv) & _). split; [|split; [|done]].
  - by intros l [_ ?].
  - apply repr_bound. eapply repr_weaken; [|exact Hs]. by left.
Qed.

Lemma Qh_out (h : heap) l : result < List.length h -> Qh h l \/ List.length h <= l -> Q l.
Proof. intros Hlen [[? _]|?]; [done|right; lia]. Qed.

Lemma sim_child jresult h c jc jr :
  inv jresult h -> repr Q h c jc ->
  jrec jc (list_to_set ms) = Some jr ->
  exists r h',
    rec_with_copy rec visited c h = Some (r, h') /\ extends h h' /\ agree Q h' r jr.
Proof.
  intros Hinv Hc Hj. pose proof Hinv as (Hlen & _).
  destruct (sim_rec_with_copy spec jspec rec jrec Hsim Hst (Qh h) h c jc visited ms jr)
    as (r & h' & Hrun & Hext & Hag); [by eapply ready_child|by apply repr_bound|done|].
  exists r, h'. split; [done|]. split; [done|].
  eapply agree_mono; [|apply extends_agree_on, extends_refl|exact Hag].
  intros l. by apply Qh_out.
Qed.

Lemma sim_children jresult h l jl jr :
  inv jresult h -> Forall2 (repr Q h) l jl ->
  fmapM (fun item => jrec item (list_to_set ms)) jl = Some jr ->
  exists r h',
    hmapM (rec_with_copy rec visited) l h = Some (r, h') /\ extends h h'
    /\ match r, jr with
       | Ok l', Ok jl' => Forall2 (repr Q h') l' jl'
       | Throw e, Throw e' => e = e'
       | _, _ => False
       end.
Proof.
  intros Hinv Hl Hj. pose proof Hinv as (Hlen & _).
  destruct (sim_map spec jspec rec jrec Hsim Hst (Qh h) h l jl visited ms jr)
    as (r & h' & Hrun & Hext & Hrel); [by eapply ready_child| |done|].
  { eapply Forall2_impl; [exact Hl|]. intros x y. apply repr_bound. }
  exists r, h'. split; [done|]. split; [done|].
  destruct r, jr; try done. eapply Forall2_impl; [exact Hrel|].
  intros x y. apply repr_weaken. intros l0. by apply Qh_out.
Qed.

Lemma sim_child_entries jresult h es jes jr :
  inv jresult h -> repr_props Q h es jes ->
  fmapM (Parser.resolve_entry jrec (list_to_set ms)) jes = Some jr ->
  exists r h',
    hmapM (fun kv => hbind (rec_with_copy rec visited (snd kv)) (fun v => hret (fst kv, v)))
      es h = Some (r, h')
    /\ extends h h'
    /\ match r, jr with
       | Ok es', Ok jes' => repr_props Q h' es' jes'
       | Throw e, Throw e' => e = e'
       | _, _ => False
       end.
Proof.
  intros Hinv Hl Hj. pose proof Hinv as (Hlen & _).
  destruct (sim_entries spec jspec rec jrec Hsim Hst (Qh h) h es jes visited ms jr)
    as (r & h' & Hrun & Hext & Hrel); [by eapply ready_child| |done|].
  { eapply Forall2_impl; [exact Hl|]. intros x y [? ?]. split; [done|]. by apply repr_bound. }
  exists r, h'. split; [done|]. split; [done|].
  destruct r, jr; try done. eapply Forall2_impl; [exact Hrel|].
  intros x y [? Hxy]. split; [done|]. eapply repr_weaken; [|exact Hxy].
  intros l0. by apply Qh_out.
Qed.

Local Abbreviation agrees := (step_agrees spec jspec P result visited ms).

(** [result.k = v] against [set_field k j]. *)
Lemma sim_store jresult h k v j :
  inv jresult h -> repr Q h v j ->
  exists r, hmodify result (set_prop k v) h = Some r
    /\ agrees r (Ok (set_field k j jresult)).
Proof.
  intros Hinv Hv. unfold hmodify. eexists. split; [reflexivity|].
  unfold step_agrees. cbn [fst snd]. by apply sim_set.
Qed.

(** Allocate the new container, then write it to the copy. *)
Lemma sim_store_new jresult h k c j :
  inv jresult h ->
  repr Q (h ++ [c])%list (VRef (List.length h)) j ->
  exists r,
    with_new (fun _ => c) (fun l => hmodify result (set_prop k (VRef l))) h = Some r
    /\ agrees r (Ok (set_field k j jresult)).
Proof.
  intros Hinv Hnew. unfold with_new. apply sim_store; [|done].
  eapply nested_inv_extends; [apply extends_app|exact Hinv].
Qed.

Lemma repr_new_arr h l jl :
  result < List.length h -> Forall2 (repr Q h) l jl ->
  repr Q (h ++ [CArr l])%list (VRef (List.length h)) (JArr jl).
Proof.
  intros Hlen Hl. eapply repr_arr.
  - by right.
  - rewrite lookup_app_r by lia. by rewrite Nat.sub_diag.
  - eapply Forall2_impl; [exact Hl|]. intros x y.
    apply repr_mono; [done|apply extends_agree_on, extends_app].
Qed.

Lemma repr_new_obj h es jes :
  result < List.length h -> repr_props Q h es jes ->
  repr Q (h ++ [CObj es])%list (VRef (List.length h)) (JObj jes).
Proof.
  intros Hlen Hl. eapply repr_obj.
  - by right.
  - rewrite lookup_app_r by lia. by rewrite Nat.sub_diag.
  - eapply repr_props_mono; [|apply extends_agree_on, extends_app|exact Hl]. done.
Qed.

Lemma sim_resolve_properties jresult h jr :
  inv jresult h ->
  Parser.resolve_properties jrec (list_to_set ms) jresult = Some jr ->
  exists r, resolve_properties rec result visited h = Some r /\ agrees r jr.
Proof.
  intros Hinv. unfold Parser.resolve_properties, resolve_properties.
  unfold hbind at 1. unfold hread at 1.
  pose proof (sim_read _ _ "properties" Hinv) as Hp.
  rewrite (repr_truthy _ _ _ _ Hp).
  destruct (truthy (get_field "properties" jresult));
    [|intros [= <-]; eexists; split; [reflexivity|done]].
  unfold hbind at 1. unfold hread at 1. unfold hbind at 1. unfold fbind.
  destruct (fmapM _ _) as [[jes'|e]|] eqn:Hm; [| |discriminate]; intros [= <-].
  - destruct (sim_child_entries jresult h _ _ _ Hinv (repr_own_entries _ _ _ _ Hp) Hm)
      as ([es'|?] & h' & -> & Hext & Hrel); [|done].
    apply sim_store_new; [by eapply nested_inv_extends|].
    apply repr_new_obj; [|done]. by destruct (nested_inv_extends _ _ _ Hext Hinv).
  - destruct (sim_child_entries jresult h _ _ _ Hinv (repr_own_entries _ _ _ _ Hp) Hm)
      as ([?|e'] & h' & -> & Hext & Hrel); [done|].
    eexists. split; [reflexivity|]. done.
Qed.

(** [xs.map(...)] followed by the write of the new array. *)
Lemma sim_map_resolve jresult h k l jl jr :
  inv jresult h -> Forall2 (repr Q h) l jl ->
  (let? l' := fmapM (fun item => jrec item (list_to_set ms)) jl in
   fret (set_field k (JArr l') jresult)) = Some jr ->
  exists r,
    map_resolve rec visited l (fun v => hmodify result (set_prop k v)) h = Some r
    /\ agrees r jr.
Proof.
  intros Hinv Hl. unfold map_resolve. unfold hbind at 1. unfold fbind.
  destruct (fmapM _ _) as [[jl'|e]|] eqn:Hm; [| |discriminate]; intros [= <-].
  - destruct (sim_children jresult h _ _ _ Hinv Hl Hm)
      as ([l'|?] & h' & -> & Hext & Hrel); [|done].
    apply sim_store_new; [by eapply nested_inv_extends|].
    apply repr_new_arr; [|done]. by destruct (nested_inv_extends _ _ _ Hext Hinv).
  - destruct (sim_children jresult h _ _ _ Hinv Hl Hm)
      as ([?|e'] & h' & -> & Hext & Hrel); [done|].
    eexists. split; [reflexivity|]. done.
Qed.

(** One nested fragment resolved and written back. *)
Lemma sim_resolve_one jresult h k c jc jr :
  inv jresult h -> repr Q h c jc ->
  (let? v := jrec jc (list_to_set ms) in fret (set_field k v jresult)) = Some jr ->
  exists r,
    hbind (rec_with_copy rec visited c) (fun v => hmodify result (set_prop k v)) h = Some r
    /\ agrees r jr.
Proof.
  intros Hinv Hc. unfold hbind, fbind.
  destruct (jrec jc _) as [[jv|e]|] eqn:Hj; [| |discriminate]; intros [= <-].
  - destruct (sim_child jresult h _ _ _ Hinv Hc Hj) as ([v|?] & h' & -> & Hext & Hrel); [|done].
    apply sim_store; [by eapply nested_inv_extends|done].
  - destruct (sim_child jresult h _ _ _ Hinv Hc Hj) as ([?|e'] & h' & -> & Hext & Hrel); [done|].
    eexists. split; [reflexivity|]. done.
Qed.

Lemma sim_resolve_items jresult h jr :
  inv jresult h ->
  Parser.resolve_items jrec (list_to_set ms) jresult = Some jr ->
  exists r, resolve_items rec result visited h = Some r /\ agrees r jr.
Proof.
  intros Hinv. unfold Parser.resolve_items, resolve_items.
  unfold hbind at 1. unfold hread at 1.
  pose proof (sim_read _ _ "items" Hinv) as Hp.
  rewrite (repr_truthy _ _ _ _ Hp).
  destruct (truthy (get_field "items" jresult));
    [|intros [= <-]; eexists; split; [reflexivity|done]].
  unfold hbind at 1. unfold hread at 1.
  pose proof (repr_array_cell _ _ _ _ Hp) as Harr.
  destruct (array_cell h _) as [l|].
  - destruct Harr as (jl & -> & Hl). by apply sim_map_resolve.
  - destruct (get_field "items" jresult) eqn:Hi;
      try (by apply sim_resolve_one). by destruct (Harr items).
Qed.

Lemma sim_resolve_additional jresult h jr :
  inv jresult h ->
  Parser.resolve_additional jrec (list_to_set ms) jresult = Some jr ->
  exists r, resolve_additional rec result visited h = Some r /\ agrees r jr.
Proof.
  intros Hinv. unfold Parser.resolve_additional, resolve_additional.
  unfold hbind at 1. unfold hread at 1.
  pose proof (sim_read _ _ "additionalProperties" Hinv) as Hp.
  rewrite (repr_truthy _ _ _ _ Hp), (repr_typeof _ _ _ _ Hp).
  destruct (_ && _); [by apply sim_resolve_one|].
  intros [= <-]. eexists. split; [reflexivity|done].
Qed.

Lemma sim_resolve_members k jresult h jr :
  inv jresult h ->
  Parser.resolve_members jrec k (list_to_set ms) jresult = Some jr ->
  exists r, resolve_members rec k result visited h = Some r /\ agrees r jr.
Proof.
  intros Hinv. unfold Parser.resolve_members, resolve_members.
  unfold hbind at 1. unfold hread at 1.
  pose proof (sim_read _ _ k Hinv) as Hp.
  rewrite (repr_truthy _ _ _ _ Hp).
  destruct (truthy (get_field k jresult));
    [|intros [= <-]; eexists; split; [reflexivity|done]].
  unfold hbind at 1. unfold hread at 1.
  pose proof (repr_array_cell _ _ _ _ Hp) as Harr.
  destruct (array_cell h _) as [l|].
  - destruct Harr as (jl & -> & Hl). by apply sim_map_resolve.
  - destruct (get_field k jresult) eqn:Hi;
      try (intros [= <-]; eexists; split; [reflexivity|done]).
    by destruct (Harr items).
Qed.

Lemma sim_resolve_not jresult h jr :
  inv jresult h ->
  Parser.resolve_not jrec (list_to_set ms) jresult = Some jr ->
  exists r, resolve_not rec result visited h = Some r /\ agrees r jr.
Proof.
  intros Hinv. unfold Parser.resolve_not, resolve_not.
  unfold hbind at 1. unfold hread at 1.
  pose proof (sim_read _ _ "not" Hinv) as Hp.
  rewrite (repr_truthy _ _ _ _ Hp).
  destruct (truthy (get_field "not" jresult)); [by apply sim_resolve_one|].
  intros [= <-]. eexists. split; [reflexivity|done].
Qed.

(** Running a store step after another, against the tree steps. *)
Lemma sim_then {A} (m : H unit) (k : H A) (jm : option (completion (list (string * jsval))))
    (jk : list (string * jsval) -> option (completion jsval)) (R : completion A * heap -> completion jsval -> Prop) h jr :
  (forall jr1, jm = Some jr1 -> exists r1, m h = Some r1 /\ agrees r1 jr1) ->
  (forall e h', R (Throw e, h') (Throw e)) ->
  (forall jresult' h' jr2, inv jresult' h' -> jk jresult' = Some jr2 ->
     exists r2, k h' = Some r2 /\ R r2 jr2) ->
  fbind jm jk = Some jr ->
  exists r, hbind m (fun _ => k) h = Some r /\ R r jr.
Proof.
  intros Hm Hthrow Hk. unfold fbind, hbind.
  destruct jm as [[jresult'|e]|]; [| |discriminate].
  - destruct (Hm _ eq_refl) as ([[[]|?] h'] & -> & Hag); [|done].
    intros Hj. by apply (Hk jresult').
  - destruct (Hm _ eq_refl) as ([[?|e'] h'] & -> & Hag); [done|].
    cbn in Hag. subst e'. intros [= <-]. eexists. split; [reflexivity|]. apply Hthrow.
Qed.
End sim_nested.

(** *** The whole step *)

Section sim_step.
Variable spec : val.
Variable jspec : jsval.
Variable rec : val -> loc -> H val.
Variable jrec : jsval -> gset string -> option (completion jsval).
Hypothesis Hsim : simulates spec jspec rec jrec.
Hypothesis Hst : forall n v visited, stable n visited (rec v visited).

Lemma sim_resolve_nested (P : loc -> Prop) schema jschema visited ms h jr :
  ready spec jspec P visited ms h ->
  repr P h schema jschema ->
  Parser.resolve_nested jrec jschema (list_to_set ms) = Some jr ->
  exists r h',
    resolve_nested rec schema visited h = Some (r, h')
    /\ agree (fun l => P l \/ List.length h <= l) h' r jr.
Proof.
  intros Hready Hschema Hj. pose proof Hready as (Hp & Hs & Hv).
  set (result := List.length h).
  set (R := fun (r : completion val * heap) (jr : completion jsval) =>
              agree (fun l => P l \/ result <= l) (snd r) (fst r) jr).
  assert (exists r, resolve_nested rec schema visited h = Some r /\ R r jr) as ([r h'] & Hrun & HR);
    [|by exists r, h'].
  unfold resolve_nested, with_new. fold result.
  assert (nested_inv spec jspec P result visited ms (own_entries jschema)
            (h ++ [CObj (own_entries_h h schema)])%list) as Hinv.
  { pose proof (extends_app h [CObj (own_entries_h h schema)]) as Hext.
    split; [rewrite length_app; cbn; unfold result; lia|]. split; [exact Hp|].
    split; [by eapply ready_extends|].
    exists (own_entries_h h schema). split.
    - unfold result. rewrite lookup_app_r by lia. by rewrite Nat.sub_diag.
    - eapply repr_props_mono; [|by apply extends_agree_on|by apply repr_own_entries].
      by left. }
  revert Hj Hinv. unfold Parser.resolve_nested.
  generalize (own_entries jschema) (h ++ [CObj (own_entries_h h schema)])%list.
  intros jresult h0 Hj Hinv.
  assert (Hthrow : forall e h', R (Throw e, h') (Throw e)) by done.
  eapply (sim_then spec jspec P result visited ms); [|exact Hthrow| |exact Hj].
  { intros jr1. by apply sim_resolve_properties. }
  clear jresult h0 Hj Hinv. intros jresult h0 jr2 Hinv Hj.
  eapply (sim_then spec jspec P result visited ms); [|exact Hthrow| |exact Hj].
  { intros jr1. by apply sim_resolve_items. }
  clear jresult h0 Hj Hinv jr2. intros jresult h0 jr2 Hinv Hj.
  eapply (sim_then spec jspec P result visited ms); [|exact Hthrow| |exact Hj].
  { intros jr1. by apply sim_resolve_additional. }
  clear jresult h0 Hj Hinv jr2. intros jresult h0 jr2 Hinv Hj.
  eapply (sim_then spec jspec P result visited ms); [|exact Hthrow| |exact Hj].
  { intros jr1. by apply sim_resolve_members. }
  clear jresult h0 Hj Hinv jr2. intros jresult h0 jr2 Hinv Hj.
  eapply (sim_then spec jspec P result visited ms); [|exact Hthrow| |exact Hj].
  { intros jr1. by apply sim_resolve_members. }
  clear jresult h0 Hj Hinv jr2. intros jresult h0 jr2 Hinv Hj.
  eapply (sim_then spec jspec P result visited ms); [|exact Hthrow| |exact Hj].
  { intros jr1. by apply sim_resolve_members. }
  clear jresult h0 Hj Hinv jr2. intros jresult h0 jr2 Hinv Hj.
  eapply (sim_then spec jspec P result visited ms); [|exact Hthrow| |exact Hj].
  { intros jr1. by apply sim_resolve_not. }
  clear jresult h0 Hj Hinv jr2. intros jresult h0 jr2 Hinv [= <-].
  eexists. split; [reflexivity|]. unfold R. cbn [fst snd agree].
  destruct Hinv as (Hlen & _ & _ & props & Hc & Hprops).
  eapply repr_obj; [by right|exact Hc|].
  eapply repr_props_mono; [|apply extends_agree_on, extends_refl|exact Hprops].
  intros l [?|?]; [by left|right; lia].
Qed.

Lemma repr_placeholder P h r :
  P (List.length h) ->
  repr P (h ++ [CObj (placeholder_props r)])%list (VRef (List.length h)) (placeholder r).
Proof.
  intros Hl. eapply repr_obj; [done| |].
  - rewrite lookup_app_r by lia. by rewrite Nat.sub_diag.
  - repeat constructor.
Qed.

Lemma sim_resolve_reference (P : loc -> Prop) schema jschema ref jref visited ms h jr :
  ready spec jspec P visited ms h ->
  repr P h schema jschema ->
  repr P h ref jref ->
  Parser.resolve_reference jrec jspec jschema jref (list_to_set ms) = Some jr ->
  exists r h',
    resolve_reference rec spec schema ref visited h = Some (r, h')
    /\ agree (fun l => P l \/ List.length h <= l) h' r jr.
Proof.
  intros (Hp & Hs & Hv) Hschema Href.
  assert (Hback : repr (fun l => P l \/ List.length h <= l) h schema jschema)
    by (eapply repr_weaken; [|exact Hschema]; by left).
  unfold Parser.resolve_reference, resolve_reference.
  assert (Hodd : forall jr',
            Some (let! _ := to_string jref in Ok jschema) = Some jr' ->
            exists r h',
              match to_string_h (List.length h) h ref with
              | Some (Ok _) => Some (Ok schema, h)
              | Some (Throw e) => Some (Throw e, h)
              | None => None
              end = Some (r, h')
              /\ agree (fun l => P l \/ List.length h <= l) h' r jr').
  { intros jr' [= <-]. rewrite (to_string_agree P h ref jref Hp Href).
    destruct (to_string jref) as [text|e]; eexists _, h; by split. }
  inversion Href as [| | | | r | | |]; subst; try apply Hodd.
  clear Hodd. unfold hbind at 1. unfold hread at 1. unfold set_has. rewrite Hv.
  assert (bool_decide (r ∈ (list_to_set ms : gset string)) = bool_decide (r ∈ ms)) as ->.
  { apply bool_decide_ext. apply elem_of_list_to_set. }
  case_bool_decide as Hseen.
  { intros [= <-]. unfold with_new, hret. eexists _, _. split; [reflexivity|].
    apply repr_placeholder. by right. }
  unfold hbind at 1. unfold hmodify at 1.
  set (h1 := alter (set_add r) visited h).
  assert (Hag1 : forall P', agree_on P' h h1).
  { intros P'. by eapply agree_on_alter_set. }
  assert (Hlen1 : List.length h1 = List.length h) by apply length_alter.
  assert (Hv1 : h1 !! visited = Some (CSet (ms ++ [r])%list)).
  { unfold h1. rewrite list_lookup_alter_eq, Hv. cbn.
    by rewrite bool_decide_eq_false_2. }
  assert (Hs1 : repr P h1 spec jspec) by (eapply repr_mono; [|apply Hag1|exact Hs]; done).
  pose proof (resolveRef_agree P h1 spec jspec r Hs1) as Hres.
  unfold fcatch, hcatch. unfold hbind at 1. unfold hlift at 1.
  destruct (resolveRef_h h1 spec r) as [resolved|e], (resolveRef jspec r) as [jresolved|e'];
    cbn [agree] in Hres; try done.
  2:{ intros [= <-]. exists (Ok schema), h1. split; [reflexivity|].
      eapply repr_mono; [|apply Hag1|exact Hback]. done. }
  unfold with_new.
  set (rest := remove_field "$ref" (own_entries_h h1 schema)).
  set (h2 := (h1 ++ [CObj rest])%list).
  set (h3 := (h2 ++ [CObj (assign (own_entries_h h2 resolved)
                              (own_entries_h h2 (VRef (List.length h1))))])%list).
  pose proof (extends_app h1 [CObj rest] : extends h1 h2) as He12.
  pose proof (extends_app h2 _ : extends h2 h3) as He23.
  assert (Hlen2 : List.length h2 = S (List.length h)).
  { unfold h2. rewrite length_app, Hlen1. cbn. lia. }
  assert (Hlen3 : List.length h3 = S (S (List.length h))).
  { unfold h3. rewrite length_app, Hlen2. cbn. lia. }
  assert (Hrest : own_entries_h h2 (VRef (List.length h1)) = rest).
  { cbn [own_entries_h]. unfold h2. rewrite lookup_app_r by lia. by rewrite Nat.sub_diag. }
  set (P3 := fun l => P l \/ (List.length h <= l /\ l < List.length h3)).
  assert (Hag3 : agree_on P h h3).
  { eapply agree_on_trans; [apply Hag1|].
    apply extends_agree_on. by eapply extends_trans. }
  assert (Hmerged : repr P3 h3 (VRef (List.length h2)) (merged jresolved jschema)).
  { unfold merged, spread2. eapply repr_obj.
    - right. lia.
    - unfold h3. rewrite lookup_app_r by lia. by rewrite Nat.sub_diag.
    - rewrite Hrest. eapply repr_props_mono; [| apply extends_agree_on, He23 |].
      { intros l Hl. left. exact Hl. }
      apply repr_assign.
      + apply repr_own_entries. eapply repr_mono; [|apply extends_agree_on, He12|exact Hres].
        done.
      + eapply repr_props_mono; [|apply extends_agree_on, He12|]; [done|].
        apply repr_remove_field, repr_own_entries.
        eapply repr_mono; [|apply Hag1|exact Hschema]. done. }
  intros Hj.
  assert (exists jr0, jrec (merged jresolved jschema) ({[ r ]} ∪ list_to_set ms) = Some jr0
                      /\ jr = match jr0 with Ok v => Ok v | Throw _ => Ok jschema end)
    as (jr0 & Hj0 & ->).
  { destruct (jrec _ _) as [[v|e]|]; [| |discriminate]; injection Hj as <-; by eexists. }
  destruct (Hsim P3 (VRef (List.length h2)) (merged jresolved jschema) visited
              (ms ++ [r])%list h3 jr0) as (r0 & h' & Hrun & Hag).
  - intros l [Hl|[_ Hl]]; [pose proof (Hp l Hl); lia|done].
  - eapply repr_mono; [|exact Hag3|exact Hs]. by left.
  - exact Hmerged.
  - apply He23, He12, Hv1.
  - rewrite list_to_set_app_L. cbn. rewrite (right_id_L ∅ (∪)).
    by rewrite (comm_L (∪)).
  - rewrite Hrun.
    assert (Hout : forall l, P3 l \/ List.length h3 <= l -> P l \/ List.length h <= l).
    { intros l [[?|[? _]]|?]; [by left|right; lia..]. }
    destruct r0 as [v|e], jr0 as [jv|e']; cbn [agree] in Hag; try done.
    + exists (Ok v), h'. split; [reflexivity|]. eapply repr_weaken; [exact Hout|exact Hag].
    + exists (Ok schema), h'. split; [reflexivity|]. cbn [agree].
      destruct (Hst (List.length h3) (VRef (List.length h2)) visited h3 (Throw e) h')
        as [_ Hpres]; [lia|done|].
      eapply repr_mono; [|eapply agree_on_trans; [exact Hag3|]|exact Hschema]; [by left|].
      intros l c Hl Hc Hset. destruct (decide (l = visited)) as [->|Hne].
      * rewrite (He23 _ _ (He12 _ _ Hv1)) in Hc. injection Hc as <-. discriminate.
      * rewrite Hpres; [done| |done]. by eapply lookup_lt_Some.
Qed.

Lemma sim_resolve_step :
  simulates spec jspec (resolve_step rec spec) (Parser.resolve_step jrec jspec).
Proof.
  intros P schema jschema visited ms h jr Hp Hs Hschema Hv.
  unfold Parser.resolve_step, resolve_step.
  rewrite (repr_truthy _ _ _ _ Hschema), (repr_typeof _ _ _ _ Hschema).
  destruct (negb (truthy jschema) || negb (typeof_object jschema)).
  { intros [= <-]. exists (Ok schema), h. split; [done|].
    eapply repr_weaken; [|exact Hschema]. by left. }
  unfold hbind at 1. unfold hread at 1.
  pose proof (repr_get_own P h schema jschema "$ref" Hschema) as Href.
  rewrite (repr_truthy _ _ _ _ Href).
  destruct (truthy (get_own jschema "$ref")).
  - by apply sim_resolve_reference.
  - by apply sim_resolve_nested.
Qed.
End sim_step.

Lemma simulates_resolveSchema_fuel fuel spec jspec :
  simulates spec jspec (Store.resolveSchema_fuel fuel spec)
    (Parser.resolveSchema_fuel fuel jspec).
Proof.
  induction fuel as [|fuel IH].
  - by intros P schema jschema visited ms h jr _ _ _ _ [=].
  - cbn [Store.resolveSchema_fuel Parser.resolveSchema_fuel].
    apply sim_resolve_step; [exact IH|].
    intros n v visited. apply stable_resolveSchema_fuel.
Qed.

(** *** The call itself *)

(** A store read back as a tree stands for that tree. *)
Lemma reify_tree n h : forall v j, reify n h v = Some j -> tree h v j.
Proof.
  unfold tree. induction n as [|n IH]; intros v j.
  - destruct v; cbn; try discriminate; intros [= <-]; constructor.
  - destruct v as [| | b | z | s | l | x]; cbn [reify];
      try (intros [= <-]; constructor).
    destruct (h !! l) as [[props|items|members]|] eqn:Hl; try discriminate.
    + destruct (mapM _ props) as [ps|] eqn:Hm; cbn; [|discriminate].
      intros [= <-]. eapply repr_obj; [by eapply lookup_lt_Some|exact Hl|].
      apply mapM_Some in Hm. eapply Forall2_impl; [exact Hm|].
      intros [k v] [k' j] Hkv. cbn in Hkv.
      destruct (reify n h v) as [j0|] eqn:Hv; cbn in Hkv; [|discriminate].
      injection Hkv as <- <-. split; [done|]. by apply IH.
    + destruct (mapM _ items) as [xs|] eqn:Hm; cbn; [|discriminate].
      intros [= <-]. eapply repr_arr; [by eapply lookup_lt_Some|exact Hl|].
      apply mapM_Some in Hm. eapply Forall2_impl; [exact Hm|]. exact IH.
Qed.

(** C10. On a store in which the document and the fragment stand for trees
    (what a parsed JSON document is), a call [resolveSchema(spec, schema)]
    with the budget [fuel_bound] or more completes; every cell the store held
    before the call is unchanged after it, so the document and the original
    fragment stand for the same trees as before; and the completion is the
    one of the tree model, read through the store after the call. For the
    three-argument form the set passed as [visited] is the one cell that may
    change. *)
Theorem resolveSchema_frame fuel spec schema jspec jschema h :
  tree h spec jspec ->
  tree h schema jschema ->
  fuel_bound jspec jschema ∅ <= fuel ->
  exists r h',
    Store.resolveSchema fuel spec schema h = Some (r, h')
    /\ extends h h'
    /\ tree h' spec jspec
    /\ tree h' schema jschema
    /\ agree (fun l => l < List.length h') h' r (Parser.resolveSchema jspec jschema)
    /\ (forall visited h0 r0 h0',
          Store.resolveSchema_fuel fuel spec schema visited h0 = Some (r0, h0') ->
          forall l, l <> visited -> l < List.length h0 -> h0' !! l = h0 !! l).
Proof.
  unfold tree. intros Hs Hschema Hfuel.
  destruct (resolveSchema_fuel_bound jspec jschema ∅) as (jr & Hjr & Hrun).
  pose proof (extends_app h [CSet []]) as Hext0.
  destruct (simulates_resolveSchema_fuel fuel spec jspec (fun l => l < List.length h)
              schema jschema (List.length h) [] (h ++ [CSet []])%list jr)
    as (r & h' & Hr & Hag).
  { intros l Hl. rewrite length_app. cbn. lia. }
  { eapply repr_mono; [|apply extends_agree_on, Hext0|exact Hs]. done. }
  { eapply repr_mono; [|apply extends_agree_on, Hext0|exact Hschema]. done. }
  { rewrite lookup_app_r by lia. by rewrite Nat.sub_diag. }
  { cbn. by apply Hrun. }
  exists r, h'. split; [exact Hr|].
  destruct (resolveSchema_preserves fuel spec schema h r h' Hr) as (Hext & _ & _ & Hthree).
  pose proof (extends_length _ _ Hext) as Hlen.
  split; [exact Hext|]. split; [|split; [|split]].
  - eapply repr_mono; [|apply extends_agree_on, Hext|exact Hs]. intros l Hl. cbn in *. lia.
  - eapply repr_mono; [|apply extends_agree_on, Hext|exact Hschema].
    intros l Hl. cbn in *. lia.
  - unfold Parser.resolveSchema. rewrite Hjr.
    destruct r as [v|e], jr as [j|e']; cbn [agree] in *; try done.
    eapply repr_weaken; [|apply repr_bound, Hag]. by intros l [_ Hl].
  - exact Hthree.
Qed.

Lemma resolveSchema_frame_witness :
  let reference := JObj [("$ref", JStr "#/components/schemas/Node")] in
  let doc := fst (store_tree node_doc []) in
  let h1 := snd (store_tree node_doc []) in
  let fragment := fst (store_tree reference h1) in
  let h := snd (store_tree reference h1) in
  tree h doc node_doc
  /\ tree h fragment reference
  /\ exists r h',
       Store.resolveSchema 40 doc fragment h = Some (r, h')
       /\ tree h' doc node_doc
       /\ tree h' fragment reference
       /\ agree (fun l => l < List.length h') h' r
            (Ok (JObj [("type", JStr "object");
                       ("properties",
                        JObj [("next", placeholder "#/components/schemas/Node")])])).
Proof.
  intros reference doc h1 fragment h.
  assert (Hdoc : tree h doc node_doc) by (apply (reify_tree 10); vm_compute; reflexivity).
  assert (Hfragment : tree h fragment reference)
    by (apply (reify_tree 10); vm_compute; reflexivity).
  assert (Hfuel : fuel_bound node_doc reference ∅ <= 40) by (vm_compute; lia).
  split; [exact Hdoc|]. split; [exact Hfragment|].
  destruct (resolveSchema_frame 40 doc fragment node_doc reference h Hdoc Hfragment Hfuel)
    as (r & h' & Hrun & _ & Hd & Hf & Hr & _).
  exists r, h'. split; [exact Hrun|]. split; [exact Hd|]. split; [exact Hf|].
  assert (Parser.resolveSchema node_doc reference
          = Ok (JObj [("type", JStr "object");
                      ("properties",
                       JObj [("next", placeholder "#/components/schemas/Node")])])) as <-
    by (vm_compute; reflexivity).
  exact Hr.
Defined.

(** ** Sibling branches and chains of references *)

(** A fragment without reference leaves every cell as it was, the set it was
    given too: its branches wrote to copies. *)
Lemma resolve_step_keeps rec spec schema visited h r h' :
  (forall n v visited', stable n visited' (rec v visited')) ->
  truthy_v (get_own_h h schema "$ref") = false ->
  resolve_step rec spec schema visited h = Some (r, h') ->
  forall l, l < List.length h -> h' !! l = h !! l.
Proof.
  intros Hrec Href. unfold resolve_step.
  destruct (_ || _); [by intros [= _ <-]|].
  unfold hbind at 1, hread at 1. rewrite Href. intros Hrun l Hl.
  destruct (stable_resolve_nested rec (List.length h) (List.length h) schema visited
              (Hrec _) h r h') as [_ Hp]; [lia|done|].
  apply Hp; lia.
Qed.

(** A call only adds to the set it was given, and the pointer of the
    fragment is in the set when the call is over. *)
Lemma resolveSchema_fuel_grows fuel spec : forall schema visited h ms r h',
  h !! visited = Some (CSet ms) ->
  Store.resolveSchema_fuel fuel spec schema visited h = Some (r, h') ->
  exists ms',
    h' !! visited = Some (CSet (ms ++ ms')%list)
    /\ forall p, get_own_h h schema "$ref" = VStr p -> p <> "" -> p ∈ (ms ++ ms')%list.
Proof.
  induction fuel as [|fuel IH]; intros schema visited h ms r h' Hv; [done|].
  pose proof (lookup_lt_Some _ _ _ Hv) as Hlt.
  cbn [Store.resolveSchema_fuel]. unfold resolve_step.
  destruct (_ || _) eqn:Hleaf.
  { intros [= _ <-]. exists []. rewrite app_nil_r. split; [done|]. intros p Hp.
    destruct schema; cbn in Hp; discriminate. }
  unfold hbind at 1, hread at 1.
  destruct (truthy_v (get_own_h h schema "$ref")) eqn:Href.
  - unfold resolve_reference.
    destruct (get_own_h h schema "$ref") as [| | b | z | p | l | x] eqn:Hg;
      try (destruct (to_string_h _ _ _) as [[text|e]|]; [| |discriminate];
           intros [= _ <-]; exists []; rewrite app_nil_r; by split).
    unfold hbind at 1, hread at 1, set_has. rewrite Hv.
    case_bool_decide as Hseen.
    + unfold with_new, hret. intros [= _ <-]. exists []. rewrite app_nil_r. split.
      * by rewrite lookup_app_l.
      * by intros ? [= <-] _.
    + unfold hbind at 1, hmodify at 1. set (h1 := alter (set_add p) visited h).
      assert (Hv1 : h1 !! visited = Some (CSet (ms ++ [p])%list)).
      { unfold h1. rewrite list_lookup_alter_eq, Hv. cbn.
        by rewrite bool_decide_eq_false_2. }
      assert (Hlen1 : List.length h1 = List.length h) by apply length_alter.
      unfold hcatch. unfold hbind at 1, hlift at 1.
      destruct (resolveRef_h h1 spec p) as [resolved|e].
      2:{ unfold hret. intros [= _ <-]. exists [p]. split; [done|].
          intros ? [= <-] _. set_solver. }
      unfold with_new.
      match goal with
      | |- context [Store.resolveSchema_fuel fuel spec ?v visited ?hh] =>
          destruct (Store.resolveSchema_fuel fuel spec v visited hh) as [[r0 h4]|] eqn:Hrun;
            [|discriminate];
          destruct (IH v visited hh (ms ++ [p])%list r0 h4) as (ms2 & Hv4 & _);
            [rewrite !lookup_app_l by (rewrite ?length_app; lia); exact Hv1|exact Hrun|]
      end.
      intros Hres. assert (h' = h4) as -> by (destruct r0; by injection Hres).
      exists (p :: ms2). rewrite <- app_assoc in Hv4. split; [done|].
      intros ? [= <-] _. set_solver.
  - intros Hrun. exists []. rewrite app_nil_r. split.
    + destruct (stable_resolve_nested (Store.resolveSchema_fuel fuel spec)
                  (List.length h) (List.length h) schema visited
                  (fun v visited' => stable_resolveSchema_fuel fuel spec _ v visited')
                  h r h') as [_ Hp]; [lia|done|].
      rewrite Hp; [done|lia..].
    + intros p Hp Hne. rewrite Hp in Href. cbn in Href.
      apply negb_false_iff, String.eqb_eq in Href. done.
Qed.

(** A fragment that is only a reference never raises. *)
Lemma resolveSchema_pointer_ok spec t visited :
  exists e, resolveSchema_from spec (JObj [("$ref", JStr t)]) visited = Ok e.
Proof.
  destruct (decide (t = "")) as [->|Hne].
  - pose proof (resolveSchema_nested spec (JObj [("$ref", JStr "")]) visited eq_refl eq_refl)
      as Hs.
    remember (resolveSchema_from spec (JObj [("$ref", JStr "")]) visited) as out. clear Heqout.
    cbn in Hs. injection Hs as <-. eauto.
  - apply resolveSchema_reference_ok; [|done].
    cbn. by apply negb_true_iff, String.eqb_neq.
Qed.

(** C4. On a store in which the document and the fragment stand for trees
    and [visited] holds the pointers [ms], a call
    [resolveSchema(spec, schema, visited)] with the budget [fuel_bound] or
    more completes with the completion of the tree model, and the set at
    [visited] afterwards holds [ms] followed by what the call added. A
    fragment without reference adds nothing, whatever the references below
    it: each nested fragment (each property, [items] or each of its members,
    [additionalProperties], each member of [allOf], [oneOf], [anyOf], and
    [not]) was resolved from a copy of the set, hence from the pointers [ms]
    alone. So two sibling properties with the same pointer both get the same
    expansion, the one of the pointer from [ms]. A fragment with a reference
    adds its pointer to the very set it was given, before the merged fragment
    is resolved with that set. *)
Theorem resolveSchema_siblings fuel spec schema jspec jschema visited ms h :
  tree h spec jspec ->
  tree h schema jschema ->
  h !! visited = Some (CSet ms) ->
  fuel_bound jspec jschema (list_to_set ms) <= fuel ->
  exists r h' ms',
    Store.resolveSchema_fuel fuel spec schema visited h = Some (r, h')
    /\ agree (fun l => l < List.length h') h' r
         (resolveSchema_from jspec jschema (list_to_set ms))
    /\ h' !! visited = Some (CSet (ms ++ ms')%list)
    /\ (truthy (get_own jschema "$ref") = false ->
        ms' = []
        /\ forall out,
             negb (truthy jschema) || negb (typeof_object jschema) = false ->
             resolveSchema_from jspec jschema (list_to_set ms) = Ok out ->
             forall k, branch jspec (list_to_set ms) k
                         (get_field k (own_entries jschema)) (get_own out k))
    /\ (forall a b t, jschema = siblings a b t ->
        exists e,
          resolveSchema_from jspec (JObj [("$ref", JStr t)]) (list_to_set ms) = Ok e
          /\ resolveSchema_from jspec jschema (list_to_set ms)
             = Ok (JObj [("properties", JObj [(a, e); (b, e)])]))
    /\ (forall p, get_own jschema "$ref" = JStr p -> p <> "" ->
        p ∈ (ms ++ ms')%list
        /\ (p ∉ ms -> forall target, resolveRef jspec p = Ok target ->
            resolveSchema_from jspec jschema (list_to_set ms)
            = match resolveSchema_from jspec (merged target jschema)
                      ({[ p ]} ∪ list_to_set ms) with
              | Ok v => Ok v
              | Throw _ => Ok jschema
              end)).
Proof.
  unfold tree. intros Hs Hschema Hv Hfuel.
  destruct (resolveSchema_fuel_bound jspec jschema (list_to_set ms)) as (jr & Hjr & Hrun).
  destruct (simulates_resolveSchema_fuel fuel spec jspec (fun l => l < List.length h)
              schema jschema visited ms h jr) as (r & h' & Hr & Hag);
    [done|exact Hs|exact Hschema|exact Hv|by apply Hrun|].
  destruct (resolveSchema_fuel_grows fuel spec schema visited h ms r h' Hv Hr)
    as (ms' & Hv' & Hin).
  pose proof (repr_get_own _ _ _ _ "$ref" Hschema) as Href.
  exists r, h', ms'. split; [exact Hr|]. split; [|split; [exact Hv'|split; [|split]]].
  - rewrite Hjr. destruct r as [v|e], jr as [j|e']; cbn [agree] in *; try done.
    eapply repr_weaken; [|apply repr_bound, Hag]. by intros l [_ Hl].
  - intros Hfalse. split.
    + destruct fuel as [|fuel]; [done|]. cbn [Store.resolveSchema_fuel] in Hr.
      pose proof (resolve_step_keeps _ spec schema visited h r h'
                    (fun n v visited' => stable_resolveSchema_fuel fuel spec n v visited')) as Hk.
      rewrite (repr_truthy _ _ _ _ Href) in Hk.
      rewrite (Hk Hfalse Hr visited (lookup_lt_Some _ _ _ Hv)), Hv in Hv'.
      injection Hv' as Hv'. rewrite <- (app_nil_r ms) in Hv' at 1.
      by apply app_inv_head in Hv'.
    + intros out Hn Hout. by apply resolveSchema_branches.
  - intros a b t ->. destruct (resolveSchema_pointer_ok jspec t (list_to_set ms)) as [e He].
    exists e. split; [exact He|]. by rewrite resolveSchema_two_siblings, He.
  - intros p Hp Hne. split.
    + apply Hin; [|done]. rewrite Hp in Href. by inversion Href.
    + intros Hnew target Ht. apply resolveSchema_reference; [done..| |done].
      by rewrite elem_of_list_to_set.
Qed.

Lemma resolveSchema_siblings_witness :
  let fragment := siblings "owner" "author" "#/components/schemas/User" in
  let doc := fst (store_tree user_doc []) in
  let h1 := snd (store_tree user_doc []) in
  let schema := fst (store_tree fragment h1) in
  let h := (snd (store_tree fragment h1) ++ [CSet []])%list in
  let visited := List.length (snd (store_tree fragment h1)) in
  tree h doc user_doc
  /\ tree h schema fragment
  /\ h !! visited = Some (CSet [])
  /\ exists r h',
       Store.resolveSchema_fuel 40 doc schema visited h = Some (r, h')
       /\ agree (fun l => l < List.length h') h' r
            (Ok (JObj [("properties",
                        JObj [("owner", user_schema); ("author", user_schema)])]))
       /\ h' !! visited = Some (CSet []).
Proof.
  intros fragment doc h1 schema h visited.
  assert (Hdoc : tree h doc user_doc) by (apply (reify_tree 10); vm_compute; reflexivity).
  assert (Hschema : tree h schema fragment)
    by (apply (reify_tree 10); vm_compute; reflexivity).
  assert (Hv : h !! visited = Some (CSet [])) by (vm_compute; reflexivity).
  assert (Hfuel : fuel_bound user_doc fragment (list_to_set []) <= 40) by (vm_compute; lia).
  split; [exact Hdoc|]. split; [exact Hschema|]. split; [exact Hv|].
  destruct (resolveSchema_siblings 40 doc schema user_doc fragment visited [] h
              Hdoc Hschema Hv Hfuel)
    as (r & h' & ms' & Hrun & Hr & Hv' & Hnone & _).
  exists r, h'. split; [exact Hrun|]. split.
  - assert (resolveSchema_from user_doc fragment (list_to_set [])
            = Ok (JObj [("properties",
                         JObj [("owner", user_schema); ("author", user_schema)])])) as <-
      by (vm_compute; reflexivity).
    exact Hr.
  - destruct (Hnone eq_refl) as [-> _]. exact Hv'.
Defined.

End StoreFacts.

(** * Properties of the client *)

Module ClientFacts.
Import Parser ParserFacts Cache CacheFacts Client.

(** ** The document a client holds *)

(** X14. [getSpec] keeps the document it obtained: after a call that
    returned a truthy document every further call returns that document
    without touching the network, the disk or the log; a falsy document is
    not kept, and the next call goes to [getCachedSpec] again. The
    configuration never changes. *)
Theorem getSpec_memo E c w s c' w' :
  getSpec E c w = (Done (s, c'), w') ->
  config c' = config c /\ spec c' = s
  /\ (truthy s = true -> forall w2, getSpec E c' w2 = (Done (s, c'), w2))
  /\ (truthy s = false -> forall w2, getSpec E c' w2 = refreshSpec E c' w2).
Proof.
  unfold getSpec at 1. destruct (truthy (spec c)) eqn:Ht; cbn [negb].
  - intros [= <- <- <-]. repeat split; [|by rewrite Ht].
    intros _ w2. unfold getSpec. by rewrite Ht.
  - unfold bind, ret. destruct (getCachedSpec E (config c) w) as [[d|e] w1]; [|done].
    intros [= <- <- <-]. cbn [config spec]. repeat split.
    + intros Hs w2. unfold getSpec. cbn [spec]. by rewrite Hs.
    + intros Hs w2. unfold getSpec. cbn [spec]. by rewrite Hs.
Qed.

Lemma getSpec_memo_witness :
  let E := Scenario.remote (NoReply "unused") (Scenario.ok (Some "v1") None Scenario.doc_v1) in
  exists c' w',
    getSpec E (new_client Scenario.config) Scenario.empty_world
    = (Done (Scenario.doc_v1, c'), w')
    /\ forall w2, getSpec E c' w2 = (Done (Scenario.doc_v1, c'), w2).
Proof.
  intros E.
  set (c' := {| config := Scenario.config; spec := Scenario.doc_v1 |}).
  set (w' := snd (getSpec E (new_client Scenario.config) Scenario.empty_world)).
  assert (Hrun : getSpec E (new_client Scenario.config) Scenario.empty_world
                 = (Done (Scenario.doc_v1, c'), w')) by (vm_compute; reflexivity).
  exists c', w'. split; [exact Hrun|].
  apply (getSpec_memo E _ _ _ _ _ Hrun). reflexivity.
Defined.

(** X15. [refreshSpec] drops the document the client holds, not the cache
    on disk: with an entry that the check finds fresh it returns the stored
    document, and makes it the client's, after a check and without a full
    fetch; the disk is left as it was. *)
Theorem refreshSpec_fresh E c w entry :
  cached E (config c) w = Some entry ->
  stale_by_validators (check_reply E (config c)) entry = false ->
  refreshSpec E c w
  = (Done (Cache.spec entry, {| config := config c; spec := Cache.spec entry |}),
     add_events w (check_events E (config c)))
  /\ existsb is_get (check_events E (config c)) = false.
Proof.
  intros Hc Hs. split; [|apply check_events_no_get].
  unfold refreshSpec, bind. by rewrite (getCachedSpec_present _ _ _ _ Hc), Hs.
Qed.

Lemma refreshSpec_fresh_witness :
  let E := Scenario.remote (Scenario.ok (Some "v1") None JNull)
             (Scenario.ok (Some "v2") None Scenario.doc_v2) in
  let stored := Scenario.entry (Some "v1") None in
  let c := {| config := Scenario.config; spec := Scenario.doc_v2 |} in
  fst (refreshSpec E c (Scenario.world stored))
  = Done (Scenario.doc_v1, {| config := Scenario.config; spec := Scenario.doc_v1 |}).
Proof.
  intros E stored c.
  by rewrite (proj1 (refreshSpec_fresh E c (Scenario.world stored) stored eq_refl eq_refl)).
Defined.

(** Every method on a client that holds a document computes its answer from
    that document and leaves the client and the world alone. *)
Lemma with_spec_holds {A} E (answer : jsval -> completion A) c doc w :
  holds c doc -> with_spec E answer c w = (Done (answer doc, c), w).
Proof.
  intros [<- Ht]. unfold with_spec, getSpec, bind, ret. by rewrite Ht.
Qed.

(** ** Substrings *)

Lemma string_app_assoc a b c : (a ++ b) ++ c = a ++ b ++ c.
Proof. induction a as [|x a IH]; [done|]. by rewrite !append_cons, IH. Qed.

Lemma string_app_nil_r a : a ++ "" = a.
Proof. induction a as [|x a IH]; [done|]. by rewrite append_cons, IH. Qed.

Lemma prefix_inv p s : String.prefix p s = true -> exists r, s = p ++ r.
Proof.
  revert s. induction p as [|c p IH]; intros s; [by exists s|].
  destruct s as [|d s]; [done|]. cbn.
  destruct (ascii_dec c d) as [->|]; [|done].
  intros (r & ->)%IH. by exists r.
Qed.

Lemma includes_unfold s sub :
  includes s sub
  = String.prefix sub s
    || match s with
       | EmptyString => false
       | String _ s' => includes s' sub
       end.
Proof. by destruct s. Qed.

Lemma includes_spec s sub :
  includes s sub = true <-> exists pre post, s = pre ++ sub ++ post.
Proof.
  split.
  - induction s as [|c s IH]; rewrite includes_unfold.
    + rewrite orb_false_r. intros (r & ->)%prefix_inv. by exists "", r.
    + intros [(r & ->)%prefix_inv|(pre & post & ->)%IH]%orb_true_iff.
      * by exists "", r.
      * by exists (String c pre), post.
  - intros (pre & post & ->). induction pre as [|c pre IH].
    + rewrite append_nil_l, includes_unfold, prefix_app. done.
    + rewrite append_cons, includes_unfold, IH. apply orb_true_r.
Qed.

Lemma includes_nil s : includes s "" = true.
Proof. apply includes_spec. by exists "", s. Qed.

Lemma includes_trans s a b :
  includes s a = true -> includes a b = true -> includes s b = true.
Proof.
  intros (pre & post & ->)%includes_spec (pre' & post' & ->)%includes_spec.
  apply includes_spec. exists (pre ++ pre'), (post' ++ post).
  by rewrite !string_app_assoc.
Qed.

(** ** Searching *)

Lemma rbind_ok {A B} (m : completion A) (k : A -> completion B) b :
  rbind m k = Ok b -> exists a, m = Ok a /\ k a = Ok b.
Proof. destruct m as [a|e]; [|done]. by exists a. Qed.

Lemma get_prop_truthy v k : truthy v = true -> get_prop v k = Ok (opt_chain v k).
Proof. intros Ht. apply get_prop_defined. by destruct v. Qed.

Lemma concat_sublist {A} (ls1 ls2 : list (list A)) :
  Forall2 sublist ls1 ls2 -> sublist (concat ls1) (concat ls2).
Proof.
  induction 1 as [|l1 l2 ls1 ls2 Hl _ IH]; [done|]. cbn. by apply sublist_app.
Qed.

Lemma rmapM_rel {A B C} (R : B -> C -> Prop) (f : A -> completion B)
    (g : A -> completion C) l ys :
  (forall x y, x ∈ l -> f x = Ok y -> exists z, g x = Ok z /\ R y z) ->
  rmapM f l = Ok ys -> exists zs, rmapM g l = Ok zs /\ Forall2 R ys zs.
Proof.
  revert ys. induction l as [|x l IH]; intros ys Hfg; cbn [rmapM].
  - intros [= <-]. by exists [].
  - intros (y & Hy & (ys' & Hys & [= <-])%rbind_ok)%rbind_ok.
    destruct (Hfg x y (list_elem_of_here _ _) Hy) as (z & -> & Hz).
    destruct (IH ys') as (zs & -> & Hzs); [|done|].
    { intros x' y' Hx'. apply Hfg. by apply list_elem_of_further. }
    exists (z :: zs). split; [done|]. by constructor.
Qed.

Section searching.
Variable toLowerCase toUpperCase : string -> string.
Variables narrow wide : string.
Hypothesis Hwide : includes narrow wide = true.

Lemma lower_includes_wider v r1 :
  lower_includes toLowerCase narrow v = Ok r1 ->
  exists r2, lower_includes toLowerCase wide v = Ok r2
             /\ (truthy r1 = true -> truthy r2 = true).
Proof.
  destruct v; cbn; try done; intros [= <-]; eexists; (split; [reflexivity|]); try done.
  cbn. intros H. by eapply includes_trans.
Qed.

Lemma some_wider (f g : jsval -> completion bool) l b1 :
  (forall x c1, f x = Ok c1 -> exists c2, g x = Ok c2 /\ (c1 = true -> c2 = true)) ->
  some f l = Ok b1 -> exists b2, some g l = Ok b2 /\ (b1 = true -> b2 = true).
Proof.
  intros Hfg. revert b1. induction l as [|x l IH]; intros b1; cbn [some].
  - intros [= <-]. by exists false.
  - intros (c1 & Hc1 & H)%rbind_ok.
    destruct (Hfg x c1 Hc1) as (c2 & -> & Hc). cbn [rbind].
    destruct c2; [by exists true|].
    destruct c1; [by specialize (Hc eq_refl)|]. by apply IH.
Qed.

Lemma tag_matches_wider tag c1 :
  tag_matches toLowerCase narrow tag = Ok c1 ->
  exists c2, tag_matches toLowerCase wide tag = Ok c2 /\ (c1 = true -> c2 = true).
Proof.
  destruct tag; cbn; try done. intros [= <-]. eexists. split; [reflexivity|].
  intros H. by eapply includes_trans.
Qed.

Lemma tags_match_wider tags r1 :
  tags_match toLowerCase narrow tags = Ok r1 ->
  exists r2, tags_match toLowerCase wide tags = Ok r2
             /\ (truthy r1 = true -> truthy r2 = true).
Proof.
  destruct tags as [| | | | | l | |]; cbn [tags_match]; try done;
    try (intros [= <-]; by eexists).
  intros (b1 & Hb1 & [= <-])%rbind_ok.
  destruct (some_wider (tag_matches toLowerCase narrow) (tag_matches toLowerCase wide)
              l b1 tag_matches_wider Hb1)
    as (b2 & -> & Hb).
  by exists (JBool b2).
Qed.

Lemma param_matches_wider param c1 :
  param_matches toLowerCase narrow param = Ok c1 ->
  exists c2, param_matches toLowerCase wide param = Ok c2 /\ (c1 = true -> c2 = true).
Proof.
  unfold param_matches.
  intros (name & -> & (r1 & Hr1 & H)%rbind_ok)%rbind_ok. cbn [rbind].
  destruct (lower_includes_wider _ _ Hr1) as (r2 & -> & Hr). cbn [rbind].
  destruct (truthy r2) eqn:Ht2; [by exists true|].
  destruct (truthy r1) eqn:Ht1; [by specialize (Hr eq_refl)|].
  apply rbind_ok in H as (description & -> & (d1 & Hd1 & [= <-])%rbind_ok). cbn [rbind].
  destruct (lower_includes_wider _ _ Hd1) as (d2 & -> & Hd). by eexists.
Qed.

Lemma params_match_wider parameters r1 :
  params_match toLowerCase narrow parameters = Ok r1 ->
  exists r2, params_match toLowerCase wide parameters = Ok r2
             /\ (truthy r1 = true -> truthy r2 = true).
Proof.
  destruct parameters as [| | | | | l | |]; cbn [params_match]; try done;
    try (intros [= <-]; by eexists).
  intros (b1 & Hb1 & [= <-])%rbind_ok.
  destruct (some_wider (param_matches toLowerCase narrow)
              (param_matches toLowerCase wide) l b1 param_matches_wider Hb1)
    as (b2 & -> & Hb).
  by exists (JBool b2).
Qed.

Lemma operation_matches_wider path method operation b1 :
  operation_matches toLowerCase narrow path method operation = Ok b1 ->
  exists b2, operation_matches toLowerCase wide path method operation = Ok b2
             /\ (b1 = true -> b2 = true).
Proof.
  unfold operation_matches.
  intros (summary & -> & (m3 & H3 & H)%rbind_ok)%rbind_ok.
  apply rbind_ok in H as (description & -> & (m4 & H4 & H)%rbind_ok).
  apply rbind_ok in H as (operationId & -> & (m5 & H5 & H)%rbind_ok).
  apply rbind_ok in H as (tags & -> & (m6 & H6 & H)%rbind_ok).
  apply rbind_ok in H as (parameters & -> & (m7 & H7 & [= <-])%rbind_ok).
  cbn [rbind].
  destruct (lower_includes_wider _ _ H3) as (n3 & -> & I3).
  destruct (lower_includes_wider _ _ H4) as (n4 & -> & I4).
  destruct (lower_includes_wider _ _ H5) as (n5 & -> & I5).
  destruct (tags_match_wider _ _ H6) as (n6 & -> & I6).
  destruct (params_match_wider _ _ H7) as (n7 & -> & I7).
  cbn [rbind]. eexists. split; [reflexivity|].
  rewrite !orb_true_iff.
  intros [[[[[[H|H]|H]|H]|H]|H]|H].
  - do 6 left. by eapply includes_trans.
  - do 5 left. right. by eapply includes_trans.
  - do 4 left. right. by apply I3.
  - do 3 left. right. by apply I4.
  - do 2 left. right. by apply I5.
  - left. right. by apply I6.
  - right. by apply I7.
Qed.

Lemma search_operation_wider path pathItem method l1 :
  search_operation toLowerCase toUpperCase narrow path pathItem method = Ok l1 ->
  exists l2, search_operation toLowerCase toUpperCase wide path pathItem method = Ok l2
             /\ sublist l1 l2.
Proof.
  unfold search_operation. intros (operation & -> & H)%rbind_ok. cbn [rbind].
  destruct (truthy operation) eqn:Ht; cbn [negb]; [|by exists l1].
  apply rbind_ok in H as (b1 & Hb1 & H).
  destruct (operation_matches_wider _ _ _ _ Hb1) as (b2 & -> & Hb). cbn [rbind].
  destruct b1.
  - rewrite Hb by done. by exists l1.
  - injection H as <-. destruct b2; [|by exists []].
    rewrite !get_prop_truthy by done. cbn [rbind].
    eexists. split; [reflexivity|]. apply sublist_nil_l.
Qed.

Lemma search_path_wider entry l1 :
  search_path toLowerCase toUpperCase narrow entry = Ok l1 ->
  exists l2, search_path toLowerCase toUpperCase wide entry = Ok l2 /\ sublist l1 l2.
Proof.
  unfold search_path. destruct (negb (truthy (snd entry))); [by exists l1|].
  intros (found & Hf & [= <-])%rbind_ok.
  destruct (rmapM_rel sublist
              (search_operation toLowerCase toUpperCase narrow (fst entry) (snd entry))
              (search_operation toLowerCase toUpperCase wide (fst entry) (snd entry))
              methods found) as (found' & -> & Hall); [|done|].
  { intros m l _. apply search_operation_wider. }
  eexists. split; [reflexivity|]. by apply concat_sublist.
Qed.
End searching.

(** X16. Widening a query never loses a result. When the lower-cased text
    of one query occurs inside that of another, a search for the longer
    query that returns is matched by a search for the shorter one that
    returns too, and the results of the longer query are among those of the
    shorter one, in the same order. *)
Theorem searchApi_wider toLowerCase toUpperCase narrow wide doc r1 :
  includes (toLowerCase narrow) (toLowerCase wide) = true ->
  searchApi_of toLowerCase toUpperCase narrow doc = Ok r1 ->
  exists r2,
    searchApi_of toLowerCase toUpperCase wide doc = Ok r2
    /\ sublist (results r1) (results r2)
    /\ search_total r1 <= search_total r2.
Proof.
  intros Hw. unfold searchApi_of.
  intros (n & Hn & (paths & Hp & (found & Hf & [= <-])%rbind_ok)%rbind_ok)%rbind_ok.
  rewrite Hn. cbn [rbind]. rewrite Hp. cbn [rbind].
  destruct (rmapM_rel sublist
              (search_path toLowerCase toUpperCase (toLowerCase narrow))
              (search_path toLowerCase toUpperCase (toLowerCase wide)) paths found)
    as (found' & -> & Hall); [|done|].
  { intros entry l _. by apply search_path_wider. }
  cbn [rbind]. eexists. split; [reflexivity|]. cbn [results search_total].
  pose proof (concat_sublist _ _ Hall) as Hsub. split; [done|].
  by apply sublist_length.
Qed.

Lemma searchApi_wider_witness :
  exists r1 r2,
    searchApi_of ascii_lower ascii_upper "List" petstore = Ok r1
    /\ searchApi_of ascii_lower ascii_upper "s" petstore = Ok r2
    /\ sublist (results r1) (results r2)
    /\ search_total r1 = 2 /\ search_total r2 = 3.
Proof.
  destruct (searchApi_of ascii_lower ascii_upper "List" petstore) as [r1|e] eqn:H1;
    [|vm_compute in H1; discriminate].
  destruct (searchApi_wider ascii_lower ascii_upper "List" "s" petstore r1 eq_refl H1)
    as (r2 & H2 & Hsub & _).
  exists r1, r2. split; [reflexivity|]. split; [exact H2|]. split; [exact Hsub|].
  vm_compute in H1. injection H1 as <-. vm_compute in H2. injection H2 as <-.
  split; reflexivity.
Defined.

(** ** The empty query *)

Lemma map_flat_map {A B C} (k : B -> C) (g : A -> list B) l :
  map k (flat_map g l) = flat_map (fun x => map k (g x)) l.
Proof. induction l as [|x l IH]; [done|]. cbn. by rewrite map_app, IH. Qed.

Lemma rmapM_flat {A B C} (k : B -> C) (f : A -> completion (list B)) (g : A -> list C) l ls :
  (forall x y, f x = Ok y -> map k y = g x) ->
  rmapM f l = Ok ls -> map k (concat ls) = flat_map g l.
Proof.
  intros Hfg. revert ls. induction l as [|x l IH]; intros ls; cbn [rmapM].
  - by intros [= <-].
  - intros (y & Hy & (ys & Hys & [= <-])%rbind_ok)%rbind_ok.
    cbn. by rewrite map_app, (Hfg _ _ Hy), (IH _ Hys).
Qed.

Lemma operation_keys toUpperCase paths :
  map (operation_key toUpperCase) (operations_of paths)
  = flat_map
      (fun entry =>
         if truthy (snd entry) then
           flat_map
             (fun method =>
                if truthy (opt_chain (snd entry) method)
                then [(fst entry, toUpperCase method)] else [])
             methods
         else [])
      paths.
Proof.
  unfold operations_of. rewrite map_flat_map. apply flat_map_ext. intros entry.
  destruct (truthy (snd entry)); [|done].
  rewrite map_flat_map. apply flat_map_ext. intros method.
  by destruct (truthy (opt_chain (snd entry) method)).
Qed.

Section empty_query.
Variable toLowerCase toUpperCase : string -> string.

Lemma operation_matches_empty path method operation b :
  operation_matches toLowerCase "" path method operation = Ok b -> b = true.
Proof.
  unfold operation_matches.
  intros (summary & _ & (m3 & _ & H)%rbind_ok)%rbind_ok.
  apply rbind_ok in H as (description & _ & (m4 & _ & H)%rbind_ok).
  apply rbind_ok in H as (operationId & _ & (m5 & _ & H)%rbind_ok).
  apply rbind_ok in H as (tags & _ & (m6 & _ & H)%rbind_ok).
  apply rbind_ok in H as (parameters & _ & (m7 & _ & [= <-])%rbind_ok).
  by rewrite includes_nil.
Qed.

Lemma search_operation_empty path pathItem method l :
  truthy pathItem = true ->
  search_operation toLowerCase toUpperCase "" path pathItem method = Ok l ->
  map result_key l
  = if truthy (opt_chain pathItem method) then [(path, toUpperCase method)] else [].
Proof.
  intros Hp. unfold search_operation. rewrite get_prop_truthy by done. cbn [rbind].
  destruct (truthy (opt_chain pathItem method)) eqn:Ht; cbn [negb]; [|by intros [= <-]].
  intros (b & Hb & H)%rbind_ok. rewrite (operation_matches_empty _ _ _ _ Hb) in H.
  rewrite !get_prop_truthy in H by done. by injection H as <-.
Qed.

Lemma search_path_empty entry l :
  search_path toLowerCase toUpperCase "" entry = Ok l ->
  map result_key l
  = if truthy (snd entry) then
      flat_map
        (fun method =>
           if truthy (opt_chain (snd entry) method)
           then [(fst entry, toUpperCase method)] else [])
        methods
    else [].
Proof.
  unfold search_path. destruct (truthy (snd entry)) eqn:Ht; cbn [negb]; [|by intros [= <-]].
  intros (found & Hf & [= <-])%rbind_ok.
  apply (rmapM_flat _ _ _ _ _ (fun m y => search_operation_empty _ _ m y Ht) Hf).
Qed.
End empty_query.

(** X17. The empty query finds every operation. For a query whose
    lower-cased text is empty, a search that returns lists exactly the
    operations of the document: one result for each of the eight methods
    (get, post, put, delete, patch, options, head, trace, tried in this
    order) under which a truthy path item holds a truthy value, path by path
    in the order of the document. *)
Theorem searchApi_empty toLowerCase toUpperCase query doc n r :
  toLowerCase query = "" ->
  normalizeSpec doc = Ok n ->
  searchApi_of toLowerCase toUpperCase query doc = Ok r ->
  map result_key (results r)
  = map (operation_key toUpperCase) (operations_of (own_entries (n_paths n)))
  /\ search_total r = List.length (operations_of (own_entries (n_paths n)))
  /\ methods = ["get"; "post"; "put"; "delete"; "patch"; "options"; "head"; "trace"].
Proof.
  intros Hq Hn. unfold searchApi_of. rewrite Hn, Hq. cbn [rbind]. unfold entries.
  destruct (nullish (n_paths n)); [done|]. cbn [rbind].
  intros (found & Hf & [= <-])%rbind_ok. cbn [results search_total].
  assert (Hkeys : map result_key (concat found)
                  = map (operation_key toUpperCase) (operations_of (own_entries (n_paths n)))).
  { rewrite operation_keys.
    apply (rmapM_flat _ _ _ _ _ (search_path_empty toLowerCase toUpperCase) Hf). }
  split; [done|]. split; [|done].
  by rewrite <- (length_map result_key), Hkeys, length_map.
Qed.

Lemma searchApi_empty_witness :
  exists r,
    searchApi_of ascii_lower ascii_upper "" petstore = Ok r
    /\ map result_key (results r) = [("/pets", "GET"); ("/pets", "POST"); ("/owners", "GET")].
Proof.
  destruct (searchApi_of ascii_lower ascii_upper "" petstore) as [r|e] eqn:Hr;
    [|vm_compute in Hr; discriminate].
  destruct (normalizeSpec petstore) as [n|e] eqn:Hn; [|vm_compute in Hn; discriminate].
  exists r. split; [reflexivity|].
  rewrite (proj1 (searchApi_empty ascii_lower ascii_upper "" petstore n r eq_refl Hn Hr)).
  vm_compute in Hn. injection Hn as <-. reflexivity.
Defined.

(** ** Property lists once more *)

Lemma has_field_set_field {V} t k (v : V) props :
  has_field t (set_field k v props) = has_field t props || String.eqb k t.
Proof.
  unfold has_field. induction props as [|[k' v'] props IH]; cbn.
  - by rewrite orb_false_r.
  - destruct (String.eqb_spec k' k) as [->|Hne]; cbn.
    + destruct (String.eqb k t); by rewrite ?orb_true_r, ?orb_false_r.
    + rewrite IH. by rewrite orb_assoc.
Qed.

Lemma keys_set_field {V} k (v : V) props :
  map fst (set_field k v props)
  = if has_field k props then map fst props else (map fst props ++ [k])%list.
Proof.
  unfold has_field. induction props as [|[k' v'] props IH]; cbn; [done|].
  destruct (String.eqb_spec k' k) as [->|Hne]; cbn; [done|].
  rewrite IH. by destruct (existsb _ props).
Qed.

Lemma NoDup_set_field {V} k (v : V) props :
  NoDup (map fst props) -> NoDup (map fst (set_field k v props)).
Proof.
  intros Hnd. rewrite keys_set_field.
  destruct (has_field k props) eqn:Hk; [done|].
  apply NoDup_app. split; [done|]. split; [|apply NoDup_singleton].
  intros x Hx ->%list_elem_of_singleton.
  apply (elem_of_map_iff fst) in Hx as ([k' v'] & Hk' & Hin). cbn in Hk'. subst k'.
  assert (has_field k props = true) by (apply has_field_elem; eauto). congruence.
Qed.

Lemma get_field_absent {V} `{Undefined V} t (props : list (string * V)) :
  has_field t props = false -> get_field t props = undefined.
Proof.
  unfold has_field. induction props as [|[k v] props IH]; cbn; [done|].
  destruct (String.eqb k t); [done|]. exact IH.
Qed.

Lemma has_field_keys {V} t (props : list (string * V)) :
  has_field t props = true <-> t ∈ map fst props.
Proof.
  rewrite has_field_elem, elem_of_map_iff. split.
  - intros [v Hv]. by exists (t, v).
  - intros ([k v] & Hk & Hin). cbn in Hk. subst. by exists v.
Qed.

(** ** Exceptions of the client's loops *)

Lemma rbind_throw {A B} (m : completion A) (k : A -> completion B) e :
  rbind m k = Throw e -> m = Throw e \/ exists a, m = Ok a /\ k a = Throw e.
Proof. destruct m as [a|e']; cbn; [eauto|intros [= ->]; by left]. Qed.

Lemma get_prop_raised v k e : get_prop v k = Throw e -> e = JsTypeError.
Proof.
  destruct v; cbn; try done; try (by intros [= <-]).
  by destruct (String.eqb k "length").
Qed.

Lemma rfoldM_raised {A S} (f : S -> A -> completion S) l :
  (forall s x e, f s x = Throw e -> e = JsTypeError) ->
  forall s e, rfoldM f s l = Throw e -> e = JsTypeError.
Proof.
  intros Hf. induction l as [|x l IH]; intros s e; cbn [rfoldM]; [done|].
  intros [H|(s' & _ & H)]%rbind_throw; [by eapply Hf|by eapply IH].
Qed.

Lemma rmapM_raised {A B} (f : A -> completion B) l e :
  (forall x e, f x = Throw e -> e = JsTypeError) ->
  rmapM f l = Throw e -> e = JsTypeError.
Proof.
  intros Hf. induction l as [|x l IH]; cbn [rmapM]; [done|].
  intros [H|(y & _ & [H|(ys & _ & H)]%rbind_throw)]%rbind_throw;
    [by eapply Hf|by apply IH|done].
Qed.

Lemma iterate_raised v e : iterate v = Throw e -> e = JsTypeError.
Proof. destruct v; cbn; try done; by intros [= <-]. Qed.

Lemma add_to_group_raised t endpoint groups e :
  add_to_group t endpoint groups = Throw e -> e = JsTypeError.
Proof.
  unfold add_to_group. destruct (has_field t groups); [done|].
  case_bool_decide; [by intros [= <-]|done].
Qed.

Lemma rfoldM_map {A B S} (f : S -> B -> completion S) (h : A -> B) l s :
  rfoldM (fun s x => f s (h x)) s l = rfoldM f s (map h l).
Proof.
  revert s. induction l as [|x l IH]; intros s; [done|]. cbn.
  destruct (f s (h x)); [apply IH|done].
Qed.

Lemma rbind_ret {A} (m : completion A) : rbind m Ok = m.
Proof. by destruct m. Qed.

(** A loop that converts each element to a key before it uses it, when it
    completes, has converted them all. *)
Lemma rfoldM_keys {S} (f : S -> string -> completion S) l :
  forall s s',
    rfoldM (fun s x => let! key := to_string x in f s key) s l = Ok s' ->
    exists names, rmapM to_string l = Ok names /\ rfoldM f s names = Ok s'.
Proof.
  induction l as [|x l IH]; intros s s'; cbn [rfoldM rmapM].
  - intros [= <-]. by exists [].
  - intros (s1 & (key & Hkey & Hs1)%rbind_ok & Hrest)%rbind_ok.
    destruct (IH _ _ Hrest) as (names & Hnames & Hrun).
    exists (key :: names). rewrite Hkey, Hnames. cbn [rbind rfoldM]. by rewrite Hs1.
Qed.

Lemma positive_raised numeric_positive v e :
  positive numeric_positive v = Throw e -> e = JsTypeError.
Proof.
  destruct v; cbn [positive]; try done.
  - intros [H|(? & _ & H)]%rbind_throw; [by eapply to_string_raised|done].
  - intros [H|(? & _ & H)]%rbind_throw; [by eapply to_string_raised|done].
Qed.

(** ** Listing *)

Section listing.
Variable toUpperCase : string -> string.
Variable numeric_positive : string -> bool.

Local Abbreviation names := (group_names numeric_positive).
Local Abbreviation endpoint := (endpoint_of toUpperCase).

(** The keys of the groups are not inherited names, and no group is empty. *)
Local Abbreviation proper groups :=
  (forall t, has_field t groups = true ->
     (t ∉ inherited) /\ get_field t groups <> ([] : list ApiEndpoint)).

(** The groups hold the endpoints [es], each under its names. *)
Local Abbreviation grouped es groups :=
  (forall t e, e ∈ get_field t groups <-> e ∈ es /\ t ∈ names e).

Lemma add_to_group_ok t e groups groups' :
  proper groups ->
  add_to_group t e groups = Ok groups' ->
  (t ∉ inherited) /\ groups' = set_field t (get_field t groups ++ [e])%list groups.
Proof.
  intros Hp. unfold add_to_group. destruct (has_field t groups) eqn:Hh.
  - intros [= <-]. split; [by apply Hp|done].
  - case_bool_decide; [done|]. intros [= <-]. split; [done|].
    by rewrite get_field_absent.
Qed.

Lemma add_to_groups e ts :
  forall groups groups',
    proper groups -> NoDup (map fst groups) ->
    rfoldM (fun g t => add_to_group t e g) groups ts = Ok groups' ->
    proper groups' /\ NoDup (map fst groups')
    /\ (forall t, t ∈ ts -> t ∉ inherited)
    /\ forall t e', e' ∈ get_field t groups'
                    <-> e' ∈ get_field t groups \/ (e' = e /\ t ∈ ts).
Proof.
  induction ts as [|t0 ts IH]; intros groups groups' Hp Hnd; cbn [rfoldM].
  - intros [= <-]. split; [done|]. split; [done|].
    split; [by intros ? ?%elem_of_nil|]. intros t e'.
    split; [by left|]. by intros [?|[_ ?%elem_of_nil]].
  - intros (g1 & Hg1 & Hrest)%rbind_ok.
    destruct (add_to_group_ok _ _ _ _ Hp Hg1) as [Ht0 ->].
    set (g1 := set_field t0 (get_field t0 groups ++ [e])%list groups) in *.
    assert (Hget : forall t e', e' ∈ get_field t g1
                     <-> e' ∈ get_field t groups \/ (e' = e /\ t = t0)).
    { intros t e'. unfold g1. destruct (decide (t = t0)) as [->|Hne].
      - rewrite get_field_set_field_eq, elem_of_app, list_elem_of_singleton. naive_solver.
      - rewrite get_field_set_field_ne by done. naive_solver. }
    destruct (IH g1 groups') as (Hp' & Hnd' & Hts & Hmem); [| |done|].
    + intros t Ht. unfold g1 in Ht. rewrite has_field_set_field in Ht.
      apply orb_true_iff in Ht as [Ht|Ht%String.eqb_eq].
      * split; [by apply Hp|]. destruct (decide (t = t0)) as [->|Hne].
        -- unfold g1. rewrite get_field_set_field_eq. by destruct (get_field t0 groups).
        -- unfold g1. rewrite get_field_set_field_ne by done. by apply Hp.
      * subst t. split; [done|]. unfold g1. rewrite get_field_set_field_eq.
        by destruct (get_field t0 groups).
    + by apply NoDup_set_field.
    + split; [done|]. split; [done|]. split.
      * intros t [->|Ht]%elem_of_cons; [done|by apply Hts].
      * intros t e'. split.
        -- intros H. apply Hmem in H as [H|[-> H]].
           ++ apply Hget in H as [H|[-> ->]];
                [by left|right; split; [done|apply list_elem_of_here]].
           ++ right. split; [done|by apply list_elem_of_further].
        -- intros [H|[-> [->|H]%elem_of_cons]]; apply Hmem.
           ++ left. apply Hget. by left.
           ++ left. apply Hget. by right.
           ++ by right.
Qed.

Lemma list_operation_ok path pathItem es groups method es' groups' :
  truthy pathItem = true ->
  list_operation toUpperCase numeric_positive path pathItem (es, groups) method
  = Ok (es', groups') ->
  if truthy (opt_chain pathItem method) then
    es' = (es ++ [endpoint (path, method, opt_chain pathItem method)])%list
    /\ rfoldM (fun g t => add_to_group t (endpoint (path, method, opt_chain pathItem method)) g)
         groups (names (endpoint (path, method, opt_chain pathItem method)))
       = Ok groups'
  else es' = es /\ groups' = groups.
Proof.
  intros Hp. unfold list_operation. rewrite get_prop_truthy by done. cbn [rbind].
  destruct (truthy (opt_chain pathItem method)) eqn:Ho; cbn [negb];
    [|by intros [= <- <-]].
  rewrite !get_prop_truthy by done. cbn [rbind fst snd].
  unfold group_names, endpoint_of. cbn [endpoint_tags fst snd].
  set (tags := opt_chain (opt_chain pathItem method) "tags").
  assert ((if truthy tags then let! n := get_prop tags "length" in positive numeric_positive n
           else Ok false)
          = (if truthy tags then positive numeric_positive (opt_chain tags "length")
             else Ok false)) as ->.
  { destruct (truthy tags) eqn:Ht; [|done]. by rewrite get_prop_truthy. }
  destruct (if truthy tags then _ else _) as [[|]|e]; cbn [rbind]; [| |done].
  - destruct (iterate tags) as [each|e]; cbn [rbind]; [|done].
    intros (g & Hg & [= <- <-])%rbind_ok. split; [done|].
    by destruct (rfoldM_keys _ _ _ _ Hg) as (keys & -> & Hkeys).
  - intros (g & Hg & [= <- <-])%rbind_ok. split; [done|]. cbn [rfoldM]. by rewrite Hg.
Qed.

Lemma list_methods_ok path pathItem ms :
  truthy pathItem = true ->
  forall es groups es' groups',
    proper groups -> NoDup (map fst groups) -> grouped es groups ->
    rfoldM (list_operation toUpperCase numeric_positive path pathItem) (es, groups) ms
    = Ok (es', groups') ->
    es' = (es ++ map endpoint
                   (flat_map (fun method =>
                                if truthy (opt_chain pathItem method)
                                then [(path, method, opt_chain pathItem method)] else [])
                      ms))%list
    /\ proper groups' /\ NoDup (map fst groups') /\ grouped es' groups'.
Proof.
  intros Hp. induction ms as [|m ms IH]; intros es groups es' groups' Hpr Hnd Hgr;
    cbn [rfoldM flat_map].
  - intros [= <- <-]. by rewrite app_nil_r.
  - intros ([es1 g1] & H1 & Hrest)%rbind_ok.
    pose proof (list_operation_ok _ _ _ _ _ _ _ Hp H1) as Hstep.
    destruct (truthy (opt_chain pathItem m)).
    + destruct Hstep as [-> Hg1].
      destruct (add_to_groups _ _ _ _ Hpr Hnd Hg1) as (Hpr1 & Hnd1 & _ & Hmem).
      destruct (IH (es ++ [endpoint (path, m, opt_chain pathItem m)])%list g1 es' groups'
                  Hpr1 Hnd1) as (-> & ? & ? & ?); [|exact Hrest|].
      * intros t e'. rewrite Hmem, Hgr, elem_of_app, list_elem_of_singleton. split.
        -- intros [[Ha Hb]|[-> Hb]]; [split; [by left|done]|split; [by right|done]].
        -- intros [[Ha| ->] Hb]; [left; by split|right; by split].
      * split; [|done]. cbn [app map]. by rewrite <- app_assoc.
    + destruct Hstep as [-> ->]. by apply (IH es groups).
Qed.

Lemma list_paths_ok paths :
  forall es groups es' groups',
    proper groups -> NoDup (map fst groups) -> grouped es groups ->
    rfoldM (list_path toUpperCase numeric_positive) (es, groups) paths = Ok (es', groups') ->
    es' = (es ++ map endpoint (operations_of paths))%list
    /\ proper groups' /\ NoDup (map fst groups') /\ grouped es' groups'.
Proof.
  induction paths as [|[path pathItem] paths IH]; intros es groups es' groups' Hpr Hnd Hgr;
    cbn [rfoldM].
  - intros [= <- <-]. by rewrite app_nil_r.
  - intros ([es1 g1] & H1 & Hrest)%rbind_ok.
    unfold list_path in H1. cbn [fst snd] in H1.
    unfold operations_of. cbn [flat_map fst snd]. fold (operations_of paths).
    destruct (truthy pathItem) eqn:Hp; cbn [negb] in H1.
    + destruct (list_methods_ok _ _ _ Hp _ _ _ _ Hpr Hnd Hgr H1) as (-> & Hpr1 & Hnd1 & Hgr1).
      destruct (IH _ _ _ _ Hpr1 Hnd1 Hgr1 Hrest) as (-> & ? & ? & ?).
      split; [|done]. by rewrite map_app, app_assoc.
    + injection H1 as <- <-. by apply (IH es groups).
Qed.

Lemma list_operation_raised path pathItem state method e :
  list_operation toUpperCase numeric_positive path pathItem state method = Throw e ->
  e = JsTypeError.
Proof.
  unfold list_operation.
  intros [H|(operation & _ & H)]%rbind_throw; [by eapply get_prop_raised|].
  destruct (negb (truthy operation)); [done|].
  apply rbind_throw in H as [H|(operationId & _ & H)]; [by eapply get_prop_raised|].
  apply rbind_throw in H as [H|(summary & _ & H)]; [by eapply get_prop_raised|].
  apply rbind_throw in H as [H|(tags & _ & H)]; [by eapply get_prop_raised|].
  apply rbind_throw in H as [H|(tagged & _ & H)].
  { destruct (truthy tags); [|done].
    apply rbind_throw in H as [H|(? & _ & H)];
      [by eapply get_prop_raised|by eapply positive_raised]. }
  destruct tagged.
  - apply rbind_throw in H as [H|(each & _ & H)]; [by eapply iterate_raised|].
    apply rbind_throw in H as [H|(? & _ & H)]; [|done].
    eapply rfoldM_raised; [|exact H]. intros s x e'.
    intros [Hk|(? & _ & Hk)]%rbind_throw;
      [by eapply to_string_raised|by eapply add_to_group_raised].
  - apply rbind_throw in H as [H|(? & _ & H)]; [by eapply add_to_group_raised|done].
Qed.

Lemma list_path_raised state entry e :
  list_path toUpperCase numeric_positive state entry = Throw e -> e = JsTypeError.
Proof.
  unfold list_path. destruct (negb (truthy (snd entry))); [done|].
  apply rfoldM_raised. intros s x e'. apply list_operation_raised.
Qed.
End listing.

(** What [listAllApi] returns, when it returns: the endpoints are the
    operations of the document, in order, and the total is their number;
    the keys of [groupedByTag] are pairwise distinct and none of them is a
    name inherited from [Object.prototype]; no group is empty; and an
    endpoint is in the group of a name exactly when it is listed and the name
    is one of its tags (or "Untagged", when it has none). *)
Lemma listAllApi_ok toUpperCase numeric_positive doc n r :
  normalizeSpec doc = Ok n ->
  listAllApi_of toUpperCase numeric_positive doc = Ok r ->
  endpoints r = map (endpoint_of toUpperCase) (operations_of (own_entries (n_paths n)))
  /\ list_total r = List.length (endpoints r)
  /\ NoDup (map fst (groupedByTag r))
  /\ (forall t, t ∈ map fst (groupedByTag r) ->
        (t ∉ inherited) /\ get_field t (groupedByTag r) <> [])
  /\ (forall t e, e ∈ get_field t (groupedByTag r)
                  <-> e ∈ endpoints r /\ t ∈ group_names numeric_positive e).
Proof.
  intros Hn. unfold listAllApi_of. rewrite Hn. cbn [rbind]. unfold entries.
  destruct (nullish (n_paths n)); [done|]. cbn [rbind].
  intros ([es groups] & Hrun & [= <-])%rbind_ok. cbn [endpoints list_total groupedByTag fst snd].
  destruct (list_paths_ok toUpperCase numeric_positive (own_entries (n_paths n))
              [] [] es groups) as (-> & Hpr & Hnd & Hgr); [| | |exact Hrun|].
  - done.
  - constructor.
  - intros t e. cbn. split; [by intros ?%elem_of_nil|by intros [?%elem_of_nil _]].
  - split; [done|]. split; [done|]. split; [done|]. split; [|done].
    intros t Ht. by apply Hpr, has_field_keys.
Qed.

(** X18. What [listAllApi] returns, when it returns: the endpoints are the
    operations of the document, in order, and the total is their number;
    the keys of [groupedByTag] are pairwise distinct and none of them is a
    name inherited from [Object.prototype]; no group is empty; and an
    endpoint is in the group of a name exactly when it is listed and the name
    is one of its tags (or "Untagged", when it has none). *)
Theorem listAllApi_groups toUpperCase numeric_positive doc n r :
  normalizeSpec doc = Ok n ->
  listAllApi_of toUpperCase numeric_positive doc = Ok r ->
  endpoints r = map (endpoint_of toUpperCase) (operations_of (own_entries (n_paths n)))
  /\ list_total r = List.length (endpoints r)
  /\ NoDup (map fst (groupedByTag r))
  /\ (forall t, t ∈ map fst (groupedByTag r) ->
        (t ∉ inherited) /\ get_field t (groupedByTag r) <> [])
  /\ (forall t e, e ∈ get_field t (groupedByTag r)
                  <-> e ∈ endpoints r /\ t ∈ group_names numeric_positive e).
Proof. apply listAllApi_ok. Qed.

Lemma listAllApi_groups_witness :
  exists r,
    listAllApi_of ascii_upper (fun _ => false) petstore = Ok r
    /\ list_total r = 3
    /\ map fst (groupedByTag r) = ["pets"; "read"; "Untagged"].
Proof.
  destruct (listAllApi_of ascii_upper (fun _ => false) petstore) as [r|e] eqn:Hr;
    [|vm_compute in Hr; discriminate].
  destruct (normalizeSpec petstore) as [n|e] eqn:Hn; [|vm_compute in Hn; discriminate].
  destruct (listAllApi_groups ascii_upper (fun _ => false) petstore n r Hn Hr)
    as (He & Ht & _).
  exists r. split; [reflexivity|]. split.
  - rewrite Ht, He. vm_compute in Hn. injection Hn as <-. reflexivity.
  - vm_compute in Hr. injection Hr as <-. reflexivity.
Defined.

(** X19. A tag that names a member of [Object.prototype] breaks the listing:
    when the document has an operation one of whose tags reads
    "constructor", "toString", "__proto__" or any other inherited name,
    [listAllApi] raises a TypeError instead of returning. *)
Theorem listAllApi_inherited_tag toUpperCase numeric_positive doc n o t :
  normalizeSpec doc = Ok n ->
  o ∈ operations_of (own_entries (n_paths n)) ->
  t ∈ group_names numeric_positive (endpoint_of toUpperCase o) ->
  t ∈ inherited ->
  listAllApi_of toUpperCase numeric_positive doc = Throw JsTypeError.
Proof.
  intros Hn Ho Ht Hin.
  destruct (listAllApi_of toUpperCase numeric_positive doc) as [r|e] eqn:Hr.
  - exfalso.
    destruct (listAllApi_ok toUpperCase numeric_positive doc n r Hn Hr)
      as (He & _ & _ & Hkeys & Hmem).
    assert (Hg : endpoint_of toUpperCase o ∈ get_field t (groupedByTag r)).
    { apply Hmem. split; [|done]. rewrite He. apply elem_of_map_iff. by exists o. }
    destruct (has_field t (groupedByTag r)) eqn:Hh.
    + apply has_field_keys in Hh. by destruct (Hkeys t Hh).
    + rewrite get_field_absent in Hg by done. by apply elem_of_nil in Hg.
  - f_equal. revert Hr. unfold listAllApi_of. rewrite Hn. cbn [rbind].
    intros [H|(paths & _ & H)]%rbind_throw.
    { unfold entries in H. destruct (nullish _); [by injection H|done]. }
    apply rbind_throw in H as [H|(? & _ & H)]; [|done].
    eapply rfoldM_raised; [|exact H]. intros s x e'. apply list_path_raised.
Qed.

Lemma listAllApi_inherited_tag_witness :
  listAllApi_of ascii_upper (fun _ => false) (tagged_doc "constructor") = Throw JsTypeError.
Proof.
  destruct (normalizeSpec (tagged_doc "constructor")) as [n|e] eqn:Hn;
    [|vm_compute in Hn; discriminate].
  apply (listAllApi_inherited_tag ascii_upper (fun _ => false) (tagged_doc "constructor") n
           ("/things", "get",
            JObj [("tags", JArr [JStr "constructor"]); ("responses", described "ok")])
           "constructor" Hn).
  - vm_compute in Hn. injection Hn as <-. vm_compute. apply list_elem_of_here.
  - vm_compute. apply list_elem_of_here.
  - apply list_elem_of_here.
Defined.

(** ** Details of an endpoint *)

Lemma get_prop_ok v k x : get_prop v k = Ok x -> x = opt_chain v k /\ nullish v = false.
Proof.
  unfold opt_chain. intros H. rewrite H. split; [done|]. by destruct v.
Qed.

Lemma rmapM_ok {A B} (f : A -> completion B) l ys :
  rmapM f l = Ok ys -> Forall2 (fun x y => f x = Ok y) l ys.
Proof.
  revert ys. induction l as [|x l IH]; intros ys; cbn [rmapM].
  - intros [= <-]. constructor.
  - intros (y & Hy & (ys' & Hys & [= <-])%rbind_ok)%rbind_ok. constructor; auto.
Qed.

Lemma resolveSchema_throws doc schema e : resolveSchema doc schema = Throw e -> e = JsTypeError.
Proof. apply resolveSchema_raised. Qed.

Lemma resolve_parameter_raised doc param e :
  resolve_parameter doc param = Throw e -> e = JsTypeError.
Proof.
  unfold resolve_parameter.
  intros [H|(schema & _ & H)]%rbind_throw; [by eapply get_prop_raised|].
  destruct (truthy schema); [|done].
  apply rbind_throw in H as [H|(ref & _ & H)]; [by eapply get_prop_raised|].
  destruct (truthy ref); [|done].
  apply rbind_throw in H as [H|(? & _ & H)]; [by eapply resolveSchema_throws|done].
Qed.

Lemma resolve_media_raised doc entry e :
  resolve_media doc entry = Throw e -> e = JsTypeError.
Proof.
  unfold resolve_media.
  intros [H|(schema & _ & H)]%rbind_throw; [by eapply get_prop_raised|].
  destruct (truthy schema); [|done].
  apply rbind_throw in H as [H|(? & _ & H)]; [by eapply resolveSchema_throws|done].
Qed.

Lemma resolve_content_raised doc x e :
  resolve_content doc x = Throw e -> e = JsTypeError.
Proof.
  unfold resolve_content. destruct (truthy _); [|done].
  intros [H|(? & _ & H)]%rbind_throw; [|done].
  eapply rmapM_raised; [|exact H]. intros y e'. apply resolve_media_raised.
Qed.

Lemma resolve_response_raised doc responses entry e :
  resolve_response doc responses entry = Throw e -> e = JsTypeError.
Proof.
  unfold resolve_response.
  intros [H|(r1 & _ & H)]%rbind_throw; [by eapply resolve_content_raised|].
  apply rbind_throw in H as [H|(? & _ & H)]; [|done].
  destruct (truthy _); [|done].
  apply rbind_throw in H as [H|(? & _ & H)]; [by eapply resolveSchema_throws|done].
Qed.

Lemma pushed_raised v e : pushed v = Throw e -> e = JsTypeError.
Proof. unfold pushed. destruct (truthy v); [apply iterate_raised|done]. Qed.

Lemma entries_raised v e : entries v = Throw e -> e = JsTypeError.
Proof. unfold entries. destruct (nullish v); [by intros [= <-]|done]. Qed.

Lemma resolve_parameter_ok doc param param' :
  resolve_parameter doc param = Ok param' ->
  if schema_is_reference param then
    exists resolved,
      resolveSchema doc (opt_chain param "schema") = Ok resolved
      /\ param' = JObj (spread2 param [("schema", resolved)])
  else param' = param.
Proof.
  unfold resolve_parameter, schema_is_reference.
  intros (schema & [-> _]%get_prop_ok & H)%rbind_ok.
  destruct (truthy (opt_chain param "schema")) eqn:Hs; cbn [andb]; [|by injection H].
  rewrite get_prop_truthy in H by done. cbn [rbind] in H.
  destruct (truthy (opt_chain (opt_chain param "schema") "$ref")); [|by injection H].
  apply rbind_ok in H as (resolved & Hr & [= <-]). by exists resolved.
Qed.

(** *** Reading under a name given by the caller *)

Lemma get_elem_raised builtin v k e : get_elem builtin v k = Throw e -> e = JsTypeError.
Proof.
  destruct v as [| | b | z | s | items | props | x]; cbn [get_elem]; try done;
    try (by intros [= <-]).
  - destruct (_ || _); [apply get_prop_raised|done].
  - destruct x as [p|p name|callable name]; [done|..];
      (destruct (builtin _ k); cbn [answered]; try done; by intros [= <-]).
Qed.

(** What is found under a name is what the value owns there, whenever that
    is truthy. *)
Lemma get_elem_truthy builtin v k :
  truthy (opt_chain v k) = true -> get_elem builtin v k = Ok (opt_chain v k).
Proof.
  unfold opt_chain.
  destruct v as [| | b | z | s | items | props | x];
    cbn [get_prop get_elem get_own member]; try done.
  - destruct (String.eqb k "length") eqn:Hk; cbn [orb]; [done|].
    destruct (has_field k _) eqn:Hf; [done|].
    by rewrite get_field_absent.
  - destruct (String.eqb k "length") eqn:Hk; cbn [orb]; [done|].
    destruct (has_field k _) eqn:Hf; [done|]. by rewrite get_field_absent.
  - destruct (has_field k props) eqn:Hf; [done|]. by rewrite get_field_absent.
Qed.

Local Abbreviation container x :=
  (match x with JArr _ | JObj _ => True | _ => False end).

Lemma inherited_member_flat_value p k : ~ container (inherited_member p k).
Proof.
  destruct (inherited_member_cases p k) as [->|H]; [by intros []|].
  destruct (inherited_member p k); try discriminate H; by intros [].
Qed.

Lemma prototype_member_flat_value p k : ~ container (prototype_member p k).
Proof.
  unfold prototype_member.
  destruct (String.eqb k "__proto__"); [destruct p; by intros []|].
  destruct (_ && _); [by intros []|].
  destruct (bool_decide _); [by intros []|].
  destruct (bool_decide _); by intros [].
Qed.

Lemma chars_field k s : ~ container (get_field k (own_entries (JStr s))).
Proof.
  destruct (get_field_elem k (own_entries (JStr s))) as [->|Hin]; [by intros []|].
  cbn [own_entries] in Hin. apply list_elem_of_lookup in Hin as [i Hi].
  rewrite list_lookup_imap in Hi. destruct (chars s !! i); [|done].
  cbn in Hi. injection Hi as _ Hi. cbn [own_entries]. rewrite <- Hi. by intros [].
Qed.

(** An object or an array of the document is found under a name only where
    an object or an array owns it: the prototype chain and the built-ins
    hold no value of a document. *)
Lemma get_elem_container builtin v k x :
  get_elem builtin v k = Ok x -> container x ->
  opt_chain v k = x /\ container v.
Proof.
  unfold opt_chain.
  destruct v as [| | b | z | s | items | props | n];
    cbn [get_prop get_elem get_own member]; try done.
  - intros [= <-] Hc. by apply inherited_member_flat_value in Hc.
  - intros [= <-] Hc. by apply inherited_member_flat_value in Hc.
  - destruct (String.eqb k "length" || _).
    + destruct (String.eqb k "length"); intros [= <-] Hc; [by destruct Hc|].
      by apply chars_field in Hc.
    + intros [= <-] Hc. by apply inherited_member_flat_value in Hc.
  - destruct (String.eqb k "length" || _) eqn:Hk.
    + by intros [= <-] Hc.
    + intros [= <-] Hc. by apply inherited_member_flat_value in Hc.
  - destruct (has_field k props).
    + by intros [= <-] Hc.
    + intros [= <-] Hc. by apply inherited_member_flat_value in Hc.
  - destruct n as [p|p name|callable name].
    + intros [= <-] Hc. by apply prototype_member_flat_value in Hc.
    + destruct (builtin _ k); cbn [answered]; try done; intros [= <-] Hc; by destruct Hc.
    + destruct (builtin _ k); cbn [answered]; try done; intros [= <-] Hc; by destruct Hc.
Qed.

(** The key of an index starts with a digit. *)
Lemma index_not_word {A B} (f : nat -> A -> B) (l : list A) c r :
  (48 <=? nat_of_ascii c)%nat && (nat_of_ascii c <=? 57)%nat = false ->
  String c r ∉ map fst (imap (fun i x => (index_key i, f i x)) l).
Proof.
  intros Hc ([k x] & Hk & Hin)%(elem_of_map_iff fst). cbn in Hk. subst k.
  apply list_elem_of_lookup in Hin as [i Hi]. rewrite list_lookup_imap in Hi.
  destruct (l !! i); [|done]. injection Hi as Hi _.
  destruct (index_key_digit i) as (c' & r' & Hkey & Hd). rewrite Hkey in Hi.
  injection Hi as -> _. congruence.
Qed.

(** Only an object owns [responses]. *)
Lemma responses_object v :
  nullish (opt_chain v "responses") = false -> exists props, v = JObj props.
Proof.
  unfold opt_chain.
  destruct v as [| | b | z | s | items | props | x]; cbn [get_prop get_own]; try done.
  - change (String.eqb "responses" "length") with false. cbn iota.
    rewrite get_field_absent; [done|]. apply not_true_is_false.
    rewrite has_field_keys. by apply index_not_word.
  - change (String.eqb "responses" "length") with false. cbn iota.
    rewrite get_field_absent; [done|]. apply not_true_is_false.
    rewrite has_field_keys. by apply index_not_word.
  - eauto.
Qed.

Section details.
Variable toLowerCase toUpperCase : string -> string.
Variable builtin : native -> string -> answer.
Variables path method : string.
Variable doc : jsval.
Variable n : normalized.
Hypothesis Hn : normalizeSpec doc = Ok n.

Local Abbreviation details :=
  (getApiDetails_of toLowerCase toUpperCase builtin path method doc).

Lemma getApiDetails_raised e : details = Throw e -> e = JsTypeError.
Proof.
  unfold getApiDetails_of. rewrite Hn. cbn [rbind].
  intros [H|(pi & _ & H)]%rbind_throw; [by eapply get_elem_raised|].
  destruct (negb (truthy pi)); [done|].
  apply rbind_throw in H as [H|(op & _ & H)]; [by eapply get_elem_raised|].
  destruct (negb (truthy op)); [done|].
  apply rbind_throw in H as [H|(? & _ & H)]; [by eapply get_prop_raised|].
  apply rbind_throw in H as [H|(? & _ & H)]; [by eapply pushed_raised|].
  apply rbind_throw in H as [H|(? & _ & H)]; [by eapply get_prop_raised|].
  apply rbind_throw in H as [H|(? & _ & H)]; [by eapply pushed_raised|].
  apply rbind_throw in H as [H|(? & _ & H)].
  { eapply rmapM_raised; [|exact H]. intros y e'. apply resolve_parameter_raised. }
  apply rbind_throw in H as [H|(body & _ & H)]; [by eapply get_prop_raised|].
  apply rbind_throw in H as [H|(? & _ & H)].
  { destruct (truthy body); [|done].
    apply rbind_throw in H as [H|(? & _ & H)]; [by eapply resolve_content_raised|done]. }
  apply rbind_throw in H as [H|(? & _ & H)]; [by eapply get_prop_raised|].
  apply rbind_throw in H as [H|(? & _ & H)]; [by eapply entries_raised|].
  apply rbind_throw in H as [H|(? & _ & H)].
  { eapply rfoldM_raised; [|exact H]. intros s y e'. apply resolve_response_raised. }
  apply rbind_throw in H as [H|(? & _ & H)]; [by eapply get_prop_raised|].
  apply rbind_throw in H as [H|(? & _ & H)]; [by eapply get_prop_raised|].
  apply rbind_throw in H as [H|(? & _ & H)]; [by eapply get_prop_raised|].
  apply rbind_throw in H as [H|(? & _ & H)]; [by eapply get_prop_raised|].
  apply rbind_throw in H as [H|(? & _ & H)]; [by eapply get_prop_raised|done].
Qed.

(** What a call that returns has gone through. *)
Lemma getApiDetails_ok r :
  details = Ok r ->
  exists pathItem,
    get_elem builtin (n_paths n) path = Ok pathItem
    /\ match r with
       | None =>
           truthy pathItem = false
           \/ exists operation,
                get_elem builtin pathItem (toLowerCase method) = Ok operation
                /\ truthy operation = false
       | Some d =>
           truthy pathItem = true
           /\ exists operation,
                get_elem builtin pathItem (toLowerCase method) = Ok operation
                /\ truthy operation = true
                /\ nullish (opt_chain operation "responses") = false
                /\ details_path d = path /\ details_method d = toUpperCase method
                /\ exists fromPath fromOperation,
                     pushed (opt_chain pathItem "parameters") = Ok fromPath
                     /\ pushed (opt_chain operation "parameters") = Ok fromOperation
                     /\ Forall2 (fun p p' => resolve_parameter doc p = Ok p')
                          (fromPath ++ fromOperation) (details_parameters d)
       end.
Proof.
  unfold getApiDetails_of. rewrite Hn. cbn [rbind].
  intros (pathItem & Hpi & H)%rbind_ok. exists pathItem. split; [done|].
  destruct (truthy pathItem) eqn:Ht; cbn [negb] in H; [|injection H as <-; by left].
  apply rbind_ok in H as (operation & Hop & H).
  destruct (truthy operation) eqn:Hto; cbn [negb] in H;
    [|injection H as <-; right; by exists operation].
  rewrite !(get_prop_truthy pathItem), !(get_prop_truthy operation) in H by done.
  cbn [rbind] in H.
  apply rbind_ok in H as (fromPath & HfromPath & H).
  apply rbind_ok in H as (fromOperation & HfromOperation & H).
  apply rbind_ok in H as (resolvedParameters & Hparams & H).
  apply rbind_ok in H as (requestBody & _ & H).
  apply rbind_ok in H as (each & Heach & H).
  apply rbind_ok in H as (responses & _ & [= <-]).
  cbn [details_path details_method details_parameters].
  split; [done|]. exists operation. split; [done|]. split; [done|]. split.
  { unfold entries in Heach.
    by destruct (nullish (opt_chain operation "responses")). }
  split; [done|]. split; [done|].
  exists fromPath, fromOperation. split; [done|]. split; [done|]. by apply rmapM_ok.
Qed.

(** An endpoint that is described is one the document owns. *)
Lemma getApiDetails_own d :
  details = Ok (Some d) ->
  let pathItem := opt_chain (n_paths n) path in
  let operation := opt_chain pathItem (toLowerCase method) in
  truthy pathItem = true /\ truthy operation = true
  /\ nullish (opt_chain operation "responses") = false
  /\ exists fromPath fromOperation,
       pushed (opt_chain pathItem "parameters") = Ok fromPath
       /\ pushed (opt_chain operation "parameters") = Ok fromOperation
       /\ Forall2 (fun p p' => resolve_parameter doc p = Ok p')
            (fromPath ++ fromOperation) (details_parameters d).
Proof.
  intros Hrun. cbv zeta.
  destruct (getApiDetails_ok _ Hrun)
    as (pathItem & Hpi & Ht & operation & Hop & Hto & Hres & _ & _ & Hparams).
  destruct (responses_object _ Hres) as [props ->].
  destruct (get_elem_container _ _ _ _ Hop I) as [Hown Hc].
  destruct (get_elem_container _ _ _ _ Hpi Hc) as [<- _].
  by rewrite Hown.
Qed.
End details.



(** X21. An operation that declares no responses cannot be described: when
    the path item and the operation exist and [operation.responses] is
    undefined or null, [getApiDetails] raises a TypeError (the entries of
    the responses are taken unguarded). *)
Theorem getApiDetails_no_responses toLowerCase toUpperCase builtin path method doc n :
  normalizeSpec doc = Ok n ->
  truthy (opt_chain (n_paths n) path) = true ->
  truthy (opt_chain (opt_chain (n_paths n) path) (toLowerCase method)) = true ->
  nullish (opt_chain (opt_chain (opt_chain (n_paths n) path) (toLowerCase method))
             "responses") = true ->
  getApiDetails_of toLowerCase toUpperCase builtin path method doc = Throw JsTypeError.
Proof.
  intros Hn Hpi Hop Hres.
  destruct (getApiDetails_of toLowerCase toUpperCase builtin path method doc)
    as [r|e] eqn:Hrun.
  - exfalso.
    destruct (getApiDetails_ok _ _ _ _ _ _ _ Hn _ Hrun) as (pathItem & Hfound & Hr).
    rewrite (get_elem_truthy _ _ _ Hpi) in Hfound. injection Hfound as <-.
    destruct r as [d|].
    + destruct Hr as (_ & operation & Hfound & _ & Hdeclared & _).
      rewrite (get_elem_truthy _ _ _ Hop) in Hfound. injection Hfound as <-. congruence.
    + destruct Hr as [Hr|(operation & Hfound & Hr)]; [congruence|].
      rewrite (get_elem_truthy _ _ _ Hop) in Hfound. injection Hfound as <-. congruence.
  - f_equal. by eapply getApiDetails_raised.
Qed.

Lemma getApiDetails_no_responses_witness :
  getApiDetails_of ascii_lower ascii_upper no_members "/lookup" "GET"
    (lookup_doc (JObj [("parameters", JArr [ids_parameter])]))
  = Throw JsTypeError.
Proof.
  destruct (normalizeSpec (lookup_doc (JObj [("parameters", JArr [ids_parameter])])))
    as [n|e] eqn:Hn; [|vm_compute in Hn; discriminate].
  apply (getApiDetails_no_responses ascii_lower ascii_upper no_members "/lookup" "GET" _ n Hn);
    vm_compute in Hn; injection Hn as <-; reflexivity.
Defined.

(** X22. The parameters [getApiDetails] reports are those of the path item
    followed by those of the operation, one for one and in order; each is
    the parameter of the document itself unless its schema is a reference,
    in which case the schema is replaced by its resolution. A reference
    further inside the schema of a parameter stays as it is. *)
Theorem getApiDetails_parameters toLowerCase toUpperCase builtin path method doc n d :
  normalizeSpec doc = Ok n ->
  getApiDetails_of toLowerCase toUpperCase builtin path method doc = Ok (Some d) ->
  let pathItem := opt_chain (n_paths n) path in
  let operation := opt_chain pathItem (toLowerCase method) in
  exists fromPath fromOperation,
    pushed (opt_chain pathItem "parameters") = Ok fromPath
    /\ pushed (opt_chain operation "parameters") = Ok fromOperation
    /\ Forall2
         (fun p p' =>
            if schema_is_reference p then
              exists resolved,
                resolveSchema doc (opt_chain p "schema") = Ok resolved
                /\ p' = JObj (spread2 p [("schema", resolved)])
            else p' = p)
         (fromPath ++ fromOperation) (details_parameters d).
Proof.
  intros Hn Hrun. cbv zeta.
  destruct (getApiDetails_own _ _ _ _ _ _ _ Hn _ Hrun)
    as (_ & _ & _ & fromPath & fromOperation & H1 & H2 & Hall).
  exists fromPath, fromOperation. split; [done|]. split; [done|].
  eapply Forall2_impl; [exact Hall|]. intros p p'. apply resolve_parameter_ok.
Qed.

Lemma getApiDetails_parameters_witness :
  exists d,
    getApiDetails_of ascii_lower ascii_upper no_members "/lookup" "get"
      (lookup_doc (JObj [("parameters", JArr [ids_parameter]);
                         ("responses", described "ok")]))
    = Ok (Some d)
    /\ details_parameters d = [ids_parameter].
Proof.
  set (doc := lookup_doc (JObj [("parameters", JArr [ids_parameter]);
                                ("responses", described "ok")])).
  destruct (getApiDetails_of ascii_lower ascii_upper no_members "/lookup" "get" doc)
    as [[d|]|e] eqn:Hrun; [|vm_compute in Hrun; discriminate..].
  destruct (normalizeSpec doc) as [n|e] eqn:Hn; [|vm_compute in Hn; discriminate].
  destruct (getApiDetails_parameters ascii_lower ascii_upper no_members "/lookup" "get"
              doc n d Hn Hrun)
    as (fromPath & fromOperation & H1 & H2 & Hall).
  exists d. split; [reflexivity|].
  vm_compute in Hn. injection Hn as <-.
  vm_compute in H1. injection H1 as <-. vm_compute in H2. injection H2 as <-.
  apply Forall2_cons_inv_l in Hall as (p' & rest & Hp & Hrest & ->).
  apply Forall2_nil_inv_l in Hrest as ->. cbn in Hp. by rewrite Hp.
Defined.

(** ** Details of a model *)




(** ** Trying an endpoint *)

Lemma has_field_assign {V} k (target source : list (string * V)) :
  has_field k (assign target source) = has_field k target || has_field k source.
Proof.
  unfold assign. revert target.
  induction source as [|[k' v] source IH]; intros target; cbn [fold_left fst snd].
  - by rewrite orb_false_r.
  - rewrite IH, has_field_set_field.
    change (has_field k ((k', v) :: source)) with (String.eqb k' k || has_field k source).
    by destruct (has_field k target), (String.eqb k' k), (has_field k source).
Qed.

Section trying.
Variable E : Env.
Variable toUpperCase : string -> string.
Variable url_origin : string -> option string.
Variable search_params : jsval -> completion string.
Variable json_stringify : jsval -> string.
Variable fetch : string -> RequestInit -> fetched.
Variable now : nat -> Z.
Variable body_unusable : string.

Local Abbreviation prepared :=
  (checkApi_request E toUpperCase url_origin search_params json_stringify).

Lemma checkApi_request_ok cfg request doc target init :
  prepared cfg request doc = Ok (target, init) ->
  init_method init = toUpperCase (request_method request)
  /\ init_headers init
     = authenticated E cfg
         (assign [("Content-Type", JStr "application/json")]
            (own_entries (request_headers request)))
  /\ (init_body init = None
      <-> truthy (request_body request) = false
          \/ toUpperCase (request_method request) ∈ ["GET"; "HEAD"]).
Proof.
  unfold checkApi_request.
  intros (n & _ & (baseUrl & _ & (base & _ & H)%rbind_ok)%rbind_ok)%rbind_ok.
  apply rbind_ok in H as (fullUrl & _ & [= <- <-]).
  cbn [init_method init_headers init_body]. split; [done|]. split; [done|].
  destruct (truthy (request_body request)); cbn [andb].
  - case_bool_decide; cbn [negb]; split; try done; [by right|].
    intros [?|?]; done.
  - split; [by left|done].
Qed.

Lemma checkApi_answer_raised target outcome e :
  checkApi_answer now body_unusable target outcome = Throw e ->
  exists readings error, e = request_failed now readings error.
Proof.
  unfold checkApi_answer. destruct outcome as [response|error]; [|intros [= <-]; eauto].
  destruct (includes _ _).
  - destruct (response_text response), (response_json response); try done;
      intros [= <-]; eauto.
  - destruct (response_text response); [done|]. intros [= <-]. eauto.
Qed.
End trying.

(** X24. How [checkApi] authenticates, and how that differs from fetching
    the document. The Authorization header it sends is "Bearer <token>" when
    a token is configured and else "Basic ..." when user and password are,
    replacing one the caller supplied; the configured cookies are sent only
    when neither applies. So with a token and cookies configured, and no
    login URL, [buildAxiosConfig] sends both for the document while
    [checkApi] sends the token alone. *)
Theorem checkApi_credentials E toUpperCase url_origin search_params json_stringify
    cfg request doc target init w :
  checkApi_request E toUpperCase url_origin search_params json_stringify cfg request doc
  = Ok (target, init) ->
  (present (token cfg) = true ->
   get_field "Authorization" (init_headers init) = JStr ("Bearer " ++ text (token cfg)))
  /\ (present (token cfg) = false -> present (user cfg) && present (password cfg) = true ->
      get_field "Authorization" (init_headers init)
      = JStr ("Basic " ++ base64 E (text (user cfg) ++ ":" ++ text (password cfg))))
  /\ has_field "Cookie" (init_headers init)
     = has_field "Cookie" (own_entries (request_headers request))
       || (negb (present (token cfg))
           && negb (present (user cfg) && present (password cfg))
           && present (cookies cfg))
  /\ (present (token cfg) = true -> present (cookies cfg) = true ->
      present (loginUrl cfg) = false ->
      exists sent,
        fst (buildAxiosConfig E cfg w) = Done sent
        /\ authorization sent = Some ("Bearer " ++ text (token cfg))
        /\ cookie sent = cookies cfg).
Proof.
  intros Hp. destruct (checkApi_request_ok _ _ _ _ _ _ _ _ _ _ Hp) as (_ & -> & _).
  unfold authenticated. split; [|split; [|split]].
  - intros ->. by rewrite get_field_set_field_eq.
  - intros -> ->. by rewrite get_field_set_field_eq.
  - destruct (present (token cfg)); cbn [negb andb].
    { rewrite has_field_set_field, has_field_assign. cbn. by rewrite !orb_false_r. }
    destruct (present (user cfg) && present (password cfg)); cbn [negb andb].
    { rewrite has_field_set_field, has_field_assign. cbn. by rewrite !orb_false_r. }
    destruct (present (cookies cfg)).
    + rewrite has_field_set_field, has_field_assign. cbn. by rewrite !orb_true_r.
    + rewrite has_field_assign. cbn. by rewrite orb_false_r.
  - intros Ht Hc Hl. exists (request_for E cfg). rewrite buildAxiosConfig_run.
    split; [done|]. unfold request_for. cbn [authorization cookie].
    unfold logs_in. rewrite Ht, Hl. cbn [andb present]. by rewrite Hc.
Qed.

Lemma checkApi_credentials_witness :
  let E := Scenario.remote (NoReply "unused") (NoReply "unused") in
  exists target init sent,
    checkApi_request E ascii_upper (fun _ => Some "https://api.example.com")
      (fun _ => Ok "") (fun _ => "{}") token_and_cookies list_pets petstore
    = Ok (target, init)
    /\ target = "https://api.example.com/pets"
    /\ init_headers init
       = [("Content-Type", JStr "application/json");
          ("Authorization", JStr "Bearer secret")]
    /\ init_body init = None
    /\ fst (buildAxiosConfig E token_and_cookies Scenario.empty_world) = Done sent
    /\ cookie sent = Some "session=1".
Proof.
  intros E.
  destruct (checkApi_request E ascii_upper (fun _ => Some "https://api.example.com")
              (fun _ => Ok "") (fun _ => "{}") token_and_cookies list_pets petstore)
    as [[target init]|e] eqn:Hp; [|vm_compute in Hp; discriminate].
  destruct (checkApi_credentials _ _ _ _ _ _ _ _ _ _ Scenario.empty_world Hp)
    as (_ & _ & _ & Hsent).
  destruct (Hsent eq_refl eq_refl eq_refl) as (sent & Hrun & _ & Hcookie).
  exists target, init, sent. split; [reflexivity|].
  vm_compute in Hp. injection Hp as <- <-.
  repeat split; [exact Hrun|exact Hcookie].
Defined.

(** X25. From [fetch] on, whatever goes wrong is raised as one error,
    "Request failed after <n>ms: <cause>": a request that gets no answer, a
    body that cannot be read. In particular a response that announces JSON
    but whose body does not parse is not returned as text: the body was used
    up by the attempt to parse it, so [checkApi] raises. When the body parses,
    the parsed value is the data returned, along with the address that was
    requested. *)
Theorem checkApi_outcome E toUpperCase url_origin search_params json_stringify fetch now
    body_unusable cfg request doc target init :
  checkApi_request E toUpperCase url_origin search_params json_stringify cfg request doc
  = Ok (target, init) ->
  let run := checkApi_of E toUpperCase url_origin search_params json_stringify fetch now
               body_unusable cfg request doc in
  (forall e, run = Throw e -> exists readings error, e = request_failed now readings error)
  /\ (forall error, fetch target init = Unanswered error ->
        run = Throw (request_failed now 1 error))
  /\ (forall response,
        fetch target init = Answered response ->
        includes (default "" (header_value "content-type" (response_headers response)))
          "application/json" = true ->
        match response_text response, response_json response with
        | inl _, Some parsed =>
            exists answer, run = Ok answer /\ check_data answer = parsed
                           /\ check_requestUrl answer = target
        | _, _ => run = Throw (request_failed now 2 body_unusable)
        end).
Proof.
  intros Hp. cbv zeta. unfold checkApi_of. rewrite Hp. cbn [rbind fst snd].
  split; [|split].
  - intros e. apply checkApi_answer_raised.
  - by intros error ->.
  - intros response -> Hjson. unfold checkApi_answer. rewrite Hjson.
    destruct (response_text response), (response_json response); try done.
    eexists. by split.
Qed.

Lemma checkApi_outcome_witness :
  let E := Scenario.remote (NoReply "unused") (NoReply "unused") in
  checkApi_of E ascii_upper (fun _ => Some "https://api.example.com")
    (fun _ => Ok "") (fun _ => "{}")
    (fun _ _ => Answered (json_response "<html>Bad gateway</html>" None))
    (fun n => Z.of_nat (40 * n)) "TypeError: Body is unusable"
    token_and_cookies list_pets petstore
  = Throw (JsError "Request failed after 80ms: TypeError: Body is unusable").
Proof.
  intros E.
  destruct (checkApi_request E ascii_upper (fun _ => Some "https://api.example.com")
              (fun _ => Ok "") (fun _ => "{}") token_and_cookies list_pets petstore)
    as [[target init]|e] eqn:Hp; [|vm_compute in Hp; discriminate].
  destruct (checkApi_outcome E ascii_upper (fun _ => Some "https://api.example.com")
              (fun _ => Ok "") (fun _ => "{}")
              (fun _ _ => Answered (json_response "<html>Bad gateway</html>" None))
              (fun n => Z.of_nat (40 * n)) "TypeError: Body is unusable"
              token_and_cookies list_pets petstore target init Hp) as (_ & _ & Hjson).
  exact (Hjson (json_response "<html>Bad gateway</html>" None) eq_refl eq_refl).
Defined.

End ClientFacts.
